(** * Lua 5.5 core (annotated sources): a shallow embedding of the value
    representation, raw arithmetic, numeral conversion, UTF-8 escapes,
    the GC debt counter, the stack part of the C API and the string table,
    with the properties stated about them; then of the GC parameters,
    chunk identifiers, the formatting buffer, number printing and reading
    back, stack manipulation and lua_gc in the C API, the C-call counter
    and the list of CallInfo objects, with further properties of that
    code. *)

From Stdlib Require Import ZArith Lia Bool Ascii String SpecFloat.
From stdpp Require Import prelude gmap.

Local Open Scope Z_scope.

(** ** Errors raised through [L] (luaG_opinterror and friends long-jump). *)

Inductive result (A : Type) : Type :=
| Ret (a : A)
| Raise (msg : string).
Arguments Ret {A} a.
Arguments Raise {A} msg.

(** ** llimits.h / luaconf.h: integer types *)

Module Limits.

(** [lua_Integer] is [long long], [lua_Unsigned] its unsigned twin. *)
Definition NBITS : Z := 64.
Definition LUA_MAXINTEGER : Z := 2 ^ 63 - 1.
Definition LUA_MININTEGER : Z := - 2 ^ 63.
Definition MAX_UNSIGNED : Z := 2 ^ 64 - 1.

(** [#define l_castS2U(i) ((lua_Unsigned)(i))] *)
Definition l_castS2U (i : Z) : Z := i mod 2 ^ 64.

(** [#define l_castU2S(i) ((lua_Integer)(i))] *)
Definition l_castU2S (u : Z) : Z :=
  let u := u mod 2 ^ 64 in
  if u <? 2 ^ 63 then u else u - 2 ^ 64.

(** The [lua_Integer] that stands for [z] in two's complement: the
    value of the 64 low bits of [z], read as a signed number. *)
Definition wrap_int (z : Z) : Z := (z + 2 ^ 63) mod 2 ^ 64 - 2 ^ 63.

(** Arithmetic on [lua_Unsigned] wraps modulo 2^64. *)
Definition uadd (a b : Z) : Z := (a + b) mod 2 ^ 64.
Definition usub (a b : Z) : Z := (a - b) mod 2 ^ 64.
Definition umul (a b : Z) : Z := (a * b) mod 2 ^ 64.

(** [l_mem] is [ptrdiff_t]; [MAX_LMEM] is its largest value. *)
Definition MAX_LMEM : Z := 2 ^ 63 - 1.
Definition MIN_LMEM : Z := - 2 ^ 63.

(** Signed 64-bit result of an [l_mem] computation, wrap-around written out. *)
Definition wrap_lmem (z : Z) : Z := (z + 2 ^ 63) mod 2 ^ 64 - 2 ^ 63.

(** [l_uint32] and [unsigned int] arithmetic. *)
Definition wrap32 (z : Z) : Z := z mod 2 ^ 32.

(** [cast_char]: the byte kept when a value is stored in a [char]. *)
Definition cast_char (z : Z) : Z := z mod 256.

End Limits.

(** ** lua.h: basic types and operators *)

Module Lua.

Definition LUA_TNONE : Z := -1.
Definition LUA_TNIL : Z := 0.
Definition LUA_TBOOLEAN : Z := 1.
Definition LUA_TLIGHTUSERDATA : Z := 2.
Definition LUA_TNUMBER : Z := 3.
Definition LUA_TSTRING : Z := 4.
Definition LUA_TTABLE : Z := 5.
Definition LUA_TFUNCTION : Z := 6.
Definition LUA_TUSERDATA : Z := 7.
Definition LUA_TTHREAD : Z := 8.

Definition LUA_OPADD : Z := 0.
Definition LUA_OPSUB : Z := 1.
Definition LUA_OPMUL : Z := 2.
Definition LUA_OPMOD : Z := 3.
Definition LUA_OPPOW : Z := 4.
Definition LUA_OPDIV : Z := 5.
Definition LUA_OPIDIV : Z := 6.
Definition LUA_OPBAND : Z := 7.
Definition LUA_OPBOR : Z := 8.
Definition LUA_OPBXOR : Z := 9.
Definition LUA_OPSHL : Z := 10.
Definition LUA_OPSHR : Z := 11.
Definition LUA_OPUNM : Z := 12.
Definition LUA_OPBNOT : Z := 13.

(** [#define LUA_REGISTRYINDEX (-(INT_MAX / 2 + 1000))] *)
Definition INT_MAX : Z := 2 ^ 31 - 1.
Definition LUA_REGISTRYINDEX : Z := - (INT_MAX / 2 + 1000).

End Lua.

(** ** lobject.h: tagged values *)

Module Object.
Import Lua.

(** [lua_Number] is an IEEE 754 binary64 [double]. *)
Definition lua_Number : Type := spec_float.
Definition prec : Z := 53.
Definition emax : Z := 1024.

(** [union Value]: one constructor per member. *)
Inductive Value : Type :=
| V_gc (p : Z)            (* struct GCObject *gc *)
| V_p (p : Z)             (* void *p *)
| V_f (f : Z)             (* lua_CFunction f *)
| V_i (i : Z)             (* lua_Integer i *)
| V_n (n : lua_Number)    (* lua_Number n *)
| V_ub (b : Z).           (* lu_byte ub *)

(** [struct TValue { Value value_; lu_byte tt_; }] *)
Record TValue : Type := mkTValue { value_ : Value; tt_ : Z }.

Definition makevariant (t v : Z) : Z := Z.lor t (Z.shiftl v 4).

Definition rawtt (o : TValue) : Z := tt_ o.
Definition novariant (t : Z) : Z := Z.land t 15.
Definition withvariant (t : Z) : Z := Z.land t 63.
Definition ttypetag (o : TValue) : Z := withvariant (rawtt o).
Definition ttype (o : TValue) : Z := novariant (rawtt o).

Definition checktag (o : TValue) (t : Z) : bool := rawtt o =? t.
Definition checktype (o : TValue) (t : Z) : bool := ttype o =? t.

Definition settt_ (o : TValue) (t : Z) : TValue :=
  {| value_ := value_ o; tt_ := t |}.

(** [setobj(L, obj1, obj2)]: copies the payload and the tag. *)
Definition setobj (obj1 obj2 : TValue) : TValue :=
  {| value_ := value_ obj2; tt_ := tt_ obj2 |}.

Definition LUA_VNIL : Z := makevariant LUA_TNIL 0.
Definition LUA_VEMPTY : Z := makevariant LUA_TNIL 1.
Definition LUA_VABSTKEY : Z := makevariant LUA_TNIL 2.
Definition LUA_VNOTABLE : Z := makevariant LUA_TNIL 3.

Definition ttisnil (v : TValue) : bool := checktype v LUA_TNIL.
Definition ttisstrictnil (o : TValue) : bool := checktag o LUA_VNIL.
Definition setnilvalue (obj : TValue) : TValue := settt_ obj LUA_VNIL.

Definition LUA_VFALSE : Z := makevariant LUA_TBOOLEAN 0.
Definition LUA_VTRUE : Z := makevariant LUA_TBOOLEAN 1.

Definition ttisboolean (o : TValue) : bool := checktype o LUA_TBOOLEAN.
Definition ttisfalse (o : TValue) : bool := checktag o LUA_VFALSE.
Definition ttistrue (o : TValue) : bool := checktag o LUA_VTRUE.

(** [#define l_isfalse(o) (ttisfalse(o) || ttisnil(o))] *)
Definition l_isfalse (o : TValue) : bool := ttisfalse o || ttisnil o.

Definition setbfvalue (obj : TValue) : TValue := settt_ obj LUA_VFALSE.
Definition setbtvalue (obj : TValue) : TValue := settt_ obj LUA_VTRUE.

Definition BIT_ISCOLLECTABLE : Z := Z.shiftl 1 6.
Definition iscollectable (o : TValue) : bool :=
  negb (Z.land (rawtt o) BIT_ISCOLLECTABLE =? 0).
Definition ctb (t : Z) : Z := Z.lor t BIT_ISCOLLECTABLE.

Definition LUA_VNUMINT : Z := makevariant LUA_TNUMBER 0.
Definition LUA_VNUMFLT : Z := makevariant LUA_TNUMBER 1.

Definition ttisnumber (o : TValue) : bool := checktype o LUA_TNUMBER.
Definition ttisfloat (o : TValue) : bool := checktag o LUA_VNUMFLT.
Definition ttisinteger (o : TValue) : bool := checktag o LUA_VNUMINT.

(** [fltvalue] and [ivalue] read the union member the tag announces. *)
Definition fltvalue (o : TValue) : lua_Number :=
  match value_ o with V_n n => n | _ => S754_zero false end.
Definition ivalue (o : TValue) : Z :=
  match value_ o with V_i i => i | _ => 0 end.

Definition setfltvalue (obj : TValue) (x : lua_Number) : TValue :=
  {| value_ := V_n x; tt_ := LUA_VNUMFLT |}.
Definition setivalue (obj : TValue) (x : Z) : TValue :=
  {| value_ := V_i x; tt_ := LUA_VNUMINT |}.

Definition LUA_VSHRSTR : Z := makevariant LUA_TSTRING 0.
Definition LUA_VLNGSTR : Z := makevariant LUA_TSTRING 1.

Definition ttisstring (o : TValue) : bool := checktype o LUA_TSTRING.
Definition ttisshrstring (o : TValue) : bool := checktag o (ctb LUA_VSHRSTR).
Definition ttislngstring (o : TValue) : bool := checktag o (ctb LUA_VLNGSTR).

(** [setsvalue(L, obj, x)]: the tag is the string's own, made collectable. *)
Definition setsvalue (obj : TValue) (x : Z) (x_tt : Z) : TValue :=
  {| value_ := V_gc x; tt_ := ctb x_tt |}.

Definition LUA_VLCL : Z := makevariant LUA_TFUNCTION 0.
Definition LUA_VLCF : Z := makevariant LUA_TFUNCTION 1.
Definition LUA_VCCL : Z := makevariant LUA_TFUNCTION 2.

Definition ttisCclosure (o : TValue) : bool := checktag o (ctb LUA_VCCL).
Definition ttislcf (o : TValue) : bool := checktag o LUA_VLCF.

(** [union StackValue]: a [TValue] sharing its storage with the
    [tbclist.delta] field. *)
Record StackValue : Type := mkStackValue { val : TValue; delta : Z }.

Definition s2v (o : StackValue) : TValue := val o.

(** [setobj2s(L, o1, o2)]: only the [TValue] fields of the slot change. *)
Definition setobj2s (o1 : StackValue) (o2 : TValue) : StackValue :=
  {| val := setobj (val o1) o2; delta := delta o1 |}.

Definition UTF8BUFFSZ : Z := 8.

End Object.

(** ** C arithmetic on [double] (luaconf.h, llimits.h, <math.h>) *)

Module Num.
Import Limits Object.

(** Functions of the C library that only occur as opaque calls. *)
Class LibM : Type := {
  l_mathop_pow : lua_Number -> lua_Number -> lua_Number;
  l_mathop_fmod : lua_Number -> lua_Number -> lua_Number
}.

(** A C library without [pow] and [fmod] (both answer NaN), to run the
    operations that do not call them. *)
Definition no_libm : LibM :=
  {| l_mathop_pow := fun _ _ => S754_nan; l_mathop_fmod := fun _ _ => S754_nan |}.

Definition num_add : lua_Number -> lua_Number -> lua_Number := SFadd prec emax.
Definition num_sub : lua_Number -> lua_Number -> lua_Number := SFsub prec emax.
Definition num_mul : lua_Number -> lua_Number -> lua_Number := SFmul prec emax.
Definition num_div : lua_Number -> lua_Number -> lua_Number := SFdiv prec emax.
Definition num_unm : lua_Number -> lua_Number := SFopp.
Definition num_eq : lua_Number -> lua_Number -> bool := SFeqb.
Definition num_lt : lua_Number -> lua_Number -> bool := SFltb.
Definition num_le : lua_Number -> lua_Number -> bool := SFleb.

(** [(lua_Number)(i)]: conversion of an integer, round to nearest even. *)
Definition cast_num (i : Z) : lua_Number := binary_normalize prec emax i 0 false.

(** The float whose value is the integer [z], [0 < z <= 2^53], with the
    sign [s]: the mantissa is aligned on 53 bits. *)
Definition float_of_small_int (s : bool) (z : Z) : lua_Number :=
  let d := Zdigits2 z in
  if d <=? prec
  then S754_finite s (Z.to_pos (z * 2 ^ (prec - d))) (d - prec)
  else S754_finite s (Z.to_pos (z / 2 ^ (d - prec))) (d - prec).

(** [floor] of <math.h>: the largest integral value not above [x]. *)
Definition l_floor (x : lua_Number) : lua_Number :=
  match x with
  | S754_finite s m e =>
      if 0 <=? e then x
      else
        let d := 2 ^ (- e) in
        let q := Zpos m / d in
        if Zpos m mod d =? 0 then x
        else if s then float_of_small_int true (q + 1)
        else if q =? 0 then S754_zero false
        else float_of_small_int false q
  | _ => x
  end.

(** [(LUA_INTEGER)(n)]: conversion to integer truncates toward zero. *)
Definition cast_integer (n : lua_Number) : Z :=
  match n with
  | S754_finite s m e =>
      if 0 <=? e then cond_Zopp s (Zpos m * 2 ^ e)
      else cond_Zopp s (Zpos m / 2 ^ (- e))
  | _ => 0
  end.

(** llimits.h, [lua_numbertointeger(n, p)]: the two range tests
    [n >= (LUA_NUMBER)(LUA_MININTEGER)] and
    [n < -(LUA_NUMBER)(LUA_MININTEGER)], then the store of
    [(LUA_INTEGER)(n)] through [p]. *)
Definition lua_numbertointeger (n : lua_Number) : option Z :=
  if num_le (cast_num LUA_MININTEGER) n
     && num_lt n (num_unm (cast_num LUA_MININTEGER))
  then Some (cast_integer n)
  else None.

(** llimits.h: [luai_numidiv], [luai_numpow], [luai_nummod]. *)
Definition luai_numidiv (a b : lua_Number) : lua_Number := l_floor (num_div a b).

Definition luai_numpow `{LibM} (a b : lua_Number) : lua_Number :=
  if num_eq b (cast_num 2) then num_mul a a else l_mathop_pow a b.

Definition luai_nummod `{LibM} (a b : lua_Number) : lua_Number :=
  let m := l_mathop_fmod a b in
  if (if num_lt (cast_num 0) m then num_lt b (cast_num 0)
      else num_lt m (cast_num 0) && num_lt (cast_num 0) b)
  then num_add m b
  else m.

(** The integer a float stands for, when its value is one. *)
Definition float_exact_int (x : lua_Number) : option Z :=
  match x with
  | S754_zero _ => Some 0
  | S754_finite s m e =>
      if 0 <=? e then Some (cond_Zopp s (Zpos m * 2 ^ e))
      else if Zpos m mod 2 ^ (- e) =? 0
           then Some (cond_Zopp s (Zpos m / 2 ^ (- e)))
           else None
  | _ => None
  end.

End Num.

(** ** lvm.h: conversions and integer operators *)

Module VM.
Import Limits Lua Object Num.

(** Rounding modes for float->integer coercion. *)
Inductive F2Imod : Type :=
| F2Ieq      (* no rounding; accepts only integral values *)
| F2Ifloor   (* takes the floor of the number *)
| F2Iceil.   (* takes the ceiling of the number *)

Definition LUA_FLOORN2I : F2Imod := F2Ieq.

(** [#define intop(op, v1, v2) l_castU2S(l_castS2U(v1) op l_castS2U(v2))] *)
Definition intop (op : Z -> Z -> Z) (v1 v2 : Z) : Z :=
  l_castU2S (op (l_castS2U v1) (l_castS2U v2)).

(** Modelled from the spec: luaV_flttointeger of lvm.c, which is absent.
    By section 3.1, mode [F2Ieq] accepts only exact integral floats,
    [F2Ifloor] rounds toward minus infinity, [F2Iceil] toward plus
    infinity; the range test is [lua_numbertointeger] of llimits.h. *)
Definition luaV_flttointeger (n : lua_Number) (mode : F2Imod) : option Z :=
  let f := l_floor n in
  if negb (num_eq n f) then
    match mode with
    | F2Ieq => None
    | F2Iceil => lua_numbertointeger (num_add f (cast_num 1))
    | F2Ifloor => lua_numbertointeger f
    end
  else lua_numbertointeger f.

(** Modelled from the spec: luaV_tointegerns of lvm.c, which is absent.
    lvm.h: like [luaV_tointeger] without the string coercion, so only
    numbers convert. *)
Definition luaV_tointegerns (obj : TValue) (mode : F2Imod) : option Z :=
  if ttisfloat obj then luaV_flttointeger (fltvalue obj) mode
  else if ttisinteger obj then Some (ivalue obj)
  else None.

(** [tonumberns(o, n)]: float as is, integer converted, else failure. *)
Definition tonumberns (o : TValue) : option lua_Number :=
  if ttisfloat o then Some (fltvalue o)
  else if ttisinteger o then Some (cast_num (ivalue o))
  else None.

(** [tointegerns(o, i)] *)
Definition tointegerns (o : TValue) : option Z :=
  if ttisinteger o then Some (ivalue o)
  else luaV_tointegerns o LUA_FLOORN2I.

(** Modelled from the spec: luaV_idiv of lvm.c, which is absent. Failed
    arithmetic is a runtime error (section 7); lvm.h declares the function
    with the state [L] and documents that it computes the integer division
    [x // y] and raises an error through [L] on a division by zero. The
    quotient is rounded toward minus infinity and wraps like every integer
    operation (section 3.1). *)
Definition luaV_idiv (m n : Z) : result Z :=
  if n =? 0 then Raise "attempt to perform 'n//0'"
  else Ret (l_castU2S (m / n)).

(** Modelled from the spec: luaV_mod of lvm.c, which is absent. Failed
    arithmetic is a runtime error (section 7); lvm.h declares the function
    with the state [L] and documents that it handles negative operands and
    the division by zero. The remainder has the sign of the divisor (floor
    division). *)
Definition luaV_mod (m n : Z) : result Z :=
  if n =? 0 then Raise "attempt to perform 'n%%0'"
  else Ret (m mod n).

(** Modelled from the spec: luaV_shiftl of lvm.c, which is absent. lvm.h:
    shift left of [x] by [y], a shift right when [y] is negative; shifts
    are logical and a count of NBITS or more gives zero. *)
Definition luaV_shiftl (x y : Z) : Z :=
  if y <? 0 then
    if y <=? - NBITS then 0
    else l_castU2S (Z.shiftr (l_castS2U x) (- y))
  else
    if NBITS <=? y then 0
    else l_castU2S (Z.shiftl (l_castS2U x) y mod 2 ^ 64).

(** [#define luaV_shiftr(x, y) luaV_shiftl(x, intop(-, 0, y))] *)
Definition luaV_shiftr (x y : Z) : Z := luaV_shiftl x (intop usub 0 y).

(** Modelled from the spec: luaV_modf of lvm.c, which is absent; the
    float modulo is [luai_nummod] of llimits.h. *)
Definition luaV_modf `{LibM} (m n : lua_Number) : lua_Number := luai_nummod m n.

End VM.

(** ** lobject.c: raw arithmetic *)

Module LObject.
Import Limits Lua Object Num VM.

(** [static lua_Integer intarith(lua_State *L, int op, lua_Integer v1,
    lua_Integer v2)] *)
Definition intarith (op : Z) (v1 v2 : Z) : result Z :=
  match op with
  | 0 (* LUA_OPADD *) => Ret (intop uadd v1 v2)
  | 1 (* LUA_OPSUB *) => Ret (intop usub v1 v2)
  | 2 (* LUA_OPMUL *) => Ret (intop umul v1 v2)
  | 3 (* LUA_OPMOD *) => luaV_mod v1 v2
  | 6 (* LUA_OPIDIV *) => luaV_idiv v1 v2
  | 7 (* LUA_OPBAND *) => Ret (intop Z.land v1 v2)
  | 8 (* LUA_OPBOR *) => Ret (intop Z.lor v1 v2)
  | 9 (* LUA_OPBXOR *) => Ret (intop Z.lxor v1 v2)
  | 10 (* LUA_OPSHL *) => Ret (luaV_shiftl v1 v2)
  | 11 (* LUA_OPSHR *) => Ret (luaV_shiftr v1 v2)
  | 12 (* LUA_OPUNM *) => Ret (intop usub 0 v1)
  | 13 (* LUA_OPBNOT *) => Ret (intop Z.lxor MAX_UNSIGNED v1)
  | _ => Ret 0 (* lua_assert(0) *)
  end.

(** [static lua_Number numarith(lua_State *L, int op, lua_Number v1,
    lua_Number v2)] *)
Definition numarith `{LibM} (op : Z) (v1 v2 : lua_Number) : lua_Number :=
  match op with
  | 0 (* LUA_OPADD *) => num_add v1 v2
  | 1 (* LUA_OPSUB *) => num_sub v1 v2
  | 2 (* LUA_OPMUL *) => num_mul v1 v2
  | 5 (* LUA_OPDIV *) => num_div v1 v2
  | 4 (* LUA_OPPOW *) => luai_numpow v1 v2
  | 6 (* LUA_OPIDIV *) => luai_numidiv v1 v2
  | 12 (* LUA_OPUNM *) => num_unm v1
  | 3 (* LUA_OPMOD *) => luaV_modf v1 v2
  | _ => cast_num 0 (* lua_assert(0) *)
  end.

(** [int luaO_rawarith(lua_State *L, int op, const TValue *p1,
    const TValue *p2, TValue *res)]: the returned pair is the C result
    and the contents of [res] on return. *)
Definition luaO_rawarith `{LibM} (op : Z) (p1 p2 res : TValue)
  : result (Z * TValue) :=
  match op with
  | 7 | 8 | 9 | 10 | 11 | 13 =>
      (* operate only on integers *)
      match tointegerns p1, tointegerns p2 with
      | Some i1, Some i2 =>
          match intarith op i1 i2 with
          | Ret r => Ret (1, setivalue res r)
          | Raise msg => Raise msg
          end
      | _, _ => Ret (0, res)
      end
  | 5 | 4 =>
      (* operate only on floats *)
      match tonumberns p1, tonumberns p2 with
      | Some n1, Some n2 => Ret (1, setfltvalue res (numarith op n1 n2))
      | _, _ => Ret (0, res)
      end
  | _ =>
      (* other operations *)
      if ttisinteger p1 && ttisinteger p2 then
        match intarith op (ivalue p1) (ivalue p2) with
        | Ret r => Ret (1, setivalue res r)
        | Raise msg => Raise msg
        end
      else
        match tonumberns p1, tonumberns p2 with
        | Some n1, Some n2 => Ret (1, setfltvalue res (numarith op n1 n2))
        | _, _ => Ret (0, res)
        end
  end.

(** The operands [luaO_rawarith] calls numbers: integers and floats. *)
Definition is_number (p : TValue) : Prop :=
  ttisinteger p = true \/ ttisfloat p = true.

(** The bitwise operators, first group of [luaO_rawarith]. *)
Definition bitwise_op (op : Z) : Prop :=
  op = LUA_OPBAND \/ op = LUA_OPBOR \/ op = LUA_OPBXOR \/
  op = LUA_OPSHL \/ op = LUA_OPSHR \/ op = LUA_OPBNOT.

End LObject.

(** ** lctype.h / lctype.c: character classes (ASCII tables) *)

Module Ctype.

Definition ALPHABIT : Z := 0.
Definition DIGITBIT : Z := 1.
Definition PRINTBIT : Z := 2.
Definition SPACEBIT : Z := 3.
Definition XDIGITBIT : Z := 4.

Definition MASK (B : Z) : Z := Z.shiftl 1 B.

(** [const lu_byte luai_ctype_[UCHAR_MAX + 2]], with the default
    [NONA = 0x00]. *)
Definition luai_ctype_ : list Z :=
  0 (* EOZ *) ::
  0 :: 0 :: 0 :: 0 :: 0 :: 0 :: 0 :: 0 :: 0 :: 8 :: 8 :: 8 :: 8 :: 8 :: 0 :: 0 :: (* 0. *)
  0 :: 0 :: 0 :: 0 :: 0 :: 0 :: 0 :: 0 :: 0 :: 0 :: 0 :: 0 :: 0 :: 0 :: 0 :: 0 :: (* 1. *)
  12 :: 4 :: 4 :: 4 :: 4 :: 4 :: 4 :: 4 :: 4 :: 4 :: 4 :: 4 :: 4 :: 4 :: 4 :: 4 :: (* 2. *)
  22 :: 22 :: 22 :: 22 :: 22 :: 22 :: 22 :: 22 :: 22 :: 22 :: 4 :: 4 :: 4 :: 4 :: 4 :: 4 :: (* 3. *)
  4 :: 21 :: 21 :: 21 :: 21 :: 21 :: 21 :: 5 :: 5 :: 5 :: 5 :: 5 :: 5 :: 5 :: 5 :: 5 :: (* 4. *)
  5 :: 5 :: 5 :: 5 :: 5 :: 5 :: 5 :: 5 :: 5 :: 5 :: 5 :: 4 :: 4 :: 4 :: 4 :: 5 :: (* 5. *)
  4 :: 21 :: 21 :: 21 :: 21 :: 21 :: 21 :: 5 :: 5 :: 5 :: 5 :: 5 :: 5 :: 5 :: 5 :: 5 :: (* 6. *)
  5 :: 5 :: 5 :: 5 :: 5 :: 5 :: 5 :: 5 :: 5 :: 5 :: 5 :: 4 :: 4 :: 4 :: 4 :: 0 :: (* 7. *)
  0 :: 0 :: 0 :: 0 :: 0 :: 0 :: 0 :: 0 :: 0 :: 0 :: 0 :: 0 :: 0 :: 0 :: 0 :: 0 :: (* 8. *)
  0 :: 0 :: 0 :: 0 :: 0 :: 0 :: 0 :: 0 :: 0 :: 0 :: 0 :: 0 :: 0 :: 0 :: 0 :: 0 :: (* 9. *)
  0 :: 0 :: 0 :: 0 :: 0 :: 0 :: 0 :: 0 :: 0 :: 0 :: 0 :: 0 :: 0 :: 0 :: 0 :: 0 :: (* a. *)
  0 :: 0 :: 0 :: 0 :: 0 :: 0 :: 0 :: 0 :: 0 :: 0 :: 0 :: 0 :: 0 :: 0 :: 0 :: 0 :: (* b. *)
  0 :: 0 :: 0 :: 0 :: 0 :: 0 :: 0 :: 0 :: 0 :: 0 :: 0 :: 0 :: 0 :: 0 :: 0 :: 0 :: (* c. *)
  0 :: 0 :: 0 :: 0 :: 0 :: 0 :: 0 :: 0 :: 0 :: 0 :: 0 :: 0 :: 0 :: 0 :: 0 :: 0 :: (* d. *)
  0 :: 0 :: 0 :: 0 :: 0 :: 0 :: 0 :: 0 :: 0 :: 0 :: 0 :: 0 :: 0 :: 0 :: 0 :: 0 :: (* e. *)
  0 :: 0 :: 0 :: 0 :: 0 :: 0 :: 0 :: 0 :: 0 :: 0 :: 0 :: 0 :: 0 :: 0 :: 0 :: 0 :: (* f. *)
  nil.

(** [#define testprop(c, p) (luai_ctype_[(c) + 1] & (p))] *)
Definition testprop (c p : Z) : bool :=
  negb (Z.land (nth (Z.to_nat (c + 1)) luai_ctype_ 0) p =? 0).

Definition lisdigit (c : Z) : bool := testprop c (MASK DIGITBIT).
Definition lisspace (c : Z) : bool := testprop c (MASK SPACEBIT).
Definition lisxdigit (c : Z) : bool := testprop c (MASK XDIGITBIT).

(** [#define ltolower(c) ((c) | ('A' ^ 'a'))] *)
Definition ltolower (c : Z) : Z := Z.lor c (Z.lxor 65 97).

End Ctype.

(** ** lobject.c: numerals *)

Module Str2Num.
Import Limits Lua Object Num Ctype.

(** A C string is a [string]; the terminating zero is what is read at
    the end of it. *)
Definition code (c : ascii) : Z := Z.of_N (N_of_ascii c).

(** [cast_uchar( *s )] *)
Definition peek (s : string) : Z :=
  match s with
  | EmptyString => 0
  | String c _ => code c
  end.

Definition advance (s : string) : string :=
  match s with
  | EmptyString => EmptyString
  | String _ s' => s'
  end.

(** [while (lisspace(cast_uchar( *s ))) s++;] *)
Fixpoint skip_spaces (s : string) : string :=
  match s with
  | EmptyString => s
  | String c s' => if lisspace (code c) then skip_spaces s' else s
  end.

(** [static int isneg(const char **s)] *)
Definition isneg (s : string) : bool * string :=
  if peek s =? 45 (* '-' *) then (true, advance s)
  else if peek s =? 43 (* '+' *) then (false, advance s)
  else (false, s).

(** [lu_byte luaO_hexavalue(int c)] *)
Definition luaO_hexavalue (c : Z) : Z :=
  if lisdigit c then (c - 48) mod 256
  else ((ltolower c - 97) + 10) mod 256.

Definition MAXBY10 : Z := l_castS2U (LUA_MAXINTEGER / 10).
Definition MAXLASTD : Z := LUA_MAXINTEGER mod 10.

(** The hexadecimal loop of [l_str2int]:
    [for (; lisxdigit(cast_uchar( *s )); s++)
       { a = a * 16 + luaO_hexavalue( *s ); empty = 0; }] *)
Fixpoint hex_loop (s : string) (a : Z) (empty : bool) : string * Z * bool :=
  match s with
  | EmptyString => (s, a, empty)
  | String c s' =>
      if lisxdigit (code c)
      then hex_loop s' (uadd (umul a 16) (luaO_hexavalue (code c))) false
      else (s, a, empty)
  end.

(** The decimal loop of [l_str2int]; [None] is the [return NULL] on
    overflow. *)
Fixpoint dec_loop (neg : bool) (s : string) (a : Z) (empty : bool)
  : option (string * Z * bool) :=
  match s with
  | EmptyString => Some (s, a, empty)
  | String c s' =>
      if lisdigit (code c) then
        let d := code c - 48 in
        if (MAXBY10 <=? a)
           && ((MAXBY10 <? a) || (MAXLASTD + (if neg then 1 else 0) <? d))
        then None (* do not accept it (as integer) *)
        else dec_loop neg s' (uadd (umul a 10) d) false
      else Some (s, a, empty)
  end.

(** [static const char *l_str2int(const char *s, lua_Integer *result)]:
    [Some (e, i)] stands for the returned end pointer [e] (the rest of
    the string) and the integer stored in [result]. *)
Definition l_str2int (s : string) : option (string * Z) :=
  let s := skip_spaces s in
  let '(neg, s) := isneg s in
  let r :=
    if (peek s =? 48) && ((peek (advance s) =? 120) || (peek (advance s) =? 88))
    then Some (hex_loop (advance (advance s)) 0 true)
    else dec_loop neg s 0 true in
  match r with
  | None => None
  | Some (s, a, empty) =>
      let s := skip_spaces s in
      if empty || negb (peek s =? 0) then None
      else Some (s, l_castU2S (if neg then usub 0 a else a))
  end.

(** The C library and the reader of hexadecimal floats, which the
    conversion to float calls: [strtod] gives the value and the number of
    characters it consumed. *)
Class LibC : Type := {
  lua_str2number : string -> lua_Number * nat;
  lua_strx2number : string -> lua_Number * nat;
  lua_getlocaledecpoint : ascii
}.

(** A C library whose [strtod] recognizes nothing, to run the integer
    conversions. *)
Definition no_libc : LibC :=
  {| lua_str2number := fun _ => (S754_zero false, O);
     lua_strx2number := fun _ => (S754_zero false, O);
     lua_getlocaledecpoint := "."%char |}.

Fixpoint drop_chars (n : nat) (s : string) : string :=
  match n, s with
  | S n', String _ s' => drop_chars n' s'
  | _, _ => s
  end.

(** [static const char *l_str2dloc(const char *s, lua_Number *result,
    int mode)] *)
Definition l_str2dloc `{LibC} (s : string) (mode : Z)
  : option (string * lua_Number) :=
  let '(result, n) :=
    if mode =? 120 (* 'x' *) then lua_strx2number s else lua_str2number s in
  match n with
  | O => None (* nothing recognized? *)
  | _ =>
      let endptr := skip_spaces (drop_chars n s) in
      if peek endptr =? 0 then Some (endptr, result) else None
  end.

(** [strpbrk(s, ".xXnN")]: the first special character, if any. *)
Fixpoint strpbrk_special (s : string) : option Z :=
  match s with
  | EmptyString => None
  | String c s' =>
      let k := code c in
      if k =? 0 then None
      else if (k =? 46) || (k =? 120) || (k =? 88) || (k =? 110) || (k =? 78)
           then Some k
           else strpbrk_special s'
  end.

(** [strchr(s, '.')] followed by [buff[pdot - s] = lua_getlocaledecpoint()]:
    [None] when there is no dot. *)
Fixpoint replace_dot (dp : ascii) (s : string) : option string :=
  match s with
  | EmptyString => None
  | String c s' =>
      if code c =? 0 then None
      else if code c =? 46 then Some (String dp s')
      else option_map (String c) (replace_dot dp s')
  end.

Definition L_MAXLENNUM : nat := 200.

(** [static const char *l_str2d(const char *s, lua_Number *result)] *)
Definition l_str2d `{LibC} (s : string) : option (string * lua_Number) :=
  let mode :=
    match strpbrk_special s with
    | Some c => ltolower c
    | None => 0
    end in
  if mode =? 110 (* 'n' *) then None (* reject 'inf' and 'nan' *)
  else
    match l_str2dloc s mode with
    | Some r => Some r
    | None =>
        (* failed? may be a different locale *)
        match replace_dot lua_getlocaledecpoint s with
        | None => None
        | Some buff =>
            if (L_MAXLENNUM <? String.length s)%nat then None
            else
              match l_str2dloc buff mode with
              | Some (e, r) =>
                  Some (drop_chars (String.length buff - String.length e) s, r)
              | None => None
              end
        end
    end.

(** [size_t luaO_str2num(const char *s, TValue *o)]: the size returned
    and the contents of [o] on return. *)
Definition luaO_str2num `{LibC} (s : string) (o : TValue) : Z * TValue :=
  match l_str2int s with
  | Some (e, i) =>
      (Z.of_nat (String.length s - String.length e) + 1, setivalue o i)
  | None =>
      match l_str2d s with
      | Some (e, n) =>
          (Z.of_nat (String.length s - String.length e) + 1, setfltvalue o n)
      | None => (0, o)
      end
  end.

(** *** Decimal numerals: spaces, an optional sign, digits, spaces *)

Inductive sign : Type := NoSign | Plus | Minus.

Definition sign_chars (sg : sign) : list ascii :=
  match sg with
  | NoSign => []
  | Plus => ["+"%char]
  | Minus => ["-"%char]
  end.

(** The character of the decimal digit [d]. *)
Definition digit_char (d : Z) : ascii := ascii_of_N (Z.to_N (48 + d)).

(** The number a sequence of digits denotes (after the digits that gave
    [acc]). *)
Fixpoint digits_value (acc : Z) (ds : list Z) : Z :=
  match ds with
  | [] => acc
  | d :: ds' => digits_value (acc * 10 + d) ds'
  end.

Definition is_minus (sg : sign) : bool :=
  match sg with Minus => true | _ => false end.

Definition numeral_value (sg : sign) (ds : list Z) : Z :=
  match sg with
  | Minus => - digits_value 0 ds
  | _ => digits_value 0 ds
  end.

Definition decimal_numeral (sp1 : list ascii) (sg : sign) (ds : list Z)
    (sp2 : list ascii) : string :=
  string_of_list_ascii (sp1 ++ sign_chars sg ++ map digit_char ds ++ sp2).

(** The bound of the overflow test: LUA_MAXINTEGER, one more for a
    negative numeral. *)
Definition limit (neg : bool) : Z := LUA_MAXINTEGER + (if neg then 1 else 0).

Definition is_space (c : ascii) : Prop := lisspace (code c) = true.
Definition is_digit (d : Z) : Prop := 0 <= d <= 9.

End Str2Num.

(** ** lobject.c: UTF-8 escapes *)

Module Utf8.
Import Limits Object.

(** A store [buff[i] = v] into the array [buff]; outside of the array
    the C program has no defined behaviour ([None]). *)
Definition store (buff : list Z) (i : Z) (v : Z) : option (list Z) :=
  if (0 <=? i) && (i <? Z.of_nat (length buff))
  then Some (<[Z.to_nat i := v]> buff)
  else None.

(** The body of the [do ... while (x > mfb)] loop of [luaO_utf8esc];
    each turn removes six bits from [x]. *)
Fixpoint utf8esc_loop (fuel : nat) (buff : list Z) (n x mfb : Z)
  : option (list Z * Z * Z * Z) :=
  match fuel with
  | O => None
  | S fuel' =>
      (* add continuation bytes *)
      match store buff (UTF8BUFFSZ - n) (cast_char (Z.lor 128 (Z.land x 63))) with
      | None => None
      | Some buff =>
          let n := n + 1 in
          let x := Z.shiftr x 6 in      (* remove added bits *)
          let mfb := Z.shiftr mfb 1 in  (* one less bit in first byte *)
          if mfb <? x (* still needs continuation byte? *)
          then utf8esc_loop fuel' buff n x mfb
          else Some (buff, n, x, mfb)
      end
  end.

(** [int luaO_utf8esc(char *buff, l_uint32 x)]: the buffer on return and
    the number of bytes put in it (backwards). The loop runs once per six
    bits of the 32-bit [x]. *)
Definition luaO_utf8esc (buff : list Z) (x : Z) : option (list Z * Z) :=
  if x <? 128 (* ASCII? *)
  then
    match store buff (UTF8BUFFSZ - 1) (cast_char x) with
    | Some buff => Some (buff, 1)
    | None => None
    end
  else
    (* need continuation bytes *)
    match utf8esc_loop 32 buff 1 x 63 with
    | None => None
    | Some (buff, n, x, mfb) =>
        (* add first byte *)
        let first := Z.lor (wrap32 (Z.shiftl (wrap32 (Z.lnot mfb)) 1)) x in
        match store buff (UTF8BUFFSZ - n) (cast_char first) with
        | Some buff => Some (buff, n)
        | None => None
        end
    end.

(** *** UTF-8 as a format (RFC 2279, sequences of up to six bytes) *)

(** A continuation byte is 10xxxxxx and carries six bits. *)
Fixpoint decode_cont (acc : Z) (bs : list Z) : option Z :=
  match bs with
  | [] => Some acc
  | b :: bs' =>
      if (128 <=? b) && (b <? 192)
      then decode_cont (acc * 64 + (b - 128)) bs'
      else None
  end.

(** Number of continuation bytes and payload announced by a first byte:
    0xxxxxxx, 110xxxxx, 1110xxxx, 11110xxx, 111110xx, 1111110x. *)
Definition utf8_lead (b : Z) : option (nat * Z) :=
  if (0 <=? b) && (b <? 128) then Some (0%nat, b)
  else if (192 <=? b) && (b <? 224) then Some (1%nat, b - 192)
  else if (224 <=? b) && (b <? 240) then Some (2%nat, b - 224)
  else if (240 <=? b) && (b <? 248) then Some (3%nat, b - 240)
  else if (248 <=? b) && (b <? 252) then Some (4%nat, b - 248)
  else if (252 <=? b) && (b <? 254) then Some (5%nat, b - 252)
  else None.

(** Smallest code point that needs [k] continuation bytes. *)
Definition utf8_min (k : nat) : Z :=
  match k with
  | 0%nat => 0
  | 1%nat => 128
  | 2%nat => 2048
  | 3%nat => 65536
  | 4%nat => 2097152
  | _ => 67108864
  end.

(** Decoding of exactly one sequence; over-long forms are rejected. *)
Definition utf8_decode (bs : list Z) : option Z :=
  match bs with
  | [] => None
  | b :: rest =>
      match utf8_lead b with
      | None => None
      | Some (k, payload) =>
          if (length rest =? k)%nat then
            match decode_cont payload rest with
            | Some v => if utf8_min k <=? v then Some v else None
            | None => None
            end
          else None
      end
  end.

(** The sequence that stands for the code point [x]. *)
Definition utf8_sequence (x : Z) : list Z :=
  let c y := 128 + y mod 64 in
  if x <? 128 then [x]
  else if x <? 2048 then [192 + x / 64; c x]
  else if x <? 65536 then [224 + x / 64 / 64; c (x / 64); c x]
  else if x <? 2097152 then
    [240 + x / 64 / 64 / 64; c (x / 64 / 64); c (x / 64); c x]
  else if x <? 67108864 then
    [248 + x / 64 / 64 / 64 / 64; c (x / 64 / 64 / 64); c (x / 64 / 64);
     c (x / 64); c x]
  else
    [252 + x / 64 / 64 / 64 / 64 / 64; c (x / 64 / 64 / 64 / 64);
     c (x / 64 / 64 / 64); c (x / 64 / 64); c (x / 64); c x].

End Utf8.

(** ** lstate.h / lstate.c: global and thread states *)

Module State.
Import Limits Lua Object.

(** [struct CClosure]: the C function and its upvalues. *)
Record CClosure : Type := mkCClosure {
  nupvalues : Z;
  f : Z;
  upvalue : list TValue
}.

(** [struct stringtable] *)
Record stringtable : Type := mkstringtable {
  hash : list (list Z);   (* array of buckets (linked lists of strings) *)
  nuse : Z;        (* number of elements *)
  size : Z         (* number of buckets *)
}.

(** [struct global_State]; pointers are addresses. The embedded main
    thread [mainth] is kept apart, as a [lua_State] of its own, and
    [cclosures] stands for the C closures that [GCObject] pointers
    reach. *)
Record global_State : Type := mkglobal_State {
  frealloc : Z;
  ud : Z;
  GCtotalbytes : Z;     (* number of bytes currently allocated + debt *)
  GCdebt : Z;           (* bytes counted but not yet allocated *)
  GCmarked : Z;
  GCmajorminor : Z;
  strt : stringtable;
  l_registry : TValue;
  nilvalue : TValue;
  seed : Z;
  gcparams : list Z;
  currentwhite : Z;
  gcstate : Z;
  gckind : Z;
  gcstopem : Z;
  gcstp : Z;
  gcemergency : Z;
  allgc : Z;
  sweepgc : Z;
  finobj : Z;
  gray : Z;
  grayagain : Z;
  weak : Z;
  ephemeron : Z;
  allweak : Z;
  tobefnz : Z;
  fixedgc : Z;
  survival : Z;
  old1 : Z;
  reallyold : Z;
  firstold1 : Z;
  finobjsur : Z;
  finobjold1 : Z;
  finobjrold : Z;
  g_twups : Z;
  panic : Z;
  memerrmsg : Z;
  tmname : list Z;
  mt : list Z;
  strcache : list (list Z);
  warnf : Z;
  ud_warn : Z;
  cclosures : gmap Z CClosure
}.

(** [#define gettotalbytes(g) ((g)->GCtotalbytes - (g)->GCdebt)] *)
Definition gettotalbytes (g : global_State) : Z :=
  wrap_lmem (GCtotalbytes g - GCdebt g).

Definition set_GCtotalbytes (v : Z) (g : global_State) : global_State :=
  mkglobal_State (frealloc g) (ud g) v (GCdebt g) (GCmarked g)
    (GCmajorminor g) (strt g) (l_registry g) (nilvalue g) (seed g)
    (gcparams g) (currentwhite g) (gcstate g) (gckind g) (gcstopem g)
    (gcstp g) (gcemergency g) (allgc g) (sweepgc g) (finobj g) (gray g)
    (grayagain g) (weak g) (ephemeron g) (allweak g) (tobefnz g)
    (fixedgc g) (survival g) (old1 g) (reallyold g) (firstold1 g)
    (finobjsur g) (finobjold1 g) (finobjrold g) (g_twups g) (panic g)
    (memerrmsg g) (tmname g) (mt g) (strcache g) (warnf g) (ud_warn g)
    (cclosures g).

Definition set_GCdebt (v : Z) (g : global_State) : global_State :=
  mkglobal_State (frealloc g) (ud g) (GCtotalbytes g) v (GCmarked g)
    (GCmajorminor g) (strt g) (l_registry g) (nilvalue g) (seed g)
    (gcparams g) (currentwhite g) (gcstate g) (gckind g) (gcstopem g)
    (gcstp g) (gcemergency g) (allgc g) (sweepgc g) (finobj g) (gray g)
    (grayagain g) (weak g) (ephemeron g) (allweak g) (tobefnz g)
    (fixedgc g) (survival g) (old1 g) (reallyold g) (firstold1 g)
    (finobjsur g) (finobjold1 g) (finobjrold g) (g_twups g) (panic g)
    (memerrmsg g) (tmname g) (mt g) (strcache g) (warnf g) (ud_warn g)
    (cclosures g).

(** [void luaE_setdebt(global_State *g, l_mem debt)]; the [l_mem]
    operations are 64-bit signed, written with their wrap-around. The
    [lua_assert(tb > 0)] has no effect on the state. *)
Definition luaE_setdebt (g : global_State) (debt : Z) : global_State :=
  let tb := gettotalbytes g in
  let debt :=
    if wrap_lmem (MAX_LMEM - tb) <? debt
    then wrap_lmem (MAX_LMEM - tb)  (* will make GCtotalbytes == MAX_LMEM *)
    else debt in
  let g := set_GCtotalbytes (wrap_lmem (tb + debt)) g in
  set_GCdebt debt g.

(** Two global states that agree on every field but [GCtotalbytes] and
    [GCdebt]. *)
Definition same_but_debt (g g' : global_State) : Prop :=
  frealloc g' = frealloc g /\ ud g' = ud g /\ GCmarked g' = GCmarked g /\
  GCmajorminor g' = GCmajorminor g /\ strt g' = strt g /\
  l_registry g' = l_registry g /\ nilvalue g' = nilvalue g /\
  seed g' = seed g /\ gcparams g' = gcparams g /\
  currentwhite g' = currentwhite g /\ gcstate g' = gcstate g /\
  gckind g' = gckind g /\ gcstopem g' = gcstopem g /\ gcstp g' = gcstp g /\
  gcemergency g' = gcemergency g /\ allgc g' = allgc g /\
  sweepgc g' = sweepgc g /\ finobj g' = finobj g /\ gray g' = gray g /\
  grayagain g' = grayagain g /\ weak g' = weak g /\
  ephemeron g' = ephemeron g /\ allweak g' = allweak g /\
  tobefnz g' = tobefnz g /\ fixedgc g' = fixedgc g /\
  survival g' = survival g /\ old1 g' = old1 g /\
  reallyold g' = reallyold g /\ firstold1 g' = firstold1 g /\
  finobjsur g' = finobjsur g /\ finobjold1 g' = finobjold1 g /\
  finobjrold g' = finobjrold g /\ g_twups g' = g_twups g /\
  panic g' = panic g /\ memerrmsg g' = memerrmsg g /\
  tmname g' = tmname g /\ mt g' = mt g /\ strcache g' = strcache g /\
  warnf g' = warnf g /\ ud_warn g' = ud_warn g /\
  cclosures g' = cclosures g.

(** [struct CallInfo]: the fields of the current frame. Stack pointers
    ([StkIdRel]) are offsets from the base of the stack. *)
Record CallInfo : Type := mkCallInfo {
  func : Z;
  ci_top : Z;
  previous : Z;
  next : Z;
  callstatus : Z
}.

(** [struct lua_State] *)
Record lua_State : Type := mklua_State {
  allowhook : Z;
  status : Z;
  top : Z;                    (* first free slot in the stack *)
  l_G : global_State;
  ci : CallInfo;              (* call info for current function *)
  stack_last : Z;             (* end of stack (last element + 1) *)
  stack : list StackValue;    (* stack base *)
  openupval : Z;
  tbclist : Z;                (* list of to-be-closed variables *)
  gclist : Z;
  twups : Z;
  errorJmp : Z;
  base_ci : CallInfo;
  hook : Z;
  errfunc : Z;
  nCcalls : Z;
  oldpc : Z;
  nci : Z;
  basehookcount : Z;
  hookcount : Z;
  hookmask : Z;
  ftransfer : Z;
  ntransfer : Z
}.

Definition set_top (v : Z) (L : lua_State) : lua_State :=
  mklua_State (allowhook L) (status L) v (l_G L) (ci L) (stack_last L)
    (stack L) (openupval L) (tbclist L) (gclist L) (twups L) (errorJmp L)
    (base_ci L) (hook L) (errfunc L) (nCcalls L) (oldpc L) (nci L)
    (basehookcount L) (hookcount L) (hookmask L) (ftransfer L)
    (ntransfer L).

Definition set_stack (v : list StackValue) (L : lua_State) : lua_State :=
  mklua_State (allowhook L) (status L) (top L) (l_G L) (ci L)
    (stack_last L) v (openupval L) (tbclist L) (gclist L) (twups L)
    (errorJmp L) (base_ci L) (hook L) (errfunc L) (nCcalls L) (oldpc L)
    (nci L) (basehookcount L) (hookcount L) (hookmask L) (ftransfer L)
    (ntransfer L).

Definition LUA_MINSTACK : Z := 20.
Definition EXTRA_STACK : Z := 5.
Definition BASIC_STACK_SIZE : Z := 2 * LUA_MINSTACK.
Definition CIST_RECST : Z := 12.
Definition CIST_C : Z := Z.shiftl 1 (CIST_RECST + 3).

(** A global state to run examples in: 100 bytes in use, no debt, a
    registry table at address 1, one C closure at address 2 with the
    integer 7 as its only upvalue. *)
Definition sample_global : global_State :=
  mkglobal_State 0 0 100 0 0 0 (mkstringtable [] 0 0)
    (mkTValue (V_gc 1) 69) (mkTValue (V_ub 0) 0) 0 [] 0 0 0 0 0
    0 0 0 0 0 0 0 0 0 0 0 0 0 0 0 0 0 0 0 0 0 [] [] [] 0 0
    {[ 2 := mkCClosure 1 0 [mkTValue (V_i 7) 3] ]}.

(** The thread that [stack_init] and [resetCI] of lstate.c set up: a
    stack of nils, the base frame on slot 0, the to-be-closed list on
    the base of the stack. *)
Definition stack_init (g : global_State) : lua_State :=
  let nilslot := mkStackValue (mkTValue (V_ub 0) LUA_VNIL) 0 in
  let base := mkCallInfo 0 (0 + 1 + LUA_MINSTACK) 0 0 CIST_C in
  mklua_State 1 0 (0 + 1) g base BASIC_STACK_SIZE
    (replicate (Z.to_nat (BASIC_STACK_SIZE + EXTRA_STACK)) nilslot)
    0 0 0 0 0 base 0 0 0 0 0 0 0 0 0 0.

End State.

(** ** lapi.c: the stack part of the C API *)

Module Api.
Import Limits Lua Object State.

(** Modelled from the spec: luaF_close of lfunc.c, which is absent, is a
    parameter; it closes the to-be-closed variables down to a level and
    returns the state and the (possibly relocated) level. *)
Class LFunc : Type := {
  luaF_close : lua_State -> Z -> lua_State * Z
}.

Definition ispseudo (i : Z) : bool := i <=? LUA_REGISTRYINDEX.
Definition isupvalue (i : Z) : bool := i <? LUA_REGISTRYINDEX.

(** Modelled from the spec: MAXUPVAL of lfunc.h, which is absent; the
    number of upvalues of a closure fits a byte. *)
Definition MAXUPVAL : Z := 255.

(** The value stored in the stack slot at offset [o]. *)
Definition slot (L : lua_State) (o : Z) : option TValue :=
  if 0 <=? o then s2v <$> (stack L !! Z.to_nat o) else None.

(** [static TValue *index2value(lua_State *L, int idx)]: the value the
    returned pointer designates; [None] when an [api_check] fails or the
    pointer leaves the objects of the state. *)
Definition index2value (L : lua_State) (idx : Z) : option TValue :=
  let ci := ci L in
  if 0 <? idx then
    let o := func ci + idx in
    if negb (idx <=? ci_top ci - (func ci + 1)) then None (* unacceptable index *)
    else if top L <=? o then Some (nilvalue (l_G L))
    else slot L o
  else if negb (ispseudo idx) then
    (* negative index *)
    if negb (negb (idx =? 0) && (- idx <=? top L - (func ci + 1)))
    then None (* invalid index *)
    else slot L (top L + idx)
  else if idx =? LUA_REGISTRYINDEX then Some (l_registry (l_G L))
  else
    (* upvalues *)
    let idx := LUA_REGISTRYINDEX - idx in
    if negb (idx <=? MAXUPVAL + 1) then None (* upvalue index too large *)
    else
      match slot L (func ci) with
      | None => None
      | Some fn =>
          if ttisCclosure fn then
            (* C closure? *)
            match value_ fn with
            | V_gc p =>
                match cclosures (l_G L) !! p with
                | Some cl =>
                    if idx <=? nupvalues cl
                    then upvalue cl !! Z.to_nat (idx - 1)
                    else Some (nilvalue (l_G L))
                | None => None
                end
            | _ => None
            end
          else
            (* light C function or Lua function (through a hook)? *)
            if negb (ttislcf fn) then None (* caller not a C function *)
            else Some (nilvalue (l_G L)) (* no upvalues *)
      end.

(** luaconf.h leaves LUA_USE_APICHECK undefined
    ([/* #define LUA_USE_APICHECK */]) and llimits.h, without LUAI_ASSERT,
    makes [lua_assert(c)] the empty statement [((void)0)]: the consistency
    checks of the C API are not compiled in. *)
Definition LUA_USE_APICHECK : bool := false.

(** Modelled from the spec: api_incr_top of lapi.h, which is absent; a
    push increments the top, [L->top.p++]. That the top stays within the
    frame (stack overflow otherwise) is one of the checks that
    LUA_USE_APICHECK turns on: without it the increment is all there is,
    and a push on a full frame lands in the EXTRA_STACK slots that the
    array has past [stack_last]. *)
Definition api_incr_top (L : lua_State) : option lua_State :=
  let L := set_top (top L + 1) L in
  if LUA_USE_APICHECK && negb (top L <=? ci_top (ci L)) then None else Some L.

(** [LUA_API void lua_pushvalue(lua_State *L, int idx)] *)
Definition lua_pushvalue (L : lua_State) (idx : Z) : option lua_State :=
  match index2value L idx with
  | None => None
  | Some v =>
      if (0 <=? top L) && (top L <? Z.of_nat (length (stack L))) then
        let L :=
          set_stack (alter (fun o1 => setobj2s o1 v) (Z.to_nat (top L)) (stack L)) L in
        api_incr_top L
      else None
  end.

(** The loop [for (; diff > 0; diff--) setnilvalue(s2v(L->top.p++));] *)
Fixpoint fill_nil (n : nat) (L : lua_State) : lua_State :=
  match n with
  | O => L
  | S n' =>
      let L :=
        set_stack (alter (fun o => mkStackValue (setnilvalue (val o)) (delta o))
                     (Z.to_nat (top L)) (stack L)) L in
      fill_nil n' (set_top (top L + 1) L)
  end.

(** [LUA_API void lua_settop(lua_State *L, int idx)] *)
Definition lua_settop `{LFunc} (L : lua_State) (idx : Z) : option lua_State :=
  let ci := ci L in
  let func := func ci in
  let r :=
    if 0 <=? idx then
      if negb (idx <=? ci_top ci - (func + 1)) then None (* new top too large *)
      else
        let diff := ((func + 1) + idx) - top L in
        Some (fill_nil (Z.to_nat diff) L, Z.min diff 0)
    else
      if negb (- (idx + 1) <=? top L - (func + 1)) then None (* invalid new top *)
      else Some (L, idx + 1) (* will "subtract" index (as it is negative) *)
  in
  match r with
  | None => None
  | Some (L, diff) =>
      let newtop := top L + diff in
      if (diff <? 0) && (newtop <=? tbclist L) then
        let '(L, newtop) := luaF_close L newtop in
        Some (set_top newtop L)
      else Some (set_top newtop L) (* correct top only after closing any upvalue *)
  end.

(** A thread whose base frame is full: the integers 1 to LUA_MINSTACK at
    the indices 1 to LUA_MINSTACK, the top at the top of the frame. *)
Definition full_frame_thread (g : global_State) : lua_State :=
  let L := stack_init g in
  let fill (i : nat) (sv : StackValue) :=
    if (1 <=? i)%nat && (i <=? Z.to_nat LUA_MINSTACK)%nat
    then mkStackValue (mkTValue (V_i (Z.of_nat i)) LUA_VNUMINT) 0 else sv in
  set_top (ci_top (ci L)) (set_stack (imap fill (stack L)) L).

(** A thread whose only stack entry is [v], on top of the base frame. *)
Definition thread_with (g : global_State) (v : TValue) : lua_State :=
  let L := stack_init g in
  set_top 2 (set_stack (<[1%nat := mkStackValue v 0]> (stack L)) L).

(** The frame and stack pointers of a thread in a consistent state:
    the function of the current frame is below the top, the top within
    the frame, the frame within the allocated stack, and the head of the
    to-be-closed list (the base of the stack when the list is empty) is a
    slot below the top. *)
Definition wf_thread (L : lua_State) : Prop :=
  0 <= func (ci L) /\ func (ci L) < top L /\ top L <= ci_top (ci L) /\
  ci_top (ci L) <= stack_last L /\
  stack_last L <= Z.of_nat (length (stack L)) /\
  0 <= tbclist L /\ tbclist L < top L.

(** The indices [index2value] accepts in a state: the valid and the
    acceptable stack indices and the pseudo-indices. *)
Definition acceptable_index (L : lua_State) (idx : Z) : Prop :=
  is_Some (index2value L idx).

(** The slots of the stack proper: those below the top. *)
Definition live_stack (L : lua_State) : list StackValue :=
  take (Z.to_nat (top L)) (stack L).

(** [LUA_API int lua_gettop(lua_State *L)] *)
Definition lua_gettop (L : lua_State) : Z := top L - (func (ci L) + 1).

(** [LUA_API int lua_toboolean(lua_State *L, int idx)] *)
Definition lua_toboolean (L : lua_State) (idx : Z) : option Z :=
  match index2value L idx with
  | None => None
  | Some o => Some (if negb (l_isfalse o) then 1 else 0)
  end.

End Api.

(** ** The string table (lstring.h, lobject.h, lstate.h) *)

Module StringTable.
Import Limits Lua Object State.

(** lstring.h: maximum length for short strings, that is, strings that
    are internalized. *)
Definition LUAI_MAXSHORTLEN : Z := 40.

(** lobject.h: kinds of long strings (stored in [shrlen]). *)
Definition LSTRREG : Z := -1.
Definition LSTRFIX : Z := -2.
Definition LSTRMEM : Z := -3.

(** [struct TString]; the chain field [u.hnext] is the order of the
    bucket the string sits in. *)
Record TString : Type := mkTString {
  ts_tt : Z;
  ts_extra : Z;
  shrlen : Z;
  ts_hash : Z;
  lnglen : Z;
  contents : list Z;
  ts_falloc : Z;
  ts_ud : Z
}.

Definition strisshr (ts : TString) : bool := 0 <=? shrlen ts.
Definition tsslen (ts : TString) : Z :=
  if strisshr ts then shrlen ts else lnglen ts.

(** lobject.h: [#define isextstr(ts)
      (ttislngstring(ts) && tsvalue(ts)->shrlen != LSTRREG)] *)
Definition isextstr (ts : TString) : bool :=
  (ts_tt ts =? LUA_VLNGSTR) && negb (shrlen ts =? LSTRREG).

(** [#define lmod(s, size) (cast_uint(s) & cast_uint((size) - 1))] *)
Definition lmod (s size : Z) : Z := Z.land (wrap32 s) (wrap32 (size - 1)).

(** The part of the global state the string functions work on: the
    table, the seed, the string objects by address, and the next fresh
    address of the allocator. *)
Record strstate : Type := mkstrstate {
  st_strt : stringtable;
  st_seed : Z;
  strings : gmap Z TString;
  brk : Z
}.

(** Modelled from the spec: the minimum size of the table (section 3.3),
    MINSTRTABSIZE of llimits.h, whose definition is absent. *)
Definition MINSTRTABSIZE : Z := 128.

(** lstring.h: [#define MEMERRMSG "not enough memory"] *)
Definition MEMERRMSG : list Z :=
  [110; 111; 116; 32; 101; 110; 111; 117; 103; 104; 32; 109; 101; 109; 111; 114; 121].

Section WithHash.

(** The seeded hash of a byte sequence. *)
Variable luaS_hash : list Z -> Z -> Z.

Definition bucket (st : strstate) (i : Z) : list Z :=
  if 0 <=? i then default [] (hash (st_strt st) !! Z.to_nat i) else [].

(** Does the string at address [p] hold the bytes [str] ? (the length
    test, then [memcmp]) *)
Definition holds (st : strstate) (str : list Z) (p : Z) : bool :=
  match strings st !! p with
  | Some ts =>
      (tsslen ts =? Z.of_nat (length str)) && bool_decide (contents ts = str)
  | None => false
  end.

(** The walk of a bucket chain. *)
Fixpoint chain_find (st : strstate) (str : list Z) (chain : list Z) : option Z :=
  match chain with
  | [] => None
  | p :: chain' => if holds st str p then Some p else chain_find st str chain'
  end.

Definition bucket_of (st : strstate) (nsize : Z) (p : Z) : Z :=
  match strings st !! p with
  | Some ts => lmod (ts_hash ts) nsize
  | None => -1
  end.

(** Modelled from the spec: [luaS_resize] of lstring.c, which is
    absent. Section 4.1: resize(new_size) rehashes all short strings
    into a new bucket array. *)
Definition luaS_resize (st : strstate) (nsize : Z) : strstate :=
  if nsize <=? 0 then st
  else
    let all := concat (hash (st_strt st)) in
    let newvect :=
      (fun i => filter (fun p => bucket_of st nsize p = i) all) <$> seqZ 0 nsize in
    mkstrstate (mkstringtable newvect (nuse (st_strt st)) nsize)
      (st_seed st) (strings st) (brk st).

(** Modelled from the spec: the interning of lstring.c, which is
    absent. Section 4.1: new_short(bytes) returns the interned short
    string; if already present in the table, it returns the existing
    one; the bucket is searched before allocating, and the table grows
    when nuse > size. *)
Definition new_short (st : strstate) (str : list Z) : Z * strstate :=
  let h := luaS_hash str (st_seed st) in
  match chain_find st str (bucket st (lmod h (size (st_strt st)))) with
  | Some p => (p, st)
  | None =>
      let st :=
        if size (st_strt st) <? nuse (st_strt st)
        then luaS_resize st (2 * size (st_strt st))
        else st in
      let tb := st_strt st in
      let p := brk st in
      let ts := mkTString LUA_VSHRSTR 0 (Z.of_nat (length str)) h 0 str 0 0 in
      let i := lmod h (size tb) in
      (p, mkstrstate
            (mkstringtable (alter (cons p) (Z.to_nat i) (hash tb)) (nuse tb + 1) (size tb))
            (st_seed st) (<[p := ts]> (strings st)) (brk st + 1))
  end.

(** Modelled from the spec: section 4.1, new_long(bytes) allocates a
    non-interned string, its hash marked as not yet computed. *)
Definition new_long (st : strstate) (str : list Z) : Z * strstate :=
  let p := brk st in
  let ts := mkTString LUA_VLNGSTR 0 LSTRREG (st_seed st) (Z.of_nat (length str)) str 0 0 in
  (p, mkstrstate (st_strt st) (st_seed st) (<[p := ts]> (strings st)) (brk st + 1)).

(** Modelled from the spec: section 4.1, new_long_external(bytes,
    free_cb, ud): a long string whose bytes are borrowed. *)
Definition luaS_newextlstr (st : strstate) (str : list Z) (falloc ud : Z)
  : Z * strstate :=
  let p := brk st in
  let kind := if falloc =? 0 then LSTRFIX else LSTRMEM in
  let ts := mkTString LUA_VLNGSTR 0 kind (st_seed st) (Z.of_nat (length str)) str falloc ud in
  (p, mkstrstate (st_strt st) (st_seed st) (<[p := ts]> (strings st)) (brk st + 1)).

(** Modelled from the spec: [luaS_newlstr] (lstring.h): a string of at
    most LUAI_MAXSHORTLEN bytes is interned, a longer one is not. *)
Definition luaS_newlstr (st : strstate) (str : list Z) : Z * strstate :=
  if Z.of_nat (length str) <=? LUAI_MAXSHORTLEN
  then new_short st str
  else new_long st str.

(** Modelled from the spec: section 4.1, hash_long(s) computes and
    caches the hash on first use as a key. *)
Definition luaS_hashlongstr (st : strstate) (p : Z) : strstate :=
  match strings st !! p with
  | Some ts =>
      if strisshr ts || negb (ts_extra ts =? 0) then st
      else
        let ts' :=
          mkTString (ts_tt ts) 1 (shrlen ts) (luaS_hash (contents ts) (st_seed st))
            (lnglen ts) (contents ts) (ts_falloc ts) (ts_ud ts) in
        mkstrstate (st_strt st) (st_seed st) (<[p := ts']> (strings st)) (brk st)
  | None => st
  end.

(** Modelled from the spec: section 4.1, remove(s), called by the
    collector when a short string dies, unlinks it from its bucket
    chain. *)
Definition luaS_remove (st : strstate) (p : Z) : strstate :=
  let tb := st_strt st in
  let i := bucket_of st (size tb) p in
  mkstrstate
    (mkstringtable (alter (filter (fun q => q ≠ p)) (Z.to_nat i) (hash tb))
       (nuse tb - 1) (size tb))
    (st_seed st) (strings st) (brk st).

(** The collector frees a dead string; a short one leaves the table
    first. *)
Definition collect (st : strstate) (p : Z) : strstate :=
  match strings st !! p with
  | Some ts =>
      let st := if strisshr ts then luaS_remove st p else st in
      mkstrstate (st_strt st) (st_seed st) (delete p (strings st)) (brk st)
  | None => st
  end.

(** Modelled from the spec: [luaS_init]; the table starts empty and
    the message for memory errors is the very first string created. *)
Definition luaS_init (seed : Z) : strstate :=
  let tb := mkstringtable (replicate (Z.to_nat MINSTRTABSIZE) []) 0 MINSTRTABSIZE in
  snd (luaS_newlstr (mkstrstate tb seed ∅ 1) MEMERRMSG).

(** The operations on strings, and a run of them. *)
Inductive strop : Type :=
| NewLStr (str : list Z)
| NewExtLStr (str : list Z) (falloc ud : Z)
| HashLong (p : Z)
| Collect (p : Z)
| Resize (nsize : Z).

Definition step (st : strstate) (o : strop) : strstate :=
  match o with
  | NewLStr str => snd (luaS_newlstr st str)
  | NewExtLStr str fa u => snd (luaS_newextlstr st str fa u)
  | HashLong p => luaS_hashlongstr st p
  | Collect p => collect st p
  | Resize n => luaS_resize st n
  end.

Definition run (ops : list strop) (st : strstate) : strstate :=
  foldl step st ops.

(** A live short string: an object of the state with the short tag. *)
Definition live_short (st : strstate) (p : Z) (ts : TString) : Prop :=
  strings st !! p = Some ts /\ ts_tt ts = LUA_VSHRSTR.

(** The string at address [p] is linked in some bucket. *)
Definition in_table (st : strstate) (p : Z) : Prop :=
  exists (i : nat) (chain : list Z),
    hash (st_strt st) !! i = Some chain /\ p ∈ chain.

(** The invariant of the string table. *)
Record strinv (st : strstate) : Prop := mkstrinv {
  inv_size : size (st_strt st) = Z.of_nat (length (hash (st_strt st)));
  inv_pos : 0 < size (st_strt st);
  (* a linked string is a live short string, in the bucket of its hash *)
  inv_chain : forall (i : nat) (chain : list Z) (p : Z),
    hash (st_strt st) !! i = Some chain -> p ∈ chain ->
    exists ts, live_short st p ts /\
               Z.of_nat i = lmod (ts_hash ts) (size (st_strt st));
  (* the short tag and the short length go together *)
  inv_kind : forall p ts, strings st !! p = Some ts ->
    (strisshr ts = true <-> ts_tt ts = LUA_VSHRSTR);
  (* a live short string is well formed and linked *)
  inv_short : forall p ts, live_short st p ts ->
    shrlen ts = Z.of_nat (length (contents ts)) /\
    shrlen ts <= LUAI_MAXSHORTLEN /\
    ts_hash ts = luaS_hash (contents ts) (st_seed st) /\
    in_table st p;
  (* no two live short strings have identical bytes *)
  inv_unique : forall p1 p2 ts1 ts2,
    live_short st p1 ts1 -> live_short st p2 ts2 ->
    contents ts1 = contents ts2 -> p1 = p2;
  (* the allocator hands out fresh addresses *)
  inv_fresh : forall p ts, strings st !! p = Some ts -> p < brk st
}.

End WithHash.

(** The kinds of strings there are: short ones, external ones, and
    regular long ones, which are longer than LUAI_MAXSHORTLEN. *)
Definition string_kinds (st : strstate) : Prop :=
  forall p ts, strings st !! p = Some ts ->
    ts_tt ts = LUA_VSHRSTR \/ isextstr ts = true \/
    (ts_tt ts = LUA_VLNGSTR /\ LUAI_MAXSHORTLEN < Z.of_nat (length (contents ts))).

End StringTable.

(** ** lobject.c: luaO_ceillog2 and the floating-point bytes of the GC
    parameters *)

Module Param.
Import Limits.

(** [#define cast_byte(i) cast(lu_byte, (i))] *)
Definition cast_byte (i : Z) : Z := i mod 256.

(** [static const lu_byte log_2[256]]: [log_2[i - 1] = ceil(log2(i))]. *)
Definition log_2 : list Z :=
  [0; 1; 2; 2; 3; 3; 3; 3; 4; 4; 4; 4; 4; 4; 4; 4; 5; 5; 5; 5; 5; 5; 5; 5; 5; 5; 5; 5; 5; 5; 5; 5;
   6; 6; 6; 6; 6; 6; 6; 6; 6; 6; 6; 6; 6; 6; 6; 6; 6; 6; 6; 6; 6; 6; 6; 6; 6; 6; 6; 6; 6; 6; 6; 6;
   7; 7; 7; 7; 7; 7; 7; 7; 7; 7; 7; 7; 7; 7; 7; 7; 7; 7; 7; 7; 7; 7; 7; 7; 7; 7; 7; 7; 7; 7; 7; 7;
   7; 7; 7; 7; 7; 7; 7; 7; 7; 7; 7; 7; 7; 7; 7; 7; 7; 7; 7; 7; 7; 7; 7; 7; 7; 7; 7; 7; 7; 7; 7; 7;
   8; 8; 8; 8; 8; 8; 8; 8; 8; 8; 8; 8; 8; 8; 8; 8; 8; 8; 8; 8; 8; 8; 8; 8; 8; 8; 8; 8; 8; 8; 8; 8;
   8; 8; 8; 8; 8; 8; 8; 8; 8; 8; 8; 8; 8; 8; 8; 8; 8; 8; 8; 8; 8; 8; 8; 8; 8; 8; 8; 8; 8; 8; 8; 8;
   8; 8; 8; 8; 8; 8; 8; 8; 8; 8; 8; 8; 8; 8; 8; 8; 8; 8; 8; 8; 8; 8; 8; 8; 8; 8; 8; 8; 8; 8; 8; 8;
   8; 8; 8; 8; 8; 8; 8; 8; 8; 8; 8; 8; 8; 8; 8; 8; 8; 8; 8; 8; 8; 8; 8; 8; 8; 8; 8; 8; 8; 8; 8; 8].

(** The loop [while (x >= 256) { l += 8; x >>= 8; }] of luaO_ceillog2;
    [None] when the fuel runs out. *)
Fixpoint ceillog2_loop (fuel : nat) (l x : Z) : option (Z * Z) :=
  match fuel with
  | O => None
  | S fuel' =>
      if 256 <=? x then ceillog2_loop fuel' (l + 8) (Z.shiftr x 8)
      else Some (l, x)
  end.

(** [lu_byte luaO_ceillog2(unsigned int x)]; [x] is a 32-bit unsigned
    integer, so [x--] wraps at zero. *)
Definition luaO_ceillog2 (x : Z) : option Z :=
  let x := wrap32 (x - 1) in
  match ceillog2_loop 4 0 x with
  | Some (l, x) => (fun v => cast_byte (l + v)) <$> (log_2 !! Z.to_nat x)
  | None => None
  end.

(** [lu_byte luaO_codeparam(unsigned int p)] *)
Definition luaO_codeparam (p : Z) : option Z :=
  if Z.shiftl 31 (15 - 7 - 1) * 100 <=? p then (* overflow? *)
    Some 255 (* return maximum value *)
  else
    let p := wrap32 (wrap32 p * 128 + 99) / 100 in (* round up the division *)
    if p <? 16 then (* subnormal number? *)
      Some (cast_byte p)
    else
      match luaO_ceillog2 (wrap32 (p + 1)) with
      | Some c =>
          let log := wrap32 (c - 5) in (* preserve 5 bits in 'p' *)
          if log <? 32 then
            Some (cast_byte (Z.lor (wrap32 (Z.shiftr p log - 16))
                                   (wrap32 (Z.shiftl (wrap32 (log + 1)) 4))))
          else None (* shift by the width of the type or more *)
      | None => None
      end.

(** [l_mem luaO_applyparam(lu_byte p, l_mem x)]; the products and the
    left shift are [l_mem] operations, written with their wrap-around. *)
Definition luaO_applyparam (p x : Z) : Z :=
  let m := Z.land p 15 in   (* mantissa *)
  let e := Z.shiftr p 4 in  (* exponent *)
  let '(e, m) :=
    if 0 <? e then (* normalized? *)
      (e - 1, m + 16) (* correct exponent and mantissa; maximum value is 0x1F *)
    else (e, m) in
  let e := e - 7 in (* correct excess-7 *)
  if 0 <=? e then
    if x <? Z.shiftr (MAX_LMEM / 31) e then (* no overflow? *)
      wrap_lmem (Z.shiftl (wrap_lmem (x * m)) e) (* order doesn't matter here *)
    else (* real overflow *)
      MAX_LMEM
  else (* negative exponent *)
    let e := - e in
    if x <? MAX_LMEM / 31 then (* multiplication cannot overflow? *)
      Z.shiftr (wrap_lmem (x * m)) e (* multiplying first gives more precision *)
    else if Z.shiftr x e <? MAX_LMEM / 31 then (* cannot overflow after shift? *)
      wrap_lmem (Z.shiftr x e * m)
    else (* real overflow *)
      MAX_LMEM.

(** The value a floating-point byte (eeeexxxx) stands for, after the
    comment of luaO_codeparam: (1xxxx) * 2^(eeee - 7 - 1) if eeee != 0,
    (xxxx) * 2^-7 otherwise (subnormal). [param_mantissa] is the integer
    mantissa and [param_exponent] the power of two it is scaled by. *)
Definition param_mantissa (p : Z) : Z :=
  if 0 <? p / 16 then p mod 16 + 16 else p mod 16.
Definition param_exponent (p : Z) : Z :=
  (if 0 <? p / 16 then p / 16 - 1 else p / 16) - 7.

End Param.

(** ** lobject.c: the numerals l_str2int and luaO_str2num accept *)

Module HexNumerals.
Import Limits Ctype Str2Num.

(** *** Hexadecimal numerals: spaces, an optional sign, 0x or 0X,
    hexadecimal digits, spaces *)

(** A hexadecimal digit: its value and whether it is written in upper
    case. *)
Definition xdigit : Type := Z * bool.

Definition is_xdigit (d : xdigit) : Prop := 0 <= fst d <= 15.

Definition xdigit_char (d : xdigit) : ascii :=
  let '(v, upper) := d in
  ascii_of_N (Z.to_N (if v <? 10 then 48 + v
                      else if upper then 65 + (v - 10) else 97 + (v - 10))).

(** The number a sequence of hexadecimal digits denotes (after the
    digits that gave [acc]). *)
Fixpoint xdigits_value (acc : Z) (ds : list xdigit) : Z :=
  match ds with
  | [] => acc
  | d :: ds' => xdigits_value (acc * 16 + fst d) ds'
  end.

Definition hex_numeral (sp1 : list ascii) (sg : sign) (upper : bool)
    (ds : list xdigit) (sp2 : list ascii) : string :=
  string_of_list_ascii
    (sp1 ++ sign_chars sg ++ "0"%char :: (if upper then "X"%char else "x"%char)
         :: map xdigit_char ds ++ sp2).

(** A C string proper: no zero byte before its end. *)
Definition nul_free (s : string) : Prop :=
  Forall (fun c => code c <> 0) (list_ascii_of_string s).

End HexNumerals.

(** ** lobject.c: luaO_chunkid *)

Module ChunkId.

(** luaconf.h: [#define LUA_IDSIZE 60] *)
Definition LUA_IDSIZE : Z := 60.

(** The macros RETS (three dots), PRE (the prefix: an opening bracket,
    the word string, a space and a double quote) and POS (the suffix: a
    double quote and a closing bracket), as bytes. *)
Definition RETS : list Z := [46; 46; 46].
Definition PRE : list Z := [91; 115; 116; 114; 105; 110; 103; 32; 34].
Definition POS : list Z := [34; 93].

(** [#define LL(x) (sizeof(x) / sizeof(char) - 1)] *)
Definition LL (x : list Z) : Z := Z.of_nat (length x).

(** [memcpy(out, m + from, len)]: the [len] bytes read; fewer when the
    read leaves the array [m]. *)
Definition memcpy (m : list Z) (from len : Z) : list Z :=
  take (Z.to_nat len) (drop (Z.to_nat from) m).

(** [strchr(s, c)] for a [c] other than zero: the offset of the first [c]
    before the zero that ends the string. *)
Fixpoint strchr (s : list Z) (c : Z) : option Z :=
  match s with
  | [] => None
  | b :: s' =>
      if b =? c then Some 0
      else if b =? 0 then None
      else Z.succ <$> strchr s' c
  end.

(** [void luaO_chunkid(char *out, const char *source, size_t srclen)]:
    [source] holds the [srclen] bytes of the name, followed in memory by a
    zero; the result is the bytes written to [out], in order. *)
Definition luaO_chunkid (source : list Z) : list Z :=
  let srclen := Z.of_nat (length source) in
  let src := source ++ [0] in
  let bufflen := LUA_IDSIZE in (* free space in buffer *)
  if nth 0 src 0 =? 61 (* '=' *) then (* 'literal' source *)
    if srclen <=? bufflen then (* small enough? *)
      memcpy src 1 srclen
    else (* truncate it *)
      memcpy src 1 (bufflen - 1) ++ [0]
  else if nth 0 src 0 =? 64 (* '@' *) then (* file name *)
    if srclen <=? bufflen then (* small enough? *)
      memcpy src 1 srclen
    else (* add '...' before rest of name *)
      let bufflen := bufflen - LL RETS in
      RETS ++ memcpy src (1 + srclen - bufflen) bufflen
  else (* string; format as [string "source"] *)
    let nl := strchr src 10 in (* find first new line (if any) *)
    let bufflen := bufflen - (LL (PRE ++ RETS ++ POS) + 1) in
      (* save space for prefix+suffix+'\0' *)
    let body :=
      if (srclen <? bufflen) && (if nl is None then true else false) then
        (* small one-line source? *)
        memcpy src 0 srclen (* keep it *)
      else
        let srclen := match nl with Some k => k | None => srclen end in
          (* stop at first newline *)
        let srclen := if bufflen <? srclen then bufflen else srclen in
        memcpy src 0 srclen ++ RETS in
    PRE ++ body ++ memcpy (POS ++ [0]) 0 (LL POS + 1).

End ChunkId.

(** ** lobject.c: the buffer of luaO_pushvfstring *)

Module FString.
Import Limits Lua Object Num Str2Num ChunkId.

(** llimits.h: [MAX_SIZE], the smaller of the maxima of [size_t] and
    [lua_Integer]; both types are 64 bits wide here. *)
Definition MAX_SIZE : Z := LUA_MAXINTEGER.

Definition LUA_N2SBUFFSZ : Z := 64.

(** [#define BUFVFS cast_uint(LUA_IDSIZE + LUA_N2SBUFFSZ + 95)] *)
Definition BUFVFS : Z := LUA_IDSIZE + LUA_N2SBUFFSZ + 95.

(** [size_t] arithmetic. *)
Definition wrap_size (z : Z) : Z := z mod 2 ^ 64.

(** [struct BuffFS]; [b] is the array the pointer [b] designates, [space]
    or a block of [buffsize] bytes, and [static] tells whether it is
    [space]. *)
Record BuffFS : Type := mkBuffFS {
  b : list Z;
  static : bool;
  buffsize : Z;
  blen : Z;   (* length of string in 'buff' *)
  err : Z
}.

(** [static void initbuff(lua_State *L, BuffFS *buff)] *)
Definition initbuff : BuffFS :=
  mkBuffFS (replicate (Z.to_nat BUFVFS) 0) true BUFVFS 0 0.

(** [memcpy(dst + at, src, len)] with [len] the length of [src]; [None]
    when it would write outside the array [dst]. *)
Definition memcpy_to (dst : list Z) (at_ : Z) (src : list Z) : option (list Z) :=
  if (0 <=? at_) && (at_ + Z.of_nat (length src) <=? Z.of_nat (length dst)) then
    Some (take (Z.to_nat at_) dst ++ src
            ++ drop (Z.to_nat at_ + length src) dst)
  else None.

Section WithAllocator.

(** The allocator behind [luaM_reallocvector] (lmem.c is not part of
    these sources): whether it can provide a block of the given size. *)
Variable can_alloc : Z -> bool.

(** [memcpy(buff->b + buff->blen, str, slen); buff->blen += slen;] *)
Definition copy_new_content (buff : BuffFS) (str : list Z) : option BuffFS :=
  (fun b' => mkBuffFS b' (static buff) (buffsize buff)
               (wrap_size (blen buff + Z.of_nat (length str))) (err buff))
    <$> memcpy_to (b buff) (blen buff) str.

(** [static void addstr2buff(BuffFS *buff, const char *str, size_t slen)],
    [str] holding the [slen] bytes; [None] when a [memcpy] would leave its
    array. *)
Definition addstr2buff (buff : BuffFS) (str : list Z) : option BuffFS :=
  let slen := Z.of_nat (length str) in
  let left := wrap_size (buffsize buff - blen buff) in (* space left in the buffer *)
  if negb (err buff =? 0) then Some buff (* do nothing else after an error *)
  else if left <? slen then (* new string doesn't fit into current buffer? *)
    if wrap_size (MAX_SIZE / 2 - blen buff) <? slen then (* overflow? *)
      (* copy what it can; doesn't add anything else *)
      (fun b' => mkBuffFS b' (static buff) (buffsize buff) (buffsize buff) 2)
        <$> memcpy_to (b buff) (blen buff) (take (Z.to_nat left) str)
    else
      let newsize := wrap_size (buffsize buff + slen) in (* limited to MAX_SIZE/2 *)
      if negb (can_alloc newsize) then (* allocation error? *)
        Some (mkBuffFS (b buff) (static buff) (buffsize buff) (blen buff) 1)
          (* signal a memory error *)
      else
        let newb :=
          if static buff then (* new buffer (not reallocated)? *)
            (* copy previous content *)
            memcpy_to (replicate (Z.to_nat newsize) 0) 0
                      (take (Z.to_nat (blen buff)) (b buff))
          else
            Some (take (Z.to_nat newsize)
                    (b buff ++ replicate (Z.to_nat newsize - length (b buff)) 0)) in
        match newb with
        | Some newb =>
            (* set new (larger) buffer and its new size *)
            copy_new_content (mkBuffFS newb false newsize (blen buff) (err buff)) str
        | None => None
        end
  else copy_new_content buff str.

(** Successive calls of [addstr2buff] on the same buffer, as
    luaO_pushvfstring makes them. *)
Fixpoint addstrs2buff (buff : BuffFS) (strs : list (list Z)) : option BuffFS :=
  match strs with
  | [] => Some buff
  | str :: strs' =>
      match addstr2buff buff str with
      | Some buff' => addstrs2buff buff' strs'
      | None => None
      end
  end.

End WithAllocator.

(** The string the buffer holds. *)
Definition contents (buff : BuffFS) : list Z := take (Z.to_nat (blen buff)) (b buff).

(** The buffer is consistent: [b] has [buffsize] bytes, of which [blen]
    are in use. *)
Definition buff_ok (buff : BuffFS) : Prop :=
  Z.of_nat (length (b buff)) = buffsize buff /\
  0 <= blen buff <= buffsize buff /\
  buffsize buff - blen buff <= BUFVFS.

End FString.

(** ** lobject.c: numbers to strings *)

Module Num2Str.
Import Limits Lua Object Num Str2Num.

(** The formatting functions of the C library, which luaconf.h names
    [l_sprintf] ([snprintf]): the characters written for a number under a
    floating-point format, and for an integer under LUA_INTEGER_FMT. The
    value [snprintf] returns is their number. *)
Class LibFmt : Type := {
  l_sprintf : string -> lua_Number -> string;
  lua_integer2str : Z -> string
}.

(** luaconf.h, for [double]. *)
Definition LUA_NUMBER_FMT : string := "%.15g".
Definition LUA_NUMBER_FMT_N : string := "%.17g".

(** [strspn(s, accept)]: the length of the longest prefix of [s] made of
    characters of [accept]. *)
Fixpoint strspn (s : string) (accept : list Z) : nat :=
  match s with
  | EmptyString => O
  | String c s' =>
      if bool_decide (code c ∈ accept) then S (strspn s' accept) else O
  end.

(** The characters of ["-0123456789"]. *)
Definition integer_chars : list Z := [45; 48; 49; 50; 51; 52; 53; 54; 55; 56; 57].

(** [static int tostringbuffFloat(lua_Number n, char *buff)]: the
    characters of [buff] that the returned length covers. *)
Definition tostringbuffFloat `{LibC} `{LibFmt} (n : lua_Number) : string :=
  (* first conversion *)
  let buff := l_sprintf LUA_NUMBER_FMT n in
  let check := fst (lua_str2number buff) in (* read it back *)
  let buff :=
    if negb (num_eq check n) then (* not enough precision? *)
      l_sprintf LUA_NUMBER_FMT_N n (* convert again with more precision *)
    else buff in
  (* looks like an integer? *)
  if peek (drop_chars (strspn buff integer_chars) buff) =? 0 then
    (buff ++ String lua_getlocaledecpoint (String "0"%char EmptyString))%string
      (* adds '.0' to result *)
  else buff.

(** [unsigned luaO_tostringbuff(const TValue *obj, char *buff)]; [None]
    when the [lua_assert(ttisnumber(obj))] fails. *)
Definition luaO_tostringbuff `{LibC} `{LibFmt} (obj : TValue) : option string :=
  if negb (ttisnumber obj) then None
  else if ttisinteger obj then Some (lua_integer2str (ivalue obj))
  else Some (tostringbuffFloat (fltvalue obj)).

(** A C library that writes every number as ["1"]. *)
Definition ones_fmt : LibFmt :=
  {| l_sprintf := fun _ _ => "1"%string; lua_integer2str := fun _ => "1"%string |}.

End Num2Str.

(** ** lobject.c: a number printed and read back *)

Module RoundTrip.
Import Limits Lua Object Num Ctype Str2Num Num2Str.







(** The floats 0.3, 0.1 + 0.2 (the next float after 0.3) and 1. *)
Definition float_0_3 : lua_Number := S754_finite false 5404319552844595 (-54).
Definition float_0_1_plus_0_2 : lua_Number :=
  S754_finite false 5404319552844596 (-54).
Definition float_1 : lua_Number := S754_finite false 4503599627370496 (-52).

(** A C library that knows these three floats and the integer 42, and
    converts them as an ISO C library does: 0.1 + 0.2 is written 0.3
    with 15 significant digits, which reads back as another float, and
    0.30000000000000004 with 17. *)
Definition sample_libc : LibC :=
  {| lua_str2number := fun s =>
       if String.eqb s "0.3" then (float_0_3, 3%nat)
       else if String.eqb s "0.30000000000000004" then (float_0_1_plus_0_2, 19%nat)
       else if String.eqb s "1" then (float_1, 1%nat)
       else if String.eqb s "1.0" then (float_1, 3%nat)
       else (S754_zero false, O);
     lua_strx2number := fun _ => (S754_zero false, O);
     lua_getlocaledecpoint := "."%char |}.

Definition sample_fmt : LibFmt :=
  {| l_sprintf := fun f n =>
       if num_eq n float_1 then "1"%string
       else if num_eq n float_0_3 then "0.3"%string
       else if String.eqb f LUA_NUMBER_FMT then "0.3"%string
       else "0.30000000000000004"%string;
     lua_integer2str := fun i => if i =? 42 then "42"%string else "0"%string |}.

End RoundTrip.

(** ** lapi.c: indices as pointers, stack manipulation, pushes and reads *)

Module ApiStack.
Import Limits Lua Object Num VM Str2Num State Api.

(** The objects a [TValue *] of the API can designate. *)
Inductive TValuePtr : Type :=
| P_stack (o : Z)             (* s2v(L->stack.p + o) *)
| P_nilvalue                  (* &G(L)->nilvalue *)
| P_registry                  (* &G(L)->l_registry *)
| P_upvalue (cl : Z) (i : Z). (* &func->upvalue[i], func the C closure at cl *)

(** [static TValue *index2value(lua_State *L, int idx)] once more, now
    keeping the pointer returned; [None] when an [api_check] fails. *)
Definition index2value_ptr (L : lua_State) (idx : Z) : option TValuePtr :=
  let ci := ci L in
  if 0 <? idx then
    let o := func ci + idx in
    if negb (idx <=? ci_top ci - (func ci + 1)) then None (* unacceptable index *)
    else if top L <=? o then Some P_nilvalue
    else Some (P_stack o)
  else if negb (ispseudo idx) then
    (* negative index *)
    if negb (negb (idx =? 0) && (- idx <=? top L - (func ci + 1)))
    then None (* invalid index *)
    else Some (P_stack (top L + idx))
  else if idx =? LUA_REGISTRYINDEX then Some P_registry
  else
    (* upvalues *)
    let idx := LUA_REGISTRYINDEX - idx in
    if negb (idx <=? MAXUPVAL + 1) then None (* upvalue index too large *)
    else
      match slot L (func ci) with
      | None => None
      | Some fn =>
          if ttisCclosure fn then
            (* C closure? *)
            match value_ fn with
            | V_gc p =>
                match cclosures (l_G L) !! p with
                | Some cl =>
                    if idx <=? nupvalues cl
                    then Some (P_upvalue p (idx - 1))
                    else Some P_nilvalue
                | None => None
                end
            | _ => None
            end
          else
            (* light C function or Lua function (through a hook)? *)
            if negb (ttislcf fn) then None (* caller not a C function *)
            else Some P_nilvalue (* no upvalues *)
      end.

(** The value a pointer designates. *)
Definition deref (L : lua_State) (p : TValuePtr) : option TValue :=
  match p with
  | P_stack o => slot L o
  | P_nilvalue => Some (nilvalue (l_G L))
  | P_registry => Some (l_registry (l_G L))
  | P_upvalue cl i =>
      match cclosures (l_G L) !! cl with
      | Some c => upvalue c !! Z.to_nat i
      | None => None
      end
  end.

(** [#define isvalid(L, o) ((o) != &G(L)->nilvalue)] *)
Definition isvalid (o : TValuePtr) : bool :=
  match o with P_nilvalue => false | _ => true end.

(** [static StkId index2stack(lua_State *L, int idx)] *)
Definition index2stack (L : lua_State) (idx : Z) : option Z :=
  let ci := ci L in
  if 0 <? idx then
    let o := func ci + idx in
    if negb (o <? top L) then None (* invalid index *)
    else Some o
  else (* non-positive index *)
    if negb (negb (idx =? 0) && (- idx <=? top L - (func ci + 1)))
    then None (* invalid index *)
    else if negb (negb (ispseudo idx)) then None (* invalid index *)
    else Some (top L + idx).

(** [LUA_API int lua_absindex(lua_State *L, int idx)] *)
Definition lua_absindex (L : lua_State) (idx : Z) : Z :=
  if (0 <? idx) || ispseudo idx then idx
  else (top L - func (ci L)) + idx.

(** [LUA_API int lua_type(lua_State *L, int idx)] *)
Definition lua_type (L : lua_State) (idx : Z) : option Z :=
  match index2value_ptr L idx with
  | None => None
  | Some o => if isvalid o then ttype <$> deref L o else Some LUA_TNONE
  end.

(** lua.h: [#define lua_isnone(L, n) (lua_type(L, (n)) == LUA_TNONE)] *)
Definition lua_isnone (L : lua_State) (n : Z) : option bool :=
  (fun t => t =? LUA_TNONE) <$> lua_type L n.

(** Writing the value part of the stack slot at offset [o]: [None] when
    the slot is not in the array. *)
Definition set_slot (L : lua_State) (o : Z) (f : TValue -> TValue)
  : option lua_State :=
  if (0 <=? o) && (o <? Z.of_nat (length (stack L))) then
    Some (set_stack
            (alter (fun sv => mkStackValue (f (val sv)) (delta sv))
                   (Z.to_nat o) (stack L)) L)
  else None.

(** The loop of [static void reverse(lua_State *L, StkId from, StkId to)]:
    [for (; from < to; from++, to--) { temp = *from; *from = *to;
    *to = temp; }], copying the values only. *)
Fixpoint reverse_loop (fuel : nat) (L : lua_State) (from to : Z)
  : option lua_State :=
  match fuel with
  | O => if from <? to then None else Some L
  | S fuel' =>
      if from <? to then
        match slot L from, slot L to with
        | Some temp, Some vto =>
            match set_slot L from (fun o => setobj o vto) with
            | Some L1 =>
                match set_slot L1 to (fun o => setobj o temp) with
                | Some L2 => reverse_loop fuel' L2 (from + 1) (to - 1)
                | None => None
                end
            | None => None
            end
        | _, _ => None
        end
      else Some L
  end.

Definition reverse (L : lua_State) (from to : Z) : option lua_State :=
  reverse_loop (length (stack L)) L from to.

(** [LUA_API void lua_rotate(lua_State *L, int idx, int n)] *)
Definition lua_rotate (L : lua_State) (idx n : Z) : option lua_State :=
  let t := top L - 1 in (* end of stack segment being rotated *)
  match index2stack L idx with (* start of segment *)
  | None => None
  | Some p =>
      if negb (tbclist L <? p) then None (* moving a to-be-closed slot *)
      else if negb ((if 0 <=? n then n else - n) <=? t - p + 1) then None (* invalid 'n' *)
      else
        let m := if 0 <=? n then t - n else p - n - 1 in (* end of prefix *)
        match reverse L p m with (* reverse the prefix with length 'n' *)
        | Some L =>
            match reverse L (m + 1) t with (* reverse the suffix *)
            | Some L => reverse L p t (* reverse the entire segment *)
            | None => None
            end
        | None => None
        end
  end.

(** lua.h: [#define lua_pop(L, n) lua_settop(L, -(n) - 1)] *)
Definition lua_pop `{LFunc} (L : lua_State) (n : Z) : option lua_State :=
  lua_settop L (- n - 1).

(** lua.h: [#define lua_insert(L, idx) lua_rotate(L, (idx), 1)] *)
Definition lua_insert (L : lua_State) (idx : Z) : option lua_State :=
  lua_rotate L idx 1.

(** lua.h: [#define lua_remove(L, idx) (lua_rotate(L, (idx), -1), lua_pop(L, 1))] *)
Definition lua_remove `{LFunc} (L : lua_State) (idx : Z) : option lua_State :=
  match lua_rotate L idx (-1) with
  | Some L => lua_pop L 1
  | None => None
  end.

(** The push of one value: [f] sets the slot at the top, then
    [api_incr_top(L)]. *)
Definition push (L : lua_State) (f : TValue -> TValue) : option lua_State :=
  match set_slot L (top L) f with
  | Some L => api_incr_top L
  | None => None
  end.

(** [LUA_API void lua_pushnil(lua_State *L)] *)
Definition lua_pushnil (L : lua_State) : option lua_State := push L setnilvalue.

(** [LUA_API void lua_pushnumber(lua_State *L, lua_Number n)] *)
Definition lua_pushnumber (L : lua_State) (n : lua_Number) : option lua_State :=
  push L (fun o => setfltvalue o n).

(** [LUA_API void lua_pushinteger(lua_State *L, lua_Integer n)] *)
Definition lua_pushinteger (L : lua_State) (n : Z) : option lua_State :=
  push L (fun o => setivalue o n).

(** [LUA_API void lua_pushboolean(lua_State *L, int b)] *)
Definition lua_pushboolean (L : lua_State) (b : Z) : option lua_State :=
  if negb (b =? 0) then push L setbtvalue else push L setbfvalue.

(** The conversions of lvm.c with string coercion, which are not part of
    these sources: [luaV_tointeger] and [luaV_tonumber_] are parameters. *)
Class LVM : Type := {
  luaV_tointeger : TValue -> F2Imod -> option Z;
  luaV_tonumber_ : TValue -> option lua_Number
}.

(** lvm.h: [#define tointeger(o, i)
      (l_likely(ttisinteger(o)) ? ( *(i) = ivalue(o), 1)
                                : luaV_tointeger(o, i, LUA_FLOORN2I))] *)
Definition tointeger `{LVM} (o : TValue) : option Z :=
  if ttisinteger o then Some (ivalue o) else luaV_tointeger o LUA_FLOORN2I.

(** lvm.h: [#define tonumber(o, n)
      (ttisfloat(o) ? ( *(n) = fltvalue(o), 1) : luaV_tonumber_(o, n))] *)
Definition tonumber `{LVM} (o : TValue) : option lua_Number :=
  if ttisfloat o then Some (fltvalue o) else luaV_tonumber_ o.

(** [LUA_API lua_Integer lua_tointegerx(lua_State *L, int idx, int *pisnum)]:
    the result and what is stored in [*pisnum]. *)
Definition lua_tointegerx `{LVM} (L : lua_State) (idx : Z) : option (Z * Z) :=
  match index2value L idx with
  | None => None
  | Some o =>
      match tointeger o with
      | Some res => Some (res, 1)
      | None => Some (0, 0)
      end
  end.

(** [LUA_API lua_Number lua_tonumberx(lua_State *L, int idx, int *pisnum)] *)
Definition lua_tonumberx `{LVM} (L : lua_State) (idx : Z)
  : option (lua_Number * Z) :=
  match index2value L idx with
  | None => None
  | Some o =>
      match tonumber o with
      | Some n => Some (n, 1)
      | None => Some (S754_zero false, 0)
      end
  end.

(** [LUA_API int lua_isinteger(lua_State *L, int idx)] *)
Definition lua_isinteger (L : lua_State) (idx : Z) : option bool :=
  ttisinteger <$> index2value L idx.

(** [LUA_API size_t lua_stringtonumber(lua_State *L, const char *s)] *)
Definition lua_stringtonumber `{LibC} (L : lua_State) (s : string)
  : option (lua_State * Z) :=
  match slot L (top L) with
  | None => None
  | Some o =>
      let '(sz, o') := luaO_str2num s o in
      match set_slot L (top L) (fun _ => o') with
      | None => None
      | Some L =>
          if negb (sz =? 0) then (fun L => (L, sz)) <$> api_incr_top L
          else Some (L, sz)
      end
  end.

(** The collector's barrier (lgc.c is not part of these sources), which
    [lua_copy] calls after writing an upvalue of the running C closure. *)
Class LGC : Type := {
  luaC_barrier : lua_State -> Z -> TValue -> lua_State
}.

Definition set_l_G (g : global_State) (L : lua_State) : lua_State :=
  mklua_State (allowhook L) (status L) (top L) g (ci L) (stack_last L)
    (stack L) (openupval L) (tbclist L) (gclist L) (twups L) (errorJmp L)
    (base_ci L) (hook L) (errfunc L) (nCcalls L) (oldpc L) (nci L)
    (basehookcount L) (hookcount L) (hookmask L) (ftransfer L)
    (ntransfer L).

Definition set_l_registry (v : TValue) (g : global_State) : global_State :=
  mkglobal_State (frealloc g) (ud g) (GCtotalbytes g) (GCdebt g) (GCmarked g)
    (GCmajorminor g) (strt g) v (nilvalue g) (seed g)
    (gcparams g) (currentwhite g) (gcstate g) (gckind g) (gcstopem g)
    (gcstp g) (gcemergency g) (allgc g) (sweepgc g) (finobj g) (gray g)
    (grayagain g) (weak g) (ephemeron g) (allweak g) (tobefnz g)
    (fixedgc g) (survival g) (old1 g) (reallyold g) (firstold1 g)
    (finobjsur g) (finobjold1 g) (finobjrold g) (g_twups g) (panic g)
    (memerrmsg g) (tmname g) (mt g) (strcache g) (warnf g) (ud_warn g)
    (cclosures g).

Definition set_cclosures (v : gmap Z CClosure) (g : global_State) : global_State :=
  mkglobal_State (frealloc g) (ud g) (GCtotalbytes g) (GCdebt g) (GCmarked g)
    (GCmajorminor g) (strt g) (l_registry g) (nilvalue g) (seed g)
    (gcparams g) (currentwhite g) (gcstate g) (gckind g) (gcstopem g)
    (gcstp g) (gcemergency g) (allgc g) (sweepgc g) (finobj g) (gray g)
    (grayagain g) (weak g) (ephemeron g) (allweak g) (tobefnz g)
    (fixedgc g) (survival g) (old1 g) (reallyold g) (firstold1 g)
    (finobjsur g) (finobjold1 g) (finobjrold g) (g_twups g) (panic g)
    (memerrmsg g) (tmname g) (mt g) (strcache g) (warnf g) (ud_warn g)
    v.

(** [setobj(L, to, fr)] through a pointer. *)
Definition setobj_at (L : lua_State) (to : TValuePtr) (fr : TValue)
  : option lua_State :=
  match to with
  | P_stack o => set_slot L o (fun old => setobj old fr)
  | P_nilvalue => None (* the shared nil value is not to be written *)
  | P_registry =>
      Some (set_l_G (set_l_registry (setobj (l_registry (l_G L)) fr) (l_G L)) L)
  | P_upvalue cl i =>
      match cclosures (l_G L) !! cl with
      | Some c =>
          if (0 <=? i) && (i <? Z.of_nat (length (upvalue c))) then
            let c' := mkCClosure (nupvalues c) (f c)
                        (alter (fun old => setobj old fr) (Z.to_nat i) (upvalue c)) in
            Some (set_l_G (set_cclosures (<[cl := c']> (cclosures (l_G L))) (l_G L)) L)
          else None
      | None => None
      end
  end.

(** [LUA_API void lua_copy(lua_State *L, int fromidx, int toidx)] *)
Definition lua_copy `{LGC} (L : lua_State) (fromidx toidx : Z)
  : option lua_State :=
  match index2value_ptr L fromidx, index2value_ptr L toidx with
  | Some fr, Some to =>
      if negb (isvalid to) then None (* invalid index *)
      else
        match deref L fr with
        | None => None
        | Some v =>
            match setobj_at L to v with
            | None => None
            | Some L' =>
                if isupvalue toidx then (* function upvalue? *)
                  match slot L' (func (ci L')) with
                  | Some fn =>
                      match value_ fn with
                      | V_gc p => Some (luaC_barrier L' p v)
                      | _ => None
                      end
                  | None => None
                  end
                else Some L'
                (* LUA_REGISTRYINDEX does not need gc barrier *)
            end
        end
  | _, _ => None
  end.

(** lua.h: [#define lua_replace(L, idx) (lua_copy(L, -1, (idx)), lua_pop(L, 1))] *)
Definition lua_replace `{LGC} `{LFunc} (L : lua_State) (idx : Z)
  : option lua_State :=
  match lua_copy L (-1) idx with
  | Some L => lua_pop L 1
  | None => None
  end.

(** The values of the stack slots, and their [delta] fields. *)
Definition stack_values (L : lua_State) : list TValue := s2v <$> stack L.
Definition stack_deltas (L : lua_State) : list Z := delta <$> stack L.

(** The values of the current frame: slots [func + 1] to [top - 1], the
    ones the indices 1 to [lua_gettop] designate. *)
Definition frame_values (L : lua_State) : list TValue :=
  take (Z.to_nat (lua_gettop L)) (drop (Z.to_nat (func (ci L) + 1)) (stack_values L)).

(** A thread with the integers 10, 20, 30 and 40 at the indices 1 to 4 of
    its base frame. *)
Definition sample_thread : lua_State :=
  let L := stack_init sample_global in
  let int i := mkStackValue (mkTValue (V_i i) LUA_VNUMINT) 0 in
  set_top 5
    (set_stack (<[1%nat := int 10]> (<[2%nat := int 20]>
                 (<[3%nat := int 30]> (<[4%nat := int 40]> (stack L))))) L).

End ApiStack.

(** ** lapi.c: lua_gc and lua_checkstack; lstate.c: the C-call counter *)

Module Collector.
Import Limits Lua Object State Api Param ApiStack.

(** lgc.h *)
Definition GCSTPUSR : Z := 1. (* bit true when GC stopped by user *)
Definition GCSTPGC : Z := 2.  (* bit true when GC stopped by itself *)
Definition GCSTPCLS : Z := 4. (* bit true when closing Lua state *)
Definition GCSpause : Z := 8.

(** [#define gcrunning(g) ((g)->gcstp == 0)] *)
Definition gcrunning (g : global_State) : bool := gcstp g =? 0.

(** lstate.h *)
Definition KGC_INC : Z := 0.
Definition KGC_GENMINOR : Z := 1.

(** lua.h *)
Definition LUA_GCSTOP : Z := 0.
Definition LUA_GCRESTART : Z := 1.
Definition LUA_GCCOLLECT : Z := 2.
Definition LUA_GCCOUNT : Z := 3.
Definition LUA_GCCOUNTB : Z := 4.
Definition LUA_GCSTEP : Z := 5.
Definition LUA_GCISRUNNING : Z := 6.
Definition LUA_GCGEN : Z := 7.
Definition LUA_GCINC : Z := 8.
Definition LUA_GCPARAM : Z := 9.
Definition LUA_GCPN : Z := 6.

(** [#define cast_int(i) cast(int, (i))], to a 32-bit [int]. *)
Definition cast_int (i : Z) : Z := (i + 2 ^ 31) mod 2 ^ 32 - 2 ^ 31.

(** [#define cast_uint(i) cast(unsigned int, (i))] *)
Definition cast_uint (i : Z) : Z := i mod 2 ^ 32.

(** The collector proper (lgc.c is not part of these sources): a full
    collection, one step, and the change of mode. *)
Class LCollector : Type := {
  luaC_fullgc : lua_State -> Z -> lua_State;
  luaC_step : lua_State -> lua_State;
  luaC_changemode : lua_State -> Z -> lua_State
}.

Definition set_gcstp (v : Z) (g : global_State) : global_State :=
  mkglobal_State (frealloc g) (ud g) (GCtotalbytes g) (GCdebt g) (GCmarked g)
    (GCmajorminor g) (strt g) (l_registry g) (nilvalue g) (seed g)
    (gcparams g) (currentwhite g) (gcstate g) (gckind g) (gcstopem g)
    v (gcemergency g) (allgc g) (sweepgc g) (finobj g) (gray g)
    (grayagain g) (weak g) (ephemeron g) (allweak g) (tobefnz g)
    (fixedgc g) (survival g) (old1 g) (reallyold g) (firstold1 g)
    (finobjsur g) (finobjold1 g) (finobjrold g) (g_twups g) (panic g)
    (memerrmsg g) (tmname g) (mt g) (strcache g) (warnf g) (ud_warn g)
    (cclosures g).

Definition set_gcparams (v : list Z) (g : global_State) : global_State :=
  mkglobal_State (frealloc g) (ud g) (GCtotalbytes g) (GCdebt g) (GCmarked g)
    (GCmajorminor g) (strt g) (l_registry g) (nilvalue g) (seed g)
    v (currentwhite g) (gcstate g) (gckind g) (gcstopem g)
    (gcstp g) (gcemergency g) (allgc g) (sweepgc g) (finobj g) (gray g)
    (grayagain g) (weak g) (ephemeron g) (allweak g) (tobefnz g)
    (fixedgc g) (survival g) (old1 g) (reallyold g) (firstold1 g)
    (finobjsur g) (finobjold1 g) (finobjrold g) (g_twups g) (panic g)
    (memerrmsg g) (tmname g) (mt g) (strcache g) (warnf g) (ud_warn g)
    (cclosures g).

(** [LUA_API int lua_gc(lua_State *L, int what, ...)]; [args] are the
    variable arguments. [None] when an argument is missing, an
    [api_check] fails or luaO_codeparam does not return. *)
Definition lua_gc `{LCollector} (L : lua_State) (what : Z) (args : list Z)
  : option (lua_State * Z) :=
  let g := l_G L in
  if negb (Z.land (gcstp g) (Z.lor GCSTPGC GCSTPCLS) =? 0) then (* internal stop? *)
    Some (L, -1) (* all options are invalid when stopped *)
  else if what =? LUA_GCSTOP then
    Some (set_l_G (set_gcstp GCSTPUSR g) L, 0) (* stopped by the user *)
  else if what =? LUA_GCRESTART then
    let g := luaE_setdebt g 0 in
    Some (set_l_G (set_gcstp 0 g) L, 0) (* (other bits must be zero here) *)
  else if what =? LUA_GCCOLLECT then
    Some (luaC_fullgc L 0, 0)
  else if what =? LUA_GCCOUNT then
    (* GC values are expressed in Kbytes: #bytes/2^10 *)
    Some (L, cast_int (Z.shiftr (gettotalbytes g) 10))
  else if what =? LUA_GCCOUNTB then
    Some (L, cast_int (Z.land (gettotalbytes g) 1023))
  else if what =? LUA_GCSTEP then
    match args with
    | n :: _ =>
        let oldstp := gcstp g in
        let n := wrap_lmem n in
        let g := set_gcstp 0 g in (* allow GC to run (other bits must be zero here) *)
        let n := if n <=? 0 then GCdebt g else n in (* force to run one basic step *)
        let g := luaE_setdebt g (wrap_lmem (GCdebt g - n)) in
        let L := set_l_G g L in
        let '(L, work) :=
          if GCdebt (l_G L) <=? 0 then (luaC_step L, true) else (L, false) in
        let res := if work && (gcstate (l_G L) =? GCSpause) then 1 else 0 in
          (* end of cycle? signal it *)
        Some (set_l_G (set_gcstp oldstp (l_G L)) L, res) (* back to previous state *)
    | [] => None
    end
  else if what =? LUA_GCISRUNNING then
    Some (L, if gcrunning g then 1 else 0)
  else if what =? LUA_GCGEN then
    Some (luaC_changemode L KGC_GENMINOR,
          if gckind g =? KGC_INC then LUA_GCINC else LUA_GCGEN)
  else if what =? LUA_GCINC then
    Some (luaC_changemode L KGC_INC,
          if gckind g =? KGC_INC then LUA_GCINC else LUA_GCGEN)
  else if what =? LUA_GCPARAM then
    match args with
    | param :: value :: _ =>
        if negb ((0 <=? param) && (param <? LUA_GCPN)) then None (* invalid parameter *)
        else
          match gcparams g !! Z.to_nat param with
          | None => None
          | Some p =>
              let res := cast_int (luaO_applyparam p 100) in
              if 0 <=? value then
                match luaO_codeparam (cast_uint value) with
                | Some b =>
                    Some (set_l_G (set_gcparams (<[Z.to_nat param := b]> (gcparams g)) g) L,
                          res)
                | None => None
                end
              else Some (L, res)
          end
    | _ => None
    end
  else Some (L, -1). (* invalid option *)

(** The part of ldo.c that lua_checkstack calls (ldo.c is not part of
    these sources): the thread after the attempt to grow the stack, with
    [L->ci] still the same CallInfo, and the value returned. *)
Class LDo : Type := {
  luaD_growstack : lua_State -> Z -> Z -> lua_State * Z
}.

Definition set_ci (c : CallInfo) (L : lua_State) : lua_State :=
  mklua_State (allowhook L) (status L) (top L) (l_G L) c (stack_last L)
    (stack L) (openupval L) (tbclist L) (gclist L) (twups L) (errorJmp L)
    (base_ci L) (hook L) (errfunc L) (nCcalls L) (oldpc L) (nci L)
    (basehookcount L) (hookcount L) (hookmask L) (ftransfer L)
    (ntransfer L).

Definition set_ci_top (v : Z) (c : CallInfo) : CallInfo :=
  mkCallInfo (func c) v (previous c) (next c) (callstatus c).

(** [LUA_API int lua_checkstack(lua_State *L, int n)] *)
Definition lua_checkstack `{LDo} (L : lua_State) (n : Z)
  : option (lua_State * Z) :=
  if negb (0 <=? n) then None (* negative 'n' *)
  else
    let '(L, res) :=
      if n <? stack_last L - top L then (* stack large enough? *)
        (L, 1) (* yes; check is OK *)
      else (* need to grow stack *)
        luaD_growstack L n 0 in
    if negb (res =? 0) && (ci_top (ci L) <? top L + n) then
      Some (set_ci (set_ci_top (top L + n) (ci L)) L, res) (* adjust frame top *)
    else Some (L, res).

(** [k] pushes of nil, one after the other. *)
Fixpoint push_nils (k : nat) (L : lua_State) : option lua_State :=
  match k with
  | O => Some L
  | S k' =>
      match lua_pushnil L with
      | Some L' => push_nils k' L'
      | None => None
      end
  end.

(** ldo.h: [#define LUAI_MAXCCALLS 200] *)
Definition LUAI_MAXCCALLS : Z := 200.

(** lstate.h: [#define getCcalls(L) ((L)->nCcalls & 0xffff)] *)
Definition getCcalls (L : lua_State) : Z := Z.land (nCcalls L) 65535.

(** lstate.h: [#define yieldable(L) (((L)->nCcalls & 0xffff0000) == 0)] *)
Definition yieldable (L : lua_State) : bool :=
  Z.land (nCcalls L) 4294901760 =? 0.

Definition set_nCcalls (v : Z) (L : lua_State) : lua_State :=
  mklua_State (allowhook L) (status L) (top L) (l_G L) (ci L) (stack_last L)
    (stack L) (openupval L) (tbclist L) (gclist L) (twups L) (errorJmp L)
    (base_ci L) (hook L) (errfunc L) v (oldpc L) (nci L)
    (basehookcount L) (hookcount L) (hookmask L) (ftransfer L)
    (ntransfer L).

(** lstate.h: [#define incnny(L) ((L)->nCcalls += 0x10000)] and
    [#define decnny(L) ((L)->nCcalls -= 0x10000)], on a 32-bit unsigned
    counter. *)
Definition incnny (L : lua_State) : lua_State :=
  set_nCcalls (wrap32 (nCcalls L + 65536)) L.
Definition decnny (L : lua_State) : lua_State :=
  set_nCcalls (wrap32 (nCcalls L - 65536)) L.

(** [void luaE_checkcstack(lua_State *L)]; luaG_runerror and luaD_errerr
    do not return. *)
Definition luaE_checkcstack (L : lua_State) : result lua_State :=
  if getCcalls L =? LUAI_MAXCCALLS then (* possible C stack overflow? *)
    Raise "C stack overflow"
  else if LUAI_MAXCCALLS / 10 * 11 <=? getCcalls L then
    Raise "error in error handling" (* luaD_errerr: error while handling stack error *)
  else Ret L.

(** [LUAI_FUNC void luaE_incCstack(lua_State *L)] *)
Definition luaE_incCstack (L : lua_State) : result lua_State :=
  let L := set_nCcalls (wrap32 (nCcalls L + 1)) L in
  if LUAI_MAXCCALLS <=? getCcalls L then luaE_checkcstack L
  else Ret L.

End Collector.

(** ** lstate.c: the list of CallInfo objects *)

Module CallInfoList.
Import Lua State.

Definition NULL : Z := 0.

(** The part of a thread that the CallInfo functions of lstate.c work
    on: the allocated CallInfo objects by address (their [previous] and
    [next] fields are addresses), [L->ci] and [L->nci]. *)
Record ci_state : Type := mk_ci_state {
  heap : gmap Z CallInfo;
  L_ci : Z;
  L_nci : Z
}.

(** The least [int]. *)
Definition INT_MIN : Z := - 2 ^ 31.

(** [L->nci++] and [L->nci--] on the [int] field: [None] where the
    signed arithmetic overflows. *)
Definition int_incr (x : Z) : option Z :=
  if x + 1 <=? INT_MAX then Some (x + 1) else None.

Definition int_decr (x : Z) : option Z :=
  if INT_MIN <=? x - 1 then Some (x - 1) else None.

Definition set_next (v : Z) (c : CallInfo) : CallInfo :=
  mkCallInfo (func c) (ci_top c) (previous c) v (callstatus c).

Definition set_previous (v : Z) (c : CallInfo) : CallInfo :=
  mkCallInfo (func c) (ci_top c) v (next c) (callstatus c).

(** [CallInfo *luaE_extendCI(lua_State *L)], [a] being the address that
    [luaM_new] returns: the new state and the pointer returned. [None]
    when [L->ci] is not an object of the heap or the [lua_assert] fails. *)
Definition luaE_extendCI (st : ci_state) (a : Z) : option (ci_state * Z) :=
  match heap st !! L_ci st with
  | None => None
  | Some c =>
      if negb (next c =? NULL) then None
      else
        let h := <[L_ci st := set_next a c]> (heap st) in
        let h := <[a := mkCallInfo 0 0 (L_ci st) NULL 0]> h in
        match int_incr (L_nci st) with
        | None => None
        | Some n => Some (mk_ci_state h (L_ci st) n, a)
        end
  end.

(** The loop of freeCI: [while ((ci = next) != NULL)
    { next = ci->next; luaM_free(L, ci); L->nci--; }] *)
Fixpoint freeCI_loop (fuel : nat) (st : ci_state) (next_ : Z) : option ci_state :=
  match fuel with
  | O => None
  | S fuel' =>
      if next_ =? NULL then Some st
      else
        match heap st !! next_ with
        | None => None
        | Some c =>
            match int_decr (L_nci st) with
            | None => None
            | Some n =>
                freeCI_loop fuel'
                  (mk_ci_state (delete next_ (heap st)) (L_ci st) n) (next c)
            end
        end
  end.

(** [static void freeCI(lua_State *L)] *)
Definition freeCI (st : ci_state) : option ci_state :=
  match heap st !! L_ci st with
  | None => None
  | Some c =>
      let st' := mk_ci_state (<[L_ci st := set_next NULL c]> (heap st))
                             (L_ci st) (L_nci st) in
      freeCI_loop (S (base.size (heap st))) st' (next c)
  end.

(** The loop of luaE_shrinkCI, [ci] being the object it has reached. *)
Fixpoint shrinkCI_loop (fuel : nat) (st : ci_state) (ci : Z) : option ci_state :=
  match fuel with
  | O => None
  | S fuel' =>
      match heap st !! ci with
      | None => None
      | Some c =>
          let next_ := next c in
          if next_ =? NULL then Some st
          else (* two extra elements? *)
            match heap st !! next_ with
            | None => None
            | Some n =>
                let next2 := next n in (* next's next *)
                (* remove next from the list *)
                let h := <[ci := set_next next2 c]> (heap st) in
                match int_decr (L_nci st) with
                | None => None
                | Some nci' =>
                    let h := delete next_ h in (* free next *)
                    let st := mk_ci_state h (L_ci st) nci' in
                    if next2 =? NULL then Some st (* no more elements *)
                    else
                      match heap st !! next2 with
                      | None => None
                      | Some n2 =>
                          let h := <[next2 := set_previous ci n2]> (heap st) in
                          shrinkCI_loop fuel' (mk_ci_state h (L_ci st) (L_nci st))
                            next2 (* continue *)
                      end
                end
            end
      end
  end.

(** [void luaE_shrinkCI(lua_State *L)] *)
Definition luaE_shrinkCI (st : ci_state) : option ci_state :=
  match heap st !! L_ci st with
  | None => None
  | Some c =>
      let ci := next c in (* first free CallInfo *)
      if ci =? NULL then Some st (* no extra elements *)
      else shrinkCI_loop (S (base.size (heap st))) st ci
  end.

(** A doubly linked list in the heap: [chain h p prev l] holds when [p]
    points to the distinct objects at the addresses [l], linked by [next]
    in that order up to NULL, the first having [prev] for [previous] and
    each one after it its predecessor. *)
Fixpoint chain (h : gmap Z CallInfo) (p prev : Z) (l : list Z) : Prop :=
  match l with
  | [] => p = NULL
  | a :: l' =>
      p = a /\ a <> NULL /\ (a ∉ l') /\
      exists c, h !! a = Some c /\ previous c = prev /\ chain h (next c) a l'
  end.

(** Every other element of a list, starting with the first. *)
Fixpoint alternate {A} (l : list A) : list A :=
  match l with
  | a :: _ :: l' => a :: alternate l'
  | _ => l
  end.

(** A thread with three free CallInfo objects after the current one, and
    one with none. *)
Definition sample_ci (p n : Z) : CallInfo := mkCallInfo 0 0 p n 0.

Definition sample_cis : ci_state :=
  mk_ci_state
    (<[8 := sample_ci 0 16]> (<[16 := sample_ci 8 24]>
      (<[24 := sample_ci 16 32]> (<[32 := sample_ci 24 0]> ∅))))
    8 4.

Definition sample_base : ci_state :=
  mk_ci_state (<[8 := sample_ci 0 0]> ∅) 8 1.

End CallInfoList.

(** * Properties *)

Import StringTable Api State Utf8 Str2Num Ctype LObject VM Num Object Lua Limits.

(** ** Two's complement arithmetic *)

Section Wrap.

Lemma pow2_64 : 2 ^ 64 = 18446744073709551616.
Proof. reflexivity. Qed.

Lemma pow2_63 : 2 ^ 63 = 9223372036854775808.
Proof. reflexivity. Qed.

Lemma wrap_int_range z : LUA_MININTEGER <= wrap_int z <= LUA_MAXINTEGER.
Proof.
  unfold wrap_int, LUA_MININTEGER, LUA_MAXINTEGER.
  rewrite pow2_64, pow2_63.
  pose proof (Z.mod_pos_bound (z + 9223372036854775808) 18446744073709551616).
  lia.
Qed.

Lemma wrap_int_congr z : (wrap_int z - z) mod 2 ^ 64 = 0.
Proof.
  unfold wrap_int. rewrite pow2_64, pow2_63.
  rewrite (Z.mod_eq (z + 9223372036854775808) 18446744073709551616) by lia.
  match goal with
  | |- ?e mod _ = 0 =>
      replace e with
        (- ((z + 9223372036854775808) / 18446744073709551616)
         * 18446744073709551616) by lia
  end.
  apply Z.mod_mul. lia.
Qed.

Lemma wrap_int_small z :
  LUA_MININTEGER <= z <= LUA_MAXINTEGER -> wrap_int z = z.
Proof.
  unfold wrap_int, LUA_MININTEGER, LUA_MAXINTEGER.
  rewrite pow2_64, pow2_63. intros Hz.
  rewrite Z.mod_small by lia. lia.
Qed.

Lemma wrap_int_mod z : wrap_int (z mod 2 ^ 64) = wrap_int z.
Proof.
  unfold wrap_int. f_equal.
  rewrite Zplus_mod_idemp_l. reflexivity.
Qed.

Lemma wrap_int_mod_eq z : wrap_int z mod 2 ^ 64 = z mod 2 ^ 64.
Proof.
  unfold wrap_int.
  rewrite Zminus_mod, Z.mod_mod by (rewrite pow2_64; lia).
  rewrite <- Zminus_mod. f_equal. lia.
Qed.

Lemma l_castU2S_wrap u : l_castU2S u = wrap_int u.
Proof.
  unfold l_castU2S, wrap_int. rewrite pow2_64, pow2_63.
  pose proof (Z.mod_pos_bound u 18446744073709551616 ltac:(lia)) as Hu.
  rewrite (Zplus_mod u).
  change (9223372036854775808 mod 18446744073709551616)
    with 9223372036854775808.
  set (r := u mod 18446744073709551616) in *.
  destruct (Z.ltb_spec r 9223372036854775808).
  - rewrite (Z.mod_small (r + 9223372036854775808)) by lia. lia.
  - replace (r + 9223372036854775808)
      with ((r - 9223372036854775808) + 1 * 18446744073709551616) by lia.
    rewrite Z_mod_plus_full.
    rewrite (Z.mod_small (r - 9223372036854775808)) by lia. lia.
Qed.

Lemma intop_uadd v1 v2 : intop uadd v1 v2 = wrap_int (v1 + v2).
Proof.
  unfold intop, uadd, l_castS2U.
  rewrite l_castU2S_wrap, wrap_int_mod.
  rewrite <- (wrap_int_mod (v1 + v2)), (Zplus_mod v1 v2), wrap_int_mod.
  reflexivity.
Qed.

Lemma intop_usub v1 v2 : intop usub v1 v2 = wrap_int (v1 - v2).
Proof.
  unfold intop, usub, l_castS2U.
  rewrite l_castU2S_wrap, wrap_int_mod.
  rewrite <- (wrap_int_mod (v1 - v2)), (Zminus_mod v1 v2), wrap_int_mod.
  reflexivity.
Qed.

Lemma intop_umul v1 v2 : intop umul v1 v2 = wrap_int (v1 * v2).
Proof.
  unfold intop, umul, l_castS2U.
  rewrite l_castU2S_wrap, wrap_int_mod.
  rewrite <- (wrap_int_mod (v1 * v2)), (Zmult_mod v1 v2), wrap_int_mod.
  reflexivity.
Qed.

End Wrap.

(** C2. Integer addition, subtraction, multiplication and unary minus
    ([intarith] with LUA_OPADD, LUA_OPSUB, LUA_OPMUL, LUA_OPUNM) never
    raise an error and return the mathematical result reduced modulo
    2^64 to the signed 64-bit range: the result is [wrap_int] of the
    exact result, which lies between LUA_MININTEGER and LUA_MAXINTEGER
    and differs from the exact result by a multiple of 2^64 (so it is
    the exact result itself whenever that one fits). *)
Theorem intarith_wraps_around (v1 v2 : Z) :
  (intarith LUA_OPADD v1 v2 = Ret (wrap_int (v1 + v2)) /\
   intarith LUA_OPSUB v1 v2 = Ret (wrap_int (v1 - v2)) /\
   intarith LUA_OPMUL v1 v2 = Ret (wrap_int (v1 * v2)) /\
   intarith LUA_OPUNM v1 v2 = Ret (wrap_int (- v1))) /\
  (forall z : Z,
      LUA_MININTEGER <= wrap_int z <= LUA_MAXINTEGER /\
      (wrap_int z - z) mod 2 ^ 64 = 0 /\
      wrap_int (wrap_int z) = wrap_int z).
Proof.
  split.
  - unfold LUA_OPADD, LUA_OPSUB, LUA_OPMUL, LUA_OPUNM; cbn [intarith].
    rewrite intop_uadd, intop_usub, intop_umul, intop_usub.
    repeat split; reflexivity.
  - intros z. split; [apply wrap_int_range|].
    split; [apply wrap_int_congr|].
    apply wrap_int_small, wrap_int_range.
Qed.

(** ** Truth values *)

Section Truth.

Lemma l_isfalse_spec o :
  l_isfalse o = true <-> ttype o = LUA_TNIL \/ rawtt o = LUA_VFALSE.
Proof.
  unfold l_isfalse, ttisfalse, ttisnil, checktag, checktype.
  rewrite orb_true_iff, !Z.eqb_eq. tauto.
Qed.

Lemma lua_toboolean_cases L idx o :
  index2value L idx = Some o ->
  lua_toboolean L idx = Some (if l_isfalse o then 0 else 1).
Proof.
  intros Ho. unfold lua_toboolean. rewrite Ho.
  destruct (l_isfalse o); reflexivity.
Qed.

Lemma index2value_thread_with g v : index2value (thread_with g v) (-1) = Some v.
Proof. reflexivity. Qed.

End Truth.

(** C5. [lua_toboolean] returns 0 (false) exactly for the values whose
    type is nil and for the boolean false, and 1 for every other value;
    in particular the integer 0, the float 0.0 and a string (so the empty
    string too) are true. Every value is reached by some index of some
    thread, so this covers every value. *)
Theorem lua_toboolean_false_iff (L : lua_State) (idx : Z) (o : TValue) :
  index2value L idx = Some o ->
  (lua_toboolean L idx = Some 0 <-> ttype o = LUA_TNIL \/ rawtt o = LUA_VFALSE) /\
  (lua_toboolean L idx = Some 1 <-> ~ (ttype o = LUA_TNIL \/ rawtt o = LUA_VFALSE)) /\
  (forall (g : global_State) (v : TValue),
      index2value (thread_with g v) (-1) = Some v) /\
  (forall (res : TValue) (i : Z), l_isfalse (setivalue res i) = false) /\
  (forall (res : TValue) (n : lua_Number), l_isfalse (setfltvalue res n) = false) /\
  (forall (res : TValue) (ts : Z),
      l_isfalse (setsvalue res ts LUA_VSHRSTR) = false /\
      l_isfalse (setsvalue res ts LUA_VLNGSTR) = false) /\
  l_isfalse (setbtvalue o) = false /\
  l_isfalse (setbfvalue o) = true /\
  l_isfalse (setnilvalue o) = true.
Proof.
  intros Ho. rewrite (lua_toboolean_cases L idx o Ho).
  pose proof (l_isfalse_spec o) as Hs.
  split; [|split; [|repeat split; reflexivity]].
  - destruct (l_isfalse o).
    + split; intros _; [apply Hs|]; reflexivity.
    + split; [discriminate|]. intros H. apply Hs in H. discriminate H.
  - destruct (l_isfalse o).
    + split; [discriminate|]. intros H. exfalso. apply H, Hs. reflexivity.
    + split; [|reflexivity]. intros _ H. apply Hs in H. discriminate H.
Qed.

Lemma lua_toboolean_false_iff_witness :
  index2value (thread_with sample_global (mkTValue (V_i 0) LUA_VNUMINT)) (-1)
  = Some (mkTValue (V_i 0) LUA_VNUMINT) /\
  lua_toboolean (thread_with sample_global (mkTValue (V_i 0) LUA_VNUMINT)) (-1)
  = Some 1.
Proof.
  split; [reflexivity|].
  apply (lua_toboolean_false_iff
           (thread_with sample_global (mkTValue (V_i 0) LUA_VNUMINT)) (-1)
           (mkTValue (V_i 0) LUA_VNUMINT) eq_refl).
  intros [H | H]; vm_compute in H; discriminate H.
Defined.

(** ** The GC debt *)

Section Debt.

Lemma wrap_lmem_range z : MIN_LMEM <= wrap_lmem z <= MAX_LMEM.
Proof. apply wrap_int_range. Qed.

Lemma wrap_lmem_small z : MIN_LMEM <= z <= MAX_LMEM -> wrap_lmem z = z.
Proof. apply wrap_int_small. Qed.

Lemma wrap_lmem_mod_eq a b :
  a mod 2 ^ 64 = b mod 2 ^ 64 -> wrap_lmem a = wrap_lmem b.
Proof.
  intros H. change wrap_lmem with wrap_int.
  rewrite <- (wrap_int_mod a), <- (wrap_int_mod b), H. reflexivity.
Qed.

Lemma wrap_lmem_add_sub a b : wrap_lmem (wrap_lmem (a + b) - b) = wrap_lmem a.
Proof.
  apply wrap_lmem_mod_eq.
  rewrite Zminus_mod.
  change (wrap_lmem (a + b)) with (wrap_int (a + b)).
  rewrite wrap_int_mod_eq, <- Zminus_mod. f_equal. lia.
Qed.

Lemma wrap_lmem_idem z : wrap_lmem (wrap_lmem z) = wrap_lmem z.
Proof. apply wrap_lmem_small, wrap_lmem_range. Qed.

End Debt.

(** C9. [luaE_setdebt g d] keeps the number of bytes in use,
    [gettotalbytes] = GCtotalbytes - GCdebt, as it was; the new GCdebt
    is [d] unless [d] exceeds MAX_LMEM minus that number, in which case
    it is reduced to that bound and GCtotalbytes becomes MAX_LMEM; every
    field other than GCtotalbytes and GCdebt is left as it was. *)
Theorem luaE_setdebt_keeps_total (g : global_State) (d : Z) :
  let tb := gettotalbytes g in
  let limit := wrap_lmem (MAX_LMEM - tb) in
  let g' := luaE_setdebt g d in
  gettotalbytes g' = tb /\
  GCdebt g' = (if limit <? d then limit else d) /\
  GCtotalbytes g' = wrap_lmem (tb + GCdebt g') /\
  (if limit <? d then GCtotalbytes g' = MAX_LMEM else GCdebt g' = d) /\
  same_but_debt g g'.
Proof.
  intros tb limit g'.
  assert (Hd : GCdebt g' = (if limit <? d then limit else d)) by reflexivity.
  assert (Ht : GCtotalbytes g' = wrap_lmem (tb + GCdebt g')) by reflexivity.
  split; [|split; [exact Hd|split; [exact Ht|split]]].
  - unfold gettotalbytes at 1. rewrite Ht.
    rewrite wrap_lmem_add_sub. apply wrap_lmem_idem.
  - destruct (Z.ltb_spec limit d) as [Hlt | Hle]; [|exact Hd].
    rewrite Ht, Hd. unfold limit.
    rewrite (wrap_lmem_mod_eq (tb + wrap_lmem (MAX_LMEM - tb)) MAX_LMEM).
    + apply wrap_lmem_small. unfold MIN_LMEM, MAX_LMEM. lia.
    + rewrite Zplus_mod.
      change (wrap_lmem (MAX_LMEM - tb)) with (wrap_int (MAX_LMEM - tb)).
      rewrite wrap_int_mod_eq, <- Zplus_mod. f_equal. lia.
  - unfold same_but_debt. repeat split; reflexivity.
Qed.

(** ** Raw arithmetic *)

Section RawArith.

Context {M : LibM}.

Lemma SFeqb_finite s m e s' m' e' :
  SFeqb (S754_finite s m e) (S754_finite s' m' e') = true ->
  s = s' /\ e = e' /\ m = m'.
Proof.
  unfold SFeqb, SFcompare.
  destruct s, s'; try discriminate;
    destruct (Z.compare_spec e e') as [He | He | He]; try discriminate;
    change (Pos.compare_cont Eq m m') with (m ?= m')%positive;
    destruct (Pos.compare_spec m m'); cbn; try discriminate; auto.
Qed.

Lemma float_of_small_int_ne s z m e :
  0 < z -> e < 0 -> Zpos m mod 2 ^ (- e) <> 0 ->
  SFeqb (S754_finite s m e) (float_of_small_int s z) = false.
Proof.
  intros Hz He Hm. unfold float_of_small_int.
  destruct (Z.leb_spec (Zdigits2 z) prec) as [Hd | Hd].
  - destruct (SFeqb _ _) eqn:E; [|reflexivity]. exfalso.
    apply SFeqb_finite in E as (_ & E1 & E2).
    apply Hm. rewrite E2.
    assert (0 < 2 ^ (prec - Zdigits2 z)) by (apply Z.pow_pos_nonneg; lia).
    rewrite Z2Pos.id by nia.
    replace (- e) with (prec - Zdigits2 z) by lia.
    apply Z.mod_mul. lia.
  - destruct (SFeqb _ _) eqn:E; [|reflexivity]. exfalso.
    apply SFeqb_finite in E as (_ & E1 & _). lia.
Qed.

Lemma l_floor_not_integral s m e :
  e < 0 -> Zpos m mod 2 ^ (- e) <> 0 ->
  num_eq (S754_finite s m e) (l_floor (S754_finite s m e)) = false.
Proof.
  intros He Hm. unfold num_eq, l_floor.
  destruct (Z.leb_spec 0 e) as [|_]; [lia|].
  destruct (Z.eqb_spec (Zpos m mod 2 ^ (- e)) 0) as [|_]; [contradiction|].
  assert (0 < 2 ^ (- e)) by (apply Z.pow_pos_nonneg; lia).
  assert (0 <= Zpos m / 2 ^ (- e)) by (apply Z.div_pos; lia).
  destruct s.
  - apply float_of_small_int_ne; lia.
  - destruct (Z.eqb_spec (Zpos m / 2 ^ (- e)) 0); [reflexivity|].
    apply float_of_small_int_ne; lia.
Qed.

(** A float that converts in mode [F2Ieq] has an integer for value, and
    the conversion returns that integer. *)
Lemma luaV_flttointeger_exact n i :
  luaV_flttointeger n F2Ieq = Some i -> float_exact_int n = Some i.
Proof.
  unfold luaV_flttointeger.
  destruct (num_eq n (l_floor n)) eqn:E; cbn [negb]; [|discriminate].
  unfold lua_numbertointeger.
  destruct (_ && _) eqn:R; [|discriminate]. intros [= <-].
  destruct n as [s | s | | s m e].
  - reflexivity.
  - destruct s; vm_compute in R; discriminate R.
  - vm_compute in E. discriminate E.
  - unfold float_exact_int, l_floor in *.
    destruct (Z.leb_spec 0 e) as [He | He].
    + unfold cast_integer. destruct (Z.leb_spec 0 e); [reflexivity|lia].
    + destruct (Z.eqb_spec (Zpos m mod 2 ^ (- e)) 0) as [Hm | Hm].
      * unfold cast_integer. destruct (Z.leb_spec 0 e); [lia|reflexivity].
      * pose proof (l_floor_not_integral s m e He Hm) as Hf.
        unfold l_floor in Hf.
        destruct (Z.leb_spec 0 e) as [|_] in Hf; [lia|].
        destruct (Z.eqb_spec (Zpos m mod 2 ^ (- e)) 0) as [|_] in Hf;
          [contradiction|].
        rewrite Hf in E. discriminate E.
Qed.

Lemma tointegerns_integer p : ttisinteger p = true -> tointegerns p = Some (ivalue p).
Proof. intros H. unfold tointegerns. rewrite H. reflexivity. Qed.

Lemma ttisfloat_not_integer p : ttisfloat p = true -> ttisinteger p = false.
Proof.
  unfold ttisfloat, ttisinteger, checktag. rewrite Z.eqb_eq. intros ->.
  reflexivity.
Qed.

Lemma tointegerns_other p i :
  ttisinteger p = false -> tointegerns p = Some i ->
  ttisfloat p = true /\ float_exact_int (fltvalue p) = Some i.
Proof.
  intros Hi. unfold tointegerns, luaV_tointegerns. rewrite Hi.
  destruct (ttisfloat p); [|discriminate].
  intros H. split; [reflexivity|].
  apply luaV_flttointeger_exact, H.
Qed.

Lemma tonumberns_number p : is_number p -> is_Some (tonumberns p).
Proof.
  unfold tonumberns. intros [H | H].
  - destruct (ttisfloat p); [eauto|]. rewrite H. eauto.
  - rewrite H. eauto.
Qed.

Lemma intarith_bitwise op i1 i2 :
  bitwise_op op -> exists r, intarith op i1 i2 = Ret r.
Proof.
  intros [-> | [-> | [-> | [-> | [-> | ->]]]]]; cbn; eauto.
Qed.

End RawArith.

(** C3. With a bitwise operator, [luaO_rawarith] succeeds (returns 1 and
    stores an integer in [res]) exactly when both operands convert to
    integers with [tointegerns], that is in mode F2Ieq; otherwise it
    returns 0 and leaves [res] as it was. An integer operand always
    converts; any other operand that converts is a float whose value is
    that very integer. *)
Theorem rawarith_bitwise_iff (M : LibM) (op : Z) (p1 p2 res : TValue) :
  bitwise_op op ->
  ((exists r, luaO_rawarith op p1 p2 res = Ret (1, r)) <->
   (is_Some (tointegerns p1) /\ is_Some (tointegerns p2))) /\
  (forall r, luaO_rawarith op p1 p2 res = Ret (1, r) -> ttisinteger r = true) /\
  (~ (is_Some (tointegerns p1) /\ is_Some (tointegerns p2)) ->
   luaO_rawarith op p1 p2 res = Ret (0, res)) /\
  (forall p, ttisinteger p = true -> tointegerns p = Some (ivalue p)) /\
  (forall p i, ttisinteger p = false -> tointegerns p = Some i ->
               ttisfloat p = true /\ float_exact_int (fltvalue p) = Some i).
Proof.
  intros Hop.
  assert (Hdef : luaO_rawarith op p1 p2 res =
                 match tointegerns p1, tointegerns p2 with
                 | Some i1, Some i2 =>
                     match intarith op i1 i2 with
                     | Ret r => Ret (1, setivalue res r)
                     | Raise msg => Raise msg
                     end
                 | _, _ => Ret (0, res)
                 end).
  { destruct Hop as [-> | [-> | [-> | [-> | [-> | ->]]]]]; reflexivity. }
  rewrite Hdef.
  split; [|split; [|split; [|split]]].
  - split.
    + intros [r Hr].
      destruct (tointegerns p1), (tointegerns p2); try discriminate Hr; eauto.
    + intros [[i1 ->] [i2 ->]].
      destruct (intarith_bitwise op i1 i2 Hop) as [r ->]. eauto.
  - intros r.
    destruct (tointegerns p1), (tointegerns p2); try discriminate.
    destruct (intarith op _ _); [|discriminate]. intros [= <-]. reflexivity.
  - intros Hn.
    destruct (tointegerns p1), (tointegerns p2); try reflexivity.
    exfalso. apply Hn. eauto.
  - apply tointegerns_integer.
  - apply tointegerns_other.
Qed.

Lemma rawarith_bitwise_iff_witness :
  bitwise_op LUA_OPBAND /\
  exists r,
    luaO_rawarith (H := no_libm) LUA_OPBAND
      (mkTValue (V_i 6) LUA_VNUMINT) (mkTValue (V_n (cast_num 3)) LUA_VNUMFLT)
      (mkTValue (V_ub 0) LUA_VNIL) = Ret (1, r).
Proof.
  split; [left; reflexivity|].
  apply (rawarith_bitwise_iff no_libm LUA_OPBAND
           (mkTValue (V_i 6) LUA_VNUMINT) (mkTValue (V_n (cast_num 3)) LUA_VNUMFLT)
           (mkTValue (V_ub 0) LUA_VNIL) (or_introl eq_refl)).
  split; vm_compute; eauto.
Defined.

(** C1, as the code has it. On two numbers, LUA_OPDIV and LUA_OPPOW
    succeed with a float result. On two integers, LUA_OPADD, LUA_OPSUB
    and LUA_OPMUL succeed with an integer result; LUA_OPIDIV and
    LUA_OPMOD succeed with an integer result when the divisor is not
    zero, and raise an error (they do not return) when it is zero. *)
Theorem rawarith_result_kind (M : LibM) (p1 p2 res : TValue) :
  is_number p1 -> is_number p2 ->
  (forall op, op = LUA_OPDIV \/ op = LUA_OPPOW ->
     exists r, luaO_rawarith op p1 p2 res = Ret (1, r) /\ ttisfloat r = true) /\
  (ttisinteger p1 = true -> ttisinteger p2 = true ->
   (forall op, op = LUA_OPADD \/ op = LUA_OPSUB \/ op = LUA_OPMUL ->
      exists r, luaO_rawarith op p1 p2 res = Ret (1, r) /\ ttisinteger r = true) /\
   (forall op, op = LUA_OPIDIV \/ op = LUA_OPMOD ->
      if ivalue p2 =? 0
      then exists msg, luaO_rawarith op p1 p2 res = Raise msg
      else exists r, luaO_rawarith op p1 p2 res = Ret (1, r) /\ ttisinteger r = true)).
Proof.
  intros H1 H2. split.
  - intros op Hop.
    destruct (tonumberns_number p1 H1) as [n1 Hn1].
    destruct (tonumberns_number p2 H2) as [n2 Hn2].
    destruct Hop as [-> | ->]; cbn [luaO_rawarith LUA_OPDIV LUA_OPPOW];
      rewrite Hn1, Hn2; eauto.
  - intros Hi1 Hi2. split.
    + intros op [-> | [-> | ->]];
        cbn [luaO_rawarith LUA_OPADD LUA_OPSUB LUA_OPMUL intarith];
        rewrite Hi1, Hi2; cbn [andb]; eauto.
    + intros op Hop.
      destruct (Z.eqb_spec (ivalue p2) 0) as [Hz | Hz].
      * destruct Hop as [-> | ->];
          cbn [luaO_rawarith LUA_OPIDIV LUA_OPMOD intarith];
          rewrite Hi1, Hi2; cbn [andb]; unfold luaV_idiv, luaV_mod;
          rewrite Hz; cbn; eauto.
      * destruct Hop as [-> | ->];
          cbn [luaO_rawarith LUA_OPIDIV LUA_OPMOD intarith];
          rewrite Hi1, Hi2; cbn [andb]; unfold luaV_idiv, luaV_mod;
          destruct (Z.eqb_spec (ivalue p2) 0); try contradiction; eauto.
Qed.

Lemma rawarith_result_kind_witness :
  is_number (mkTValue (V_i 7) LUA_VNUMINT) /\
  is_number (mkTValue (V_i 2) LUA_VNUMINT) /\
  exists r,
    luaO_rawarith (H := no_libm) LUA_OPDIV
      (mkTValue (V_i 7) LUA_VNUMINT) (mkTValue (V_i 2) LUA_VNUMINT)
      (mkTValue (V_ub 0) LUA_VNIL) = Ret (1, r) /\ ttisfloat r = true.
Proof.
  split; [left; reflexivity|]. split; [left; reflexivity|].
  apply (rawarith_result_kind no_libm
           (mkTValue (V_i 7) LUA_VNUMINT) (mkTValue (V_i 2) LUA_VNUMINT)
           (mkTValue (V_ub 0) LUA_VNIL)
           (or_introl eq_refl) (or_introl eq_refl)).
  left. reflexivity.
Defined.

(** C1, counterexample to the claim as stated: the floor division of the
    integer 1 by the integer 0 does not succeed, it raises an error. *)
Lemma rawarith_idiv_zero_raises :
  ttisinteger (mkTValue (V_i 1) LUA_VNUMINT) = true /\
  ttisinteger (mkTValue (V_i 0) LUA_VNUMINT) = true /\
  luaO_rawarith (H := no_libm) LUA_OPIDIV
    (mkTValue (V_i 1) LUA_VNUMINT) (mkTValue (V_i 0) LUA_VNUMINT)
    (mkTValue (V_ub 0) LUA_VNIL) = Raise "attempt to perform 'n//0'" /\
  ~ (exists r,
       luaO_rawarith (H := no_libm) LUA_OPIDIV
         (mkTValue (V_i 1) LUA_VNUMINT) (mkTValue (V_i 0) LUA_VNUMINT)
         (mkTValue (V_ub 0) LUA_VNIL) = Ret (1, r)).
Proof.
  repeat split; try reflexivity.
  intros [r Hr]. vm_compute in Hr. discriminate Hr.
Qed.

(** ** UTF-8 escapes *)

Section Utf8Esc.

Lemma forall_below (P : Z -> bool) (n : nat) :
  forallb P (map Z.of_nat (seq 0 n)) = true ->
  forall d, 0 <= d < Z.of_nat n -> P d = true.
Proof.
  intros H d Hd. rewrite forallb_forall in H. apply H.
  apply in_map_iff. exists (Z.to_nat d). split; [lia|].
  apply in_seq. lia.
Qed.

Lemma cont_byte x :
  0 <= x -> cast_char (Z.lor 128 (Z.land x 63)) = 128 + x mod 64.
Proof.
  intros Hx. change 63 with (Z.ones 6). rewrite Z.land_ones by lia.
  change (2 ^ 6) with 64.
  pose proof (Z.mod_pos_bound x 64 ltac:(lia)) as Hd.
  generalize dependent (x mod 64). intros d Hd.
  apply Z.eqb_eq.
  apply (forall_below (fun d => cast_char (Z.lor 128 d) =? 128 + d) 64);
    [vm_compute; reflexivity | lia].
Qed.

Lemma first_byte (mfb lead t : Z) :
  forallb (fun t => cast_char (Z.lor (wrap32 (Z.shiftl (wrap32 (Z.lnot mfb)) 1)) t)
                    =? lead + t)
    (map Z.of_nat (seq 0 (Z.to_nat (mfb + 1)))) = true ->
  0 <= t <= mfb ->
  cast_char (Z.lor (wrap32 (Z.shiftl (wrap32 (Z.lnot mfb)) 1)) t) = lead + t.
Proof.
  intros H Ht. apply Z.eqb_eq.
  apply (forall_below _ _ H). lia.
Qed.

Lemma loop_unfold fuel buff n x mfb :
  0 <= x -> 0 <= UTF8BUFFSZ - n < Z.of_nat (length buff) ->
  utf8esc_loop (S fuel) buff n x mfb =
    if mfb / 2 <? x / 64
    then utf8esc_loop fuel (<[Z.to_nat (UTF8BUFFSZ - n) := 128 + x mod 64]> buff)
           (n + 1) (x / 64) (mfb / 2)
    else Some (<[Z.to_nat (UTF8BUFFSZ - n) := 128 + x mod 64]> buff,
               n + 1, x / 64, mfb / 2).
Proof.
  intros Hx Hn. cbn [utf8esc_loop]. unfold store.
  destruct (Z.leb_spec 0 (UTF8BUFFSZ - n)); [|lia].
  destruct (Z.ltb_spec (UTF8BUFFSZ - n) (Z.of_nat (length buff))); [|lia].
  cbn [andb]. rewrite cont_byte by lia.
  rewrite !Z.shiftr_div_pow2 by lia.
  change (2 ^ 6) with 64. change (2 ^ 1) with 2. reflexivity.
Qed.

End Utf8Esc.

Section Utf8Cases.

Ltac div_lia := Z.div_mod_to_equations; lia.

Ltac side := rewrite ?length_insert; unfold UTF8BUFFSZ; cbn; div_lia.

Ltac more :=
  rewrite loop_unfold by side;
  match goal with
  | |- context [if ?a <? ?b then utf8esc_loop _ _ _ _ _ else _] =>
      destruct (Z.ltb_spec a b); [|exfalso; div_lia]
  end.

Ltac last mfb lead :=
  rewrite loop_unfold by side;
  match goal with
  | |- context [if ?a <? ?b then utf8esc_loop _ _ _ _ _ else _] =>
      destruct (Z.ltb_spec a b); [exfalso; div_lia|]
  end;
  unfold store;
  match goal with
  | |- context [if ?c then Some _ else None] =>
      replace c with true by (symmetry; rewrite ?length_insert; reflexivity)
  end;
  rewrite (first_byte mfb lead) by (first [vm_compute; reflexivity | div_lia]);
  reflexivity.

Lemma utf8esc_sequence b0 b1 b2 b3 b4 b5 b6 b7 x :
  0 <= x <= 2147483647 ->
  luaO_utf8esc [b0; b1; b2; b3; b4; b5; b6; b7] x =
    Some (take (8 - length (utf8_sequence x)) [b0; b1; b2; b3; b4; b5; b6; b7]
            ++ utf8_sequence x,
          Z.of_nat (length (utf8_sequence x))).
Proof.
  intros Hx. unfold luaO_utf8esc, utf8_sequence.
  destruct (Z.ltb_spec x 128).
  { unfold store, cast_char. rewrite Z.mod_small by lia. reflexivity. }
  destruct (Z.ltb_spec x 2048).
  { last 31 192. }
  more.
  destruct (Z.ltb_spec x 65536).
  { last 15 224. }
  more.
  destruct (Z.ltb_spec x 2097152).
  { last 7 240. }
  more.
  destruct (Z.ltb_spec x 67108864).
  { last 3 248. }
  more.
  last 1 252.
Qed.

Lemma decode_sequence x :
  0 <= x <= 2147483647 -> utf8_decode (utf8_sequence x) = Some x.
Proof.
  intros Hx. unfold utf8_sequence.
  repeat match goal with
         | |- context [if ?a <? ?b then _ else _] => destruct (Z.ltb_spec a b)
         end;
    unfold utf8_decode, utf8_lead;
    repeat match goal with
           | |- context [(?a <=? ?b) && (?c <? ?d)] =>
               destruct (Z.leb_spec a b); destruct (Z.ltb_spec c d);
               cbn [andb]; try (exfalso; div_lia)
           end;
    cbn [length Nat.eqb decode_cont];
    repeat match goal with
           | |- context [(?a <=? ?b) && (?c <? ?d)] =>
               destruct (Z.leb_spec a b); destruct (Z.ltb_spec c d);
               cbn [andb]; try (exfalso; div_lia)
           end;
    cbn [utf8_min];
    match goal with
    | |- (if ?a <=? ?b then _ else _) = _ =>
        destruct (Z.leb_spec a b); [f_equal; div_lia | exfalso; div_lia]
    end.
Qed.

End Utf8Cases.

Lemma utf8_sequence_length x :
  (1 <= length (utf8_sequence x) <= 6)%nat /\ (x < 128 -> utf8_sequence x = [x]).
Proof.
  unfold utf8_sequence.
  repeat match goal with
         | |- context [if ?a <? ?b then _ else _] => destruct (Z.ltb_spec a b)
         end; cbn [length]; split; (lia || reflexivity || (intros; lia)).
Qed.

(** C10. For a code point [x] with 0 <= x <= 0x7FFFFFFF and a buffer of
    UTF8BUFFSZ bytes, [luaO_utf8esc] returns a count [n] with
    1 <= n <= UTF8BUFFSZ; the buffer on return is the old one with its
    last [n] bytes replaced (the bytes before them are untouched); the
    [n] bytes are the single byte [x] when x < 0x80, and in every case
    they form the UTF-8 sequence of [x]: decoding them gives [x] back. *)
Theorem luaO_utf8esc_encodes (buff : list Z) (x : Z) :
  length buff = 8%nat ->
  0 <= x <= 2147483647 ->
  exists (n : nat) (enc : list Z),
    luaO_utf8esc buff x = Some (take (8 - n) buff ++ enc, Z.of_nat n) /\
    length enc = n /\
    1 <= Z.of_nat n <= UTF8BUFFSZ /\
    (x < 128 -> enc = [x]) /\
    utf8_decode enc = Some x.
Proof.
  intros Hlen Hx.
  do 9 (destruct buff as [|? buff]; try discriminate Hlen).
  exists (length (utf8_sequence x)), (utf8_sequence x).
  destruct (utf8_sequence_length x) as [Hn H1].
  split; [apply utf8esc_sequence, Hx|].
  split; [reflexivity|].
  split; [unfold UTF8BUFFSZ; lia|].
  split; [exact H1|].
  apply decode_sequence, Hx.
Qed.

Lemma luaO_utf8esc_encodes_witness :
  exists (n : nat) (enc : list Z),
    luaO_utf8esc [0; 0; 0; 0; 0; 0; 0; 0] 8364 =
      Some (take (8 - n) [0; 0; 0; 0; 0; 0; 0; 0] ++ enc, Z.of_nat n) /\
    length enc = n /\
    1 <= Z.of_nat n <= UTF8BUFFSZ /\
    (8364 < 128 -> enc = [8364]) /\
    utf8_decode enc = Some 8364.
Proof.
  apply (luaO_utf8esc_encodes [0; 0; 0; 0; 0; 0; 0; 0] 8364).
  - reflexivity.
  - lia.
Defined.

(** ** Numerals *)

Section Numerals.

Local Abbreviation str := string_of_list_ascii.

Lemma code_range c : 0 <= code c < 256.
Proof.
  unfold code. pose proof (N_ascii_bounded c). lia.
Qed.

Lemma code_digit_char d : is_digit d -> code (digit_char d) = 48 + d.
Proof.
  unfold is_digit, code, digit_char. intros Hd.
  rewrite N_ascii_embedding by lia. lia.
Qed.

Lemma space_not_digit c :
  is_space c -> lisdigit (code c) = false /\ code c <> 120 /\ code c <> 88
                /\ code c <> 0.
Proof.
  unfold is_space. intros Hs.
  pose proof (code_range c) as Hc.
  assert (H : (negb (lisspace (code c))
               || (negb (lisdigit (code c)) && negb (code c =? 120)
                   && negb (code c =? 88) && negb (code c =? 0))) = true).
  { apply (forall_below
             (fun k => negb (lisspace k)
                       || (negb (lisdigit k) && negb (k =? 120)
                           && negb (k =? 88) && negb (k =? 0))) 256);
      [vm_compute; reflexivity | lia]. }
  rewrite Hs in H. cbn [negb orb] in H.
  rewrite !andb_true_iff, !negb_true_iff, !Z.eqb_neq in H.
  tauto.
Qed.

Lemma digit_props d :
  is_digit d ->
  lisdigit (48 + d) = true /\ lisspace (48 + d) = false.
Proof.
  intros Hd. unfold is_digit in Hd.
  assert (H : (lisdigit (48 + d) && negb (lisspace (48 + d))) = true).
  { apply (forall_below (fun d => lisdigit (48 + d) && negb (lisspace (48 + d))) 10);
      [vm_compute; reflexivity | lia]. }
  rewrite andb_true_iff, negb_true_iff in H. exact H.
Qed.

Lemma skip_spaces_app sp rest :
  Forall is_space sp -> skip_spaces (str (sp ++ rest)) = skip_spaces (str rest).
Proof.
  induction 1 as [|c sp Hc _ IH]; [reflexivity|].
  cbn [app string_of_list_ascii skip_spaces].
  rewrite Hc. exact IH.
Qed.

Lemma skip_spaces_all sp : Forall is_space sp -> skip_spaces (str sp) = EmptyString.
Proof.
  intros H. rewrite <- (app_nil_r sp), skip_spaces_app by exact H.
  reflexivity.
Qed.

Lemma skip_spaces_nonspace c rest :
  lisspace (code c) = false -> skip_spaces (str (c :: rest)) = str (c :: rest).
Proof. intros H. cbn [string_of_list_ascii skip_spaces]. rewrite H. reflexivity. Qed.

Lemma digits_value_ge ds : forall acc,
  Forall is_digit ds -> 0 <= acc -> acc <= digits_value acc ds.
Proof.
  induction ds as [|d ds IH]; intros acc Hds Hacc; cbn [digits_value]; [lia|].
  inversion Hds as [|? ? Hd Hds']; subst. unfold is_digit in Hd.
  assert (Hacc' : 0 <= acc * 10 + d) by lia.
  specialize (IH (acc * 10 + d) Hds' Hacc'). lia.
Qed.

Lemma overflow_test (neg : bool) a d :
  0 <= a -> is_digit d ->
  ((MAXBY10 <=? a) && ((MAXBY10 <? a) || (MAXLASTD + (if neg then 1 else 0) <? d)))
  = (limit neg <? a * 10 + d).
Proof.
  intros Ha Hd. unfold is_digit in Hd. unfold limit.
  change MAXBY10 with 922337203685477580.
  change MAXLASTD with 7.
  change LUA_MAXINTEGER with 9223372036854775807.
  destruct (Z.leb_spec 922337203685477580 a);
    destruct (Z.ltb_spec 922337203685477580 a);
    destruct (Z.ltb_spec (7 + (if neg then 1 else 0)) d);
    destruct (Z.ltb_spec (9223372036854775807 + (if neg then 1 else 0)) (a * 10 + d));
    cbn; try reflexivity; exfalso; destruct neg; lia.
Qed.

Lemma dec_loop_digits (neg : bool) sp2 ds : forall a e,
  Forall is_digit ds -> Forall is_space sp2 ->
  0 <= a <= limit neg ->
  dec_loop neg (str (map digit_char ds ++ sp2)) a e =
    if digits_value a ds <=? limit neg
    then Some (str sp2, digits_value a ds, match ds with [] => e | _ => false end)
    else None.
Proof.
  induction ds as [|d ds IH]; intros a e Hds Hsp Ha.
  - cbn [map app digits_value].
    destruct (Z.leb_spec a (limit neg)); [|lia].
    destruct Hsp as [|c sp2 Hc Hsp]; [reflexivity|].
    cbn [string_of_list_ascii dec_loop].
    destruct (space_not_digit c Hc) as [-> _]. reflexivity.
  - inversion Hds as [|? ? Hd Hds']; subst.
    cbn [map app string_of_list_ascii dec_loop digits_value].
    rewrite (code_digit_char d Hd).
    destruct (digit_props d Hd) as [-> _].
    replace (48 + d - 48) with d by lia.
    rewrite overflow_test by (lia || exact Hd).
    destruct (Z.ltb_spec (limit neg) (a * 10 + d)) as [Hov | Hok].
    + assert (Hnn : 0 <= a * 10 + d) by (unfold is_digit in Hd; lia).
      pose proof (digits_value_ge ds (a * 10 + d) Hds' Hnn).
      destruct (Z.leb_spec (digits_value (a * 10 + d) ds) (limit neg)); [lia|reflexivity].
    + unfold uadd, umul. unfold is_digit in Hd.
      assert (Hl : limit neg < 2 ^ 64) by (destruct neg; reflexivity).
      rewrite (Z.mod_small (a * 10)) by lia.
      rewrite Z.mod_small by lia.
      rewrite IH by (auto; lia).
      destruct ds; reflexivity.
Qed.

End Numerals.

Section DecimalNumerals.

Local Abbreviation str := string_of_list_ascii.

Lemma sign_scan sp1 sg d ds sp2 :
  Forall is_space sp1 -> is_digit d ->
  isneg (skip_spaces (str (sp1 ++ sign_chars sg ++ map digit_char (d :: ds) ++ sp2)))
  = (is_minus sg, str (map digit_char (d :: ds) ++ sp2)).
Proof.
  intros Hsp Hd. rewrite skip_spaces_app by exact Hsp.
  destruct (digit_props d Hd) as [_ Hns].
  pose proof (code_digit_char d Hd) as Hc.
  unfold is_digit in Hd.
  destruct sg; cbn [sign_chars app map].
  - rewrite skip_spaces_nonspace by (rewrite Hc; exact Hns).
    unfold isneg. cbn [string_of_list_ascii peek]. rewrite Hc.
    destruct (Z.eqb_spec (48 + d) 45); [lia|].
    destruct (Z.eqb_spec (48 + d) 43); [lia|]. reflexivity.
  - reflexivity.
  - reflexivity.
Qed.

Lemma no_hex_prefix ds sp2 :
  Forall is_digit ds -> Forall is_space sp2 ->
  (peek (str (map digit_char ds ++ sp2)) =? 120)
  || (peek (str (map digit_char ds ++ sp2)) =? 88) = false.
Proof.
  intros Hds Hsp. apply orb_false_iff.
  destruct Hds as [|d ds Hd _]; cbn [map app].
  - destruct Hsp as [|c sp2 Hc _]; [split; reflexivity|].
    cbn [string_of_list_ascii peek].
    destruct (space_not_digit c Hc) as (_ & H1 & H2 & _).
    rewrite !Z.eqb_neq. tauto.
  - cbn [string_of_list_ascii peek]. rewrite (code_digit_char d Hd).
    unfold is_digit in Hd. rewrite !Z.eqb_neq. lia.
Qed.

Lemma final_value (neg : bool) a :
  0 <= a <= limit neg ->
  l_castU2S (if neg then usub 0 a else a) = if neg then - a else a.
Proof.
  intros Ha. rewrite l_castU2S_wrap.
  assert (Hl : limit neg = LUA_MAXINTEGER + (if neg then 1 else 0)) by reflexivity.
  destruct neg.
  - unfold usub. rewrite wrap_int_mod.
    apply wrap_int_small.
    unfold LUA_MININTEGER, LUA_MAXINTEGER in *. rewrite pow2_63 in *. lia.
  - apply wrap_int_small.
    unfold LUA_MININTEGER, LUA_MAXINTEGER in *. rewrite pow2_63 in *. lia.
Qed.

Lemma l_str2int_numeral sp1 sg ds sp2 :
  Forall is_space sp1 -> Forall is_space sp2 ->
  Forall is_digit ds -> ds <> [] ->
  l_str2int (decimal_numeral sp1 sg ds sp2) =
    if digits_value 0 ds <=? limit (is_minus sg)
    then Some (EmptyString, numeral_value sg ds)
    else None.
Proof.
  intros Hsp1 Hsp2 Hds Hne.
  destruct ds as [|d ds]; [contradiction|].
  inversion Hds as [|? ? Hd Hds']; subst.
  unfold l_str2int, decimal_numeral.
  rewrite (sign_scan sp1 sg d ds sp2 Hsp1 Hd).
  cbv beta iota.
  assert (Hhex : (peek (str (map digit_char (d :: ds) ++ sp2)) =? 48)
                 && ((peek (advance (str (map digit_char (d :: ds) ++ sp2))) =? 120)
                     || (peek (advance (str (map digit_char (d :: ds) ++ sp2))) =? 88))
                 = false).
  { cbn [map app string_of_list_ascii advance].
    rewrite (no_hex_prefix ds sp2 Hds' Hsp2). apply andb_false_r. }
  rewrite Hhex.
  assert (H0 : 0 <= 0 <= limit (is_minus sg))
    by (destruct sg; split; vm_compute; discriminate).
  rewrite (dec_loop_digits (is_minus sg) sp2 (d :: ds) 0 true Hds Hsp2 H0).
  destruct (Z.leb_spec (digits_value 0 (d :: ds)) (limit (is_minus sg))) as [Hle | Hgt];
    [|reflexivity].
  rewrite (skip_spaces_all sp2 Hsp2). cbn [peek orb Z.eqb negb].
  assert (Hv : 0 <= digits_value 0 (d :: ds)).
  { apply (digits_value_ge (d :: ds) 0 Hds). lia. }
  rewrite final_value by lia.
  destruct sg; reflexivity.
Qed.

End DecimalNumerals.

(** C8. For a decimal numeral (spaces, an optional sign, at least one
    decimal digit, spaces) [l_str2int] succeeds exactly when the value of
    the numeral lies between LUA_MININTEGER and LUA_MAXINTEGER, and then
    it returns that value (and the end of the string); a numeral out of
    that range is rejected, nothing is wrapped, and [luaO_str2num] gives
    the result of the conversion to float, [l_str2d]. *)
Theorem l_str2int_decimal_range (C : LibC) (sp1 : list ascii) (sg : sign)
    (ds : list Z) (sp2 : list ascii) (o : TValue) :
  Forall is_space sp1 -> Forall is_space sp2 ->
  Forall is_digit ds -> ds <> [] ->
  let s := decimal_numeral sp1 sg ds sp2 in
  let v := numeral_value sg ds in
  ((exists e i, l_str2int s = Some (e, i)) <->
   LUA_MININTEGER <= v <= LUA_MAXINTEGER) /\
  (forall e i, l_str2int s = Some (e, i) -> i = v /\ e = EmptyString) /\
  (~ (LUA_MININTEGER <= v <= LUA_MAXINTEGER) ->
   l_str2int s = None /\
   luaO_str2num s o =
     match l_str2d s with
     | Some (e, n) =>
         (Z.of_nat (String.length s - String.length e) + 1, setfltvalue o n)
     | None => (0, o)
     end).
Proof.
  intros Hsp1 Hsp2 Hds Hne s v.
  pose proof (l_str2int_numeral sp1 sg ds sp2 Hsp1 Hsp2 Hds Hne) as Hs.
  fold s in Hs.
  assert (Hv : 0 <= digits_value 0 ds) by (apply (digits_value_ge ds 0 Hds); lia).
  assert (Hr : digits_value 0 ds <= limit (is_minus sg) <->
               LUA_MININTEGER <= v <= LUA_MAXINTEGER).
  { unfold v, numeral_value, limit, LUA_MININTEGER, LUA_MAXINTEGER.
    rewrite pow2_63. destruct sg; cbn [is_minus]; lia. }
  destruct (Z.leb_spec (digits_value 0 ds) (limit (is_minus sg))) as [Hle | Hgt].
  - split; [|split].
    + split; [intros _; apply Hr, Hle | intros _; eauto].
    + intros e i. rewrite Hs. intros [= <- <-]. split; reflexivity.
    + intros Hn. exfalso. apply Hn, Hr, Hle.
  - split; [|split].
    + split; [intros (e & i & H); rewrite Hs in H; discriminate H|].
      intros H. apply Hr in H. lia.
    + intros e i H. rewrite Hs in H. discriminate H.
    + intros _. split; [exact Hs|].
      unfold luaO_str2num. rewrite Hs. reflexivity.
Qed.

Lemma l_str2int_decimal_range_witness :
  Forall is_space [" "%char] /\ Forall is_space [] /\
  Forall is_digit [1; 2] /\ [1; 2] <> [] /\
  l_str2int " -12" = Some (EmptyString, -12).
Proof.
  assert (H1 : Forall is_space [" "%char]) by (repeat constructor).
  assert (H2 : Forall is_space []) by constructor.
  assert (H3 : Forall is_digit [1; 2])
    by (repeat constructor; unfold is_digit; lia).
  assert (H4 : [1; 2] <> ([] : list Z)) by discriminate.
  split; [exact H1|]. split; [exact H2|]. split; [exact H3|]. split; [exact H4|].
  destruct (l_str2int_decimal_range no_libc [" "%char] Minus [1; 2] []
              (mkTValue (V_ub 0) LUA_VNIL) H1 H2 H3 H4) as (Hiff & Hval & _).
  destruct (proj2 Hiff) as (e & i & Hei).
  - vm_compute. split; discriminate.
  - destruct (Hval e i Hei) as [-> ->]. exact Hei.
Defined.

(** ** Push then pop *)

Section PushPop.

Context {F : LFunc}.

Lemma set_stack_same L : set_stack (stack L) L = L.
Proof. destruct L; reflexivity. Qed.

Lemma top_set_top v L : top (set_top v L) = v.
Proof. reflexivity. Qed.

Lemma top_set_stack stk L : top (set_stack stk L) = top L.
Proof. reflexivity. Qed.

Lemma stack_set_stack stk L : stack (set_stack stk L) = stk.
Proof. reflexivity. Qed.

Lemma ci_set_top v L : ci (set_top v L) = ci L.
Proof. reflexivity. Qed.

Lemma ci_set_stack stk L : ci (set_stack stk L) = ci L.
Proof. reflexivity. Qed.

Lemma l_G_set_stack stk L : l_G (set_stack stk L) = l_G L.
Proof. reflexivity. Qed.

Lemma tbclist_set_top v L : tbclist (set_top v L) = tbclist L.
Proof. reflexivity. Qed.

Lemma tbclist_set_stack stk L : tbclist (set_stack stk L) = tbclist L.
Proof. reflexivity. Qed.

Lemma set_stack_set_stack s1 s2 L : set_stack s1 (set_stack s2 L) = set_stack s1 L.
Proof. reflexivity. Qed.

Lemma pop_after_push L stk :
  set_top (top L + 1 - 1) (set_top (top L + 1) (set_stack stk L)) = set_stack stk L.
Proof.
  destruct L. unfold set_top, set_stack. cbn. f_equal. lia.
Qed.

Lemma slot_alter L f (k : nat) o :
  o <> Z.of_nat k ->
  slot (set_stack (alter f k (stack L)) L) o = slot L o.
Proof.
  intros Hne. unfold slot.
  destruct (Z.leb_spec 0 o); [|reflexivity].
  cbn [stack set_stack]. rewrite list_lookup_alter_ne by lia. reflexivity.
Qed.

Lemma lua_pushvalue_ok L idx v :
  0 <= top L < Z.of_nat (length (stack L)) ->
  index2value L idx = Some v ->
  lua_pushvalue L idx =
    Some (set_top (top L + 1)
            (set_stack (alter (fun o1 => setobj2s o1 v) (Z.to_nat (top L)) (stack L)) L)).
Proof.
  intros Htop Hv.
  unfold lua_pushvalue. rewrite Hv.
  destruct (Z.leb_spec 0 (top L)); [|lia].
  destruct (Z.ltb_spec (top L) (Z.of_nat (length (stack L)))); [|lia].
  reflexivity.
Qed.

Lemma lua_settop_pop L :
  func (ci L) + 1 < top L -> tbclist L < top L - 1 ->
  lua_settop L (-2) = Some (set_top (top L - 1) L).
Proof.
  intros Hf Ht. unfold lua_settop.
  destruct (Z.leb_spec 0 (-2)); [lia|].
  replace (- (-2 + 1)) with 1 by lia.
  destruct (Z.leb_spec 1 (top L - (func (ci L) + 1))); [|lia].
  cbn [negb].
  replace (top L + (-2 + 1)) with (top L - 1) by lia.
  destruct (Z.leb_spec (top L - 1) (tbclist L)); [lia|].
  rewrite andb_false_r. reflexivity.
Qed.

End PushPop.

(** C6. In a consistent thread, the array of whose stack has the
    EXTRA_STACK slots that lstate.c allocates past [stack_last],
    [lua_pushvalue(L, idx)] at an index the API accepts, followed by
    [lua_settop(L, -2)], gives back the state it started from, whether
    the current frame has room for one more slot or is full (the copy
    then goes to a slot past the top of the frame, which the array has):
    the top (so the height [lua_gettop]) is the same, every slot of the
    stack (the slots below the top) is the same, every other field of the
    thread is the same, and every index reads the same value as before.
    Only the free slot just above the top keeps the copy that was pushed
    there. *)
Theorem pushvalue_settop_noop (F : LFunc) (L : lua_State) (idx : Z) :
  wf_thread L ->
  stack_last L + EXTRA_STACK <= Z.of_nat (length (stack L)) ->
  acceptable_index L idx ->
  exists L1 L2,
    lua_pushvalue L idx = Some L1 /\
    lua_settop L1 (-2) = Some L2 /\
    top L2 = top L /\
    lua_gettop L2 = lua_gettop L /\
    live_stack L2 = live_stack L /\
    (forall i : nat, Z.of_nat i <> top L -> stack L2 !! i = stack L !! i) /\
    set_stack (stack L) L2 = L /\
    (forall j, index2value L2 j = index2value L j).
Proof.
  intros Hwf Hextra [v Hv].
  pose proof Hwf as (H0 & H1 & H2 & H3 & H4 & H5 & H6).
  unfold EXTRA_STACK in Hextra.
  set (stk := alter (fun o1 => setobj2s o1 v) (Z.to_nat (top L)) (stack L)).
  assert (Hpush : lua_pushvalue L idx = Some (set_top (top L + 1) (set_stack stk L)))
    by (apply lua_pushvalue_ok; [lia | assumption]).
  assert (Hpop : lua_settop (set_top (top L + 1) (set_stack stk L)) (-2)
                 = Some (set_stack stk L)).
  { rewrite lua_settop_pop.
    - rewrite top_set_top, pop_after_push. reflexivity.
    - rewrite top_set_top, ci_set_top, ci_set_stack. lia.
    - rewrite top_set_top, tbclist_set_top, tbclist_set_stack. lia. }
  exists (set_top (top L + 1) (set_stack stk L)), (set_stack stk L).
  split; [exact Hpush|]. split; [exact Hpop|].
  split; [apply top_set_stack|].
  split; [unfold lua_gettop; rewrite top_set_stack, ci_set_stack; reflexivity|].
  split.
  { unfold live_stack. rewrite top_set_stack, stack_set_stack. unfold stk.
    apply take_alter_ge. lia. }
  split.
  { intros i Hi. rewrite stack_set_stack. unfold stk.
    apply list_lookup_alter_ne. lia. }
  split; [rewrite set_stack_set_stack; apply set_stack_same|].
  intros j.
  assert (Hslot : forall o, o < top L -> slot (set_stack stk L) o = slot L o).
  { intros o Ho. unfold stk. apply slot_alter. lia. }
  unfold index2value.
  rewrite ci_set_stack, l_G_set_stack, top_set_stack.
  destruct (Z.ltb_spec 0 j).
  - destruct (negb _); [reflexivity|].
    destruct (Z.leb_spec (top L) (func (ci L) + j)); [reflexivity|].
    apply Hslot. lia.
  - destruct (negb (ispseudo j)).
    + destruct (Z.eqb_spec j 0) as [->|Hj0]; [reflexivity|].
      destruct (negb _); [reflexivity|]. apply Hslot. lia.
    + destruct (j =? LUA_REGISTRYINDEX); [reflexivity|].
      destruct (negb _); [reflexivity|].
      rewrite Hslot by lia. reflexivity.
Qed.

Lemma pushvalue_settop_noop_witness :
  let L := full_frame_thread sample_global in
  top L = ci_top (ci L) /\ lua_gettop L = LUA_MINSTACK /\
  index2value L 3 = Some (mkTValue (V_i 3) LUA_VNUMINT) /\
  exists L1 L2,
    lua_pushvalue L 3 = Some L1 /\
    lua_settop (H := {| luaF_close := fun L lvl => (L, lvl) |}) L1 (-2) = Some L2 /\
    top L2 = top L /\
    lua_gettop L2 = lua_gettop L /\
    live_stack L2 = live_stack L /\
    (forall i : nat, Z.of_nat i <> top L -> stack L2 !! i = stack L !! i) /\
    set_stack (stack L) L2 = L /\
    (forall j, index2value L2 j = index2value L j).
Proof.
  intros L. split; [reflexivity|]. split; [reflexivity|]. split; [reflexivity|].
  apply (pushvalue_settop_noop {| luaF_close := fun L lvl => (L, lvl) |}
           (full_frame_thread sample_global) 3).
  - unfold wf_thread. repeat split; vm_compute; (reflexivity || discriminate).
  - vm_compute. discriminate.
  - exists (mkTValue (V_i 3) LUA_VNUMINT). reflexivity.
Defined.

(** On a full frame the copy is written to the slot past the top of the
    frame and the pop brings the top back. *)
Example lua_pushvalue_full_frame :
  let L := full_frame_thread sample_global in
  (fun L1 => (top L1, index2value L1 (-1))) <$> lua_pushvalue L 3
  = Some (ci_top (ci L) + 1, Some (mkTValue (V_i 3) LUA_VNUMINT)).
Proof. vm_compute. reflexivity. Qed.

(** ** The string table *)

Section StringTableInv.

Variable luaS_hash : list Z -> Z -> Z.

Local Abbreviation inv := (strinv luaS_hash).

Lemma land_bound a b : 0 <= a -> 0 <= b -> 0 <= Z.land a b <= b.
Proof.
  intros Ha Hb. split; [apply Z.land_nonneg; auto|].
  rewrite <- (Z2N.id a), <- (Z2N.id b) at 1 by assumption.
  rewrite <- N2Z.inj_land.
  pose proof (N.land_le_r (Z.to_N a) (Z.to_N b)). lia.
Qed.

Lemma lmod_bound h n : 0 < n -> 0 <= lmod h n < n.
Proof.
  intros Hn. unfold lmod, wrap32.
  pose proof (Z.mod_pos_bound h (2 ^ 32) ltac:(lia)) as H1.
  pose proof (Z.mod_pos_bound (n - 1) (2 ^ 32) ltac:(lia)) as H2.
  pose proof (land_bound (h mod 2 ^ 32) ((n - 1) mod 2 ^ 32)
                ltac:(lia) ltac:(lia)) as H3.
  assert ((n - 1) mod 2 ^ 32 <= n - 1) by (apply Z.mod_le; lia).
  lia.
Qed.

Lemma chain_find_Some st str chain p :
  chain_find st str chain = Some p -> p ∈ chain /\ holds st str p = true.
Proof.
  induction chain as [|q chain IH]; cbn [chain_find]; [discriminate|].
  destruct (holds st str q) eqn:E.
  - intros [= <-]. split; [left|exact E].
  - intros H. destruct (IH H). split; [right|]; assumption.
Qed.

Lemma chain_find_None st str chain p :
  chain_find st str chain = None -> p ∈ chain -> holds st str p = false.
Proof.
  induction chain as [|q chain IH]; cbn [chain_find]; intros H Hp.
  - inversion Hp.
  - destruct (holds st str q) eqn:E; [discriminate|].
    apply elem_of_cons in Hp as [-> | Hp]; auto.
Qed.

Lemma bucket_lookup st (i : nat) chain :
  hash (st_strt st) !! i = Some chain -> bucket st (Z.of_nat i) = chain.
Proof.
  intros H. unfold bucket.
  destruct (Z.leb_spec 0 (Z.of_nat i)); [|lia].
  rewrite Nat2Z.id, H. reflexivity.
Qed.

(** When the walk of the bucket of [str] finds nothing, no live short
    string holds the bytes [str]. *)
Lemma not_found_absent st str :
  inv st ->
  chain_find st str
    (bucket st (lmod (luaS_hash str (st_seed st)) (size (st_strt st)))) = None ->
  forall p ts, live_short st p ts -> contents ts <> str.
Proof.
  intros I Hnf p ts Hl Hc.
  destruct (inv_short _ _ I p ts Hl) as (Hlen & _ & Hh & (i & chain & Hi & Hp)).
  destruct (inv_chain _ _ I i chain p Hi Hp) as (ts' & [Hts' _] & Hb).
  destruct Hl as [Hts Htt].
  rewrite Hts in Hts'. injection Hts' as <-.
  rewrite Hh, Hc in Hb. rewrite <- Hb in Hnf.
  rewrite (bucket_lookup st i chain Hi) in Hnf.
  pose proof (chain_find_None st str chain p Hnf Hp) as Hf.
  unfold holds in Hf. rewrite Hts in Hf.
  apply (proj2 (inv_kind _ _ I p ts Hts)) in Htt.
  unfold tsslen in Hf. rewrite Htt, Hlen, Hc, Z.eqb_refl in Hf.
  rewrite bool_decide_eq_true_2 in Hf by reflexivity. discriminate Hf.
Qed.

Lemma elem_of_concat (p : Z) (ls : list (list Z)) :
  p ∈ concat ls <-> exists (i : nat) (chain : list Z), ls !! i = Some chain /\ p ∈ chain.
Proof.
  induction ls as [|l ls IH]; cbn [concat].
  - split; [intros H; inversion H|intros (i & c & H & _); destruct i; discriminate H].
  - rewrite elem_of_app, IH. split.
    + intros [H | (i & c & Hi & Hp)].
      * exists 0%nat, l. auto.
      * exists (S i), c. auto.
    + intros (i & c & Hi & Hp). destruct i as [|i].
      * injection Hi as <-. auto.
      * right. exists i, c. auto.
Qed.

Lemma resize_inv st n : inv st -> inv (luaS_resize st n).
Proof.
  intros I. unfold luaS_resize.
  destruct (Z.leb_spec n 0) as [|Hn]; [exact I|].
  set (all := concat (hash (st_strt st))).
  set (newvect := (fun i => filter (fun p => bucket_of st n p = i) all) <$> seqZ 0 n).
  assert (Hlook : forall (i : nat) chain,
             newvect !! i = Some chain ->
             Z.of_nat i < n /\
             chain = filter (fun p => bucket_of st n p = Z.of_nat i) all).
  { intros i chain H. unfold newvect in H.
    rewrite list_lookup_fmap in H.
    destruct (seqZ 0 n !! i) as [j|] eqn:E; [|discriminate H].
    apply lookup_seqZ in E as [-> E]. injection H as <-. auto. }
  assert (Hin : forall p ts, live_short st p ts ->
             in_table st p ->
             in_table (mkstrstate (mkstringtable newvect (nuse (st_strt st)) n)
                         (st_seed st) (strings st) (brk st)) p).
  { intros p ts [Hts _] (k & c & Hk & Hp).
    pose proof (lmod_bound (ts_hash ts) n Hn) as Hb.
    exists (Z.to_nat (lmod (ts_hash ts) n)),
      (filter (fun q => bucket_of st n q = lmod (ts_hash ts) n) all).
    cbn [st_strt hash]. split.
    - unfold newvect. rewrite list_lookup_fmap.
      rewrite lookup_seqZ_lt by lia.
      replace (0 + Z.of_nat (Z.to_nat (lmod (ts_hash ts) n)))
        with (lmod (ts_hash ts) n) by lia.
      reflexivity.
    - apply list_elem_of_filter. split.
      + unfold bucket_of. rewrite Hts. reflexivity.
      + apply elem_of_concat. eauto. }
  constructor; cbn [st_strt st_seed strings brk hash size nuse].
  - unfold newvect. rewrite length_fmap, length_seqZ. lia.
  - lia.
  - intros i chain p Hi Hp.
    destruct (Hlook i chain Hi) as [Hlt ->].
    apply list_elem_of_filter in Hp as [Hb Hp].
    apply elem_of_concat in Hp as (k & c & Hk & Hp).
    destruct (inv_chain _ _ I k c p Hk Hp) as (ts & [Hts Htt] & _).
    exists ts. split; [split; assumption|].
    unfold bucket_of in Hb. rewrite Hts in Hb. auto.
  - exact (inv_kind _ _ I).
  - intros p ts Hl.
    destruct (inv_short _ _ I p ts Hl) as (H1 & H2 & H3 & H4).
    repeat split; try assumption. exact (Hin p ts Hl H4).
  - exact (inv_unique _ _ I).
  - exact (inv_fresh _ _ I).
Qed.

Lemma resize_strings st n : strings (luaS_resize st n) = strings st.
Proof. unfold luaS_resize. destruct (n <=? 0); reflexivity. Qed.

Lemma resize_seed st n : st_seed (luaS_resize st n) = st_seed st.
Proof. unfold luaS_resize. destruct (n <=? 0); reflexivity. Qed.

Lemma resize_brk st n : brk (luaS_resize st n) = brk st.
Proof. unfold luaS_resize. destruct (n <=? 0); reflexivity. Qed.

Lemma fresh_brk st : inv st -> strings st !! brk st = None.
Proof.
  intros I. destruct (strings st !! brk st) as [ts|] eqn:E; [|reflexivity].
  pose proof (inv_fresh _ _ I _ _ E). lia.
Qed.

(** Linking a new short string whose bytes no live short string holds. *)
Lemma insert_short_inv st str :
  inv st ->
  Z.of_nat (length str) <= LUAI_MAXSHORTLEN ->
  (forall p ts, live_short st p ts -> contents ts <> str) ->
  let tb := st_strt st in
  let h := luaS_hash str (st_seed st) in
  let ts := mkTString LUA_VSHRSTR 0 (Z.of_nat (length str)) h 0 str 0 0 in
  inv (mkstrstate
         (mkstringtable (alter (cons (brk st)) (Z.to_nat (lmod h (size tb))) (hash tb))
            (nuse tb + 1) (size tb))
         (st_seed st) (<[brk st := ts]> (strings st)) (brk st + 1)).
Proof.
  intros I Hlen Habs tb h ts.
  pose proof (fresh_brk st I) as Hfresh.
  pose proof (lmod_bound h (size tb) (inv_pos _ _ I)) as Hb.
  pose proof (inv_size _ _ I) as Hsz. fold tb in Hsz.
  set (i := Z.to_nat (lmod h (size tb))).
  assert (Hold : forall p ts0, strings st !! p = Some ts0 ->
             <[brk st := ts]> (strings st) !! p = Some ts0).
  { intros p ts0 H. rewrite lookup_insert_ne; [exact H|].
    intros <-. rewrite Hfresh in H. discriminate H. }
  assert (Hlive : forall p ts0,
             <[brk st := ts]> (strings st) !! p = Some ts0 ->
             (p = brk st /\ ts0 = ts) \/ (p <> brk st /\ strings st !! p = Some ts0)).
  { intros p ts0 H. apply lookup_insert_Some in H as [[<- <-] | [Hne H]]; auto. }
  assert (Hchain : forall (k : nat) chain,
             alter (cons (brk st)) i (hash tb) !! k = Some chain ->
             exists c0, hash tb !! k = Some c0 /\
                        ((k = i /\ chain = brk st :: c0) \/ (k <> i /\ chain = c0))).
  { intros k chain H. destruct (decide (i = k)) as [<- | Hne].
    - rewrite list_lookup_alter_eq in H.
      destruct (hash tb !! i) as [c0|]; [|discriminate H].
      injection H as <-. eauto.
    - rewrite list_lookup_alter_ne in H by exact Hne. eauto. }
  assert (Htab : forall p, in_table st p ->
             in_table (mkstrstate
                         (mkstringtable (alter (cons (brk st)) i (hash tb))
                            (nuse tb + 1) (size tb))
                         (st_seed st) (<[brk st := ts]> (strings st)) (brk st + 1)) p).
  { intros p (k & c & Hk & Hp). unfold in_table. cbn [st_strt hash].
    destruct (decide (i = k)) as [<- | Hne].
    - exists i, (brk st :: c). rewrite list_lookup_alter_eq. fold tb in Hk.
      rewrite Hk. split; [reflexivity|right; exact Hp].
    - exists k, c. rewrite list_lookup_alter_ne by exact Hne. auto. }
  constructor; cbn [st_strt st_seed strings brk hash size nuse live_short].
  - rewrite length_alter. exact Hsz.
  - exact (inv_pos _ _ I).
  - intros k chain p Hk Hp.
    destruct (Hchain k chain Hk) as (c0 & Hc0 & Hcase).
    assert (Hp' : p = brk st /\ k = i \/ p ∈ c0).
    { destruct Hcase as [[-> ->] | [_ ->]]; [|auto].
      apply elem_of_cons in Hp as [-> | Hp]; auto. }
    destruct Hp' as [[-> ->] | Hp'].
    + exists ts. unfold live_short. cbn [strings].
      rewrite lookup_insert_eq. repeat split. unfold i. cbn [ts_hash ts]. lia.
    + destruct (inv_chain _ _ I k c0 p Hc0 Hp') as (ts0 & [Hts0 Htt] & Hidx).
      exists ts0. unfold live_short. cbn [strings]. auto.
  - intros p ts0 H. destruct (Hlive p ts0 H) as [[-> ->] | [_ H']].
    + unfold strisshr. cbn [shrlen ts_tt ts].
      destruct (Z.leb_spec 0 (Z.of_nat (length str))); [tauto|lia].
    + exact (inv_kind _ _ I p ts0 H').
  - intros p ts0 [H Htt]. cbn [strings] in H.
    destruct (Hlive p ts0 H) as [[-> ->] | [Hne H']].
    + cbn [shrlen contents ts_hash ts]. repeat split; try lia.
      destruct (lookup_lt_is_Some_2 (hash tb) i) as [c0 Hc0]; [unfold i; lia|].
      unfold in_table. cbn [st_strt hash].
      exists i, (brk st :: c0).
      rewrite list_lookup_alter_eq, Hc0. split; [reflexivity|left].
    + destruct (inv_short _ _ I p ts0 (conj H' Htt)) as (H1 & H2 & H3 & H4).
      repeat split; try assumption. apply Htab, H4.
  - intros p1 p2 ts1 ts2 [H1 T1] [H2 T2] Hc. cbn [strings] in H1, H2.
    destruct (Hlive p1 ts1 H1) as [[-> ->] | [N1 H1']];
      destruct (Hlive p2 ts2 H2) as [[-> ->] | [N2 H2']].
    + reflexivity.
    + exfalso. apply (Habs p2 ts2 (conj H2' T2)). symmetry. exact Hc.
    + exfalso. apply (Habs p1 ts1 (conj H1' T1)). exact Hc.
    + exact (inv_unique _ _ I p1 p2 ts1 ts2 (conj H1' T1) (conj H2' T2) Hc).
  - intros p ts0 H. destruct (Hlive p ts0 H) as [[-> ->] | [_ H']]; [lia|].
    pose proof (inv_fresh _ _ I p ts0 H'). lia.
Qed.

Lemma new_short_inv st str :
  inv st -> Z.of_nat (length str) <= LUAI_MAXSHORTLEN ->
  inv (snd (new_short luaS_hash st str)).
Proof.
  intros I Hlen. unfold new_short.
  destruct (chain_find st str _) as [p|] eqn:E; [exact I|].
  pose proof (not_found_absent st str I E) as Habs.
  set (st' := if size (st_strt st) <? nuse (st_strt st)
              then luaS_resize st (2 * size (st_strt st)) else st).
  assert (I' : inv st') by (unfold st'; destruct (_ <? _); [apply resize_inv|]; exact I).
  assert (Hs : strings st' = strings st)
    by (unfold st'; destruct (_ <? _); [apply resize_strings|reflexivity]).
  assert (Hseed : st_seed st' = st_seed st)
    by (unfold st'; destruct (_ <? _); [apply resize_seed|reflexivity]).
  cbn [snd]. rewrite <- Hseed.
  apply (insert_short_inv st' str I' Hlen).
  intros p ts [Hts Htt]. rewrite Hs in Hts. apply (Habs p ts). split; assumption.
Qed.

(** Storing a long string at an address that is fresh or holds a long
    string. *)
Lemma put_long_inv st p ts' b :
  inv st ->
  (forall ts, strings st !! p = Some ts -> strisshr ts = false) ->
  strisshr ts' = false -> ts_tt ts' <> LUA_VSHRSTR ->
  p < b -> brk st <= b ->
  inv (mkstrstate (st_strt st) (st_seed st) (<[p := ts']> (strings st)) b).
Proof.
  intros I Hp Hk Htt Hpb Hb.
  assert (Hne : forall q ts, live_short st q ts -> q <> p).
  { intros q ts [Hts Hs] ->. apply (inv_kind _ _ I p ts Hts) in Hs.
    rewrite (Hp ts Hts) in Hs. discriminate Hs. }
  assert (Hnew : forall q ts,
             live_short (mkstrstate (st_strt st) (st_seed st)
                           (<[p := ts']> (strings st)) b) q ts ->
             q <> p /\ live_short st q ts).
  { intros q ts [Hts Hs]. cbn [strings] in Hts.
    apply lookup_insert_Some in Hts as [[<- <-] | [Hqp Hts]]; [contradiction|].
    split; [auto|split; assumption]. }
  assert (Hold : forall q ts, live_short st q ts ->
             live_short (mkstrstate (st_strt st) (st_seed st)
                           (<[p := ts']> (strings st)) b) q ts).
  { intros q ts Hl. pose proof (Hne q ts Hl). destruct Hl as [Hts Hs].
    split; [|exact Hs]. cbn [strings]. rewrite lookup_insert_ne; auto. }
  constructor; cbn [st_strt st_seed strings brk].
  - exact (inv_size _ _ I).
  - exact (inv_pos _ _ I).
  - intros i chain q Hi Hq.
    destruct (inv_chain _ _ I i chain q Hi Hq) as (ts & Hl & Hidx).
    exists ts. split; [apply Hold, Hl|exact Hidx].
  - intros q ts Hts.
    apply lookup_insert_Some in Hts as [[<- <-] | [Hqp Hts]].
    + rewrite Hk. split; [discriminate|contradiction].
    + exact (inv_kind _ _ I q ts Hts).
  - intros q ts Hl. destruct (Hnew q ts Hl) as [_ Hl'].
    exact (inv_short _ _ I q ts Hl').
  - intros p1 p2 ts1 ts2 H1 H2.
    destruct (Hnew p1 ts1 H1) as [_ H1'], (Hnew p2 ts2 H2) as [_ H2'].
    exact (inv_unique _ _ I p1 p2 ts1 ts2 H1' H2').
  - intros q ts Hts.
    apply lookup_insert_Some in Hts as [[<- <-] | [Hqp Hts]]; [lia|].
    pose proof (inv_fresh _ _ I q ts Hts). lia.
Qed.

Lemma fresh_no_string st : inv st ->
  forall ts, strings st !! brk st = Some ts -> strisshr ts = false.
Proof. intros I ts H. rewrite (fresh_brk st I) in H. discriminate H. Qed.

Lemma new_long_inv st str : inv st -> inv (snd (new_long st str)).
Proof.
  intros I. unfold new_long. cbn [snd].
  apply (put_long_inv st (brk st) _ (brk st + 1) I (fresh_no_string st I));
    [reflexivity | discriminate | lia | lia].
Qed.

Lemma newextlstr_inv st str fa u : inv st -> inv (snd (luaS_newextlstr st str fa u)).
Proof.
  intros I. unfold luaS_newextlstr. cbn [snd].
  apply (put_long_inv st (brk st) _ (brk st + 1) I (fresh_no_string st I));
    [|discriminate | lia | lia].
  unfold strisshr. cbn [shrlen]. destruct (fa =? 0); reflexivity.
Qed.

Lemma newlstr_inv st str : inv st -> inv (snd (luaS_newlstr luaS_hash st str)).
Proof.
  intros I. unfold luaS_newlstr.
  destruct (Z.leb_spec (Z.of_nat (length str)) LUAI_MAXSHORTLEN).
  - apply new_short_inv; assumption.
  - apply new_long_inv, I.
Qed.

Lemma hashlongstr_inv st p : inv st -> inv (luaS_hashlongstr luaS_hash st p).
Proof.
  intros I. unfold luaS_hashlongstr.
  destruct (strings st !! p) as [ts|] eqn:E; [|exact I].
  destruct (strisshr ts) eqn:Ek; cbn [orb]; [exact I|].
  destruct (negb _); [exact I|].
  apply (put_long_inv st p _ (brk st) I).
  - intros ts0 H. rewrite E in H. injection H as <-. exact Ek.
  - exact Ek.
  - cbn [ts_tt]. intros Htt.
    apply (inv_kind _ _ I p ts E) in Htt. rewrite Ek in Htt. discriminate Htt.
  - exact (inv_fresh _ _ I p ts E).
  - lia.
Qed.

Lemma collect_inv st p : inv st -> inv (collect st p).
Proof.
  intros I. unfold collect.
  destruct (strings st !! p) as [ts|] eqn:E; [|exact I].
  destruct (strisshr ts) eqn:Ek.
  - (* a short string leaves its bucket, then the heap *)
    unfold luaS_remove, bucket_of. rewrite E.
    cbn [st_strt st_seed strings brk].
    set (bi := lmod (ts_hash ts) (size (st_strt st))).
    pose proof (lmod_bound (ts_hash ts) (size (st_strt st)) (inv_pos _ _ I)) as Hb.
    fold bi in Hb.
    assert (Hchain : forall (k : nat) chain q,
               alter (filter (fun q => q <> p)) (Z.to_nat bi) (hash (st_strt st)) !! k
               = Some chain -> q ∈ chain ->
               q <> p /\ exists c0, hash (st_strt st) !! k = Some c0 /\ q ∈ c0).
    { intros k chain q Hk Hq. destruct (decide (Z.to_nat bi = k)) as [<- | Hne].
      - rewrite list_lookup_alter_eq in Hk.
        destruct (hash (st_strt st) !! Z.to_nat bi) as [c0|]; [|discriminate Hk].
        injection Hk as <-. apply list_elem_of_filter in Hq as [Hqp Hq]. eauto.
      - rewrite list_lookup_alter_ne in Hk by exact Hne.
        split; [|eauto]. intros ->.
        destruct (inv_chain _ _ I k chain p Hk Hq) as (ts0 & [Hts0 _] & Hidx).
        rewrite E in Hts0. injection Hts0 as <-. fold bi in Hidx. lia. }
    constructor; cbn [st_strt st_seed strings brk hash size nuse live_short].
    + rewrite length_alter. exact (inv_size _ _ I).
    + exact (inv_pos _ _ I).
    + intros k chain q Hk Hq.
      destruct (Hchain k chain q Hk Hq) as (Hqp & c0 & Hc0 & Hq0).
      destruct (inv_chain _ _ I k c0 q Hc0 Hq0) as (ts0 & [Hts0 Htt] & Hidx).
      exists ts0. split; [|exact Hidx]. split; [|exact Htt].
      cbn [strings]. rewrite lookup_delete_ne; auto.
    + intros q ts0 H. apply lookup_delete_Some in H as [_ H].
      exact (inv_kind _ _ I q ts0 H).
    + intros q ts0 [H Htt]. cbn [strings] in H.
      apply lookup_delete_Some in H as [Hpq H].
      destruct (inv_short _ _ I q ts0 (conj H Htt)) as (H1 & H2 & H3 & (k & c & Hk & Hq)).
      repeat split; try assumption.
      unfold in_table. cbn [st_strt hash].
      destruct (decide (Z.to_nat bi = k)) as [<- | Hne].
      * exists (Z.to_nat bi), (filter (fun q => q <> p) c).
        rewrite list_lookup_alter_eq, Hk. split; [reflexivity|].
        apply list_elem_of_filter. auto.
      * exists k, c. rewrite list_lookup_alter_ne by exact Hne. auto.
    + intros p1 p2 ts1 ts2 [H1 T1] [H2 T2]. cbn [strings] in H1, H2.
      apply lookup_delete_Some in H1 as [_ H1].
      apply lookup_delete_Some in H2 as [_ H2].
      exact (inv_unique _ _ I p1 p2 ts1 ts2 (conj H1 T1) (conj H2 T2)).
    + intros q ts0 H. apply lookup_delete_Some in H as [_ H].
      exact (inv_fresh _ _ I q ts0 H).
  - (* a long string only leaves the heap *)
    assert (Hne : forall q ts0, live_short st q ts0 -> q <> p).
    { intros q ts0 [Hts Hs] ->. rewrite E in Hts. injection Hts as <-.
      apply (inv_kind _ _ I p ts E) in Hs. rewrite Ek in Hs. discriminate Hs. }
    constructor; cbn [st_strt st_seed strings brk live_short].
    + exact (inv_size _ _ I).
    + exact (inv_pos _ _ I).
    + intros k chain q Hk Hq.
      destruct (inv_chain _ _ I k chain q Hk Hq) as (ts0 & Hl & Hidx).
      exists ts0. split; [|exact Hidx].
      pose proof (Hne q ts0 Hl). destruct Hl as [Hts Htt].
      split; [|exact Htt]. cbn [strings]. rewrite lookup_delete_ne; auto.
    + intros q ts0 H. apply lookup_delete_Some in H as [_ H].
      exact (inv_kind _ _ I q ts0 H).
    + intros q ts0 [H Htt]. cbn [strings] in H.
      apply lookup_delete_Some in H as [_ H].
      exact (inv_short _ _ I q ts0 (conj H Htt)).
    + intros p1 p2 ts1 ts2 [H1 T1] [H2 T2]. cbn [strings] in H1, H2.
      apply lookup_delete_Some in H1 as [_ H1].
      apply lookup_delete_Some in H2 as [_ H2].
      exact (inv_unique _ _ I p1 p2 ts1 ts2 (conj H1 T1) (conj H2 T2)).
    + intros q ts0 H. apply lookup_delete_Some in H as [_ H].
      exact (inv_fresh _ _ I q ts0 H).
Qed.

Lemma empty_table_inv seed :
  inv (mkstrstate
         (mkstringtable (replicate (Z.to_nat MINSTRTABSIZE) []) 0 MINSTRTABSIZE)
         seed ∅ 1).
Proof.
  constructor; cbn [st_strt st_seed strings brk hash size nuse live_short].
  - rewrite length_replicate. reflexivity.
  - reflexivity.
  - intros i chain p Hi Hp. apply lookup_replicate in Hi as [-> _]. inversion Hp.
  - intros p ts H. rewrite lookup_empty in H. discriminate H.
  - intros p ts [H _]. cbn [strings] in H.
    rewrite lookup_empty in H. discriminate H.
  - intros p1 p2 ts1 ts2 [H _]. cbn [strings] in H.
    rewrite lookup_empty in H. discriminate H.
  - intros p ts H. rewrite lookup_empty in H. discriminate H.
Qed.

Lemma init_inv seed : inv (luaS_init luaS_hash seed).
Proof. unfold luaS_init. apply newlstr_inv, empty_table_inv. Qed.

Lemma step_inv st o : inv st -> inv (step luaS_hash st o).
Proof.
  intros I. destruct o; cbn [step].
  - apply newlstr_inv, I.
  - apply newextlstr_inv, I.
  - apply hashlongstr_inv, I.
  - apply collect_inv, I.
  - apply resize_inv, I.
Qed.

Lemma run_inv ops : forall st, inv st -> inv (run luaS_hash ops st).
Proof.
  induction ops as [|o ops IH]; intros st I; [exact I|].
  cbn [run foldl]. apply IH, step_inv, I.
Qed.

Lemma elem_bucket st i p :
  p ∈ bucket st i ->
  exists (k : nat) chain, hash (st_strt st) !! k = Some chain /\ p ∈ chain.
Proof.
  unfold bucket. destruct (0 <=? i); [|intros H; inversion H].
  destruct (hash (st_strt st) !! Z.to_nat i) as [c|] eqn:E; cbn [default].
  - eauto.
  - intros H; inversion H.
Qed.

Lemma holds_contents st str p :
  holds st str p = true ->
  exists ts, strings st !! p = Some ts /\ contents ts = str.
Proof.
  unfold holds. destruct (strings st !! p) as [ts|]; [|discriminate].
  intros H. apply andb_true_iff in H as [_ H].
  apply bool_decide_eq_true in H. eauto.
Qed.

(** Asking again for the bytes of a live short string returns that very
    object and changes nothing. *)
Lemma new_short_existing st str p ts :
  inv st -> live_short st p ts -> contents ts = str ->
  new_short luaS_hash st str = (p, st).
Proof.
  intros I Hl Hc. unfold new_short.
  destruct (chain_find st str _) as [q|] eqn:E.
  - apply chain_find_Some in E as [Hq Hh].
    apply elem_bucket in Hq as (k & chain & Hk & Hq).
    destruct (inv_chain _ _ I k chain q Hk Hq) as (ts' & Hl' & _).
    destruct (holds_contents st str q Hh) as (ts'' & Hts'' & Hc'').
    destruct Hl' as [Hts' Htt']. rewrite Hts' in Hts''. injection Hts'' as <-.
    rewrite (inv_unique _ _ I q p ts' ts (conj Hts' Htt') Hl) by congruence.
    reflexivity.
  - exfalso. exact (not_found_absent st str I E p ts Hl Hc).
Qed.

Lemma strings_resize st n : strings (luaS_resize st n) = strings st.
Proof. unfold luaS_resize. destruct (n <=? 0); reflexivity. Qed.

Lemma kinds_insert st p ts (sts : gmap Z TString) :
  string_kinds st ->
  (ts_tt ts = LUA_VSHRSTR \/ isextstr ts = true \/
   (ts_tt ts = LUA_VLNGSTR /\ LUAI_MAXSHORTLEN < Z.of_nat (length (contents ts)))) ->
  forall q tq, <[p := ts]> (strings st) !! q = Some tq ->
    ts_tt tq = LUA_VSHRSTR \/ isextstr tq = true \/
    (ts_tt tq = LUA_VLNGSTR /\ LUAI_MAXSHORTLEN < Z.of_nat (length (contents tq))).
Proof.
  intros K Hts q tq Hq.
  destruct (decide (q = p)) as [->|Hne].
  - rewrite lookup_insert_eq in Hq. injection Hq as <-. exact Hts.
  - rewrite lookup_insert_ne in Hq by congruence. exact (K q tq Hq).
Qed.

Lemma newlstr_kinds st str :
  string_kinds st -> string_kinds (snd (luaS_newlstr luaS_hash st str)).
Proof.
  intros K. unfold luaS_newlstr.
  destruct (Z.leb_spec (Z.of_nat (length str)) LUAI_MAXSHORTLEN) as [Hle|Hgt].
  - unfold new_short. destruct (chain_find _ _ _); [exact K|].
    cbn [snd strings]. intros q tq Hq.
    assert (K' : string_kinds
                   (if size (st_strt st) <? nuse (st_strt st)
                    then luaS_resize st (2 * size (st_strt st)) else st)).
    { destruct (_ <? _); [|exact K]. intros a b. rewrite strings_resize. apply K. }
    eapply (kinds_insert _ _ _ (strings st) K'); [|exact Hq]. left. reflexivity.
  - unfold new_long. cbn [snd strings]. intros q tq Hq.
    eapply (kinds_insert _ _ _ (strings st) K); [|exact Hq].
    right. right. split; [reflexivity|exact Hgt].
Qed.

Lemma newextlstr_kinds st str fa u :
  string_kinds st -> string_kinds (snd (luaS_newextlstr st str fa u)).
Proof.
  intros K. unfold luaS_newextlstr. cbn [snd strings]. intros q tq Hq.
  eapply (kinds_insert _ _ _ (strings st) K); [|exact Hq].
  right. left. unfold isextstr. cbn. destruct (fa =? 0); reflexivity.
Qed.

Lemma hashlongstr_kinds st p :
  string_kinds st -> string_kinds (luaS_hashlongstr luaS_hash st p).
Proof.
  intros K. unfold luaS_hashlongstr.
  destruct (strings st !! p) as [ts|] eqn:E; [|exact K].
  destruct (_ || _); [exact K|].
  cbn [strings]. intros q tq Hq.
  eapply (kinds_insert _ _ _ (strings st) K); [|exact Hq].
  exact (K p ts E).
Qed.

Lemma collect_kinds st p : string_kinds st -> string_kinds (collect st p).
Proof.
  intros K. unfold collect.
  destruct (strings st !! p) as [ts|] eqn:E; [|exact K].
  intros q tq. cbn [strings]. intros Hq.
  apply lookup_delete_Some in Hq as [_ Hq].
  destruct (strisshr ts); exact (K q tq Hq).
Qed.

Lemma step_kinds st o : string_kinds st -> string_kinds (step luaS_hash st o).
Proof.
  intros K. destruct o; cbn [step].
  - apply newlstr_kinds, K.
  - apply newextlstr_kinds, K.
  - apply hashlongstr_kinds, K.
  - apply collect_kinds, K.
  - intros a b. rewrite strings_resize. apply K.
Qed.

Lemma run_kinds ops : forall st, string_kinds st -> string_kinds (run luaS_hash ops st).
Proof.
  induction ops as [|o ops IH]; intros st K; [exact K|].
  cbn [run foldl]. apply IH, step_kinds, K.
Qed.

Lemma init_kinds seed : string_kinds (luaS_init luaS_hash seed).
Proof.
  unfold luaS_init. apply newlstr_kinds. intros p ts H. cbn in H.
  rewrite lookup_empty in H. discriminate.
Qed.

End StringTableInv.

(** C4, as the code has it. After the initialization of the string table
    and any sequence of operations on strings (creation of strings of any
    length, of external strings, hashing of long strings, collection of
    dead strings, resizing of the table), the live short strings (the
    strings with the tag LUA_VSHRSTR) are exactly the live strings of at
    most LUAI_MAXSHORTLEN bytes that are not external strings, and two of
    them with identical bytes are the same object (their addresses are
    equal). An external string is a long string whatever its length: it
    is not interned. *)
Theorem short_strings_interned (luaS_hash : list Z -> Z -> Z) (seed : Z)
    (ops : list strop) (p1 p2 : Z) (ts1 ts2 : TString) :
  let st := run luaS_hash ops (luaS_init luaS_hash seed) in
  strings st !! p1 = Some ts1 -> strings st !! p2 = Some ts2 ->
  (ts_tt ts1 = LUA_VSHRSTR <->
   isextstr ts1 = false /\ Z.of_nat (length (contents ts1)) <= LUAI_MAXSHORTLEN) /\
  (isextstr ts1 = false -> isextstr ts2 = false ->
   Z.of_nat (length (contents ts1)) <= LUAI_MAXSHORTLEN ->
   contents ts1 = contents ts2 -> p1 = p2).
Proof.
  intros st H1 H2.
  assert (I : strinv luaS_hash st) by apply run_inv, init_inv.
  assert (K : string_kinds st) by apply run_kinds, init_kinds.
  assert (Hshort : forall p ts, strings st !! p = Some ts ->
            isextstr ts = false ->
            Z.of_nat (length (contents ts)) <= LUAI_MAXSHORTLEN ->
            ts_tt ts = LUA_VSHRSTR).
  { intros p ts Hp Hext Hlen.
    destruct (K p ts Hp) as [Ht|[He|[_ Hl]]]; [exact Ht | congruence | lia]. }
  split.
  - split.
    + intros Ht. split.
      * unfold isextstr. rewrite Ht. reflexivity.
      * destruct (inv_short _ _ I p1 ts1 (conj H1 Ht)) as (Hlen & Hmax & _). lia.
    + intros [Hext Hlen]. exact (Hshort p1 ts1 H1 Hext Hlen).
  - intros He1 He2 Hlen Hc.
    apply (inv_unique _ _ I p1 p2 ts1 ts2); [split | split | exact Hc].
    + exact H1.
    + exact (Hshort p1 ts1 H1 He1 Hlen).
    + exact H2.
    + apply (Hshort p2 ts2 H2 He2). rewrite <- Hc. exact Hlen.
Qed.

Lemma short_strings_interned_witness :
  let h := fun (l : list Z) (seed : Z) => foldl Z.lxor seed l in
  let hi := [104; 105] in
  let st0 := luaS_init h 7 in
  (* "hi" is created, then an external "hi", then "hi" again *)
  let p1 := fst (luaS_newlstr h st0 hi) in
  let p2 := fst (luaS_newlstr h (run h [NewLStr hi; NewExtLStr hi 0 0] st0) hi) in
  let st := run h [NewLStr hi; NewExtLStr hi 0 0; NewLStr hi] st0 in
  exists ts, strings st !! p1 = Some ts /\ strings st !! p2 = Some ts /\
    contents ts = hi /\ ts_tt ts = LUA_VSHRSTR /\ p1 = p2.
Proof.
  intros h hi st0 p1 p2 st.
  set (ts := mkTString LUA_VSHRSTR 0 2 6 0 hi 0 0).
  assert (H1 : strings st !! p1 = Some ts) by (vm_compute; reflexivity).
  assert (H2 : strings st !! p2 = Some ts) by (vm_compute; reflexivity).
  exists ts. split; [exact H1|]. split; [exact H2|]. split; [reflexivity|].
  destruct (short_strings_interned h 7 [NewLStr hi; NewExtLStr hi 0 0; NewLStr hi]
              p1 p2 ts ts H1 H2) as [Hkind Hsame].
  split.
  - apply Hkind. split; [reflexivity | vm_compute; discriminate].
  - apply Hsame; [reflexivity | reflexivity | vm_compute; discriminate | reflexivity].
Defined.

(** C4, counterexample to the claim as stated: after the creation of the
    string "hi" and of an external string "hi" (lua_pushexternalstring
    puts no lower bound on the length), two different objects are live,
    both of 2 bytes, which is not more than LUAI_MAXSHORTLEN, and they
    hold the same bytes. *)
Lemma external_string_not_interned :
  let h := fun (l : list Z) (seed : Z) => foldl Z.lxor seed l in
  let st := run h [NewLStr [104; 105]; NewExtLStr [104; 105] 0 0] (luaS_init h 7) in
  exists p1 p2 ts1 ts2,
    strings st !! p1 = Some ts1 /\ strings st !! p2 = Some ts2 /\
    contents ts1 = contents ts2 /\
    tsslen ts1 = 2 /\ tsslen ts2 = 2 /\
    ts_tt ts1 = LUA_VSHRSTR /\ isextstr ts2 = true /\
    Z.of_nat (length (contents ts1)) <= LUAI_MAXSHORTLEN /\
    p1 <> p2.
Proof.
  exists 2, 3. eexists _, _.
  repeat split; try (vm_compute; reflexivity); vm_compute; discriminate.
Qed.

(** ** The model at work on concrete inputs *)

(** Under the assertion of [luaE_setdebt] (a positive number of bytes in
    use) and with counters that fit [l_mem], no operation of the function
    overflows: the wrap-around of the model is never exercised. *)
Lemma luaE_setdebt_no_overflow (g : global_State) (d : Z) :
  MIN_LMEM <= GCtotalbytes g - GCdebt g <= MAX_LMEM ->
  0 < GCtotalbytes g - GCdebt g ->
  MIN_LMEM <= d <= MAX_LMEM ->
  let tb := GCtotalbytes g - GCdebt g in
  let debt := if MAX_LMEM - tb <? d then MAX_LMEM - tb else d in
  luaE_setdebt g d = set_GCdebt debt (set_GCtotalbytes (tb + debt) g) /\
  MIN_LMEM <= MAX_LMEM - tb <= MAX_LMEM /\
  MIN_LMEM <= tb + debt <= MAX_LMEM.
Proof.
  intros Htb Hpos Hd tb debt.
  assert (H1 : MIN_LMEM <= MAX_LMEM - tb <= MAX_LMEM)
    by (unfold MIN_LMEM, MAX_LMEM in *; fold tb in Htb, Hpos; lia).
  assert (H2 : MIN_LMEM <= tb + debt <= MAX_LMEM).
  { unfold debt. fold tb in Htb, Hpos.
    destruct (Z.ltb_spec (MAX_LMEM - tb) d); unfold MIN_LMEM, MAX_LMEM in *; lia. }
  split; [|split; assumption].
  unfold luaE_setdebt, gettotalbytes. fold tb.
  rewrite (wrap_lmem_small tb) by (fold tb in Htb; exact Htb).
  rewrite (wrap_lmem_small (MAX_LMEM - tb)) by exact H1.
  fold debt. rewrite (wrap_lmem_small (tb + debt)) by exact H2.
  reflexivity.
Qed.

Example intarith_add_overflow :
  intarith LUA_OPADD LUA_MAXINTEGER 1 = Ret LUA_MININTEGER.
Proof. reflexivity. Qed.

Example intarith_mul_overflow : intarith LUA_OPMUL (2 ^ 62) 4 = Ret 0.
Proof. reflexivity. Qed.

Example intarith_unm_minint :
  intarith LUA_OPUNM LUA_MININTEGER 0 = Ret LUA_MININTEGER.
Proof. reflexivity. Qed.

Example tointegerns_float_three :
  tointegerns (mkTValue (V_n (cast_num 3)) LUA_VNUMFLT) = Some 3.
Proof. reflexivity. Qed.

Example tointegerns_float_half :
  tointegerns (mkTValue (V_n (num_div (cast_num 7) (cast_num 2))) LUA_VNUMFLT) = None.
Proof. reflexivity. Qed.

Example tointegerns_float_two_to_63 :
  tointegerns (mkTValue (V_n (cast_num (2 ^ 63))) LUA_VNUMFLT) = None.
Proof. reflexivity. Qed.

Example tointegerns_nan :
  tointegerns (mkTValue (V_n S754_nan) LUA_VNUMFLT) = None.
Proof. reflexivity. Qed.

Example rawarith_shl_float_operand :
  luaO_rawarith (H := no_libm) LUA_OPSHL
    (mkTValue (V_n (cast_num 1)) LUA_VNUMFLT) (mkTValue (V_i 4) LUA_VNUMINT)
    (mkTValue (V_ub 0) LUA_VNIL)
  = Ret (1, mkTValue (V_i 16) LUA_VNUMINT).
Proof. reflexivity. Qed.

Example rawarith_band_fraction_fails :
  luaO_rawarith (H := no_libm) LUA_OPBAND
    (mkTValue (V_n (num_div (cast_num 1) (cast_num 2))) LUA_VNUMFLT)
    (mkTValue (V_i 4) LUA_VNUMINT) (mkTValue (V_ub 0) LUA_VNIL)
  = Ret (0, mkTValue (V_ub 0) LUA_VNIL).
Proof. reflexivity. Qed.

Example rawarith_div_integers_is_float :
  luaO_rawarith (H := no_libm) LUA_OPDIV
    (mkTValue (V_i 7) LUA_VNUMINT) (mkTValue (V_i 2) LUA_VNUMINT)
    (mkTValue (V_ub 0) LUA_VNIL)
  = Ret (1, mkTValue (V_n (num_div (cast_num 7) (cast_num 2))) LUA_VNUMFLT).
Proof. reflexivity. Qed.

Example rawarith_mod_zero_raises :
  luaO_rawarith (H := no_libm) LUA_OPMOD
    (mkTValue (V_i 1) LUA_VNUMINT) (mkTValue (V_i 0) LUA_VNUMINT)
    (mkTValue (V_ub 0) LUA_VNIL)
  = Raise "attempt to perform 'n%%0'".
Proof. reflexivity. Qed.

Example l_str2int_minint :
  l_str2int "  -9223372036854775808  " = Some (EmptyString, LUA_MININTEGER).
Proof. reflexivity. Qed.

Example l_str2int_maxint_plus_one : l_str2int "9223372036854775808" = None.
Proof. reflexivity. Qed.

Example l_str2int_hexadecimal_wraps :
  l_str2int "0xffffffffffffffffff" = Some (EmptyString, -1).
Proof. reflexivity. Qed.

Example luaO_str2num_integer :
  luaO_str2num (H := no_libc) "42" (mkTValue (V_ub 0) LUA_VNIL)
  = (3, mkTValue (V_i 42) LUA_VNUMINT).
Proof. reflexivity. Qed.

Example luaO_utf8esc_euro :
  luaO_utf8esc [0; 0; 0; 0; 0; 0; 0; 0] 8364
  = Some ([0; 0; 0; 0; 0; 226; 130; 172], 3).
Proof. reflexivity. Qed.

Example luaO_utf8esc_largest :
  luaO_utf8esc [0; 0; 0; 0; 0; 0; 0; 0] 2147483647
  = Some ([0; 0; 253; 191; 191; 191; 191; 191], 6).
Proof. reflexivity. Qed.

Example utf8_decode_overlong : utf8_decode [192; 128] = None.
Proof. reflexivity. Qed.

Example lua_toboolean_zero :
  lua_toboolean (thread_with sample_global (mkTValue (V_i 0) LUA_VNUMINT)) (-1)
  = Some 1.
Proof. reflexivity. Qed.

Example lua_toboolean_beyond_top :
  lua_toboolean (thread_with sample_global (mkTValue (V_i 0) LUA_VNUMINT)) 5
  = Some 0.
Proof. reflexivity. Qed.

Example index2value_upvalue :
  index2value
    (set_stack (<[0%nat := mkStackValue (mkTValue (V_gc 2) (ctb LUA_VCCL)) 0]>
                  (stack (stack_init sample_global)))
       (stack_init sample_global))
    (LUA_REGISTRYINDEX - 1)
  = Some (mkTValue (V_i 7) 3).
Proof. reflexivity. Qed.

(** * Further properties of the code *)

Import Param HexNumerals ChunkId FString Num2Str RoundTrip ApiStack Collector
  CallInfoList.

(** ** Ceiling logarithm and GC parameters *)

Section CeilLog2.

Lemma log_2_entry y :
  0 <= y < 256 ->
  exists v, log_2 !! Z.to_nat y = Some v /\ 0 <= v <= 8 /\ y < 2 ^ v /\
            (v = 0 \/ 2 ^ (v - 1) <= y).
Proof.
  intros Hy.
  pose (P := fun y =>
    match log_2 !! Z.to_nat y with
    | Some v => (0 <=? v) && (v <=? 8) && (y <? 2 ^ v) &&
                ((v =? 0) || (2 ^ (v - 1) <=? y))
    | None => false
    end).
  assert (HP : P y = true).
  { apply (forall_below P 256); [vm_compute; reflexivity | lia]. }
  unfold P in HP. destruct (log_2 !! Z.to_nat y) as [v|]; [|discriminate].
  exists v. split; [reflexivity|].
  apply andb_prop in HP; destruct HP as [HP H4].
  apply andb_prop in HP; destruct HP as [HP H3].
  apply andb_prop in HP; destruct HP as [H1 H2].
  split; [lia|]. split; [lia|].
  apply orb_prop in H4. destruct H4; [left|right]; lia.
Qed.

Lemma ceillog2_loop_spec fuel : forall l y,
  0 <= y < 2 ^ (8 * Z.of_nat fuel) -> (0 < fuel)%nat ->
  exists k y', ceillog2_loop fuel l y = Some (l + 8 * k, y') /\
    0 <= k < Z.of_nat fuel /\ 0 <= y' < 256 /\ y' = y / 2 ^ (8 * k) /\
    (0 < k -> 1 <= y').
Proof.
  induction fuel as [|fuel IH]; intros l y Hy Hf; [lia|].
  cbn [ceillog2_loop]. destruct (256 <=? y) eqn:E.
  - apply Z.leb_le in E.
    assert (Hf' : (0 < fuel)%nat).
    { destruct fuel; [|lia]. change (2 ^ (8 * Z.of_nat 1)) with 256 in Hy. lia. }
    assert (Hs : 0 <= Z.shiftr y 8 < 2 ^ (8 * Z.of_nat fuel)).
    { rewrite Z.shiftr_div_pow2 by lia. split.
      - apply Z.div_pos; lia.
      - apply Z.div_lt_upper_bound; [lia|].
        rewrite <- Z.pow_add_r by lia.
        replace (8 + 8 * Z.of_nat fuel) with (8 * Z.of_nat (S fuel)) by lia. lia. }
    destruct (IH (l + 8) (Z.shiftr y 8) Hs Hf') as (k & y' & H1 & H2 & H3 & H4 & H5).
    exists (k + 1), y'. split; [rewrite H1; f_equal; f_equal; lia|].
    split; [lia|]. split; [lia|]. split.
    + rewrite H4, Z.shiftr_div_pow2 by lia.
      rewrite Z.div_div by lia. rewrite <- Z.pow_add_r by lia.
      f_equal. f_equal. lia.
    + intros _. destruct (Z.eq_dec k 0) as [->|Hk].
      * rewrite H4, Z.shiftr_div_pow2 by lia.
        change (2 ^ (8 * 0)) with 1. rewrite Z.div_1_r.
        apply Z.div_le_lower_bound; lia.
      * apply H5. lia.
  - apply Z.leb_gt in E. exists 0, y. split; [f_equal; f_equal; lia|].
    split; [lia|]. split; [lia|]. split.
    + change (2 ^ (8 * 0)) with 1. now rewrite Z.div_1_r.
    + lia.
Qed.

Lemma ceillog2_pred y :
  0 <= y < 2 ^ 32 ->
  exists n, ceillog2_loop 4 0 y ≫= (fun '(l, x) =>
              (fun v => cast_byte (l + v)) <$> (log_2 !! Z.to_nat x)) = Some n /\
    0 <= n <= 32 /\ y < 2 ^ n /\ (n = 0 \/ 2 ^ (n - 1) <= y).
Proof.
  intros Hy.
  destruct (ceillog2_loop_spec 4 0 y) as (k & y' & H1 & H2 & H3 & H4 & H5);
    [change (2 ^ (8 * Z.of_nat 4)) with (2 ^ 32); lia | lia |].
  destruct (log_2_entry y' H3) as (v & Hv1 & Hv2 & Hv3 & Hv4).
  exists (8 * k + v). rewrite H1. cbn. rewrite Hv1. cbn.
  assert (Hpow : 0 < 2 ^ (8 * k)) by (apply Z.pow_pos_nonneg; lia).
  assert (Hb : 0 <= 8 * k + v <= 32).
  { split; [lia|]. destruct (Z.eq_dec k 3) as [->|]; [|lia].
    (* y' = y / 2^24 < 2^8 *)
    lia. }
  split.
  { unfold cast_byte. rewrite Z.mod_small by lia. f_equal. }
  split; [exact Hb|]. split.
  - replace (8 * k + v) with (v + 8 * k) by lia.
    rewrite Z.pow_add_r by lia.
    subst y'. pose proof (Z.mul_succ_div_gt y (2 ^ (8 * k)) Hpow). nia.
  - destruct (Z.eq_dec v 0) as [->|Hv0].
    + destruct (Z.eq_dec k 0) as [->|Hk]; [left; lia|].
      assert (1 <= y') by (apply H5; lia). rewrite Z.pow_0_r in Hv3. lia.
    + destruct Hv4 as [->|Hv4]; [lia|].
      right. replace (8 * k + v - 1) with ((v - 1) + 8 * k) by lia.
      rewrite Z.pow_add_r by lia.
      subst y'.
      pose proof (Z.mul_div_le y (2 ^ (8 * k)) Hpow). nia.
Qed.

End CeilLog2.

(** X1. luaO_ceillog2 computes the ceiling of the base-2 logarithm: for a
    non-zero 32-bit [x] it returns the least [n] with [x <= 2 ^ n]. *)
Theorem luaO_ceillog2_least (x : Z) :
  1 <= x < 2 ^ 32 ->
  exists n, luaO_ceillog2 x = Some n /\ 0 <= n <= 32 /\ x <= 2 ^ n /\
            forall k, 0 <= k -> x <= 2 ^ k -> n <= k.
Proof.
  intros Hx. unfold luaO_ceillog2.
  assert (Hw : wrap32 (x - 1) = x - 1) by (unfold wrap32; apply Z.mod_small; lia).
  rewrite Hw.
  destruct (ceillog2_pred (x - 1)) as (n & H1 & H2 & H3 & H4); [lia|].
  exists n. split.
  { destruct (ceillog2_loop 4 0 (x - 1)) as [[l y]|]; [exact H1|discriminate]. }
  split; [exact H2|]. split; [lia|].
  intros k Hk Hxk. destruct H4 as [->|H4]; [lia|].
  destruct (Z_lt_le_dec k n) as [Hlt|]; [|lia].
  assert (2 ^ k <= 2 ^ (n - 1)) by (apply Z.pow_le_mono_r; lia). lia.
Qed.

Lemma luaO_ceillog2_least_witness :
  exists n, luaO_ceillog2 1000 = Some n /\ 0 <= n <= 32 /\ 1000 <= 2 ^ n /\
            forall k, 0 <= k -> 1000 <= 2 ^ k -> n <= k.
Proof. apply (luaO_ceillog2_least 1000). lia. Defined.

Section ApplyParam.

Lemma MAX_LMEM_val : MAX_LMEM = 9223372036854775807.
Proof. reflexivity. Qed.

Lemma wrap_lmem_id z : 0 <= z <= MAX_LMEM -> wrap_lmem z = z.
Proof.
  intros H. unfold wrap_lmem. rewrite MAX_LMEM_val in H.
  change (2 ^ 63) with 9223372036854775808.
  change (2 ^ 64) with 18446744073709551616.
  rewrite Z.mod_small; lia.
Qed.

Lemma param_decode_range p :
  0 <= p <= 255 ->
  0 <= param_mantissa p <= 31 /\ -7 <= param_exponent p <= 7.
Proof.
  intros Hp. unfold param_mantissa, param_exponent.
  assert (0 <= p / 16 <= 15) by (Z.div_mod_to_equations; lia).
  assert (0 <= p mod 16 <= 15) by (Z.div_mod_to_equations; lia).
  destruct (0 <? p / 16) eqn:E; [apply Z.ltb_lt in E|apply Z.ltb_ge in E]; lia.
Qed.

Lemma luaO_applyparam_eq p x :
  0 <= p <= 255 ->
  luaO_applyparam p x =
    let m := param_mantissa p in
    let e := param_exponent p in
    if 0 <=? e then
      if x <? (MAX_LMEM / 31) / 2 ^ e
      then wrap_lmem (wrap_lmem (x * m) * 2 ^ e) else MAX_LMEM
    else
      if x <? MAX_LMEM / 31 then wrap_lmem (x * m) / 2 ^ (- e)
      else if x / 2 ^ (- e) <? MAX_LMEM / 31
           then wrap_lmem (x / 2 ^ (- e) * m) else MAX_LMEM.
Proof.
  intros Hp. unfold luaO_applyparam, param_mantissa, param_exponent.
  change 15 with (Z.ones 4). rewrite Z.land_ones by lia.
  rewrite (Z.shiftr_div_pow2 p 4) by lia. change (2 ^ 4) with 16.
  assert (0 <= p / 16 <= 15) by (Z.div_mod_to_equations; lia).
  destruct (0 <? p / 16) eqn:E; cbn zeta;
    [apply Z.ltb_lt in E|apply Z.ltb_ge in E].
  - destruct (0 <=? p / 16 - 1 - 7) eqn:E2;
      [apply Z.leb_le in E2|apply Z.leb_gt in E2].
    + rewrite Z.shiftr_div_pow2, Z.shiftl_mul_pow2 by lia. reflexivity.
    + rewrite !Z.shiftr_div_pow2 by lia. reflexivity.
  - destruct (0 <=? p / 16 - 7) eqn:E2;
      [apply Z.leb_le in E2|apply Z.leb_gt in E2].
    + rewrite Z.shiftr_div_pow2, Z.shiftl_mul_pow2 by lia. reflexivity.
    + rewrite !Z.shiftr_div_pow2 by lia. reflexivity.
Qed.

(** The three ways luaO_applyparam computes its result, with the
    wrap-around shown never to happen. *)
Lemma luaO_applyparam_cases p x :
  0 <= p <= 255 -> 0 <= x <= MAX_LMEM ->
  let m := param_mantissa p in
  let e := param_exponent p in
  let r := luaO_applyparam p x in
  (0 <= e /\ x < (MAX_LMEM / 31) / 2 ^ e /\ r = x * m * 2 ^ e) \/
  (e < 0 /\ x < MAX_LMEM / 31 /\ r = (x * m) / 2 ^ (- e)) \/
  (e < 0 /\ MAX_LMEM / 31 <= x /\ x / 2 ^ (- e) < MAX_LMEM / 31 /\
     r = x / 2 ^ (- e) * m) \/
  (r = MAX_LMEM /\ (0 <= e -> (MAX_LMEM / 31) / 2 ^ e <= x) /\
     (e < 0 -> MAX_LMEM / 31 <= x / 2 ^ (- e))).
Proof.
  intros Hp Hx m e r. subst r. rewrite luaO_applyparam_eq by exact Hp.
  fold m e. cbn zeta.
  destruct (param_decode_range p Hp) as [Hm He]. fold m in Hm. fold e in He.
  assert (H31 : MAX_LMEM / 31 = 297528130221121800) by reflexivity.
  rewrite MAX_LMEM_val in Hx.
  destruct (0 <=? e) eqn:E; [apply Z.leb_le in E|apply Z.leb_gt in E].
  - assert (Hpow : 0 < 2 ^ e) by (apply Z.pow_pos_nonneg; lia).
    destruct (x <? MAX_LMEM / 31 / 2 ^ e) eqn:E2;
      [apply Z.ltb_lt in E2|apply Z.ltb_ge in E2].
    + left. split; [exact E|]. split; [exact E2|].
      assert (Hq : x * 2 ^ e < MAX_LMEM / 31).
      { pose proof (Z.mul_div_le (MAX_LMEM / 31) (2 ^ e) Hpow). nia. }
      rewrite H31 in Hq.
      rewrite (wrap_lmem_id (x * m)) by (rewrite MAX_LMEM_val; nia).
      rewrite wrap_lmem_id; [reflexivity|]. rewrite MAX_LMEM_val. nia.
    + right. right. right. split; [reflexivity|]. split; [intros _; exact E2|lia].
  - assert (Hpow : 0 < 2 ^ (- e)) by (apply Z.pow_pos_nonneg; lia).
    destruct (x <? MAX_LMEM / 31) eqn:E2;
      [apply Z.ltb_lt in E2|apply Z.ltb_ge in E2].
    + right. left. split; [exact E|]. split; [exact E2|].
      rewrite wrap_lmem_id; [reflexivity|]. rewrite MAX_LMEM_val. nia.
    + destruct (x / 2 ^ (- e) <? MAX_LMEM / 31) eqn:E3;
        [apply Z.ltb_lt in E3|apply Z.ltb_ge in E3].
      * right. right. left. split; [exact E|]. split; [exact E2|].
        split; [exact E3|].
        assert (0 <= x / 2 ^ (- e)) by (apply Z.div_pos; lia).
        rewrite wrap_lmem_id; [reflexivity|]. rewrite MAX_LMEM_val. nia.
      * right. right. right. split; [reflexivity|]. split; [lia|intros _; exact E3].
Qed.

End ApplyParam.

(** X2. luaO_applyparam never overflows: for a byte [p] and a non-negative
    [x] the result lies in [0, MAX_LMEM]; it is the exact product of [x]
    and the value of [p] for a non-negative exponent, the product rounded
    down by less than 32 for a negative one, and MAX_LMEM only when [x]
    scaled by the exponent reaches MAX_LMEM / 31. *)
Theorem luaO_applyparam_bounds (p x : Z) :
  0 <= p <= 255 -> 0 <= x <= MAX_LMEM ->
  let m := param_mantissa p in
  let e := param_exponent p in
  let r := luaO_applyparam p x in
  0 <= r <= MAX_LMEM /\
  ((0 <= e /\ r = x * m * 2 ^ e) \/
   (e < 0 /\ r * 2 ^ (- e) <= x * m < (r + 32) * 2 ^ (- e)) \/
   (r = MAX_LMEM /\ (0 <= e -> (MAX_LMEM / 31) / 2 ^ e <= x) /\
      (e < 0 -> MAX_LMEM / 31 <= x / 2 ^ (- e)))).
Proof.
  intros Hp Hx m e r.
  destruct (param_decode_range p Hp) as [Hm He]. fold m in Hm. fold e in He.
  assert (H31 : MAX_LMEM / 31 = 297528130221121800) by reflexivity.
  destruct (luaO_applyparam_cases p x Hp Hx) as [H|[H|[H|H]]];
    fold m e r in H; rewrite MAX_LMEM_val in *.
  - destruct H as (E & H1 & H2).
    assert (Hpow : 0 < 2 ^ e) by (apply Z.pow_pos_nonneg; lia).
    assert (Hq : x * 2 ^ e < 297528130221121800).
    { rewrite H31 in H1.
      pose proof (Z.mul_div_le 297528130221121800 (2 ^ e) Hpow). nia. }
    split; [nia|]. left. split; [exact E|exact H2].
  - destruct H as (E & H1 & H2).
    assert (Hpow : 0 < 2 ^ (- e)) by (apply Z.pow_pos_nonneg; lia).
    pose proof (Z.mul_div_le (x * m) (2 ^ (- e)) Hpow).
    pose proof (Z.mul_succ_div_gt (x * m) (2 ^ (- e)) Hpow).
    assert (0 <= x * m / 2 ^ (- e)) by (apply Z.div_pos; nia).
    assert (x * m / 2 ^ (- e) <= x * m) by (apply Z.div_le_upper_bound; nia).
    split; [nia|]. right. left. split; [exact E|]. rewrite H2. nia.
  - destruct H as (E & H1 & H2 & H3).
    assert (Hpow : 0 < 2 ^ (- e)) by (apply Z.pow_pos_nonneg; lia).
    pose proof (Z.mul_div_le x (2 ^ (- e)) Hpow).
    pose proof (Z.mul_succ_div_gt x (2 ^ (- e)) Hpow).
    assert (0 <= x / 2 ^ (- e)) by (apply Z.div_pos; lia).
    split; [nia|]. right. left. split; [exact E|]. rewrite H3. nia.
  - destruct H as (H1 & H2). split; [lia|]. right. right. split; [exact H1|exact H2].
Qed.

Lemma luaO_applyparam_bounds_witness :
  let m := param_mantissa 64 in
  let e := param_exponent 64 in
  let r := luaO_applyparam 64 1000 in
  0 <= r <= MAX_LMEM /\
  ((0 <= e /\ r = 1000 * m * 2 ^ e) \/
   (e < 0 /\ r * 2 ^ (- e) <= 1000 * m < (r + 32) * 2 ^ (- e)) \/
   (r = MAX_LMEM /\ (0 <= e -> (MAX_LMEM / 31) / 2 ^ e <= 1000) /\
      (e < 0 -> MAX_LMEM / 31 <= 1000 / 2 ^ (- e)))).
Proof. apply (luaO_applyparam_bounds 64 1000); vm_compute; split; discriminate. Defined.

Section CodeParam.

(** The byte built from an exponent [l] and a 5-bit mantissa [mm]. *)
Lemma pack_decode l mm :
  0 <= l < 15 -> 16 <= mm < 32 ->
  let b := cast_byte (Z.lor (wrap32 (mm - 16))
                            (wrap32 (Z.shiftl (wrap32 (l + 1)) 4))) in
  0 <= b <= 255 /\ param_mantissa b = mm /\ param_exponent b = l - 7.
Proof.
  intros Hl Hm.
  pose (P := fun l mm =>
    let b := cast_byte (Z.lor (wrap32 (mm - 16))
                              (wrap32 (Z.shiftl (wrap32 (l + 1)) 4))) in
    (0 <=? b) && (b <=? 255) && (param_mantissa b =? mm) &&
    (param_exponent b =? l - 7)).
  assert (HP : P l mm = true).
  { pose (Q := fun l => forallb (fun k => P l (16 + Z.of_nat k)) (seq 0 16)).
    assert (HQ : Q l = true).
    { apply (forall_below Q 15); [vm_compute; reflexivity | lia]. }
    unfold Q in HQ. rewrite forallb_forall in HQ.
    specialize (HQ (Z.to_nat (mm - 16))).
    replace (16 + Z.of_nat (Z.to_nat (mm - 16))) with mm in HQ by lia.
    apply HQ. apply in_seq. lia. }
  unfold P in HP. cbn zeta in *.
  apply andb_prop in HP; destruct HP as [HP H4].
  apply andb_prop in HP; destruct HP as [HP H3].
  apply andb_prop in HP; destruct HP as [H1 H2].
  lia.
Qed.

Lemma codeparam_value p :
  0 <= p < 396800 ->
  let q := (p * 128 + 99) / 100 in
  exists b, luaO_codeparam p = Some b /\ 0 <= b <= 255 /\
    exists l, 0 <= l /\ -7 <= param_exponent b /\
      param_exponent b = l - 7 /\ 0 <= param_mantissa b <= 31 /\
      param_mantissa b * 2 ^ l <= q /\
      16 * q < 17 * (param_mantissa b * 2 ^ l) + (if q =? 0 then 1 else 0).
Proof.
  intros Hp q. unfold luaO_codeparam.
  change (Z.shiftl 31 (15 - 7 - 1) * 100) with 396800.
  destruct (396800 <=? p) eqn:E; [apply Z.leb_le in E; lia|clear E].
  assert (Hw : wrap32 (wrap32 p * 128 + 99) / 100 = q).
  { unfold wrap32, q. change (2 ^ 32) with 4294967296.
    rewrite (Z.mod_small p) by lia. rewrite Z.mod_small by lia. reflexivity. }
  rewrite Hw.
  assert (Hq : 0 <= q < 507904) by (unfold q; Z.div_mod_to_equations; lia).
  destruct (q <? 16) eqn:E; [apply Z.ltb_lt in E|apply Z.ltb_ge in E].
  - exists q. unfold cast_byte. rewrite Z.mod_small by lia.
    split; [reflexivity|]. split; [lia|]. exists 0.
    unfold param_exponent, param_mantissa.
    rewrite (Z.div_small q 16), (Z.mod_small q 16) by lia. cbn.
    destruct (q =? 0) eqn:E0; [apply Z.eqb_eq in E0|apply Z.eqb_neq in E0]; lia.
  - assert (Hw1 : wrap32 (q + 1) = q + 1).
    { unfold wrap32. change (2 ^ 32) with 4294967296. apply Z.mod_small. lia. }
    rewrite Hw1. unfold luaO_ceillog2.
    replace (q + 1 - 1) with q by lia.
    assert (Hw2 : wrap32 q = q).
    { unfold wrap32. change (2 ^ 32) with 4294967296. apply Z.mod_small. lia. }
    rewrite Hw2.
    destruct (ceillog2_pred q) as (c & H1 & H2 & H3 & H4);
      [change (2 ^ 32) with 4294967296; lia|].
    assert (Hc : ceillog2_loop 4 0 q ≫= (fun '(l, x) =>
                   (fun v => cast_byte (l + v)) <$> (log_2 !! Z.to_nat x)) =
                 match ceillog2_loop 4 0 q with
                 | Some (l, x) => (fun v => cast_byte (l + v)) <$> (log_2 !! Z.to_nat x)
                 | None => None
                 end).
    { destruct (ceillog2_loop 4 0 q) as [[? ?]|]; reflexivity. }
    rewrite <- Hc, H1.
    (* 2^(c-1) <= q < 2^c *)
    assert (Hc5 : 5 <= c).
    { destruct (Z_lt_le_dec c 5) as [Hlt|]; [|lia].
      assert (2 ^ c <= 2 ^ 4) by (apply Z.pow_le_mono_r; lia).
      change (2 ^ 4) with 16 in *. lia. }
    destruct H4 as [->|H4]; [lia|].
    assert (Hc19 : c <= 19).
    { destruct (Z_lt_le_dec 19 c) as [Hlt|]; [|lia].
      assert (2 ^ 19 <= 2 ^ (c - 1)) by (apply Z.pow_le_mono_r; lia).
      change (2 ^ 19) with 524288 in *. lia. }
    assert (Hw3 : wrap32 (c - 5) = c - 5).
    { unfold wrap32. change (2 ^ 32) with 4294967296. apply Z.mod_small. lia. }
    rewrite Hw3.
    destruct (c - 5 <? 32) eqn:E32; [|apply Z.ltb_ge in E32; lia].
    set (l := c - 5) in *.
    assert (Hpow : 0 < 2 ^ l) by (apply Z.pow_pos_nonneg; lia).
    rewrite Z.shiftr_div_pow2 by lia.
    set (mm := q / 2 ^ l).
    assert (Hmm : 16 <= mm < 32).
    { unfold mm. split.
      - apply Z.div_le_lower_bound; [lia|].
        change 16 with (2 ^ 4). rewrite <- Z.pow_add_r by lia.
        replace (l + 4) with (c - 1) by lia. exact H4.
      - apply Z.div_lt_upper_bound; [lia|].
        change 32 with (2 ^ 5). rewrite <- Z.pow_add_r by lia.
        replace (l + 5) with c by lia. exact H3. }
    destruct (pack_decode l mm) as (Hb & Hbm & Hbe); [lia|lia|].
    cbn zeta in Hb, Hbm, Hbe.
    eexists. split; [reflexivity|]. split; [exact Hb|].
    exists l. rewrite Hbm, Hbe.
    split; [lia|]. split; [lia|]. split; [reflexivity|]. split; [lia|].
    pose proof (Z.mul_div_le q (2 ^ l) Hpow).
    pose proof (Z.mul_succ_div_gt q (2 ^ l) Hpow).
    fold mm in H, H0.
    destruct (q =? 0) eqn:E0; [apply Z.eqb_eq in E0; lia|].
    split; nia.
Qed.

End CodeParam.

Lemma applyparam_codeparam_bounds (p x : Z) :
  0 <= p < 396800 -> 0 <= x < 2 ^ 50 ->
  exists b, luaO_codeparam p = Some b /\ 0 <= b <= 255 /\
    12800 * luaO_applyparam b x <= x * (128 * p + 99) /\
    16 * x * p < 1700 * (luaO_applyparam b x + 1).
Proof.
  intros Hp Hx.
  destruct (codeparam_value p Hp) as (b & Hb & Hb255 & l & Hl & He7 & He & Hm & Hlo & Hhi).
  exists b. split; [exact Hb|]. split; [exact Hb255|].
  set (q := (p * 128 + 99) / 100) in *.
  assert (Hq : 128 * p <= 100 * q <= 128 * p + 99).
  { unfold q. Z.div_mod_to_equations. lia. }
  change (2 ^ 50) with 1125899906842624 in Hx.
  assert (Hx' : 0 <= x <= MAX_LMEM) by (rewrite MAX_LMEM_val; lia).
  assert (H31 : MAX_LMEM / 31 = 297528130221121800) by reflexivity.
  assert (Hpl : 0 < 2 ^ l) by (apply Z.pow_pos_nonneg; lia).
  destruct (param_decode_range b Hb255) as [_ He77].
  set (m := param_mantissa b) in *. set (e := param_exponent b) in *.
  (* 128 r <= x * m * 2^l < 128 (r + 1) *)
  assert (Hr : 128 * luaO_applyparam b x <= x * (m * 2 ^ l) <
               128 * (luaO_applyparam b x + 1)).
  { destruct (luaO_applyparam_cases b x Hb255 Hx') as [H|[H|[H|H]]];
      fold m e in H.
    - destruct H as (E & H1 & H2). rewrite H2.
      replace l with (e + 7) by lia. rewrite Z.pow_add_r by lia.
      change (2 ^ 7) with 128. nia.
    - destruct H as (E & H1 & H2). rewrite H2.
      assert (Hpe : 0 < 2 ^ (- e)) by (apply Z.pow_pos_nonneg; lia).
      assert (Hsplit : 2 ^ l * 2 ^ (- e) = 128).
      { rewrite <- Z.pow_add_r by lia. replace (l + - e) with 7 by lia. reflexivity. }
      pose proof (Z.mul_div_le (x * m) (2 ^ (- e)) Hpe).
      pose proof (Z.mul_succ_div_gt (x * m) (2 ^ (- e)) Hpe).
      nia.
    - destruct H as (E & H1 & _). rewrite H31 in H1. lia.
    - destruct H as (H1 & H2 & H3).
      destruct (Z_lt_le_dec e 0) as [Hneg|Hpos].
      + specialize (H3 Hneg). rewrite H31 in H3.
        assert (Hpe : 0 < 2 ^ (- e)) by (apply Z.pow_pos_nonneg; lia).
        assert (x / 2 ^ (- e) <= x) by (apply Z.div_le_upper_bound; nia). lia.
      + specialize (H2 Hpos). rewrite H31 in H2.
        assert (2 ^ e <= 2 ^ 7) by (apply Z.pow_le_mono_r; lia).
        change (2 ^ 7) with 128 in *.
        assert (Hpe : 0 < 2 ^ e) by (apply Z.pow_pos_nonneg; lia).
        assert (297528130221121800 / 128 <= 297528130221121800 / 2 ^ e).
        { apply Z.div_le_compat_l; lia. }
        change (297528130221121800 / 128) with 2324438517352514 in *. lia. }
  split; [nia|].
  destruct (q =? 0) eqn:E0; [apply Z.eqb_eq in E0|apply Z.eqb_neq in E0].
  - assert (p = 0) by lia. subst p. nia.
  - nia.
Qed.

(** X3. Encoding a percentage with luaO_codeparam and applying it with
    luaO_applyparam multiplies by about [p / 100]: below the overflow
    limit of the encoding, the result is at most [x * (128 p + 99) / 12800]
    and more than 16/17 of [x * p / 100], minus one. *)
Theorem applyparam_codeparam (p x : Z) :
  0 <= p < 396800 -> 0 <= x < 2 ^ 50 ->
  exists b, luaO_codeparam p = Some b /\ 0 <= b <= 255 /\
    12800 * luaO_applyparam b x <= x * (128 * p + 99) /\
    16 * x * p < 1700 * (luaO_applyparam b x + 1).
Proof. exact (applyparam_codeparam_bounds p x). Qed.

Lemma applyparam_codeparam_witness :
  exists b, luaO_codeparam 30 = Some b /\ 0 <= b <= 255 /\
    12800 * luaO_applyparam b 100 <= 100 * (128 * 30 + 99) /\
    16 * 100 * 30 < 1700 * (luaO_applyparam b 100 + 1).
Proof. apply (applyparam_codeparam 30 100); vm_compute; split; discriminate || reflexivity. Defined.

(** ** Numerals *)

Section HexNumeralProofs.

Local Abbreviation str := string_of_list_ascii.

Lemma xdigit_props d :
  is_xdigit d ->
  lisxdigit (code (xdigit_char d)) = true /\
  luaO_hexavalue (code (xdigit_char d)) = fst d.
Proof.
  destruct d as [v up]. unfold is_xdigit. cbn [fst]. intros Hv.
  pose (P := fun up v => lisxdigit (code (xdigit_char (v, up)))
                         && (luaO_hexavalue (code (xdigit_char (v, up))) =? v)).
  assert (HP : P up v = true).
  { destruct up; apply (forall_below (P _) 16); (vm_compute; reflexivity) || lia. }
  unfold P in HP. apply andb_prop in HP. destruct HP as [H1 H2].
  split; [exact H1|lia].
Qed.

Lemma space_not_xdigit c : is_space c -> lisxdigit (code c) = false.
Proof.
  unfold is_space. intros Hs. pose proof (code_range c) as Hc.
  assert (H : (negb (lisspace (code c)) || negb (lisxdigit (code c))) = true).
  { apply (forall_below (fun k => negb (lisspace k) || negb (lisxdigit k)) 256);
      [vm_compute; reflexivity | lia]. }
  rewrite Hs in H. cbn in H. now apply negb_true_iff in H.
Qed.

Lemma hex_loop_digits sp2 ds : forall a z e,
  Forall is_xdigit ds -> Forall is_space sp2 ->
  a = z mod 2 ^ 64 ->
  hex_loop (str (map xdigit_char ds ++ sp2)) a e =
    (str sp2, xdigits_value z ds mod 2 ^ 64,
     match ds with [] => e | _ => false end).
Proof.
  induction ds as [|d ds IH]; intros a z e Hds Hsp Ha.
  - cbn [map app xdigits_value]. subst a.
    destruct Hsp as [|c sp2 Hc Hsp]; [reflexivity|].
    cbn [string_of_list_ascii hex_loop].
    rewrite (space_not_xdigit c Hc). reflexivity.
  - inversion Hds as [|? ? Hd Hds']; subst.
    cbn [map app string_of_list_ascii hex_loop xdigits_value].
    destruct (xdigit_props d Hd) as [-> ->].
    rewrite (IH _ (z * 16 + fst d) false Hds' Hsp).
    + destruct ds; reflexivity.
    + unfold uadd, umul.
      rewrite Zmult_mod_idemp_l, Zplus_mod_idemp_l. reflexivity.
Qed.

Lemma hex_sign_scan sp1 sg rest :
  Forall is_space sp1 ->
  isneg (skip_spaces (str (sp1 ++ sign_chars sg ++ "0"%char :: rest)))
  = (is_minus sg, str ("0"%char :: rest)).
Proof.
  intros Hsp. rewrite skip_spaces_app by exact Hsp.
  destruct sg; reflexivity.
Qed.

Lemma l_str2int_hex sp1 sg upper ds sp2 :
  Forall is_space sp1 -> Forall is_space sp2 ->
  Forall is_xdigit ds -> ds <> [] ->
  l_str2int (hex_numeral sp1 sg upper ds sp2) =
    Some (EmptyString,
          wrap_int (if is_minus sg then - xdigits_value 0 ds
                    else xdigits_value 0 ds)).
Proof.
  intros Hsp1 Hsp2 Hds Hne.
  unfold l_str2int, hex_numeral.
  rewrite (hex_sign_scan sp1 sg _ Hsp1). cbv beta iota.
  assert (Hpre : (peek (str ("0"%char :: (if upper then "X"%char else "x"%char)
                               :: map xdigit_char ds ++ sp2)) =? 48)
                 && ((peek (advance (str ("0"%char :: (if upper then "X"%char else "x"%char)
                               :: map xdigit_char ds ++ sp2))) =? 120)
                     || (peek (advance (str ("0"%char :: (if upper then "X"%char else "x"%char)
                               :: map xdigit_char ds ++ sp2))) =? 88)) = true).
  { destruct upper; reflexivity. }
  rewrite Hpre.
  cbn [string_of_list_ascii advance].
  rewrite (hex_loop_digits sp2 ds 0 0 true Hds Hsp2) by reflexivity.
  rewrite (skip_spaces_all sp2 Hsp2).
  destruct ds as [|d ds]; [contradiction|].
  cbn [peek orb Z.eqb negb]. f_equal. f_equal.
  rewrite l_castU2S_wrap.
  destruct (is_minus sg).
  - unfold usub. rewrite wrap_int_mod.
    rewrite <- (wrap_int_mod (0 - _ mod _)).
    rewrite Zminus_mod_idemp_r, wrap_int_mod. f_equal.
  - apply wrap_int_mod.
Qed.

End HexNumeralProofs.

Section AcceptedNumerals.

Local Abbreviation str := string_of_list_ascii.
Local Abbreviation chars := list_ascii_of_string.

Lemma ascii_of_code c : ascii_of_N (Z.to_N (code c)) = c.
Proof. unfold code. rewrite N2Z.id. apply ascii_N_embedding. Qed.

Lemma digit_char_inv c :
  lisdigit (code c) = true ->
  is_digit (code c - 48) /\ digit_char (code c - 48) = c.
Proof.
  intros H. pose proof (code_range c) as Hc.
  assert (HP : (negb (lisdigit (code c))
                || ((48 <=? code c) && (code c <=? 57))) = true).
  { apply (forall_below (fun k => negb (lisdigit k) || ((48 <=? k) && (k <=? 57))) 256);
      [vm_compute; reflexivity | lia]. }
  rewrite H in HP. cbn [negb orb] in HP.
  apply andb_prop in HP. destruct HP as [H1 H2].
  split; [unfold is_digit; lia|].
  unfold digit_char. replace (48 + (code c - 48)) with (code c) by lia.
  apply ascii_of_code.
Qed.

(** The hexadecimal digit a character code stands for. *)
Lemma xdigit_char_inv c :
  lisxdigit (code c) = true ->
  exists d, is_xdigit d /\ xdigit_char d = c.
Proof.
  intros H. pose proof (code_range c) as Hc.
  pose (D := fun k => (luaO_hexavalue k, (65 <=? k) && (k <=? 70))).
  pose (P := fun k => negb (lisxdigit k)
                      || ((0 <=? fst (D k)) && (fst (D k) <=? 15)
                          && (code (xdigit_char (D k)) =? k))).
  assert (HP : P (code c) = true).
  { apply (forall_below P 256); [vm_compute; reflexivity | lia]. }
  unfold P in HP. rewrite H in HP. cbn [negb orb] in HP.
  apply andb_prop in HP. destruct HP as [HP H3].
  apply andb_prop in HP. destruct HP as [H1 H2].
  exists (D (code c)). split; [unfold is_xdigit; lia|].
  apply Z.eqb_eq in H3.
  rewrite <- (ascii_of_code (xdigit_char (D (code c)))), H3.
  apply ascii_of_code.
Qed.

Lemma str_chars s : str (chars s) = s.
Proof. apply string_of_list_ascii_of_string. Qed.

Lemma skip_spaces_split s :
  exists sp, Forall is_space sp /\ s = str (sp ++ chars (skip_spaces s)).
Proof.
  induction s as [|c s IH].
  - exists []. split; [constructor|reflexivity].
  - cbn [skip_spaces]. destruct (lisspace (code c)) eqn:E.
    + destruct IH as (sp & Hsp & Hs). exists (c :: sp). split.
      * constructor; [exact E|exact Hsp].
      * cbn [app string_of_list_ascii]. f_equal. exact Hs.
    + exists []. split; [constructor|].
      cbn [app]. symmetry. apply str_chars.
Qed.

Lemma isneg_split s :
  exists sg, isneg s = (is_minus sg, snd (isneg s)) /\
             s = str (sign_chars sg ++ chars (snd (isneg s))).
Proof.
  unfold isneg. destruct s as [|c s].
  - exists NoSign. split; [reflexivity|reflexivity].
  - cbn [peek advance].
    destruct (code c =? 45) eqn:E1.
    + exists Minus. split; [reflexivity|]. cbn [snd sign_chars app string_of_list_ascii].
      apply Z.eqb_eq in E1.
      rewrite <- (ascii_of_code c), E1, str_chars. reflexivity.
    + destruct (code c =? 43) eqn:E2.
      * exists Plus. split; [reflexivity|]. cbn [snd sign_chars app string_of_list_ascii].
        apply Z.eqb_eq in E2.
        rewrite <- (ascii_of_code c), E2, str_chars. reflexivity.
      * exists NoSign. split; [reflexivity|]. cbn [snd sign_chars app].
        symmetry. apply str_chars.
Qed.

Lemma dec_loop_inv (neg : bool) s : forall a e s' a' e',
  dec_loop neg s a e = Some (s', a', e') ->
  0 <= a <= limit neg ->
  exists ds, Forall is_digit ds /\ s = str (map digit_char ds ++ chars s') /\
    a' = digits_value a ds /\ 0 <= a' <= limit neg /\
    e' = match ds with [] => e | _ => false end.
Proof.
  induction s as [|c s IH]; intros a e s' a' e' H Ha.
  - cbn in H. injection H as <- <- <-. exists []. repeat split; try lia. constructor.
  - cbn [dec_loop] in H. destruct (lisdigit (code c)) eqn:E.
    + destruct (digit_char_inv c E) as [Hd Hc].
      rewrite overflow_test in H by (lia || exact Hd).
      destruct (Z.ltb_spec (limit neg) (a * 10 + (code c - 48))) as [Hov|Hok];
        [discriminate|].
      unfold uadd, umul in H. unfold is_digit in Hd.
      assert (Hl : limit neg < 2 ^ 64) by (destruct neg; reflexivity).
      rewrite (Z.mod_small (a * 10)) in H by lia.
      rewrite Z.mod_small in H by lia.
      destruct (IH _ _ _ _ _ H) as (ds & Hds & Hs & Hv & Hr & He); [lia|].
      exists ((code c - 48) :: ds). split; [constructor; assumption|].
      split; [cbn [map app string_of_list_ascii]; rewrite Hc; f_equal; exact Hs|].
      split; [exact Hv|]. split; [exact Hr|].
      rewrite He. destruct ds; reflexivity.
    + injection H as <- <- <-. exists []. split; [constructor|].
      split; [cbn [map app]; symmetry; apply str_chars|].
      repeat split; lia.
Qed.

Lemma hex_loop_inv s : forall a z e s' a' e',
  hex_loop s a e = (s', a', e') ->
  a = z mod 2 ^ 64 ->
  exists ds, Forall is_xdigit ds /\ s = str (map xdigit_char ds ++ chars s') /\
    a' = xdigits_value z ds mod 2 ^ 64 /\
    e' = match ds with [] => e | _ => false end.
Proof.
  induction s as [|c s IH]; intros a z e s' a' e' H Ha.
  - cbn in H. injection H as <- <- <-. exists []. repeat split; [constructor|exact Ha].
  - cbn [hex_loop] in H. destruct (lisxdigit (code c)) eqn:E.
    + destruct (xdigit_char_inv c E) as (d & Hd & Hc).
      destruct (xdigit_props d Hd) as [_ Hv]. rewrite Hc in Hv.
      destruct (IH _ (z * 16 + fst d) _ _ _ _ H) as (ds & Hds & Hs & Hv' & He).
      { subst a. rewrite Hv. unfold uadd, umul.
        rewrite Zmult_mod_idemp_l, Zplus_mod_idemp_l. reflexivity. }
      exists (d :: ds). split; [constructor; assumption|].
      split; [cbn [map app string_of_list_ascii]; rewrite Hc; f_equal; exact Hs|].
      split; [exact Hv'|].
      rewrite He. destruct ds; reflexivity.
    + injection H as <- <- <-. exists []. split; [constructor|].
      split; [cbn [map app]; symmetry; apply str_chars|].
      split; [exact Ha|reflexivity].
Qed.

Lemma str_app l1 l2 : chars (str (l1 ++ l2)) = l1 ++ l2.
Proof. apply list_ascii_of_string_of_list_ascii. Qed.

End AcceptedNumerals.

Section OnlyNumerals.

Local Abbreviation str := string_of_list_ascii.
Local Abbreviation chars := list_ascii_of_string.

Lemma hex_prefix_split s :
  (peek s =? 48) && ((peek (advance s) =? 120) || (peek (advance s) =? 88)) = true ->
  exists upper : bool, s = str ("0"%char :: (if upper then "X"%char else "x"%char)
                           :: chars (advance (advance s))).
Proof.
  intros H. apply andb_prop in H. destruct H as [H0 H1].
  destruct s as [|c0 [|c1 s]]; cbn [peek advance] in *;
    [discriminate H0 | discriminate H1 |].
  apply Z.eqb_eq in H0.
  assert (Hc0 : c0 = "0"%char) by (rewrite <- (ascii_of_code c0), H0; reflexivity).
  apply orb_prop in H1. destruct H1 as [H1|H1]; apply Z.eqb_eq in H1.
  - exists false. cbn [string_of_list_ascii]. rewrite str_chars, Hc0.
    f_equal. f_equal. rewrite <- (ascii_of_code c1), H1. reflexivity.
  - exists true. cbn [string_of_list_ascii]. rewrite str_chars, Hc0.
    f_equal. f_equal. rewrite <- (ascii_of_code c1), H1. reflexivity.
Qed.

Lemma l_str2int_form s e i :
  l_str2int s = Some (e, i) ->
  peek e = 0 /\
  exists sp1 sg sp2, Forall is_space sp1 /\ Forall is_space sp2 /\
    ((exists ds, Forall is_digit ds /\ ds <> [] /\
        s = str (sp1 ++ sign_chars sg ++ map digit_char ds ++ sp2 ++ chars e) /\
        i = numeral_value sg ds /\ digits_value 0 ds <= limit (is_minus sg)) \/
     (exists (upper : bool) ds, Forall is_xdigit ds /\ ds <> [] /\
        s = str (sp1 ++ sign_chars sg ++ "0"%char
                   :: (if upper then "X"%char else "x"%char)
                   :: map xdigit_char ds ++ sp2 ++ chars e) /\
        i = wrap_int (if is_minus sg then - xdigits_value 0 ds
                      else xdigits_value 0 ds))).
Proof.
  unfold l_str2int. intros H.
  destruct (skip_spaces_split s) as (sp1 & Hsp1 & Hs).
  destruct (isneg_split (skip_spaces s)) as (sg & Hneg & Hs1).
  rewrite Hneg in H. set (s1 := snd (isneg (skip_spaces s))) in *.
  destruct ((peek s1 =? 48)
            && ((peek (advance s1) =? 120) || (peek (advance s1) =? 88))) eqn:Ehex.
  - (* hexadecimal *)
    destruct (hex_prefix_split s1 Ehex) as (upper & Hs1').
    destruct (hex_loop (advance (advance s1)) 0 true) as [[s2 a] empty] eqn:Eloop.
    destruct (hex_loop_inv _ 0 0 true _ _ _ Eloop eq_refl) as (ds & Hds & Hs2 & Ha & He).
    destruct (skip_spaces_split s2) as (sp2 & Hsp2 & Hs3).
    destruct empty; [discriminate|]. cbn [orb] in H.
    destruct (peek (skip_spaces s2) =? 0) eqn:Epeek; [|discriminate].
    cbn [negb] in H. injection H as <- <-.
    split; [apply Z.eqb_eq, Epeek|].
    exists sp1, sg, sp2. split; [exact Hsp1|]. split; [exact Hsp2|].
    right. exists upper, ds. split; [exact Hds|].
    split; [destruct ds; [discriminate|discriminate]|].
    split.
    + rewrite Hs at 1. f_equal. f_equal.
      rewrite Hs1 at 1. rewrite str_app. f_equal.
      rewrite Hs1' at 1.
      rewrite (list_ascii_of_string_of_list_ascii
                 ("0"%char :: (if upper then "X"%char else "x"%char) :: _)).
      f_equal. f_equal. rewrite Hs2 at 1. rewrite str_app. f_equal.
      rewrite Hs3 at 1. apply str_app.
    + rewrite l_castU2S_wrap, Ha.
      destruct (is_minus sg).
      * unfold usub. rewrite wrap_int_mod.
        rewrite <- (wrap_int_mod (0 - _ mod _)).
        rewrite Zminus_mod_idemp_r, wrap_int_mod. f_equal.
      * apply wrap_int_mod.
  - (* decimal *)
    destruct (dec_loop (is_minus sg) s1 0 true) as [[[s2 a] empty]|] eqn:Eloop;
      [|discriminate].
    assert (H0 : 0 <= 0 <= limit (is_minus sg))
      by (destruct sg; split; vm_compute; discriminate).
    destruct (dec_loop_inv _ _ _ _ _ _ _ Eloop H0) as (ds & Hds & Hs2 & Ha & Hr & He).
    destruct (skip_spaces_split s2) as (sp2 & Hsp2 & Hs3).
    destruct empty; [discriminate|]. cbn [orb] in H.
    destruct (peek (skip_spaces s2) =? 0) eqn:Epeek; [|discriminate].
    cbn [negb] in H. injection H as <- <-.
    split; [apply Z.eqb_eq, Epeek|].
    exists sp1, sg, sp2. split; [exact Hsp1|]. split; [exact Hsp2|].
    left. exists ds. split; [exact Hds|].
    split; [destruct ds; [discriminate|discriminate]|].
    split; [|split].
    + rewrite Hs at 1. f_equal. f_equal.
      rewrite Hs1 at 1. rewrite str_app. f_equal.
      rewrite Hs2 at 1. rewrite str_app. f_equal.
      rewrite Hs3 at 1. apply str_app.
    + rewrite final_value by exact Hr. rewrite Ha.
      destruct sg; reflexivity.
    + rewrite <- Ha. apply Hr.
Qed.

End OnlyNumerals.

Section Str2NumSize.

Context {C : LibC}.

Lemma nul_free_tail c s : nul_free (String c s) -> nul_free s.
Proof. unfold nul_free. cbn. now inversion 1. Qed.

Lemma nul_free_drop n : forall s, nul_free s -> nul_free (drop_chars n s).
Proof.
  induction n as [|n IH]; intros s Hs; destruct s as [|c s]; cbn; auto.
  apply IH. eapply nul_free_tail, Hs.
Qed.

Lemma nul_free_skip s : nul_free s -> nul_free (skip_spaces s).
Proof.
  induction s as [|c s IH]; intros Hs; cbn; [exact Hs|].
  destruct (lisspace (code c)); [apply IH; eapply nul_free_tail, Hs|exact Hs].
Qed.

Lemma nul_free_end s : nul_free s -> peek s = 0 -> s = EmptyString.
Proof.
  destruct s as [|c s]; [reflexivity|]. unfold nul_free. cbn.
  inversion 1; subst. contradiction.
Qed.

Lemma l_str2dloc_end s mode e r :
  nul_free s -> l_str2dloc s mode = Some (e, r) -> e = EmptyString.
Proof.
  unfold l_str2dloc. intros Hs H.
  destruct (if mode =? 120 then lua_strx2number s else lua_str2number s) as [res n].
  destruct n as [|n]; [discriminate|].
  destruct (peek (skip_spaces (drop_chars (S n) s)) =? 0) eqn:E; [|discriminate].
  injection H as <- <-. apply Z.eqb_eq in E.
  apply nul_free_end; [|exact E].
  apply nul_free_skip, (nul_free_drop (S n)), Hs.
Qed.

Lemma replace_dot_props dp s buff :
  code dp <> 0 -> nul_free s -> replace_dot dp s = Some buff ->
  nul_free buff /\ String.length buff = String.length s.
Proof.
  intros Hdp. revert buff. induction s as [|c s IH]; intros buff Hs H; [discriminate|].
  cbn [replace_dot] in H.
  destruct (code c =? 0); [discriminate|].
  destruct (code c =? 46).
  - injection H as <-. split; [|reflexivity].
    unfold nul_free in *. cbn in *. inversion Hs; subst. constructor; assumption.
  - destruct (replace_dot dp s) as [b|]; [|discriminate].
    injection H as <-.
    destruct (IH b) as [H1 H2]; [eapply nul_free_tail, Hs|reflexivity|].
    split; [|cbn; f_equal; exact H2].
    unfold nul_free in *. cbn in *. inversion Hs; subst. constructor; assumption.
Qed.

Lemma drop_chars_all s : drop_chars (String.length s) s = EmptyString.
Proof. induction s as [|c s IH]; [reflexivity|exact IH]. Qed.

Lemma l_str2d_end s e r :
  code lua_getlocaledecpoint <> 0 -> nul_free s ->
  l_str2d s = Some (e, r) -> e = EmptyString.
Proof.
  unfold l_str2d. intros Hdp Hs H.
  set (mode := match strpbrk_special s with Some c => ltolower c | None => 0 end) in *.
  destruct (mode =? 110); [discriminate|].
  destruct (l_str2dloc s mode) as [[e1 r1]|] eqn:E1.
  - injection H as <- <-. eapply l_str2dloc_end; eassumption.
  - destruct (replace_dot lua_getlocaledecpoint s) as [buff|] eqn:Eb; [|discriminate].
    destruct (L_MAXLENNUM <? String.length s)%nat; [discriminate|].
    destruct (replace_dot_props _ _ _ Hdp Hs Eb) as [Hb Hlen].
    destruct (l_str2dloc buff mode) as [[e2 r2]|] eqn:E2; [|discriminate].
    injection H as <- <-.
    rewrite (l_str2dloc_end _ _ _ _ Hb E2). cbn [String.length].
    rewrite Nat.sub_0_r, Hlen. apply drop_chars_all.
Qed.

End Str2NumSize.

Lemma luaO_str2num_cases (C : LibC) (s : string) (o : TValue) :
  nul_free s -> code lua_getlocaledecpoint <> 0 ->
  luaO_str2num s o = (0, o) \/
  exists v, luaO_str2num s o = (Z.of_nat (String.length s) + 1, v) /\
            ttisnumber v = true.
Proof.
  intros Hs Hdp. unfold luaO_str2num.
  destruct (l_str2int s) as [[e i]|] eqn:Ei.
  - right. destruct (l_str2int_form s e i Ei) as [Hpeek (sp1 & sg & sp2 & Hsp1 & Hsp2 & Hform)].
    assert (He : e = EmptyString).
    { apply nul_free_end; [|exact Hpeek].
      unfold nul_free in *.
      assert (Hsub : exists pre, list_ascii_of_string s = pre ++ list_ascii_of_string e).
      { destruct Hform as [(ds & _ & _ & Hs' & _)|(up & ds & _ & _ & Hs' & _)];
          rewrite Hs', list_ascii_of_string_of_list_ascii.
        - exists (sp1 ++ sign_chars sg ++ map digit_char ds ++ sp2).
          now rewrite <- !app_assoc.
        - exists (sp1 ++ sign_chars sg ++ "0"%char
                    :: (if up then "X"%char else "x"%char) :: map xdigit_char ds ++ sp2).
          rewrite <- !app_assoc. cbn [app]. now rewrite <- !app_assoc. }
      destruct Hsub as (pre & Hpre). rewrite Hpre in Hs.
      apply Forall_app in Hs. apply Hs. }
    subst e. cbn [String.length]. rewrite Nat.sub_0_r.
    eexists. split; reflexivity.
  - destruct (l_str2d s) as [[e n]|] eqn:Ed; [|left; reflexivity].
    right. rewrite (l_str2d_end s e n Hdp Hs Ed). cbn [String.length].
    rewrite Nat.sub_0_r. eexists. split; reflexivity.
Qed.

(** X4. luaO_str2num converts a whole string or nothing: on a string without
    embedded zeros (and a locale whose decimal point is not the zero
    byte) it either returns 0 and leaves [o] untouched, or returns the
    length of the string plus one and stores a number in [o]. *)
Theorem luaO_str2num_whole_string (C : LibC) (s : string) (o : TValue) :
  nul_free s -> code lua_getlocaledecpoint <> 0 ->
  luaO_str2num s o = (0, o) \/
  exists v, luaO_str2num s o = (Z.of_nat (String.length s) + 1, v) /\
            ttisnumber v = true.
Proof. exact (luaO_str2num_cases C s o). Qed.

Lemma luaO_str2num_whole_string_witness :
  @luaO_str2num no_libc " 0x10 " (mkTValue (V_ub 0) LUA_VNIL)
    = (0, mkTValue (V_ub 0) LUA_VNIL) \/
  exists v, @luaO_str2num no_libc " 0x10 " (mkTValue (V_ub 0) LUA_VNIL)
              = (Z.of_nat (String.length " 0x10 ") + 1, v) /\
            ttisnumber v = true.
Proof.
  apply (luaO_str2num_whole_string no_libc).
  - unfold nul_free. cbn. repeat constructor; vm_compute; discriminate.
  - vm_compute. discriminate.
Defined.

(** X5. l_str2int accepts every hexadecimal numeral (spaces, an optional
    sign, 0x or 0X, at least one hexadecimal digit, spaces) whatever its
    size: the value wraps around modulo 2^64 into the range of
    lua_Integer, and luaO_str2num stores it as an integer. *)
Theorem l_str2int_hex_numeral (C : LibC) (sp1 : list ascii) (sg : sign)
    (upper : bool) (ds : list xdigit) (sp2 : list ascii) (o : TValue) :
  Forall is_space sp1 -> Forall is_space sp2 ->
  Forall is_xdigit ds -> ds <> [] ->
  let s := hex_numeral sp1 sg upper ds sp2 in
  let v := if is_minus sg then - xdigits_value 0 ds else xdigits_value 0 ds in
  exists i, l_str2int s = Some (EmptyString, i) /\
    LUA_MININTEGER <= i <= LUA_MAXINTEGER /\ (i - v) mod 2 ^ 64 = 0 /\
    luaO_str2num s o = (Z.of_nat (String.length s) + 1, setivalue o i).
Proof.
  intros Hsp1 Hsp2 Hds Hne s v.
  pose proof (l_str2int_hex sp1 sg upper ds sp2 Hsp1 Hsp2 Hds Hne) as H.
  fold s v in H. exists (wrap_int v).
  split; [exact H|]. split; [apply wrap_int_range|].
  split; [apply wrap_int_congr|].
  unfold luaO_str2num. rewrite H. cbn [String.length].
  rewrite Nat.sub_0_r. reflexivity.
Qed.

Lemma l_str2int_hex_numeral_witness :
  let s := hex_numeral [" "%char] Minus false [(15, true); (15, false)] [] in
  exists i, l_str2int s = Some (EmptyString, i) /\
    LUA_MININTEGER <= i <= LUA_MAXINTEGER /\ (i - - 255) mod 2 ^ 64 = 0 /\
    @luaO_str2num no_libc s (mkTValue (V_ub 0) LUA_VNIL)
      = (Z.of_nat (String.length s) + 1, setivalue (mkTValue (V_ub 0) LUA_VNIL) i).
Proof.
  apply (l_str2int_hex_numeral no_libc [" "%char] Minus false
           [(15, true); (15, false)] [] (mkTValue (V_ub 0) LUA_VNIL)).
  - repeat constructor.
  - constructor.
  - repeat constructor; unfold is_xdigit; cbn; lia.
  - discriminate.
Defined.

(** X6. l_str2int accepts nothing but integer numerals: when it succeeds, the
    string is spaces, an optional sign, then either decimal digits whose
    value is in the range of lua_Integer (and is the result) or 0x/0X and
    hexadecimal digits (the result is their value wrapped around), then
    spaces up to the zero that ends the string. *)
Theorem l_str2int_only_numerals (s e : string) (i : Z) :
  l_str2int s = Some (e, i) ->
  peek e = 0 /\ LUA_MININTEGER <= i <= LUA_MAXINTEGER /\
  exists sp1 sg sp2, Forall is_space sp1 /\ Forall is_space sp2 /\
    ((exists ds, Forall is_digit ds /\ ds <> [] /\
        s = string_of_list_ascii
              (sp1 ++ sign_chars sg ++ map digit_char ds ++ sp2
                   ++ list_ascii_of_string e) /\
        i = numeral_value sg ds) \/
     (exists (upper : bool) ds, Forall is_xdigit ds /\ ds <> [] /\
        s = string_of_list_ascii
              (sp1 ++ sign_chars sg ++ "0"%char
                   :: (if upper then "X"%char else "x"%char)
                   :: map xdigit_char ds ++ sp2 ++ list_ascii_of_string e) /\
        i = wrap_int (if is_minus sg then - xdigits_value 0 ds
                      else xdigits_value 0 ds))).
Proof.
  intros H.
  destruct (l_str2int_form s e i H) as [Hpeek (sp1 & sg & sp2 & Hsp1 & Hsp2 & Hform)].
  split; [exact Hpeek|]. split.
  - destruct Hform as [(ds & Hds & _ & _ & -> & Hle)|(up & ds & _ & _ & _ & ->)];
      [|apply wrap_int_range].
    assert (Hv : 0 <= digits_value 0 ds) by (apply (digits_value_ge ds 0 Hds); lia).
    unfold numeral_value, limit, LUA_MININTEGER, LUA_MAXINTEGER in *.
    rewrite pow2_63 in *. destruct sg; cbn [is_minus] in Hle; lia.
  - exists sp1, sg, sp2. split; [exact Hsp1|]. split; [exact Hsp2|].
    destruct Hform as [(ds & Hds & Hne & Hs & Hi & _)|(up & ds & Hds & Hne & Hs & Hi)].
    + left. exists ds. auto.
    + right. exists up, ds. auto.
Qed.

Lemma l_str2int_only_numerals_witness :
  peek EmptyString = 0 /\ LUA_MININTEGER <= 42 <= LUA_MAXINTEGER /\
  exists sp1 sg sp2, Forall is_space sp1 /\ Forall is_space sp2 /\
    ((exists ds, Forall is_digit ds /\ ds <> [] /\
        "42 "%string = string_of_list_ascii
              (sp1 ++ sign_chars sg ++ map digit_char ds ++ sp2
                   ++ list_ascii_of_string EmptyString) /\
        42 = numeral_value sg ds) \/
     (exists (upper : bool) ds, Forall is_xdigit ds /\ ds <> [] /\
        "42 "%string = string_of_list_ascii
              (sp1 ++ sign_chars sg ++ "0"%char
                   :: (if upper then "X"%char else "x"%char)
                   :: map xdigit_char ds ++ sp2 ++ list_ascii_of_string EmptyString) /\
        42 = wrap_int (if is_minus sg then - xdigits_value 0 ds
                       else xdigits_value 0 ds))).
Proof. apply (l_str2int_only_numerals "42 " EmptyString 42). reflexivity. Defined.

Section NoInfNan.

Context {C : LibC}.

Lemma strpbrk_special_n pre c post :
  Forall (fun a => ~ In (code a) [0; 46; 120; 88; 110; 78]) pre ->
  code c = 110 \/ code c = 78 ->
  strpbrk_special (string_of_list_ascii (pre ++ c :: post)) = Some (code c).
Proof.
  intros Hpre Hc. induction Hpre as [|a pre Ha _ IH].
  - cbn. destruct Hc as [-> | ->]; reflexivity.
  - cbn [app string_of_list_ascii strpbrk_special].
    cbn [In] in Ha.
    destruct (Z.eqb_spec (code a) 0) as [e|_];
      [exfalso; apply Ha; rewrite e; cbn; auto 10|].
    destruct (Z.eqb_spec (code a) 46) as [e|_];
      [exfalso; apply Ha; rewrite e; cbn; auto 10|].
    destruct (Z.eqb_spec (code a) 120) as [e|_];
      [exfalso; apply Ha; rewrite e; cbn; auto 10|].
    destruct (Z.eqb_spec (code a) 88) as [e|_];
      [exfalso; apply Ha; rewrite e; cbn; auto 10|].
    destruct (Z.eqb_spec (code a) 110) as [e|_];
      [exfalso; apply Ha; rewrite e; cbn; auto 10|].
    destruct (Z.eqb_spec (code a) 78) as [e|_];
      [exfalso; apply Ha; rewrite e; cbn; auto 10|].
    exact IH.
Qed.

End NoInfNan.

(** X7. l_str2d rejects 'inf' and 'nan' whatever the C library would make of
    them: a string whose first character among [.xXnN] is an [n] or an
    [N] is not converted. *)
Theorem l_str2d_rejects_inf_nan (C : LibC) (pre : list ascii) (c : ascii)
    (post : list ascii) :
  Forall (fun a => ~ In (code a) [0; 46; 120; 88; 110; 78]) pre ->
  code c = 110 \/ code c = 78 ->
  l_str2d (string_of_list_ascii (pre ++ c :: post)) = None.
Proof.
  intros Hpre Hc. unfold l_str2d.
  rewrite (strpbrk_special_n pre c post Hpre Hc).
  destruct Hc as [-> | ->]; reflexivity.
Qed.

Lemma l_str2d_rejects_inf_nan_witness :
  @l_str2d no_libc "-inf" = None.
Proof.
  apply (l_str2d_rejects_inf_nan no_libc ["-"%char; "i"%char] "n"%char ["f"%char]).
  - repeat constructor; vm_compute; intuition discriminate.
  - left. reflexivity.
Defined.

(** ** Chunk identifiers *)

Section ChunkIdProofs.

Lemma length_memcpy m from len :
  length (memcpy m from len) = Nat.min (Z.to_nat len) (length m - Z.to_nat from).
Proof. unfold memcpy. now rewrite length_take, length_drop. Qed.

Lemma memcpy_suffix source from len :
  0 <= from <= Z.of_nat (length source) ->
  len = Z.of_nat (length source) + 1 - from ->
  memcpy (source ++ [0]) from len = drop (Z.to_nat from) source ++ [0].
Proof.
  intros Hf Hl. unfold memcpy.
  rewrite drop_app_le by lia.
  apply take_ge. rewrite length_app, length_drop. cbn. lia.
Qed.

End ChunkIdProofs.

(** X8. luaO_chunkid never writes more than LUA_IDSIZE bytes to [out], and
    the last byte it writes is the terminating zero. *)
Theorem luaO_chunkid_fits (source : list Z) :
  Z.of_nat (length (luaO_chunkid source)) <= LUA_IDSIZE /\
  last (luaO_chunkid source) = Some 0.
Proof.
  unfold luaO_chunkid, LUA_IDSIZE.
  change (LL RETS) with 3. change (LL (PRE ++ RETS ++ POS) + 1) with 15.
  change (memcpy (POS ++ [0]) 0 (LL POS + 1)) with [34; 93; 0].
  set (n := Z.of_nat (length source)).
  assert (Hn : 0 <= n) by lia.
  assert (Hfirst : forall c, c <> 0 -> nth 0 (source ++ [0]) 0 = c -> 1 <= n).
  { intros c Hc H. destruct source; cbn in H; [congruence|cbn in n; lia]. }
  destruct (Z.eqb_spec (nth 0 (source ++ [0]) 0) 61) as [E|_].
  { pose proof (Hfirst 61 ltac:(lia) E).
    destruct (Z.leb_spec n 60).
    - rewrite memcpy_suffix by (fold n; lia).
      rewrite length_app, length_drop, last_snoc. cbn [length]. split; [lia|reflexivity].
    - rewrite length_app, length_memcpy, last_snoc. cbn [length]. split; [lia|reflexivity]. }
  destruct (Z.eqb_spec (nth 0 (source ++ [0]) 0) 64) as [E|_].
  { pose proof (Hfirst 64 ltac:(lia) E).
    destruct (Z.leb_spec n 60).
    - rewrite memcpy_suffix by (fold n; lia).
      rewrite length_app, length_drop, last_snoc. cbn [length]. split; [lia|reflexivity].
    - rewrite memcpy_suffix by (fold n; lia).
      rewrite app_assoc, last_snoc, !length_app, length_drop. cbn [length RETS].
      split; [lia|reflexivity]. }
  rewrite !app_assoc.
  change [34; 93; 0] with ([34; 93] ++ [0]). rewrite !app_assoc, last_snoc.
  split; [|reflexivity].
  rewrite !length_app. cbn [length PRE].
  destruct ((n <? 60 - 15) && _) eqn:E.
  - apply andb_prop in E. destruct E as [E _]. apply Z.ltb_lt in E.
    rewrite length_memcpy. lia.
  - rewrite length_app, length_memcpy. cbn [length RETS].
    destruct (strchr (source ++ [0]) 10) as [k|].
    + destruct (Z.ltb_spec (60 - 15) k); lia.
    + destruct (Z.ltb_spec (60 - 15) n); lia.
Qed.

Section ChunkIdString.

Lemma strchr_nul_free source :
  Forall (fun b => b <> 0) source ->
  match strchr (source ++ [0]) 10 with
  | Some k => 0 <= k < Z.of_nat (length source) /\
              ~ In 10 (take (Z.to_nat k) source) /\ In 10 source
  | None => ~ In 10 source
  end.
Proof.
  induction 1 as [|b s Hb _ IH]; [cbn; tauto|].
  cbn [app strchr]. destruct (Z.eqb_spec b 10) as [->|Hb10].
  - cbn. split; [lia|]. split; [tauto|now left].
  - destruct (Z.eqb_spec b 0); [contradiction|].
    destruct (strchr (s ++ [0]) 10) as [k|]; cbn [fmap option_fmap option_map].
    + destruct IH as (H1 & H2 & H3). split; [cbn [length]; lia|].
      replace (Z.to_nat (Z.succ k)) with (S (Z.to_nat k)) by lia.
      cbn [take]. split; [|now right].
      intros [Heq|Hin]; [congruence|contradiction].
    + intros [Heq|Hin]; [congruence|contradiction].
Qed.

Lemma memcpy_prefix source n :
  0 <= n <= Z.of_nat (length source) ->
  memcpy (source ++ [0]) 0 n = take (Z.to_nat n) source.
Proof.
  intros Hn. unfold memcpy. cbn [Z.to_nat drop].
  apply take_app_le. lia.
Qed.

Lemma not_in_take {A} (x : A) n l : ~ In x l -> ~ In x (take n l).
Proof.
  intros H Hin. apply H. rewrite <- (take_drop n l). apply in_or_app. now left.
Qed.

End ChunkIdString.

(** X9. A source that is neither literal ('=') nor a file name ('@') is shown
    as [[string "..."]] on one line: a short source without a newline is
    kept whole; otherwise its first line, cut to 45 bytes at most, is
    followed by three dots. *)
Theorem luaO_chunkid_string (source : list Z) :
  Forall (fun b => b <> 0) source ->
  nth 0 source 0 <> 61 -> nth 0 source 0 <> 64 ->
  exists x, luaO_chunkid source = PRE ++ x ++ POS ++ [0] /\ ~ In 10 x /\
    ((Z.of_nat (length source) < 45 /\ ~ In 10 source /\ x = source) \/
     ((45 <= Z.of_nat (length source) \/ In 10 source) /\
      exists k, (k <= 45)%nat /\ x = take k source ++ RETS)).
Proof.
  intros Hnul H61 H64. unfold luaO_chunkid, LUA_IDSIZE.
  change (LL (PRE ++ RETS ++ POS) + 1) with 15.
  change (memcpy (POS ++ [0]) 0 (LL POS + 1)) with (POS ++ [0]).
  assert (Hnth : nth 0 (source ++ [0]) 0 = nth 0 source 0 \/ source = []).
  { destruct source; [now right|now left]. }
  assert (E1 : (nth 0 (source ++ [0]) 0 =? 61) = false).
  { apply Z.eqb_neq. destruct Hnth as [->| ->]; [exact H61|cbn; lia]. }
  assert (E2 : (nth 0 (source ++ [0]) 0 =? 64) = false).
  { apply Z.eqb_neq. destruct Hnth as [->| ->]; [exact H64|cbn; lia]. }
  rewrite E1, E2. clear E1 E2 Hnth.
  set (n := Z.of_nat (length source)).
  pose proof (strchr_nul_free source Hnul) as Hnl.
  destruct (strchr (source ++ [0]) 10) as [k|].
  - destruct Hnl as (Hk & Hnot & Hin). rewrite andb_false_r.
    eexists. split; [reflexivity|].
    destruct (Z.ltb_spec (60 - 15) k).
    + rewrite memcpy_prefix by (fold n; lia). split.
      * intros Hx. apply in_app_or in Hx. destruct Hx as [Hx|Hx].
        -- apply Hnot. rewrite <- (take_drop (Z.to_nat (60 - 15)) (take _ source)).
           apply in_or_app. left. rewrite take_take.
           replace (Z.to_nat (60 - 15) `min` Z.to_nat k)%nat with (Z.to_nat (60 - 15)) by lia.
           exact Hx.
        -- cbn in Hx. intuition lia.
      * right. split; [now right|]. exists (Z.to_nat (60 - 15)). split; [lia|reflexivity].
    + rewrite memcpy_prefix by (fold n; lia). split.
      * intros Hx. apply in_app_or in Hx. destruct Hx as [Hx|Hx]; [contradiction|].
        cbn in Hx. intuition lia.
      * right. split; [now right|]. exists (Z.to_nat k). split; [lia|reflexivity].
  - destruct (Z.ltb_spec n (60 - 15)); cbn [andb].
    + rewrite memcpy_prefix by (fold n; lia). unfold n. rewrite Nat2Z.id, firstn_all.
      eexists. split; [reflexivity|]. split; [exact Hnl|].
      left. split; [lia|]. split; [exact Hnl|reflexivity].
    + destruct (Z.ltb_spec (60 - 15) n).
      * rewrite memcpy_prefix by (fold n; lia).
        eexists. split; [reflexivity|]. split.
        -- intros Hx. apply in_app_or in Hx. destruct Hx as [Hx|Hx].
           ++ revert Hx. now apply not_in_take.
           ++ cbn in Hx. intuition lia.
        -- right. split; [left; lia|]. exists (Z.to_nat (60 - 15)). split; [lia|reflexivity].
      * rewrite memcpy_prefix by (fold n; lia).
        eexists. split; [reflexivity|]. split.
        -- intros Hx. apply in_app_or in Hx. destruct Hx as [Hx|Hx].
           ++ revert Hx. now apply not_in_take.
           ++ cbn in Hx. intuition lia.
        -- right. split; [left; lia|]. exists (Z.to_nat n). split; [lia|reflexivity].
Qed.

Lemma luaO_chunkid_string_witness :
  exists x, luaO_chunkid [97; 10; 98] = PRE ++ x ++ POS ++ [0] /\ ~ In 10 x /\
    ((Z.of_nat (length [97; 10; 98]) < 45 /\ ~ In 10 [97; 10; 98] /\ x = [97; 10; 98]) \/
     ((45 <= Z.of_nat (length [97; 10; 98]) \/ In 10 [97; 10; 98]) /\
      exists k, (k <= 45)%nat /\ x = take k [97; 10; 98] ++ RETS)).
Proof.
  apply (luaO_chunkid_string [97; 10; 98]).
  - repeat constructor; lia.
  - cbn. lia.
  - cbn. lia.
Defined.

(** ** The formatting buffer *)

Section BuffProofs.

Variable can_alloc : Z -> bool.

Lemma MAX_SIZE_half : MAX_SIZE / 2 = 4611686018427387903.
Proof. reflexivity. Qed.

Lemma BUFVFS_val : BUFVFS = 219.
Proof. reflexivity. Qed.

Lemma wrap_size_id z : 0 <= z < 2 ^ 64 -> wrap_size z = z.
Proof. intros H. unfold wrap_size. now apply Z.mod_small. Qed.

Lemma memcpy_to_contents dst at_ src :
  0 <= at_ -> at_ + Z.of_nat (length src) <= Z.of_nat (length dst) ->
  exists dst', memcpy_to dst at_ src = Some dst' /\
    length dst' = length dst /\
    take (Z.to_nat (at_ + Z.of_nat (length src))) dst'
      = take (Z.to_nat at_) dst ++ src.
Proof.
  intros H0 H1. unfold memcpy_to.
  destruct (Z.leb_spec 0 at_); [|lia].
  destruct (Z.leb_spec (at_ + Z.of_nat (length src)) (Z.of_nat (length dst))); [|lia].
  cbn [andb]. eexists. split; [reflexivity|]. split.
  - rewrite !length_app, length_take, length_drop. lia.
  - rewrite app_assoc. apply take_app_length'.
    rewrite length_app, length_take. lia.
Qed.

Lemma copy_new_content_ok buff str :
  Z.of_nat (length (b buff)) = buffsize buff -> 0 <= blen buff ->
  blen buff + Z.of_nat (length str) <= MAX_SIZE / 2 ->
  blen buff + Z.of_nat (length str) <= buffsize buff ->
  exists buff', copy_new_content buff str = Some buff' /\
    Z.of_nat (length (b buff')) = buffsize buff' /\
    buffsize buff' = buffsize buff /\
    blen buff' = blen buff + Z.of_nat (length str) /\
    err buff' = err buff /\ contents buff' = contents buff ++ str.
Proof.
  intros Hlen Hb Hsz Hfit. unfold copy_new_content.
  destruct (memcpy_to_contents (b buff) (blen buff) str) as (b' & -> & Hl & Hc); [lia|lia|].
  rewrite MAX_SIZE_half in Hsz.
  eexists. split; [reflexivity|]. unfold contents. cbn.
  rewrite wrap_size_id by lia.
  repeat split; try lia. exact Hc.
Qed.

Lemma addstr2buff_step buff str :
  buff_ok buff -> err buff = 0 ->
  blen buff + Z.of_nat (length str) <= MAX_SIZE / 2 ->
  exists buff', addstr2buff can_alloc buff str = Some buff' /\ buff_ok buff' /\
    ((err buff' = 0 /\ contents buff' = contents buff ++ str) \/
     (err buff' = 1 /\ contents buff' = contents buff /\
      can_alloc (buffsize buff + Z.of_nat (length str)) = false)).
Proof.
  intros Hok Herr Hsz. pose proof Hok as (Hlen & Hb & Hmax).
  rewrite MAX_SIZE_half in *. rewrite BUFVFS_val in *.
  unfold addstr2buff. rewrite Herr. cbn [Z.eqb negb].
  rewrite (wrap_size_id (buffsize buff - blen buff)) by lia.
  destruct (Z.ltb_spec (buffsize buff - blen buff) (Z.of_nat (length str))) as [Hgrow|Hfit].
  - rewrite MAX_SIZE_half.
    rewrite (wrap_size_id (4611686018427387903 - blen buff)) by lia.
    destruct (Z.ltb_spec (4611686018427387903 - blen buff) (Z.of_nat (length str)));
      [lia|].
    rewrite (wrap_size_id (buffsize buff + Z.of_nat (length str))) by lia.
    set (newsize := buffsize buff + Z.of_nat (length str)).
    destruct (can_alloc newsize) eqn:Ealloc; cbn [negb].
    + assert (Hnew : exists newb,
                (if static buff
                 then memcpy_to (replicate (Z.to_nat newsize) 0) 0
                        (take (Z.to_nat (blen buff)) (b buff))
                 else Some (take (Z.to_nat newsize)
                        (b buff ++ replicate (Z.to_nat newsize - length (b buff)) 0)))
                = Some newb /\
                Z.of_nat (length newb) = newsize /\
                take (Z.to_nat (blen buff)) newb = take (Z.to_nat (blen buff)) (b buff)).
      { destruct (static buff).
        - destruct (memcpy_to_contents (replicate (Z.to_nat newsize) 0) 0
                      (take (Z.to_nat (blen buff)) (b buff)))
            as (nb & -> & Hl & Hc); [lia|rewrite length_take, length_replicate; lia|].
          exists nb. split; [reflexivity|]. rewrite Hl, length_replicate.
          split; [lia|].
          rewrite length_take in Hc. cbn [Z.to_nat take app] in Hc.
          replace (Z.to_nat (0 + Z.of_nat (Z.to_nat (blen buff) `min` length (b buff))))
            with (Z.to_nat (blen buff)) in Hc by lia.
          exact Hc.
        - eexists. split; [reflexivity|]. split.
          + rewrite length_take, length_app, length_replicate. lia.
          + rewrite take_take.
            replace (Z.to_nat (blen buff) `min` Z.to_nat newsize)%nat
              with (Z.to_nat (blen buff)) by lia.
            apply take_app_le. lia. }
      destruct Hnew as (newb & -> & Hnl & Hnc).
      destruct (copy_new_content_ok (mkBuffFS newb false newsize (blen buff) 0) str)
        as (buff' & -> & Hl' & Hs' & Hb' & Herr' & Hc').
      { cbn. exact Hnl. }
      { cbn. lia. }
      { cbn. rewrite MAX_SIZE_half. lia. }
      { cbn. unfold newsize. lia. }
      exists buff'. split; [reflexivity|]. cbn in Hs', Hb', Herr'. split.
      { unfold buff_ok. rewrite BUFVFS_val. unfold newsize in *. lia. }
      left. split; [lia|].
      rewrite Hc'. unfold contents. cbn. now rewrite Hnc.
    + eexists. split; [reflexivity|]. split.
      * unfold buff_ok. cbn. rewrite BUFVFS_val. lia.
      * right. split; [reflexivity|]. split; reflexivity.
  - destruct (copy_new_content_ok buff str) as (buff' & -> & Hl' & Hs' & Hb' & Herr' & Hc');
      [lia|lia|rewrite MAX_SIZE_half; lia|lia|].
    exists buff'. split; [reflexivity|]. split.
    { unfold buff_ok. rewrite BUFVFS_val. lia. }
    left. split; [lia|exact Hc'].
Qed.

Lemma addstrs2buff_after_error buff strs :
  err buff <> 0 -> addstrs2buff can_alloc buff strs = Some buff.
Proof.
  intros Herr. induction strs as [|str strs IH]; [reflexivity|].
  cbn [addstrs2buff]. unfold addstr2buff.
  destruct (Z.eqb_spec (err buff) 0); [contradiction|]. cbn [negb]. exact IH.
Qed.

Lemma addstrs2buff_steps strs : forall buff,
  buff_ok buff -> err buff = 0 ->
  blen buff + Z.of_nat (length (concat strs)) <= MAX_SIZE / 2 ->
  exists buff', addstrs2buff can_alloc buff strs = Some buff' /\ buff_ok buff' /\
    ((err buff' = 0 /\ contents buff' = contents buff ++ concat strs) \/
     (err buff' = 1 /\ exists k n, (k < length strs)%nat /\ can_alloc n = false /\
        contents buff' = contents buff ++ concat (take k strs))).
Proof.
  induction strs as [|str strs IH]; intros buff Hok Herr Hsz.
  - exists buff. split; [reflexivity|]. split; [exact Hok|].
    left. split; [exact Herr|]. cbn. now rewrite app_nil_r.
  - cbn [concat] in Hsz. rewrite length_app in Hsz.
    destruct (addstr2buff_step buff str Hok Herr) as (b1 & H1 & Hok1 & Hcase); [lia|].
    cbn [addstrs2buff]. rewrite H1.
    assert (Hblen : err b1 = 0 -> blen b1 = blen buff + Z.of_nat (length str)).
    { intros E. destruct Hcase as [[_ Hc]|[E1 _]]; [|lia].
      apply (f_equal length) in Hc. unfold contents in Hc.
      rewrite length_app, !length_take in Hc.
      destruct Hok as (? & ? & ?), Hok1 as (? & ? & ?). lia. }
    destruct Hcase as [[E Hc]|(E & Hc & Ha)].
    + destruct (IH b1 Hok1 E) as (b2 & H2 & Hok2 & Hcase2); [rewrite Hblen by exact E; lia|].
      exists b2. split; [exact H2|]. split; [exact Hok2|].
      destruct Hcase2 as [[E2 Hc2]|(E2 & k & n & Hk & Hn & Hc2)].
      * left. split; [exact E2|]. rewrite Hc2, Hc. cbn [concat]. now rewrite app_assoc.
      * right. split; [exact E2|]. exists (S k), n. split; [cbn; lia|]. split; [exact Hn|].
        rewrite Hc2, Hc. cbn [take concat]. now rewrite app_assoc.
    + rewrite addstrs2buff_after_error by lia.
      exists b1. split; [reflexivity|]. split; [exact Hok1|].
      right. split; [exact E|]. eexists 0%nat, _. split; [cbn; lia|]. split; [exact Ha|].
      rewrite Hc. cbn. now rewrite app_nil_r.
Qed.

End BuffProofs.

(** X10. The buffer of luaO_pushvfstring: starting from initbuff, a sequence
    of addstr2buff calls that add less than MAX_SIZE/2 bytes in all never
    writes outside the buffer and leaves it consistent; with no error
    flagged the buffer holds the strings added, in order, and the only
    error is the memory error of a refused allocation, after which the
    buffer still holds the strings added before it. *)
Theorem addstr2buff_concatenates (can_alloc : Z -> bool) (strs : list (list Z)) :
  Z.of_nat (length (concat strs)) <= MAX_SIZE / 2 ->
  exists buff, addstrs2buff can_alloc initbuff strs = Some buff /\
    Z.of_nat (length (b buff)) = buffsize buff /\
    0 <= blen buff <= buffsize buff /\
    ((err buff = 0 /\ contents buff = concat strs) \/
     (err buff = 1 /\ exists k n, (k < length strs)%nat /\ can_alloc n = false /\
        contents buff = concat (take k strs))).
Proof.
  intros Hsz.
  destruct (addstrs2buff_steps can_alloc strs initbuff) as (buff & H & Hok & Hcase).
  - unfold buff_ok. cbn. rewrite length_replicate. vm_compute. intuition discriminate.
  - reflexivity.
  - cbn [initbuff blen]. lia.
  - exists buff. split; [exact H|]. destruct Hok as (H1 & H2 & _).
    split; [exact H1|]. split; [exact H2|]. exact Hcase.
Qed.

Lemma addstr2buff_concatenates_witness :
  exists buff, addstrs2buff (fun _ => true) initbuff [[1; 2; 3]; replicate 250 7] = Some buff /\
    Z.of_nat (length (b buff)) = buffsize buff /\
    0 <= blen buff <= buffsize buff /\
    ((err buff = 0 /\ contents buff = concat [[1; 2; 3]; replicate 250 7]) \/
     (err buff = 1 /\ exists k n, (k < length [[1; 2; 3]; replicate 250 7])%nat /\
        (fun _ : Z => true) n = false /\
        contents buff = concat (take k [[1; 2; 3]; replicate 250 7]))).
Proof.
  apply (addstr2buff_concatenates (fun _ => true) [[1; 2; 3]; replicate 250 7]).
  vm_compute. discriminate.
Defined.

(** ** Numbers to strings *)

Section FloatStrings.

Lemma strspn_stop s accept :
  0 ∉ accept ->
  peek (drop_chars (strspn s accept) s) <> 0 ->
  exists c, In c (list_ascii_of_string s) /\ code c ∉ accept.
Proof.
  intros H0. induction s as [|c s IH]; cbn [strspn]; [cbn; congruence|].
  destruct (bool_decide (code c ∈ accept)) eqn:E.
  - cbn [drop_chars]. intros H. destruct (IH H) as (c' & Hin & Hc').
    exists c'. split; [now right|exact Hc'].
  - intros _. apply bool_decide_eq_false in E. exists c. split; [now left|exact E].
Qed.

Lemma in_string_app s1 s2 c :
  In c (list_ascii_of_string s2) -> In c (list_ascii_of_string (s1 ++ s2)).
Proof.
  intros H. induction s1 as [|a s1 IH]; [exact H|]. right. exact IH.
Qed.

End FloatStrings.

(** X11. A float never prints like an integer: whatever the C library writes
    for it, the string luaO_tostringbuff makes of a float holds a
    character other than '-' and the decimal digits (the decimal point of
    the locale not being one of those). *)
Theorem luaO_tostringbuff_float_mark (C : LibC) (F : LibFmt) (obj : TValue) :
  ttisfloat obj = true ->
  code lua_getlocaledecpoint ∉ integer_chars ->
  exists s c, luaO_tostringbuff obj = Some s /\
    In c (list_ascii_of_string s) /\ code c ∉ integer_chars.
Proof.
  intros Hf Hdp. unfold luaO_tostringbuff.
  assert (Hn : ttisnumber obj = true /\ ttisinteger obj = false).
  { unfold ttisfloat, ttisnumber, ttisinteger, checktag, checktype, ttype in *.
    apply Z.eqb_eq in Hf. rewrite Hf. split; reflexivity. }
  destruct Hn as [-> ->]. cbn [negb].
  unfold tostringbuffFloat.
  set (buff := if negb _ then _ else _).
  destruct (Z.eqb_spec (peek (drop_chars (strspn buff integer_chars) buff)) 0) as [E|E].
  - eexists. exists lua_getlocaledecpoint. split; [reflexivity|].
    split; [|exact Hdp]. apply in_string_app. now left.
  - destruct (strspn_stop buff integer_chars) as (c & Hin & Hc); [|exact E|].
    { unfold integer_chars. intros H0. repeat (apply elem_of_cons in H0;
        destruct H0 as [H0|H0]; [discriminate H0|]). inversion H0. }
    exists buff, c. split; [reflexivity|]. split; [exact Hin|exact Hc].
Qed.

Lemma luaO_tostringbuff_float_mark_witness :
  exists s c, @luaO_tostringbuff no_libc ones_fmt (mkTValue (V_n (S754_zero false)) LUA_VNUMFLT)
                = Some s /\
    In c (list_ascii_of_string s) /\ code c ∉ integer_chars.
Proof.
  apply (luaO_tostringbuff_float_mark no_libc ones_fmt).
  - reflexivity.
  - vm_compute. intros H0. repeat (apply elem_of_cons in H0;
      destruct H0 as [H0|H0]; [discriminate H0|]). inversion H0.
Defined.

(** ** Stack manipulation through the API *)

Section StackLemmas.

Lemma setobj_eq o v : setobj o v = v.
Proof. destruct v. reflexivity. Qed.

Lemma index2value_deref L idx :
  index2value L idx = index2value_ptr L idx ≫= deref L.
Proof.
  unfold index2value, index2value_ptr.
  destruct (0 <? idx).
  { destruct (negb _); [reflexivity|]. destruct (top L <=? _); reflexivity. }
  destruct (negb (ispseudo idx)).
  { destruct (negb _); reflexivity. }
  destruct (idx =? LUA_REGISTRYINDEX); [reflexivity|].
  destruct (negb _); [reflexivity|].
  destruct (slot L (func (ci L))) as [fn|]; [|reflexivity].
  destruct (ttisCclosure fn).
  - destruct (value_ fn); try reflexivity.
    destruct (cclosures (l_G L) !! p) as [cl|] eqn:E; [|reflexivity].
    destruct (_ <=? nupvalues cl); [|reflexivity].
    cbn [mbind option_bind deref]. rewrite E. reflexivity.
  - destruct (negb _); reflexivity.
Qed.

Lemma slot_values L o :
  slot L o = if 0 <=? o then stack_values L !! Z.to_nat o else None.
Proof.
  unfold slot, stack_values. rewrite list_lookup_fmap.
  destruct (0 <=? o); reflexivity.
Qed.

Lemma set_slot_spec L o f :
  0 <= o < Z.of_nat (length (stack L)) ->
  exists stk', set_slot L o f = Some (set_stack stk' L) /\
    s2v <$> stk' = alter f (Z.to_nat o) (stack_values L) /\
    delta <$> stk' = stack_deltas L.
Proof.
  intros Ho. unfold set_slot.
  destruct (Z.leb_spec 0 o); [|lia].
  destruct (Z.ltb_spec o (Z.of_nat (length (stack L)))); [|lia].
  cbn [andb]. eexists. split; [reflexivity|]. split.
  - unfold stack_values. apply list_fmap_alter, Forall_forall. reflexivity.
  - unfold stack_deltas. rewrite (list_fmap_alter delta _ id).
    + apply list_alter_id. reflexivity.
    + apply Forall_forall. reflexivity.
Qed.

Lemma stack_values_set_stack stk L : stack_values (set_stack stk L) = s2v <$> stk.
Proof. reflexivity. Qed.

Lemma stack_deltas_set_stack stk L : stack_deltas (set_stack stk L) = delta <$> stk.
Proof. reflexivity. Qed.

Lemma length_stack_values L : length (stack_values L) = length (stack L).
Proof. unfold stack_values. apply length_fmap. Qed.

Lemma alter_middle {A} (f : A -> A) l1 x l2 n :
  n = length l1 -> alter f n (l1 ++ x :: l2) = l1 ++ f x :: l2.
Proof.
  intros ->. induction l1 as [|y l1 IH]; [reflexivity|].
  cbn [length app]. cbn [alter list_alter]. f_equal. exact IH.
Qed.

Lemma reverse_loop_spec fuel : forall L from to pre seg post,
  stack_values L = pre ++ seg ++ post ->
  from = Z.of_nat (length pre) ->
  to = from + Z.of_nat (length seg) - 1 ->
  (length seg <= fuel)%nat ->
  exists stk', reverse_loop fuel L from to = Some (set_stack stk' L) /\
    s2v <$> stk' = pre ++ rev seg ++ post /\
    delta <$> stk' = stack_deltas L.
Proof.
  induction fuel as [|fuel IH]; intros L from to pre seg post Hv Hf Ht Hlen.
  - destruct seg; [|cbn in Hlen; lia]. cbn [reverse_loop].
    destruct (Z.ltb_spec from to); [cbn in Ht; lia|].
    exists (stack L). rewrite set_stack_same. auto.
  - cbn [reverse_loop].
    destruct seg as [|a seg].
    { destruct (Z.ltb_spec from to); [cbn in Ht; lia|].
      exists (stack L). rewrite set_stack_same. auto. }
    destruct seg as [|a' seg'].
    { destruct (Z.ltb_spec from to); [cbn in Ht; lia|].
      exists (stack L). rewrite set_stack_same. auto. }
    (* at least two elements: a :: mid ++ [b] *)
    destruct (exists_last (l := a' :: seg')) as (mid & b & E); [discriminate|].
    rewrite E in *. clear E a' seg'.
    cbn [length] in Ht, Hlen. rewrite length_app in Ht, Hlen. cbn [length] in Ht, Hlen.
    destruct (Z.ltb_spec from to); [|lia].
    assert (Hlenv : length (stack L) = (length pre + (S (length mid + 1)) + length post)%nat).
    { rewrite <- length_stack_values, Hv. rewrite !length_app. cbn [length].
      rewrite length_app. cbn [length]. lia. }
    assert (Hsa : slot L from = Some a).
    { rewrite slot_values. destruct (Z.leb_spec 0 from); [|lia].
      rewrite Hv. cbn [app]. apply list_lookup_middle. lia. }
    assert (Hsb : slot L to = Some b).
    { rewrite slot_values. destruct (Z.leb_spec 0 to); [|lia].
      rewrite Hv.
      replace (pre ++ (a :: mid ++ [b]) ++ post) with ((pre ++ a :: mid) ++ b :: post)
        by (cbn [app]; rewrite <- !app_assoc; reflexivity).
      apply list_lookup_middle. rewrite length_app. cbn [length]. lia. }
    rewrite Hsa, Hsb.
    destruct (set_slot_spec L from (fun o => setobj o b)) as (s1 & -> & Hs1 & Hd1); [lia|].
    destruct (set_slot_spec (set_stack s1 L) to (fun o => setobj o a))
      as (s2 & -> & Hs2 & Hd2).
    { rewrite stack_set_stack. apply (f_equal length) in Hs1.
      rewrite length_fmap, length_alter, length_stack_values in Hs1. lia. }
    rewrite set_stack_set_stack.
    rewrite stack_values_set_stack in Hs2. rewrite stack_deltas_set_stack in Hd2.
    assert (Hv2 : stack_values (set_stack s2 L) = (pre ++ [b]) ++ mid ++ (a :: post)).
    { rewrite stack_values_set_stack, Hs2, Hs1, Hv. cbn [app].
      rewrite (alter_middle _ pre a) by lia. rewrite setobj_eq.
      replace (pre ++ b :: (mid ++ [b]) ++ post) with ((pre ++ b :: mid) ++ b :: post)
        by (rewrite <- !app_assoc; reflexivity).
      rewrite (alter_middle _ (pre ++ b :: mid) b)
        by (rewrite length_app; cbn [length]; lia).
      rewrite setobj_eq, <- !app_assoc. reflexivity. }
    destruct (IH (set_stack s2 L) (from + 1) (to - 1) (pre ++ [b]) mid (a :: post) Hv2)
      as (s3 & H3 & Hs3 & Hd3).
    { rewrite length_app. cbn [length]. lia. }
    { lia. }
    { lia. }
    exists s3. rewrite H3, set_stack_set_stack. split; [reflexivity|]. split.
    + rewrite Hs3. cbn [rev]. rewrite rev_app_distr. cbn [rev app].
      rewrite <- !app_assoc. reflexivity.
    + rewrite Hd3, stack_deltas_set_stack, Hd2, Hd1. reflexivity.
Qed.

End StackLemmas.

Section Rotate.

Lemma reverse_spec L from to pre seg post :
  stack_values L = pre ++ seg ++ post ->
  from = Z.of_nat (length pre) ->
  to = from + Z.of_nat (length seg) - 1 ->
  exists stk', reverse L from to = Some (set_stack stk' L) /\
    s2v <$> stk' = pre ++ rev seg ++ post /\
    delta <$> stk' = stack_deltas L.
Proof.
  intros Hv Hf Ht. unfold reverse.
  apply (reverse_loop_spec _ L from to pre seg post Hv Hf Ht).
  rewrite <- length_stack_values, Hv, !length_app. lia.
Qed.

Lemma index2stack_range L idx p :
  wf_thread L -> index2stack L idx = Some p -> func (ci L) < p < top L.
Proof.
  intros (H0 & H1 & H2 & H3 & H4 & H5 & H6). unfold index2stack.
  destruct (Z.ltb_spec 0 idx).
  - destruct (Z.ltb_spec (func (ci L) + idx) (top L)); cbn [negb]; [|discriminate].
    intros [= <-]. lia.
  - destruct (Z.eqb_spec idx 0); cbn [negb andb]; [discriminate|].
    destruct (Z.leb_spec (- idx) (top L - (func (ci L) + 1))); cbn [negb]; [|discriminate].
    destruct (ispseudo idx); cbn [negb]; [discriminate|].
    intros [= <-]. lia.
Qed.

Lemma rotate_three_reversals L p m t pre A B post :
  stack_values L = pre ++ (A ++ B) ++ post ->
  p = Z.of_nat (length pre) ->
  m = p + Z.of_nat (length A) - 1 ->
  t = m + Z.of_nat (length B) ->
  exists stk',
    match reverse L p m with
    | Some L =>
        match reverse L (m + 1) t with
        | Some L => reverse L p t
        | None => None
        end
    | None => None
    end = Some (set_stack stk' L) /\
    s2v <$> stk' = pre ++ (B ++ A) ++ post /\
    delta <$> stk' = stack_deltas L.
Proof.
  intros Hv Hp Hm Ht.
  destruct (reverse_spec L p m pre A (B ++ post)) as (s1 & -> & Hs1 & Hd1);
    [rewrite Hv, <- !app_assoc; reflexivity|exact Hp|exact Hm|].
  destruct (reverse_spec (set_stack s1 L) (m + 1) t (pre ++ rev A) B post)
    as (s2 & -> & Hs2 & Hd2).
  { rewrite stack_values_set_stack, Hs1, <- !app_assoc. reflexivity. }
  { rewrite length_app, length_rev. lia. }
  { lia. }
  rewrite set_stack_set_stack.
  destruct (reverse_spec (set_stack s2 L) p t pre (rev A ++ rev B) post)
    as (s3 & -> & Hs3 & Hd3).
  { rewrite stack_values_set_stack, Hs2, <- !app_assoc. reflexivity. }
  { exact Hp. }
  { rewrite length_app, !length_rev. lia. }
  rewrite set_stack_set_stack. exists s3. split; [reflexivity|]. split.
  - rewrite Hs3, rev_app_distr, !rev_involutive. reflexivity.
  - rewrite Hd3, stack_deltas_set_stack, Hd2, stack_deltas_set_stack, Hd1. reflexivity.
Qed.

Lemma lua_rotate_spec L idx n p :
  wf_thread L -> index2stack L idx = Some p -> tbclist L < p ->
  - (top L - p) <= n <= top L - p ->
  let seg := take (Z.to_nat (top L - p)) (drop (Z.to_nat p) (stack_values L)) in
  let k := Z.to_nat (if 0 <=? n then top L - p - n else - n) in
  exists stk', lua_rotate L idx n = Some (set_stack stk' L) /\
    s2v <$> stk' = take (Z.to_nat p) (stack_values L)
                     ++ (drop k seg ++ take k seg)
                     ++ drop (Z.to_nat (top L)) (stack_values L) /\
    delta <$> stk' = stack_deltas L.
Proof.
  intros Hwf Hidx Htbc Hn seg k.
  pose proof (index2stack_range L idx p Hwf Hidx) as Hp.
  destruct Hwf as (H0 & H1 & H2 & H3 & H4 & H5 & H6).
  unfold lua_rotate. rewrite Hidx.
  destruct (Z.ltb_spec (tbclist L) p); [|lia]. cbn [negb].
  assert (Habs : (if 0 <=? n then n else - n) <= top L - 1 - p + 1).
  { destruct (Z.leb_spec 0 n); lia. }
  destruct (Z.leb_spec (if 0 <=? n then n else - n) (top L - 1 - p + 1)); [|lia].
  cbn [negb].
  assert (Hlen : (Z.to_nat (top L) <= length (stack_values L))%nat).
  { rewrite length_stack_values. lia. }
  assert (Hseg : length seg = Z.to_nat (top L - p)).
  { unfold seg. rewrite length_take, length_drop. lia. }
  assert (Hk : (k <= length seg)%nat).
  { unfold k. destruct (Z.leb_spec 0 n); lia. }
  assert (Hv : stack_values L = take (Z.to_nat p) (stack_values L)
                 ++ (take k seg ++ drop k seg)
                 ++ drop (Z.to_nat (top L)) (stack_values L)).
  { rewrite take_drop. unfold seg.
    rewrite <- (take_drop (Z.to_nat p) (stack_values L)) at 1. f_equal.
    rewrite <- (take_drop (Z.to_nat (top L - p)) (drop (Z.to_nat p) (stack_values L))) at 1.
    f_equal. rewrite drop_drop. f_equal. lia. }
  apply (rotate_three_reversals L p _ (top L - 1) _ (take k seg) (drop k seg) _ Hv).
  - rewrite length_take. lia.
  - rewrite length_take. unfold k. destruct (Z.leb_spec 0 n); lia.
  - rewrite length_drop. unfold k. destruct (Z.leb_spec 0 n); lia.
Qed.

End Rotate.

Section RotateCorollaries.

Context {F : LFunc}.

Lemma stack_ext (s s' : list StackValue) :
  s2v <$> s = s2v <$> s' -> delta <$> s = delta <$> s' -> s = s'.
Proof.
  revert s'. induction s as [|[v d] s IH]; intros [|[v' d'] s']; cbn;
    try discriminate; [reflexivity|].
  intros [= -> Hv] [= -> Hd]. f_equal. now apply IH.
Qed.

Lemma wf_thread_set_stack stk L :
  wf_thread L -> length stk = length (stack L) -> wf_thread (set_stack stk L).
Proof.
  unfold wf_thread. cbn. intros H ->. exact H.
Qed.

Lemma index2stack_set_stack stk L idx :
  index2stack (set_stack stk L) idx = index2stack L idx.
Proof. reflexivity. Qed.

Lemma length_same_values (stk : list StackValue) L :
  delta <$> stk = stack_deltas L -> length stk = length (stack L).
Proof.
  intros H. apply (f_equal length) in H. unfold stack_deltas in H.
  now rewrite !length_fmap in H.
Qed.

Lemma take_drop_segment {A} (l : list A) (p t : nat) :
  (p <= t)%nat ->
  l = take p l ++ take (t - p) (drop p l) ++ drop t l.
Proof.
  intros Hpt.
  rewrite <- (take_drop p l) at 1. f_equal.
  rewrite <- (take_drop (t - p) (drop p l)) at 1. f_equal.
  rewrite drop_drop. f_equal. lia.
Qed.

End RotateCorollaries.

(** X12. lua_rotate rotates the slots from a valid index up to the top: for
    n >= 0 the last n values of the segment come first, for n < 0 the
    first -n values go last; the slots below the index and above the top,
    the [delta] fields and the rest of the state are untouched. *)
Theorem lua_rotate_rotates (L : lua_State) (idx n p : Z) :
  wf_thread L -> index2stack L idx = Some p -> tbclist L < p ->
  - (top L - p) <= n <= top L - p ->
  let seg := take (Z.to_nat (top L - p)) (drop (Z.to_nat p) (stack_values L)) in
  let k := Z.to_nat (if 0 <=? n then top L - p - n else - n) in
  exists stk', lua_rotate L idx n = Some (set_stack stk' L) /\
    s2v <$> stk' = take (Z.to_nat p) (stack_values L)
                     ++ (drop k seg ++ take k seg)
                     ++ drop (Z.to_nat (top L)) (stack_values L) /\
    delta <$> stk' = stack_deltas L.
Proof. exact (lua_rotate_spec L idx n p). Qed.

Lemma lua_rotate_rotates_witness :
  let L := sample_thread in
  let seg := take (Z.to_nat (top L - 2)) (drop (Z.to_nat 2) (stack_values L)) in
  let k := Z.to_nat (if 0 <=? 1 then top L - 2 - 1 else - 1) in
  exists stk', lua_rotate L 2 1 = Some (set_stack stk' L) /\
    s2v <$> stk' = take (Z.to_nat 2) (stack_values L)
                     ++ (drop k seg ++ take k seg)
                     ++ drop (Z.to_nat (top L)) (stack_values L) /\
    delta <$> stk' = stack_deltas L.
Proof.
  apply (lua_rotate_rotates sample_thread 2 1 2).
  - repeat split; vm_compute; (reflexivity || discriminate).
  - reflexivity.
  - reflexivity.
  - vm_compute. split; discriminate.
Defined.

(** On the frame 10, 20, 30, 40: rotating the three values from index 2
    by one position brings the top value, 40, to index 2. *)
Example lua_rotate_sample :
  frame_values <$> lua_rotate sample_thread 2 1
  = Some [mkTValue (V_i 10) LUA_VNUMINT; mkTValue (V_i 40) LUA_VNUMINT;
          mkTValue (V_i 20) LUA_VNUMINT; mkTValue (V_i 30) LUA_VNUMINT].
Proof. vm_compute. reflexivity. Qed.

(** X13. Rotating by n and then by -n restores the state exactly. *)
Theorem lua_rotate_inverse (L : lua_State) (idx n p : Z) :
  wf_thread L -> index2stack L idx = Some p -> tbclist L < p ->
  - (top L - p) <= n <= top L - p ->
  exists L1, lua_rotate L idx n = Some L1 /\ lua_rotate L1 idx (- n) = Some L.
Proof.
  intros Hwf Hidx Htbc Hn.
  pose proof (index2stack_range L idx p Hwf Hidx) as Hp.
  pose proof Hwf as (H0 & H1 & H2 & H3 & H4 & H5 & H6).
  destruct (lua_rotate_spec L idx n p Hwf Hidx Htbc Hn) as (s1 & Hr1 & Hs1 & Hd1).
  exists (set_stack s1 L). split; [exact Hr1|].
  pose proof (length_same_values s1 L Hd1) as Hl1.
  destruct (lua_rotate_spec (set_stack s1 L) idx (- n) p) as (s2 & Hr2 & Hs2 & Hd2).
  { apply wf_thread_set_stack; assumption. }
  { exact Hidx. }
  { exact Htbc. }
  { rewrite top_set_stack. lia. }
  rewrite Hr2, set_stack_set_stack. f_equal.
  rewrite <- (set_stack_same L) at 2. f_equal.
  apply stack_ext; [|rewrite Hd2, stack_deltas_set_stack; exact Hd1].
  rewrite Hs2. rewrite top_set_stack, stack_values_set_stack, Hs1.
  set (vals := stack_values L) in *.
  set (len := Z.to_nat (top L - p)) in *.
  set (seg := take len (drop (Z.to_nat p) vals)) in *.
  set (k := Z.to_nat (if 0 <=? n then top L - p - n else - n)) in *.
  assert (Hlenv : (Z.to_nat (top L) <= length vals)%nat).
  { unfold vals. rewrite length_stack_values. lia. }
  assert (Hseg : length seg = len).
  { unfold seg, len. rewrite length_take, length_drop. lia. }
  assert (Hk : (k <= len)%nat) by (unfold k, len; destruct (Z.leb_spec 0 n); lia).
  assert (Hpre : length (take (Z.to_nat p) vals) = Z.to_nat p)
    by (rewrite length_take; lia).
  assert (Hmid : length (drop k seg ++ take k seg) = len).
  { rewrite length_app, length_drop, length_take. lia. }
  set (pre := take (Z.to_nat p) vals) in *.
  set (mid1 := drop k seg ++ take k seg) in *.
  set (post := drop (Z.to_nat (top L)) vals) in *.
  assert (A1 : take (Z.to_nat p) (pre ++ mid1 ++ post) = pre)
    by (apply take_app_length'; symmetry; exact Hpre).
  assert (A2 : drop (Z.to_nat p) (pre ++ mid1 ++ post) = mid1 ++ post)
    by (apply drop_app_length'; symmetry; exact Hpre).
  assert (A3 : take len (mid1 ++ post) = mid1)
    by (apply take_app_length'; symmetry; exact Hmid).
  assert (A4 : drop (Z.to_nat (top L)) (pre ++ mid1 ++ post) = post).
  { replace (Z.to_nat (top L)) with (Z.to_nat p + len)%nat by (unfold len; lia).
    rewrite <- drop_drop, A2. apply drop_app_length'. symmetry. exact Hmid. }
  fold len. rewrite A1, A2, A3, A4.
  set (k' := Z.to_nat (if 0 <=? - n then top L - p - - n else - - n)).
  assert (Hk' : (k' = len - k \/ (k = len /\ k' = len))%nat).
  { unfold k', k, len. destruct (Z.leb_spec 0 n); destruct (Z.leb_spec 0 (- n)); lia. }
  assert (Hrot : drop k' mid1 ++ take k' mid1 = seg).
  { unfold mid1. destruct Hk' as [-> | [Hkl ->]].
    - rewrite drop_app_length' by (rewrite length_drop; lia).
      rewrite take_app_length' by (rewrite length_drop; lia).
      apply take_drop.
    - rewrite Hkl. rewrite (drop_ge seg len) by lia. rewrite (take_ge seg len) by lia.
      cbn [app]. rewrite drop_ge by lia. rewrite take_ge by lia. reflexivity. }
  rewrite Hrot. unfold pre, post, seg, len.
  symmetry.
  replace (Z.to_nat (top L - p)) with (Z.to_nat (top L) - Z.to_nat p)%nat by lia.
  apply take_drop_segment. lia.
Qed.

Lemma lua_rotate_inverse_witness :
  let L := sample_thread in
  exists L1, lua_rotate L 2 1 = Some L1 /\ lua_rotate L1 2 (- 1) = Some L.
Proof.
  apply (lua_rotate_inverse sample_thread 2 1 2).
  - repeat split; vm_compute; (reflexivity || discriminate).
  - reflexivity.
  - reflexivity.
  - vm_compute. split; discriminate.
Defined.

(** X14. lua_remove deletes the value at a valid index: the values above it
    move down by one slot, the top decreases by one, and nothing else in
    the state changes. *)
Theorem lua_remove_deletes (F : LFunc) (L : lua_State) (idx p : Z) :
  wf_thread L -> index2stack L idx = Some p -> tbclist L < p ->
  exists stk', lua_remove L idx = Some (set_top (top L - 1) (set_stack stk' L)) /\
    s2v <$> take (Z.to_nat (top L - 1)) stk'
      = delete (Z.to_nat p) (s2v <$> live_stack L) /\
    delta <$> stk' = stack_deltas L.
Proof.
  intros Hwf Hidx Htbc.
  pose proof (index2stack_range L idx p Hwf Hidx) as Hp.
  pose proof Hwf as (H0 & H1 & H2 & H3 & H4 & H5 & H6).
  destruct (lua_rotate_spec L idx (-1) p Hwf Hidx Htbc ltac:(lia)) as (s1 & Hr & Hs & Hd).
  exists s1. unfold lua_remove, lua_pop. rewrite Hr.
  replace (- 1 - 1) with (-2) by lia.
  rewrite lua_settop_pop
    by (rewrite ?top_set_stack, ?ci_set_stack, ?tbclist_set_stack; lia).
  rewrite top_set_stack. split; [reflexivity|]. split; [|exact Hd].
  change (Z.to_nat (if 0 <=? -1 then top L - p - -1 else - (-1))) with 1%nat in Hs.
  rewrite fmap_take, Hs.
  unfold live_stack. rewrite fmap_take. fold (stack_values L).
  set (vals := stack_values L).
  assert (Hlenv : (Z.to_nat (top L) <= length vals)%nat).
  { unfold vals. rewrite length_stack_values. lia. }
  set (seg := take (Z.to_nat (top L - p)) (drop (Z.to_nat p) vals)).
  assert (Hseg : seg = drop (Z.to_nat p) (take (Z.to_nat (top L)) vals)).
  { unfold seg. rewrite take_drop_commute. do 2 f_equal. lia. }
  assert (Hlseg : length seg = Z.to_nat (top L - p)).
  { unfold seg. rewrite length_take, length_drop. lia. }
  rewrite delete_take_drop, take_take.
  replace (Z.to_nat p `min` Z.to_nat (top L))%nat with (Z.to_nat p) by lia.
  replace (take (Z.to_nat p) vals ++ (drop 1 seg ++ take 1 seg)
             ++ drop (Z.to_nat (top L)) vals)
    with ((take (Z.to_nat p) vals ++ drop 1 seg)
            ++ (take 1 seg ++ drop (Z.to_nat (top L)) vals))
    by (rewrite <- !app_assoc; reflexivity).
  rewrite take_app_length'
    by (rewrite length_app, length_take, length_drop; lia).
  f_equal. rewrite Hseg, drop_drop. f_equal. lia.
Qed.

Lemma lua_remove_deletes_witness :
  let L := sample_thread in
  exists stk', @lua_remove {| luaF_close := fun L l => (L, l) |} L 2
                 = Some (set_top (top L - 1) (set_stack stk' L)) /\
    s2v <$> take (Z.to_nat (top L - 1)) stk'
      = delete (Z.to_nat 2) (s2v <$> live_stack L) /\
    delta <$> stk' = stack_deltas L.
Proof.
  apply (lua_remove_deletes _ sample_thread 2 2).
  - repeat split; vm_compute; (reflexivity || discriminate).
  - reflexivity.
  - reflexivity.
Defined.

(** On the frame 10, 20, 30, 40: removing index 2 leaves 10, 30, 40. *)
Example lua_remove_sample :
  frame_values <$> @lua_remove {| luaF_close := fun L l => (L, l) |} sample_thread 2
  = Some [mkTValue (V_i 10) LUA_VNUMINT; mkTValue (V_i 30) LUA_VNUMINT;
          mkTValue (V_i 40) LUA_VNUMINT].
Proof. vm_compute. reflexivity. Qed.

(** X15. lua_insert moves the top value to a valid index, shifting up by one
    slot the values that were at and above that index. *)
Theorem lua_insert_moves_top (L : lua_State) (idx p : Z) (v : TValue) :
  wf_thread L -> index2stack L idx = Some p -> tbclist L < p ->
  slot L (top L - 1) = Some v ->
  exists stk', lua_insert L idx = Some (set_stack stk' L) /\
    s2v <$> take (Z.to_nat (top L)) stk'
      = take (Z.to_nat p) (stack_values L) ++
        v :: take (Z.to_nat (top L - 1 - p)) (drop (Z.to_nat p) (stack_values L)) /\
    delta <$> stk' = stack_deltas L.
Proof.
  intros Hwf Hidx Htbc Hv.
  pose proof (index2stack_range L idx p Hwf Hidx) as Hp.
  pose proof Hwf as (H0 & H1 & H2 & H3 & H4 & H5 & H6).
  destruct (lua_rotate_spec L idx 1 p Hwf Hidx Htbc ltac:(lia)) as (s1 & Hr & Hs & Hd).
  exists s1. unfold lua_insert. split; [exact Hr|]. split; [|exact Hd].
  change (if 0 <=? 1 then top L - p - 1 else - (1)) with (top L - p - 1) in Hs.
  rewrite fmap_take, Hs.
  set (vals := stack_values L) in *.
  assert (Hlenv : (Z.to_nat (top L) <= length vals)%nat).
  { unfold vals. rewrite length_stack_values. lia. }
  set (seg := take (Z.to_nat (top L - p)) (drop (Z.to_nat p) vals)).
  assert (Hlseg : length seg = Z.to_nat (top L - p)).
  { unfold seg. rewrite length_take, length_drop. lia. }
  set (k := Z.to_nat (top L - p - 1)).
  rewrite app_assoc, take_app_length'
    by (rewrite !length_app, length_take, length_drop, length_take; unfold k; lia).
  f_equal.
  assert (Hlast : drop k seg = [v]).
  { rewrite slot_values in Hv. destruct (Z.leb_spec 0 (top L - 1)); [|lia].
    fold vals in Hv.
    apply list_eq. intros i. rewrite lookup_drop. unfold seg.
    destruct i as [|i].
    - rewrite lookup_take_lt by (unfold k; lia). rewrite lookup_drop.
      replace (Z.to_nat p + (k + 0))%nat with (Z.to_nat (top L - 1)) by (unfold k; lia).
      exact Hv.
    - rewrite lookup_take_ge by (unfold k; lia). reflexivity. }
  rewrite Hlast. cbn [app]. f_equal.
  unfold seg. rewrite take_take. f_equal. unfold k. lia.
Qed.

Lemma lua_insert_moves_top_witness :
  let L := sample_thread in
  exists stk', lua_insert L 2 = Some (set_stack stk' L) /\
    s2v <$> take (Z.to_nat (top L)) stk'
      = take (Z.to_nat 2) (stack_values L) ++
        mkTValue (V_i 40) LUA_VNUMINT
          :: take (Z.to_nat (top L - 1 - 2)) (drop (Z.to_nat 2) (stack_values L)) /\
    delta <$> stk' = stack_deltas L.
Proof.
  apply (lua_insert_moves_top sample_thread 2 2).
  - repeat split; vm_compute; (reflexivity || discriminate).
  - reflexivity.
  - reflexivity.
  - reflexivity.
Defined.

(** On the frame 10, 20, 30, 40: inserting the top value at index 2 gives
    10, 40, 20, 30. *)
Example lua_insert_sample :
  frame_values <$> lua_insert sample_thread 2
  = Some [mkTValue (V_i 10) LUA_VNUMINT; mkTValue (V_i 40) LUA_VNUMINT;
          mkTValue (V_i 20) LUA_VNUMINT; mkTValue (V_i 30) LUA_VNUMINT].
Proof. vm_compute. reflexivity. Qed.

Section Indices.

Lemma slot_is_Some L o :
  0 <= o < Z.of_nat (length (stack L)) -> is_Some (slot L o).
Proof.
  intros Ho. unfold slot. destruct (Z.leb_spec 0 o); [|lia].
  destruct (lookup_lt_is_Some_2 (stack L) (Z.to_nat o)) as [x ->]; [lia|].
  eexists. reflexivity.
Qed.

Lemma ttype_range o : 0 <= ttype o <= 15.
Proof.
  unfold ttype, novariant. change 15 with (Z.ones 4).
  rewrite Z.land_ones by lia. change (2 ^ 4) with 16. change (Z.ones 4) with 15.
  pose proof (Z.mod_pos_bound (rawtt o) 16). lia.
Qed.

End Indices.

(** X16. lua_absindex turns a valid negative index into the positive index of
    the same stack slot, between 1 and the top; converting again changes
    nothing. *)
Theorem lua_absindex_same_slot (L : lua_State) (idx : Z) :
  wf_thread L -> idx < 0 -> ispseudo idx = false -> - idx <= lua_gettop L ->
  let a := lua_absindex L idx in
  a = lua_gettop L + idx + 1 /\ 1 <= a <= lua_gettop L /\
  index2value_ptr L a = index2value_ptr L idx /\
  index2value L a = index2value L idx /\
  lua_absindex L a = a.
Proof.
  intros (H0 & H1 & H2 & H3 & H4 & H5 & H6) Hneg Hps Hval a.
  unfold lua_gettop in *.
  assert (Ha : a = top L - (func (ci L) + 1) + idx + 1).
  { unfold a, lua_absindex. rewrite Hps.
    destruct (Z.ltb_spec 0 idx); [lia|]. cbn [orb]. lia. }
  assert (Hptr : index2value_ptr L a = index2value_ptr L idx).
  { unfold index2value_ptr. rewrite Hps.
    destruct (Z.ltb_spec 0 a); [|lia].
    destruct (Z.ltb_spec 0 idx); [lia|]. cbn [negb].
    destruct (Z.leb_spec a (ci_top (ci L) - (func (ci L) + 1))); [|lia].
    destruct (Z.leb_spec (top L) (func (ci L) + a)); [lia|].
    destruct (Z.eqb_spec idx 0); [lia|].
    destruct (Z.leb_spec (- idx) (top L - (func (ci L) + 1))); [|lia].
    cbn [negb andb]. f_equal. f_equal. lia. }
  split; [exact Ha|]. split; [lia|]. split; [exact Hptr|]. split.
  - rewrite !index2value_deref, Hptr. reflexivity.
  - unfold lua_absindex. destruct (Z.ltb_spec 0 a); [reflexivity|lia].
Qed.

Lemma lua_absindex_same_slot_witness :
  let L := set_top 4 (stack_init sample_global) in
  let a := lua_absindex L (-1) in
  a = lua_gettop L + -1 + 1 /\ 1 <= a <= lua_gettop L /\
  index2value_ptr L a = index2value_ptr L (-1) /\
  index2value L a = index2value L (-1) /\
  lua_absindex L a = a.
Proof.
  apply (lua_absindex_same_slot (set_top 4 (stack_init sample_global)) (-1)).
  - repeat split; vm_compute; (reflexivity || discriminate).
  - lia.
  - reflexivity.
  - vm_compute. discriminate.
Defined.

(** X17. lua_type tells the acceptable positive indices above the top from
    the valid ones: it returns LUA_TNONE exactly for an index beyond
    lua_gettop, and the basic type (0 to 15) of the value in the slot for
    an index up to it. *)
Theorem lua_type_none_above_top (L : lua_State) (idx : Z) :
  wf_thread L -> 1 <= idx <= ci_top (ci L) - (func (ci L) + 1) ->
  exists t, lua_type L idx = Some t /\
    (t = LUA_TNONE <-> lua_gettop L < idx) /\
    (idx <= lua_gettop L ->
     0 <= t <= 15 /\ exists o, index2value L idx = Some o /\ t = ttype o).
Proof.
  intros (H0 & H1 & H2 & H3 & H4 & H5 & H6) Hidx.
  unfold lua_type, lua_gettop, index2value_ptr.
  destruct (Z.ltb_spec 0 idx); [|lia].
  destruct (Z.leb_spec idx (ci_top (ci L) - (func (ci L) + 1))); [|lia].
  cbn [negb].
  destruct (Z.leb_spec (top L) (func (ci L) + idx)).
  - exists LUA_TNONE. cbn [isvalid]. split; [reflexivity|].
    split; [split; [lia|reflexivity]|]. lia.
  - cbn [isvalid deref].
    destruct (slot_is_Some L (func (ci L) + idx)) as [o Ho]; [lia|].
    rewrite Ho. exists (ttype o). cbn. split; [reflexivity|].
    pose proof (ttype_range o) as Hr. split.
    + split; [|lia]. intros E. rewrite E in Hr. unfold LUA_TNONE in Hr. lia.
    + intros _. split; [exact Hr|]. exists o. split; [|reflexivity].
      rewrite index2value_deref. unfold index2value_ptr.
      destruct (Z.ltb_spec 0 idx); [|lia].
      destruct (Z.leb_spec idx (ci_top (ci L) - (func (ci L) + 1))); [|lia].
      cbn [negb].
      destruct (Z.leb_spec (top L) (func (ci L) + idx)); [lia|].
      exact Ho.
Qed.

Lemma lua_type_none_above_top_witness :
  let L := thread_with sample_global (mkTValue (V_i 7) LUA_VNUMINT) in
  exists t, lua_type L 2 = Some t /\
    (t = LUA_TNONE <-> lua_gettop L < 2) /\
    (2 <= lua_gettop L ->
     0 <= t <= 15 /\ exists o, index2value L 2 = Some o /\ t = ttype o).
Proof.
  apply (lua_type_none_above_top (thread_with sample_global (mkTValue (V_i 7) LUA_VNUMINT)) 2).
  - repeat split; vm_compute; (reflexivity || discriminate).
  - vm_compute. split; discriminate.
Defined.

Section SetTop.

Context {F : LFunc}.

Lemma fill_nil_spec k : forall L,
  0 <= top L -> top L + Z.of_nat k <= Z.of_nat (length (stack L)) ->
  exists stk', fill_nil k L = set_top (top L + Z.of_nat k) (set_stack stk' L) /\
    length stk' = length (stack L) /\
    take (Z.to_nat (top L)) (s2v <$> stk') = take (Z.to_nat (top L)) (stack_values L) /\
    delta <$> stk' = stack_deltas L /\
    forall i, (Z.to_nat (top L) <= i < Z.to_nat (top L) + k)%nat ->
      exists v, (s2v <$> stk') !! i = Some v /\ ttisstrictnil v = true.
Proof.
  induction k as [|k IH]; intros L H0 Hlen.
  - exists (stack L). cbn [fill_nil]. rewrite set_stack_same.
    split; [destruct L; cbn; unfold set_top; cbn; f_equal; lia|].
    split; [reflexivity|]. split; [reflexivity|]. split; [reflexivity|].
    intros i Hi. lia.
  - set (L1 := set_top (top L + 1)
                 (set_stack (alter (fun o => mkStackValue (setnilvalue (val o)) (delta o))
                                   (Z.to_nat (top L)) (stack L)) L)).
    change (fill_nil (S k) L) with (fill_nil k L1).
    destruct (IH L1) as (stk' & Hf & Hl & Ht & Hd & Hn).
    { cbn. lia. }
    { cbn. rewrite length_alter. lia. }
    exists stk'. rewrite Hf. cbn [L1 top set_top stack set_stack] in *.
    rewrite length_alter in *.
    split; [unfold set_top, set_stack; cbn; f_equal; lia|].
    split; [exact Hl|].
    assert (Hsv : stack_values L1 =
                  alter setnilvalue (Z.to_nat (top L)) (stack_values L)).
    { unfold stack_values, L1. cbn [stack set_top set_stack].
      apply list_fmap_alter, Forall_forall. reflexivity. }
    split; [|split].
    + apply (f_equal (take (Z.to_nat (top L)))) in Ht.
      rewrite take_take in Ht.
      replace (Z.to_nat (top L) `min` Z.to_nat (top L + 1))%nat
        with (Z.to_nat (top L)) in Ht by lia.
      rewrite Ht. fold (stack_values L1). rewrite Hsv.
      rewrite take_take.
      replace (Z.to_nat (top L) `min` Z.to_nat (top L + 1))%nat
        with (Z.to_nat (top L)) by lia.
      apply take_alter_ge. lia.
    + rewrite Hd. unfold stack_deltas, L1. cbn [stack set_top set_stack].
      rewrite (list_fmap_alter delta _ id).
      * apply list_alter_id. reflexivity.
      * apply Forall_forall. reflexivity.
    + intros i Hi.
      destruct (Nat.eq_dec i (Z.to_nat (top L))) as [->|Hne].
      * apply (f_equal (fun l => l !! Z.to_nat (top L))) in Ht.
        rewrite !lookup_take_lt in Ht by lia.
        rewrite Ht. fold (stack_values L1). rewrite Hsv.
        rewrite list_lookup_alter_eq.
        destruct (lookup_lt_is_Some_2 (stack_values L) (Z.to_nat (top L))) as [x ->];
          [rewrite length_stack_values; lia|].
        eexists. split; [reflexivity|]. reflexivity.
      * apply Hn. lia.
Qed.

End SetTop.

(** X18. lua_settop with a non-negative index sets the height of the frame:
    afterwards lua_gettop is that index, the slots below the old and the
    new top keep their values, the slots added are nil, and the rest of
    the state is unchanged (no to-be-closed variable being popped). *)
Theorem lua_settop_sets_height (F : LFunc) (L : lua_State) (n : Z) :
  wf_thread L -> 0 <= n <= ci_top (ci L) - (func (ci L) + 1) ->
  tbclist L < func (ci L) + 1 + n \/ lua_gettop L <= n ->
  exists stk', lua_settop L n = Some (set_top (func (ci L) + 1 + n) (set_stack stk' L)) /\
    lua_gettop (set_top (func (ci L) + 1 + n) (set_stack stk' L)) = n /\
    take (Z.to_nat (Z.min (top L) (func (ci L) + 1 + n))) (s2v <$> stk')
      = take (Z.to_nat (Z.min (top L) (func (ci L) + 1 + n))) (stack_values L) /\
    delta <$> stk' = stack_deltas L /\
    forall o, top L <= o < func (ci L) + 1 + n ->
      exists v, slot (set_stack stk' L) o = Some v /\ ttisstrictnil v = true.
Proof.
  intros (H0 & H1 & H2 & H3 & H4 & H5 & H6) Hn Htbc.
  unfold lua_settop, lua_gettop in *.
  destruct (Z.leb_spec 0 n); [|lia].
  destruct (Z.leb_spec n (ci_top (ci L) - (func (ci L) + 1))); [|lia].
  cbn [negb].
  set (diff := func (ci L) + 1 + n - top L).
  destruct (Z_le_gt_dec diff 0) as [Hshrink|Hgrow].
  - (* no slot added *)
    replace (Z.to_nat diff) with 0%nat by lia. cbn [fill_nil].
    replace (Z.min diff 0) with diff by lia.
    assert (Hc : (diff <? 0) && (top L + diff <=? tbclist L) = false).
    { destruct (Z.ltb_spec diff 0); [|reflexivity].
      destruct (Z.leb_spec (top L + diff) (tbclist L)); [|reflexivity].
      unfold diff in *. lia. }
    rewrite Hc. exists (stack L). rewrite set_stack_same.
    split; [do 2 f_equal; unfold diff; lia|].
    split; [cbn; lia|]. split; [reflexivity|]. split; [reflexivity|].
    intros o Ho. unfold diff in *. lia.
  - destruct (fill_nil_spec (Z.to_nat diff) L) as (stk' & Hf & Hl & Ht & Hd & Hnil);
      [lia|unfold diff; lia|].
    rewrite Hf. replace (Z.min diff 0) with 0 by lia.
    cbn [Z.ltb andb top set_top].
    exists stk'. split.
    { unfold set_top, set_stack. cbn. do 2 f_equal. unfold diff. lia. }
    split; [cbn; lia|]. split.
    { replace (Z.min (top L) (func (ci L) + 1 + n)) with (top L) by (unfold diff in *; lia).
      exact Ht. }
    split; [exact Hd|].
    intros o Ho. unfold slot. destruct (Z.leb_spec 0 o); [|lia].
    cbn [stack set_stack].
    destruct (Hnil (Z.to_nat o)) as (v & Hv & Hvn); [unfold diff; lia|].
    rewrite list_lookup_fmap in Hv. exists v. split; [exact Hv|exact Hvn].
Qed.

Lemma lua_settop_sets_height_witness :
  let L := thread_with sample_global (mkTValue (V_i 7) LUA_VNUMINT) in
  exists stk', @lua_settop {| luaF_close := fun L l => (L, l) |} L 3
                 = Some (set_top (func (ci L) + 1 + 3) (set_stack stk' L)) /\
    lua_gettop (set_top (func (ci L) + 1 + 3) (set_stack stk' L)) = 3 /\
    take (Z.to_nat (Z.min (top L) (func (ci L) + 1 + 3))) (s2v <$> stk')
      = take (Z.to_nat (Z.min (top L) (func (ci L) + 1 + 3))) (stack_values L) /\
    delta <$> stk' = stack_deltas L /\
    forall o, top L <= o < func (ci L) + 1 + 3 ->
      exists v, slot (set_stack stk' L) o = Some v /\ ttisstrictnil v = true.
Proof.
  apply (lua_settop_sets_height _ (thread_with sample_global (mkTValue (V_i 7) LUA_VNUMINT)) 3).
  - repeat split; vm_compute; (reflexivity || discriminate).
  - vm_compute. split; discriminate.
  - left. reflexivity.
Defined.

Section Pushes.

Lemma push_spec L f :
  wf_thread L -> top L < ci_top (ci L) ->
  exists stk', push L f = Some (set_top (top L + 1) (set_stack stk' L)) /\
    s2v <$> stk' = alter f (Z.to_nat (top L)) (stack_values L) /\
    delta <$> stk' = stack_deltas L.
Proof.
  intros (H0 & H1 & H2 & H3 & H4 & H5 & H6) Hroom. unfold push.
  destruct (set_slot_spec L (top L) f) as (stk' & -> & Hs & Hd); [lia|].
  exists stk'. split; [|split; assumption].
  reflexivity.
Qed.

Lemma index2value_ptr_top L :
  func (ci L) + 1 < top L ->
  index2value_ptr L (-1) = Some (P_stack (top L - 1)).
Proof.
  intros H. unfold index2value_ptr.
  change (0 <? -1) with false. change (ispseudo (-1)) with false.
  change (-1 =? 0) with false. cbn [negb andb]. change (- -1) with 1.
  destruct (Z.leb_spec 1 (top L - (func (ci L) + 1))); [|lia].
  cbn [negb]. do 2 f_equal.
Qed.

Lemma index2value_top L :
  func (ci L) + 1 < top L -> index2value L (-1) = slot L (top L - 1).
Proof.
  intros H. now rewrite index2value_deref, index2value_ptr_top.
Qed.

(** What the API reads after a push: the new value at index -1, the old
    values at their positive indices. *)
Lemma read_after_push L f stk' :
  wf_thread L -> top L < ci_top (ci L) ->
  s2v <$> stk' = alter f (Z.to_nat (top L)) (stack_values L) ->
  let L' := set_top (top L + 1) (set_stack stk' L) in
  lua_gettop L' = lua_gettop L + 1 /\
  (exists old, slot L (top L) = Some old /\ index2value L' (-1) = Some (f old)) /\
  (forall idx, 1 <= idx <= lua_gettop L -> index2value L' idx = index2value L idx).
Proof.
  intros (H0 & H1 & H2 & H3 & H4 & H5 & H6) Hroom Hs L'.
  split; [unfold lua_gettop; cbn; lia|]. split.
  - destruct (slot_is_Some L (top L)) as [old Ho]; [lia|].
    exists old. split; [exact Ho|].
    rewrite index2value_top by (unfold L'; cbn; lia).
    unfold L'. rewrite top_set_top. replace (top L + 1 - 1) with (top L) by lia.
    rewrite slot_values in *. destruct (Z.leb_spec 0 (top L)); [|lia].
    unfold stack_values at 1. cbn [stack set_top set_stack].
    rewrite Hs, list_lookup_alter_eq, Ho. reflexivity.
  - intros idx Hidx. unfold lua_gettop in Hidx. unfold index2value.
    destruct (Z.ltb_spec 0 idx); [|lia].
    unfold L'. rewrite top_set_top, ci_set_top, ci_set_stack.
    destruct (negb (idx <=? ci_top (ci L) - (func (ci L) + 1))); [reflexivity|].
    destruct (Z.leb_spec (top L + 1) (func (ci L) + idx)); [lia|].
    destruct (Z.leb_spec (top L) (func (ci L) + idx)); [lia|].
    rewrite !slot_values. destruct (Z.leb_spec 0 (func (ci L) + idx)); [|lia].
    unfold stack_values at 1. cbn [stack set_top set_stack].
    rewrite Hs, list_lookup_alter_ne by lia. reflexivity.
Qed.

End Pushes.

(** X19. A number pushed reads back unchanged: after lua_pushinteger the top
    is one higher, index -1 holds an integer that lua_tointegerx returns
    as it was pushed, and the values below keep their indices; likewise
    for a float with lua_pushnumber and lua_tonumberx. *)
Theorem push_number_reads_back (V : LVM) (L : lua_State) (i : Z) (x : lua_Number) :
  wf_thread L -> top L < ci_top (ci L) ->
  (exists L', lua_pushinteger L i = Some L' /\
     lua_gettop L' = lua_gettop L + 1 /\
     lua_tointegerx L' (-1) = Some (i, 1) /\
     lua_isinteger L' (-1) = Some true /\
     lua_type L' (-1) = Some LUA_TNUMBER /\
     forall idx, 1 <= idx <= lua_gettop L -> index2value L' idx = index2value L idx) /\
  (exists L', lua_pushnumber L x = Some L' /\
     lua_gettop L' = lua_gettop L + 1 /\
     lua_tonumberx L' (-1) = Some (x, 1) /\
     lua_isinteger L' (-1) = Some false /\
     lua_type L' (-1) = Some LUA_TNUMBER /\
     forall idx, 1 <= idx <= lua_gettop L -> index2value L' idx = index2value L idx).
Proof.
  intros Hwf Hroom. split.
  - destruct (push_spec L (fun o => setivalue o i) Hwf Hroom) as (stk' & Hp & Hs & Hd).
    destruct (read_after_push L _ stk' Hwf Hroom Hs) as (Hg & (old & Ho & Hr) & Hk).
    eexists. split; [exact Hp|]. split; [exact Hg|].
    assert (Hty : lua_type (set_top (top L + 1) (set_stack stk' L)) (-1)
                  = ttype <$> index2value (set_top (top L + 1) (set_stack stk' L)) (-1)).
    { rewrite index2value_deref. unfold lua_type.
      rewrite index2value_ptr_top by (destruct Hwf as (? & ? & ?); cbn; lia).
      reflexivity. }
    unfold lua_tointegerx, lua_isinteger. rewrite Hty, Hr.
    repeat split; try reflexivity. exact Hk.
  - destruct (push_spec L (fun o => setfltvalue o x) Hwf Hroom) as (stk' & Hp & Hs & Hd).
    destruct (read_after_push L _ stk' Hwf Hroom Hs) as (Hg & (old & Ho & Hr) & Hk).
    eexists. split; [exact Hp|]. split; [exact Hg|].
    assert (Hty : lua_type (set_top (top L + 1) (set_stack stk' L)) (-1)
                  = ttype <$> index2value (set_top (top L + 1) (set_stack stk' L)) (-1)).
    { rewrite index2value_deref. unfold lua_type.
      rewrite index2value_ptr_top by (destruct Hwf as (? & ? & ?); cbn; lia).
      reflexivity. }
    unfold lua_tonumberx, lua_isinteger. rewrite Hty, Hr.
    repeat split; try reflexivity. exact Hk.
Qed.

Lemma push_number_reads_back_witness :
  let V := {| luaV_tointeger := fun _ _ => None; luaV_tonumber_ := fun _ => None |} in
  let L := thread_with sample_global (mkTValue (V_i 7) LUA_VNUMINT) in
  exists L', lua_pushinteger L 42 = Some L' /\
     lua_gettop L' = lua_gettop L + 1 /\
     lua_tointegerx L' (-1) = Some (42, 1) /\
     lua_isinteger L' (-1) = Some true /\
     lua_type L' (-1) = Some LUA_TNUMBER /\
     forall idx, 1 <= idx <= lua_gettop L -> index2value L' idx = index2value L idx.
Proof.
  intros V L.
  refine (proj1 (push_number_reads_back V L 42 (S754_zero false) _ _)).
  - repeat split; vm_compute; (reflexivity || discriminate).
  - reflexivity.
Defined.

(** X20. lua_pushboolean normalizes its argument: any non-zero [b] is pushed
    as true and reads back as 1 with lua_toboolean, zero as false and 0;
    lua_pushnil pushes a value of type nil that lua_toboolean takes for
    false. In each case the top is one higher. *)
Theorem push_boolean_reads_back (L : lua_State) (b : Z) :
  wf_thread L -> top L < ci_top (ci L) ->
  (exists L', lua_pushboolean L b = Some L' /\
     lua_gettop L' = lua_gettop L + 1 /\
     lua_toboolean L' (-1) = Some (if b =? 0 then 0 else 1) /\
     lua_type L' (-1) = Some LUA_TBOOLEAN) /\
  (exists L', lua_pushnil L = Some L' /\
     lua_gettop L' = lua_gettop L + 1 /\
     lua_toboolean L' (-1) = Some 0 /\
     lua_type L' (-1) = Some LUA_TNIL).
Proof.
  intros Hwf Hroom.
  assert (Hty : forall stk', lua_type (set_top (top L + 1) (set_stack stk' L)) (-1)
                  = ttype <$> index2value (set_top (top L + 1) (set_stack stk' L)) (-1)).
  { intros stk'. rewrite index2value_deref. unfold lua_type.
    rewrite index2value_ptr_top by (destruct Hwf as (? & ? & ?); cbn; lia).
    reflexivity. }
  split.
  - unfold lua_pushboolean. destruct (Z.eqb_spec b 0) as [->|Hb]; cbn [negb].
    + destruct (push_spec L setbfvalue Hwf Hroom) as (stk' & Hp & Hs & Hd).
      destruct (read_after_push L _ stk' Hwf Hroom Hs) as (Hg & (old & Ho & Hr) & Hk).
      eexists. split; [exact Hp|]. split; [exact Hg|].
      unfold lua_toboolean. rewrite Hty, Hr. split; reflexivity.
    + destruct (push_spec L setbtvalue Hwf Hroom) as (stk' & Hp & Hs & Hd).
      destruct (read_after_push L _ stk' Hwf Hroom Hs) as (Hg & (old & Ho & Hr) & Hk).
      eexists. split; [exact Hp|]. split; [exact Hg|].
      unfold lua_toboolean. rewrite Hty, Hr. split; reflexivity.
  - destruct (push_spec L setnilvalue Hwf Hroom) as (stk' & Hp & Hs & Hd).
    destruct (read_after_push L _ stk' Hwf Hroom Hs) as (Hg & (old & Ho & Hr) & Hk).
    eexists. split; [exact Hp|]. split; [exact Hg|].
    unfold lua_toboolean. rewrite Hty, Hr. split; reflexivity.
Qed.

Lemma push_boolean_reads_back_witness :
  let L := thread_with sample_global (mkTValue (V_i 7) LUA_VNUMINT) in
  exists L', lua_pushboolean L 5 = Some L' /\
     lua_gettop L' = lua_gettop L + 1 /\
     lua_toboolean L' (-1) = Some (if 5 =? 0 then 0 else 1) /\
     lua_type L' (-1) = Some LUA_TBOOLEAN.
Proof.
  intros L. refine (proj1 (push_boolean_reads_back L 5 _ _)).
  - repeat split; vm_compute; (reflexivity || discriminate).
  - reflexivity.
Defined.

Section CopyProofs.

Context {G : LGC}.

Lemma index2value_ptr_stack L idx o :
  wf_thread L -> index2value_ptr L idx = Some (P_stack o) ->
  func (ci L) < o < top L /\ isupvalue idx = false.
Proof.
  intros (H0 & H1 & H2 & H3 & H4 & H5 & H6). unfold index2value_ptr, isupvalue.
  destruct (Z.ltb_spec 0 idx).
  - destruct (negb _); [discriminate|].
    destruct (Z.leb_spec (top L) (func (ci L) + idx)); [discriminate|].
    intros [= <-]. split; [lia|]. apply Z.ltb_ge. unfold LUA_REGISTRYINDEX.
    change (- (INT_MAX / 2 + 1000)) with (-1073742823). lia.
  - unfold ispseudo. destruct (Z.leb_spec idx LUA_REGISTRYINDEX); cbn [negb].
    + destruct (idx =? LUA_REGISTRYINDEX); [discriminate|].
      destruct (negb _); [discriminate|].
      destruct (slot L (func (ci L))) as [fn|]; [|discriminate].
      destruct (ttisCclosure fn).
      * destruct (value_ fn); try discriminate.
        destruct (cclosures (l_G L) !! p); [|discriminate].
        destruct (_ <=? _); discriminate.
      * destruct (negb _); discriminate.
    + destruct (Z.eqb_spec idx 0); cbn [negb andb]; [discriminate|].
      destruct (Z.leb_spec (- idx) (top L - (func (ci L) + 1))); cbn [negb]; [|discriminate].
      intros [= <-]. split; [lia|]. apply Z.ltb_ge. lia.
Qed.

Lemma index2value_ptr_stack_stable L idx o stk :
  index2value_ptr L idx = Some (P_stack o) ->
  index2value_ptr (set_stack stk L) idx = Some (P_stack o).
Proof.
  unfold index2value_ptr. rewrite ci_set_stack, top_set_stack.
  destruct (0 <? idx); [exact id|].
  destruct (negb (ispseudo idx)); [exact id|].
  destruct (idx =? LUA_REGISTRYINDEX); [discriminate|].
  destruct (negb _); [discriminate|].
  destruct (slot L (func (ci L))) as [fn|]; [|discriminate].
  destruct (ttisCclosure fn).
  - destruct (value_ fn); try discriminate.
    destruct (cclosures (l_G L) !! p); [|discriminate].
    destruct (_ <=? _); discriminate.
  - destruct (negb _); discriminate.
Qed.

End CopyProofs.

(** X21. lua_copy onto a valid stack index stores the value of the source
    index in that slot and changes nothing else: the other slots, the
    top, the [delta] fields and the rest of the state are as before, and
    the target index now reads as the source did. *)
Theorem lua_copy_to_stack (G : LGC) (L : lua_State) (fromidx toidx o : Z)
    (v : TValue) :
  wf_thread L -> index2value_ptr L toidx = Some (P_stack o) ->
  index2value L fromidx = Some v ->
  exists stk', lua_copy L fromidx toidx = Some (set_stack stk' L) /\
    s2v <$> stk' = <[Z.to_nat o := v]> (stack_values L) /\
    delta <$> stk' = stack_deltas L /\
    index2value (set_stack stk' L) toidx = Some v.
Proof.
  intros Hwf Hto Hfrom.
  destruct (index2value_ptr_stack L toidx o Hwf Hto) as [Ho Hup].
  pose proof Hwf as (H0 & H1 & H2 & H3 & H4 & H5 & H6).
  unfold lua_copy. rewrite index2value_deref in Hfrom.
  destruct (index2value_ptr L fromidx) as [fr|]; [|discriminate].
  cbn [mbind option_bind] in Hfrom. rewrite Hto, Hfrom. cbn [isvalid negb setobj_at].
  destruct (set_slot_spec L o (fun old => setobj old v)) as (stk' & -> & Hs & Hd); [lia|].
  rewrite Hup. exists stk'. split; [reflexivity|].
  assert (Hs' : s2v <$> stk' = <[Z.to_nat o := v]> (stack_values L)).
  { rewrite Hs, list_insert_alter. apply list_alter_ext; [|reflexivity].
    intros x _. apply setobj_eq. }
  split; [exact Hs'|]. split; [exact Hd|].
  rewrite index2value_deref.
  assert (Hptr : index2value_ptr (set_stack stk' L) toidx = Some (P_stack o))
    by (apply index2value_ptr_stack_stable, Hto).
  rewrite Hptr. cbn [mbind option_bind deref]. rewrite slot_values.
  destruct (Z.leb_spec 0 o); [|lia].
  rewrite stack_values_set_stack, Hs'. apply list_lookup_insert_eq.
  rewrite length_stack_values. lia.
Qed.

Lemma lua_copy_to_stack_witness :
  let G := {| luaC_barrier := fun L _ _ => L |} in
  let L := set_top 3 (thread_with sample_global (mkTValue (V_i 7) LUA_VNUMINT)) in
  exists stk', lua_copy L 1 2 = Some (set_stack stk' L) /\
    s2v <$> stk' = <[Z.to_nat 2 := mkTValue (V_i 7) LUA_VNUMINT]> (stack_values L) /\
    delta <$> stk' = stack_deltas L /\
    index2value (set_stack stk' L) 2 = Some (mkTValue (V_i 7) LUA_VNUMINT).
Proof.
  intros G L.
  apply (lua_copy_to_stack G L 1 2 2 (mkTValue (V_i 7) LUA_VNUMINT)).
  - repeat split; vm_compute; (reflexivity || discriminate).
  - reflexivity.
  - reflexivity.
Defined.

(** ** lua_stringtonumber *)

Section StringToNumber.

Lemma alter_same {A} (f : A -> A) (l : list A) i :
  (forall x, l !! i = Some x -> f x = x) -> alter f i l = l.
Proof.
  revert i. induction l as [|a l IH]; intros [|i] H; cbn; try reflexivity.
  - f_equal. apply H. reflexivity.
  - f_equal. apply IH. exact H.
Qed.

End StringToNumber.

(** X22. lua_stringtonumber pushes a number exactly when the conversion
    succeeds: on a string without embedded zeros it either returns 0 and
    leaves the state as it was, or returns the length of the string plus
    one with the top one higher and a number at index -1. *)
Theorem lua_stringtonumber_pushes (C : LibC) (L : lua_State) (s : string) :
  wf_thread L -> top L < ci_top (ci L) ->
  nul_free s -> code lua_getlocaledecpoint <> 0 ->
  exists L' sz, lua_stringtonumber L s = Some (L', sz) /\
    ((sz = 0 /\ L' = L) \/
     (sz = Z.of_nat (String.length s) + 1 /\ lua_gettop L' = lua_gettop L + 1 /\
      exists v, index2value L' (-1) = Some v /\ ttisnumber v = true)).
Proof.
  intros Hwf Hroom Hs Hdp.
  pose proof Hwf as (H0 & H1 & H2 & H3 & H4 & H5 & H6).
  unfold lua_stringtonumber.
  destruct (slot_is_Some L (top L)) as [o Ho]; [lia|]. rewrite Ho.
  destruct (luaO_str2num_cases C s o Hs Hdp) as [E|(v & E & Hv)]; rewrite E.
  - destruct (set_slot_spec L (top L) (fun _ => o)) as (stk' & -> & Hsv & Hd); [lia|].
    cbn [Z.eqb negb]. eexists _, _. split; [reflexivity|]. left. split; [reflexivity|].
    rewrite <- (set_stack_same L) at 2. f_equal.
    apply stack_ext; [|exact Hd].
    rewrite Hsv. apply alter_same. intros x Hx.
    rewrite slot_values in Ho. rewrite (proj2 (Z.leb_le 0 (top L))) in Ho by lia.
    cbn beta. unfold stack_values in *. congruence.
  - destruct (push_spec L (fun _ => v) Hwf Hroom) as (stk' & Hp & Hsv & Hd).
    unfold push in Hp.
    destruct (set_slot L (top L) (fun _ => v)) as [L1|]; [|discriminate].
    destruct (Z.eqb_spec (Z.of_nat (String.length s) + 1) 0); [lia|]. cbn [negb].
    rewrite Hp. cbn [fmap option_fmap option_map].
    eexists _, _. split; [reflexivity|]. right. split; [reflexivity|].
    destruct (read_after_push L _ stk' Hwf Hroom Hsv) as (Hg & (old & Hold & Hr) & _).
    split; [exact Hg|]. exists v. split; [exact Hr|exact Hv].
Qed.

Lemma lua_stringtonumber_pushes_witness :
  let L := thread_with sample_global (mkTValue (V_i 7) LUA_VNUMINT) in
  exists L' sz, @lua_stringtonumber no_libc L "0x10" = Some (L', sz) /\
    ((sz = 0 /\ L' = L) \/
     (sz = Z.of_nat (String.length "0x10") + 1 /\ lua_gettop L' = lua_gettop L + 1 /\
      exists v, index2value L' (-1) = Some v /\ ttisnumber v = true)).
Proof.
  intros L. apply (lua_stringtonumber_pushes no_libc L "0x10").
  - repeat split; vm_compute; (reflexivity || discriminate).
  - reflexivity.
  - unfold nul_free. cbn. repeat constructor; vm_compute; discriminate.
  - vm_compute. discriminate.
Defined.

(** ** lua_gc, lua_checkstack and the C-call counter *)

Section GcProofs.

Context {K : LCollector}.

Lemma cast_int_small z : - 2 ^ 31 <= z < 2 ^ 31 -> cast_int z = z.
Proof.
  intros H. unfold cast_int. change (2 ^ 31) with 2147483648 in *.
  change (2 ^ 32) with 4294967296. rewrite Z.mod_small; lia.
Qed.

Lemma not_stopped L :
  Z.land (gcstp (l_G L)) 6 = 0 ->
  negb (Z.land (gcstp (l_G L)) (Z.lor GCSTPGC GCSTPCLS) =? 0) = false.
Proof.
  intros H. change (Z.lor GCSTPGC GCSTPCLS) with 6. rewrite H. reflexivity.
Qed.

End GcProofs.

(** X23. The two memory counts of lua_gc add up: with the collector not
    stopped internally and less than 2^41 bytes in use, LUA_GCCOUNT
    returns the Kbytes and LUA_GCCOUNTB the remaining bytes of the total,
    and neither changes the state. *)
Theorem lua_gc_count_bytes (K : LCollector) (L : lua_State) :
  Z.land (gcstp (l_G L)) 6 = 0 ->
  0 <= gettotalbytes (l_G L) < 2 ^ 41 ->
  exists k b, lua_gc L LUA_GCCOUNT [] = Some (L, k) /\
    lua_gc L LUA_GCCOUNTB [] = Some (L, b) /\
    0 <= b < 1024 /\ k * 1024 + b = gettotalbytes (l_G L).
Proof.
  intros Hstp Htb. unfold lua_gc. rewrite (not_stopped L Hstp).
  cbn [Z.eqb LUA_GCCOUNT LUA_GCCOUNTB LUA_GCSTOP LUA_GCRESTART LUA_GCCOLLECT].
  change (3 =? 0) with false. change (3 =? 1) with false. change (3 =? 2) with false.
  change (3 =? 3) with true. change (4 =? 0) with false. change (4 =? 1) with false.
  change (4 =? 2) with false. change (4 =? 3) with false. change (4 =? 4) with true.
  cbn iota.
  set (tb := gettotalbytes (l_G L)) in *.
  change (2 ^ 41) with 2199023255552 in Htb.
  rewrite Z.shiftr_div_pow2 by lia. change 1023 with (Z.ones 10).
  rewrite Z.land_ones by lia. change (2 ^ 10) with 1024.
  assert (Hk : 0 <= tb / 1024 < 2147483648) by (Z.div_mod_to_equations; lia).
  assert (Hb : 0 <= tb mod 1024 < 1024) by (apply Z.mod_pos_bound; lia).
  rewrite !cast_int_small by (change (2 ^ 31) with 2147483648; lia).
  eexists _, _. split; [reflexivity|]. split; [reflexivity|].
  split; [exact Hb|]. Z.div_mod_to_equations. lia.
Qed.

Lemma lua_gc_count_bytes_witness :
  let K := {| luaC_fullgc := fun L _ => L; luaC_step := fun L => L;
              luaC_changemode := fun L _ => L |} in
  let L := stack_init sample_global in
  exists k b, lua_gc L LUA_GCCOUNT [] = Some (L, k) /\
    lua_gc L LUA_GCCOUNTB [] = Some (L, b) /\
    0 <= b < 1024 /\ k * 1024 + b = gettotalbytes (l_G L).
Proof.
  intros K L. apply (lua_gc_count_bytes K L).
  - reflexivity.
  - vm_compute. split; [discriminate|reflexivity].
Defined.

(** X24. Stopping and restarting the collector through lua_gc: after
    LUA_GCSTOP, LUA_GCISRUNNING answers 0; after LUA_GCRESTART it answers
    1, the debt is zero and the number of bytes in use is what it was.
    The stack, its top and the current call frame are as before. *)
Theorem lua_gc_stop_restart (K : LCollector) (L : lua_State) :
  Z.land (gcstp (l_G L)) 6 = 0 -> 0 <= gettotalbytes (l_G L) ->
  exists L1 L2, lua_gc L LUA_GCSTOP [] = Some (L1, 0) /\
    lua_gc L1 LUA_GCISRUNNING [] = Some (L1, 0) /\
    lua_gc L1 LUA_GCRESTART [] = Some (L2, 0) /\
    lua_gc L2 LUA_GCISRUNNING [] = Some (L2, 1) /\
    GCdebt (l_G L2) = 0 /\
    gettotalbytes (l_G L2) = gettotalbytes (l_G L) /\
    stack L2 = stack L /\ top L2 = top L /\ ci L2 = ci L.
Proof.
  intros Hstp Hpos. unfold lua_gc at 1. rewrite (not_stopped L Hstp).
  change (LUA_GCSTOP =? LUA_GCSTOP) with true. cbn iota.
  eexists _, _. split; [reflexivity|].
  split; [reflexivity|]. split; [reflexivity|].
  split; [reflexivity|].
  assert (Hd : forall g, 0 <= gettotalbytes g ->
             GCdebt (set_gcstp 0 (luaE_setdebt g 0)) = 0 /\
             GCtotalbytes (set_gcstp 0 (luaE_setdebt g 0)) = gettotalbytes g).
  { intros g Hg. unfold luaE_setdebt.
    cbn [set_gcstp GCdebt GCtotalbytes set_GCdebt set_GCtotalbytes].
    pose proof (wrap_lmem_range (GCtotalbytes g - GCdebt g)) as Hr.
    fold (gettotalbytes g) in Hr.
    set (tb := gettotalbytes g) in *.
    assert (Hm : wrap_lmem (MAX_LMEM - tb) = MAX_LMEM - tb).
    { apply wrap_lmem_small. unfold MIN_LMEM, MAX_LMEM in *. rewrite pow2_63 in *. lia. }
    rewrite Hm.
    destruct (Z.ltb_spec (MAX_LMEM - tb) 0); [lia|].
    split; [reflexivity|].
    rewrite Z.add_0_r. apply wrap_lmem_small. exact Hr. }
  cbn [l_G set_l_G].
  destruct (Hd (set_gcstp GCSTPUSR (l_G L)) Hpos) as [Hd1 Hd2].
  split; [exact Hd1|]. split.
  - unfold gettotalbytes at 1. rewrite Hd1, Hd2, Z.sub_0_r.
    unfold gettotalbytes. cbn. apply wrap_lmem_idem.
  - split; [reflexivity|]. split; reflexivity.
Qed.

Lemma lua_gc_stop_restart_witness :
  let K := {| luaC_fullgc := fun L _ => L; luaC_step := fun L => L;
              luaC_changemode := fun L _ => L |} in
  let L := stack_init sample_global in
  exists L1 L2, lua_gc L LUA_GCSTOP [] = Some (L1, 0) /\
    lua_gc L1 LUA_GCISRUNNING [] = Some (L1, 0) /\
    lua_gc L1 LUA_GCRESTART [] = Some (L2, 0) /\
    lua_gc L2 LUA_GCISRUNNING [] = Some (L2, 1) /\
    GCdebt (l_G L2) = 0 /\
    gettotalbytes (l_G L2) = gettotalbytes (l_G L) /\
    stack L2 = stack L /\ top L2 = top L /\ ci L2 = ci L.
Proof.
  intros K L. apply (lua_gc_stop_restart K L); [reflexivity|vm_compute; discriminate].
Defined.

(** X25. A collector parameter set through lua_gc reads back as about the
    value set: after LUA_GCPARAM with a value v below the limit of the
    encoding, asking again returns r with r <= v < 17 (r + 1) / 16, and
    the other parameters are as before. *)
Theorem lua_gc_param_reads_back (K : LCollector) (L : lua_State) (param v : Z) :
  Z.land (gcstp (l_G L)) 6 = 0 ->
  0 <= param < Z.of_nat (length (gcparams (l_G L))) -> param < LUA_GCPN ->
  0 <= v < 396800 ->
  exists L1 old r, lua_gc L LUA_GCPARAM [param; v] = Some (L1, old) /\
    lua_gc L1 LUA_GCPARAM [param; -1] = Some (L1, r) /\
    r <= v /\ 16 * v < 17 * (r + 1) /\
    forall q, q <> Z.to_nat param ->
      gcparams (l_G L1) !! q = gcparams (l_G L) !! q.
Proof.
  intros Hstp Hparam Hpn Hv.
  destruct (applyparam_codeparam_bounds v 100 Hv) as (b & Hb & Hb255 & Hup & Hlo);
    [vm_compute; split; [discriminate|reflexivity]|].
  assert (Hr : 0 <= luaO_applyparam b 100 <= v) by lia.
  unfold lua_gc at 1. rewrite (not_stopped L Hstp).
  change (LUA_GCPARAM =? LUA_GCSTOP) with false.
  change (LUA_GCPARAM =? LUA_GCRESTART) with false.
  change (LUA_GCPARAM =? LUA_GCCOLLECT) with false.
  change (LUA_GCPARAM =? LUA_GCCOUNT) with false.
  change (LUA_GCPARAM =? LUA_GCCOUNTB) with false.
  change (LUA_GCPARAM =? LUA_GCSTEP) with false.
  change (LUA_GCPARAM =? LUA_GCISRUNNING) with false.
  change (LUA_GCPARAM =? LUA_GCGEN) with false.
  change (LUA_GCPARAM =? LUA_GCINC) with false.
  change (LUA_GCPARAM =? LUA_GCPARAM) with true. cbn iota.
  destruct (Z.leb_spec 0 param); [|lia].
  destruct (Z.ltb_spec param LUA_GCPN); [|lia]. cbn [andb negb].
  destruct (lookup_lt_is_Some_2 (gcparams (l_G L)) (Z.to_nat param)) as [p0 Hp0]; [lia|].
  rewrite Hp0.
  destruct (Z.leb_spec 0 v); [|lia].
  assert (Hcu : cast_uint v = v).
  { unfold cast_uint. change (2 ^ 32) with 4294967296. apply Z.mod_small. lia. }
  rewrite Hcu, Hb.
  eexists _, _, _. split; [reflexivity|].
  set (L1 := set_l_G _ L).
  assert (Hstp1 : Z.land (gcstp (l_G L1)) 6 = 0) by exact Hstp.
  unfold lua_gc. rewrite (not_stopped L1 Hstp1).
  change (LUA_GCPARAM =? LUA_GCSTOP) with false.
  change (LUA_GCPARAM =? LUA_GCRESTART) with false.
  change (LUA_GCPARAM =? LUA_GCCOLLECT) with false.
  change (LUA_GCPARAM =? LUA_GCCOUNT) with false.
  change (LUA_GCPARAM =? LUA_GCCOUNTB) with false.
  change (LUA_GCPARAM =? LUA_GCSTEP) with false.
  change (LUA_GCPARAM =? LUA_GCISRUNNING) with false.
  change (LUA_GCPARAM =? LUA_GCGEN) with false.
  change (LUA_GCPARAM =? LUA_GCINC) with false.
  change (LUA_GCPARAM =? LUA_GCPARAM) with true. cbn iota.
  destruct (Z.leb_spec 0 param); [|lia].
  destruct (Z.ltb_spec param LUA_GCPN); [|lia]. cbn [andb negb].
  assert (Hl1 : gcparams (l_G L1) = <[Z.to_nat param := b]> (gcparams (l_G L)))
    by reflexivity.
  rewrite Hl1, list_lookup_insert_eq by lia.
  change (0 <=? -1) with false. cbn iota.
  rewrite cast_int_small by (change (2 ^ 31) with 2147483648; lia).
  split; [reflexivity|]. split; [lia|]. split; [lia|].
  intros q Hq. apply list_lookup_insert_ne. lia.
Qed.

Lemma lua_gc_param_reads_back_witness :
  let K := {| luaC_fullgc := fun L _ => L; luaC_step := fun L => L;
              luaC_changemode := fun L _ => L |} in
  let L := set_l_G (set_gcparams [0; 0; 0; 0; 0; 0] sample_global)
             (stack_init sample_global) in
  exists L1 old r, lua_gc L LUA_GCPARAM [3; 250] = Some (L1, old) /\
    lua_gc L1 LUA_GCPARAM [3; -1] = Some (L1, r) /\
    r <= 250 /\ 16 * 250 < 17 * (r + 1) /\
    forall q, q <> Z.to_nat 3 ->
      gcparams (l_G L1) !! q = gcparams (l_G L) !! q.
Proof.
  intros K L. apply (lua_gc_param_reads_back K L 3 250).
  - reflexivity.
  - vm_compute. split; [discriminate|reflexivity].
  - reflexivity.
  - lia.
Defined.

Section CheckStack.

Context {D : LDo}.

Lemma push_nils_ok k : forall L,
  wf_thread L -> top L + Z.of_nat k <= ci_top (ci L) ->
  exists L', push_nils k L = Some L' /\ wf_thread L' /\
    top L' = top L + Z.of_nat k /\ ci L' = ci L /\
    lua_gettop L' = lua_gettop L + Z.of_nat k.
Proof.
  induction k as [|k IH]; intros L Hwf Hroom.
  - exists L. split; [reflexivity|]. split; [exact Hwf|].
    unfold lua_gettop. repeat split; lia.
  - cbn [push_nils]. unfold lua_pushnil.
    destruct (push_spec L setnilvalue Hwf) as (stk' & -> & Hs & Hd); [lia|].
    pose proof (length_same_values stk' L Hd) as Hl.
    destruct (IH (set_top (top L + 1) (set_stack stk' L))) as (L' & H1 & H2 & H3 & H4 & H5).
    + destruct Hwf as (H0 & H1 & H2 & H3 & H4 & H5 & H6).
      unfold wf_thread. cbn. rewrite Hl. lia.
    + cbn. lia.
    + exists L'. split; [exact H1|]. split; [exact H2|].
      cbn in H3, H4. unfold lua_gettop in *. cbn in H5.
      repeat split; try lia. exact H4.
Qed.

End CheckStack.

(** X26. What lua_checkstack promises: when the stack has more than n free
    slots it returns 1 without growing it, leaves the stack and its top
    alone, and raises the top of the frame so that n pushes are then
    accepted. *)
Theorem lua_checkstack_makes_room (D : LDo) (L : lua_State) (n : Z) :
  wf_thread L -> 0 <= n < stack_last L - top L ->
  exists L1 L2, lua_checkstack L n = Some (L1, 1) /\
    stack L1 = stack L /\ top L1 = top L /\
    ci_top (ci L1) = Z.max (ci_top (ci L)) (top L + n) /\
    wf_thread L1 /\
    push_nils (Z.to_nat n) L1 = Some L2 /\
    lua_gettop L2 = lua_gettop L + n.
Proof.
  intros Hwf Hn. pose proof Hwf as (H0 & H1 & H2 & H3 & H4 & H5 & H6).
  unfold lua_checkstack.
  destruct (Z.leb_spec 0 n); [|lia]. cbn [negb].
  destruct (Z.ltb_spec n (stack_last L - top L)); [|lia].
  change (1 =? 0) with false. cbn [negb andb].
  destruct (Z.ltb_spec (ci_top (ci L)) (top L + n)) as [Hlt|Hge].
  - set (L1 := set_ci _ L).
    assert (Hwf1 : wf_thread L1) by (unfold wf_thread, L1; cbn; lia).
    destruct (push_nils_ok (Z.to_nat n) L1 Hwf1) as (L2 & Hp & _ & _ & _ & Hg);
      [unfold L1; cbn; lia|].
    exists L1, L2. split; [reflexivity|]. split; [reflexivity|]. split; [reflexivity|].
    split; [unfold L1; cbn; lia|]. split; [exact Hwf1|]. split; [exact Hp|].
    rewrite Hg. unfold lua_gettop, L1. cbn. lia.
  - destruct (push_nils_ok (Z.to_nat n) L Hwf) as (L2 & Hp & _ & _ & _ & Hg); [lia|].
    exists L, L2. split; [reflexivity|]. split; [reflexivity|]. split; [reflexivity|].
    split; [lia|]. split; [exact Hwf|]. split; [exact Hp|]. lia.
Qed.

Lemma lua_checkstack_makes_room_witness :
  let D := {| luaD_growstack := fun L _ _ => (L, 0) |} in
  let L := stack_init sample_global in
  exists L1 L2, lua_checkstack L 30 = Some (L1, 1) /\
    stack L1 = stack L /\ top L1 = top L /\
    ci_top (ci L1) = Z.max (ci_top (ci L)) (top L + 30) /\
    wf_thread L1 /\
    push_nils (Z.to_nat 30) L1 = Some L2 /\
    lua_gettop L2 = lua_gettop L + 30.
Proof.
  intros D L. apply (lua_checkstack_makes_room D L 30).
  - repeat split; vm_compute; (reflexivity || discriminate).
  - vm_compute. split; [discriminate|reflexivity].
Defined.

Section CCalls.

Lemma land_low16 z : 0 <= z -> Z.land z 65535 = z mod 65536.
Proof. intros H. change 65535 with (Z.ones 16). now rewrite Z.land_ones by lia. Qed.

Lemma land_high16 z :
  0 <= z < 2 ^ 32 -> Z.land z 4294901760 = 65536 * (z / 65536).
Proof.
  intros H. change 4294901760 with (Z.shiftl (Z.ones 16) 16).
  apply Z.bits_inj'. intros k Hk.
  rewrite Z.land_spec, Z.shiftl_spec by lia.
  destruct (Z_lt_le_dec k 16) as [Hlt|Hge].
  - rewrite (Z.testbit_neg_r (Z.ones 16) (k - 16)) by lia.
    rewrite andb_false_r. rewrite Z.mul_comm.
    change 65536 with (2 ^ 16). rewrite Z.mul_pow2_bits_low by lia. reflexivity.
  - change 65536 with (2 ^ 16). rewrite Z.mul_comm, Z.mul_pow2_bits by lia.
    rewrite Z.div_pow2_bits by lia.
    replace (k - 16 + 16) with k by lia.
    destruct (Z_lt_le_dec k 32) as [Hlt|Hge32].
    + rewrite Z.ones_spec_low by lia. apply andb_true_r.
    + rewrite Z.ones_spec_high by lia. rewrite andb_false_r.
      symmetry. apply Z.bits_above_log2; [lia|].
      destruct (Z.eq_dec z 0) as [->|]; [cbn; lia|].
      apply Z.log2_lt_pow2; [lia|].
      apply Z.lt_le_trans with (2 ^ 32); [lia|].
      apply Z.pow_le_mono_r; lia.
Qed.

End CCalls.

(** X27. luaE_incCstack keeps the count of C calls in bounds: from a count
    below 220 it adds one, and returns only if the new count is neither
    LUAI_MAXCCALLS (200, "C stack overflow") nor 220 (an error while
    handling that overflow); the count of non-yieldable calls in the
    upper half of [nCcalls] is untouched. *)
Theorem luaE_incCstack_bounded (L : lua_State) :
  0 <= nCcalls L < 2 ^ 32 -> getCcalls L < 220 ->
  match luaE_incCstack L with
  | Ret L' =>
      getCcalls L' = getCcalls L + 1 /\ getCcalls L' <> 200 /\ getCcalls L' < 220 /\
      yieldable L' = yieldable L /\ L' = set_nCcalls (nCcalls L + 1) L
  | Raise _ => getCcalls L + 1 = 200 \/ getCcalls L + 1 = 220
  end.
Proof.
  intros Hn Hc.
  change (2 ^ 32) with 4294967296 in Hn.
  assert (Hg : getCcalls L = nCcalls L mod 65536)
    by (unfold getCcalls; apply land_low16; lia).
  set (L1 := set_nCcalls (nCcalls L + 1) L).
  assert (Hg1 : getCcalls L1 = getCcalls L + 1).
  { unfold getCcalls at 1. unfold L1. cbn [nCcalls set_nCcalls].
    rewrite land_low16, Hg by lia. Z.div_mod_to_equations. lia. }
  assert (Hy1 : yieldable L1 = yieldable L).
  { unfold yieldable, L1. cbn [nCcalls set_nCcalls].
    rewrite !land_high16 by (change (2 ^ 32) with 4294967296; Z.div_mod_to_equations; lia).
    replace ((nCcalls L + 1) / 65536) with (nCcalls L / 65536)
      by (rewrite Hg in Hc; Z.div_mod_to_equations; lia).
    reflexivity. }
  assert (Hw : wrap32 (nCcalls L + 1) = nCcalls L + 1).
  { unfold wrap32. change (2 ^ 32) with 4294967296.
    apply Z.mod_small. Z.div_mod_to_equations. lia. }
  unfold luaE_incCstack, luaE_checkcstack. rewrite Hw. fold L1. rewrite Hg1.
  change LUAI_MAXCCALLS with 200. change (200 / 10 * 11) with 220.
  destruct (Z.leb_spec 200 (getCcalls L + 1)).
  - destruct (Z.eqb_spec (getCcalls L + 1) 200); [left; assumption|].
    destruct (Z.leb_spec 220 (getCcalls L + 1)); [right; lia|].
    rewrite Hg1. repeat split; auto; lia.
  - rewrite Hg1. repeat split; auto; lia.
Qed.

Lemma luaE_incCstack_bounded_witness :
  let L := set_nCcalls 198 (stack_init sample_global) in
  match luaE_incCstack L with
  | Ret L' =>
      getCcalls L' = getCcalls L + 1 /\ getCcalls L' <> 200 /\ getCcalls L' < 220 /\
      yieldable L' = yieldable L /\ L' = set_nCcalls (nCcalls L + 1) L
  | Raise _ => getCcalls L + 1 = 200 \/ getCcalls L + 1 = 220
  end.
Proof.
  intros L. apply (luaE_incCstack_bounded L); vm_compute; try split; (discriminate || reflexivity).
Defined.

(** ** The list of CallInfo objects *)

Section CallInfoProofs.

Lemma chain_frame h h' l : forall p prev,
  chain h p prev l -> (forall a, a ∈ l -> h' !! a = h !! a) -> chain h' p prev l.
Proof.
  induction l as [|a l IH]; intros p prev Hc Hf; [exact Hc|].
  destruct Hc as (-> & Hn & Hni & c & Hc & Hp & Hrest).
  cbn [chain]. split; [reflexivity|]. split; [exact Hn|]. split; [exact Hni|].
  exists c. split; [rewrite Hf by (left); exact Hc|]. split; [exact Hp|].
  apply IH; [exact Hrest|]. intros b Hb. apply Hf. now right.
Qed.

Lemma list_pair_ind {A} (P : list A -> Prop) :
  P [] -> (forall a, P [a]) -> (forall a b l, P l -> P (a :: b :: l)) ->
  forall l, P l.
Proof.
  intros H0 H1 H2 l.
  enough (P l /\ forall a, P (a :: l)) as [? _] by assumption.
  induction l as [|b l [IH1 IH2]].
  - split; [exact H0 | exact H1].
  - split; [apply IH2|]. intros a. apply H2, IH1.
Qed.

Lemma alternate_subset {A} (l : list A) x : x ∈ alternate l -> x ∈ l.
Proof.
  induction l as [|a|a b l IH] using list_pair_ind; cbn [alternate];
    try exact id.
  intros Hx. apply elem_of_cons in Hx. destruct Hx as [->|Hx]; [left|].
  right. right. apply IH, Hx.
Qed.

Lemma length_alternate {A} (l : list A) :
  Z.of_nat (length (alternate l)) = Z.of_nat (length l) - Z.of_nat (length l) / 2.
Proof.
  induction l as [|a|a b l IH] using list_pair_ind; cbn [alternate];
    [reflexivity|reflexivity|].
  cbn [length]. rewrite !Nat2Z.inj_succ, IH.
  Z.div_mod_to_equations. lia.
Qed.

Lemma chain_lookup h l : forall p prev a,
  chain h p prev l -> a ∈ l -> is_Some (h !! a).
Proof.
  induction l as [|b l IH]; intros p prev a Hc Ha.
  - inversion Ha.
  - destruct Hc as (-> & _ & _ & c & Hc & _ & Hrest).
    apply elem_of_cons in Ha. destruct Ha as [->|Ha]; [eauto|].
    eapply IH; eassumption.
Qed.

Lemma chain_NoDup h l : forall p prev, chain h p prev l -> NoDup l.
Proof.
  induction l as [|b l IH]; intros p prev Hc; [constructor|].
  destruct Hc as (-> & _ & Hni & c & _ & _ & Hrest).
  constructor; [exact Hni | eapply IH, Hrest].
Qed.

Lemma chain_length h l p prev :
  chain h p prev l -> (length l <= base.size h)%nat.
Proof.
  intros Hc.
  rewrite <- (size_list_to_set (C := gset Z) l) by (eapply chain_NoDup, Hc).
  rewrite <- (size_dom (D := gset Z) h).
  apply subseteq_size. intros a Ha. apply elem_of_list_to_set in Ha.
  apply elem_of_dom. eapply chain_lookup; eassumption.
Qed.

Lemma chain_not_null h l p prev : chain h p prev l -> NULL ∉ l.
Proof.
  revert p prev. induction l as [|b l IH]; intros p prev Hc Hin;
    [inversion Hin|].
  destruct Hc as (-> & Hn & _ & c & _ & _ & Hrest).
  apply elem_of_cons in Hin. destruct Hin as [E|Hin]; [congruence|].
  eapply IH; eassumption.
Qed.

Lemma shrinkCI_loop_spec : forall rest fuel st ci prev,
  chain (heap st) ci prev (ci :: rest) ->
  (length rest < fuel)%nat ->
  INT_MIN <= L_nci st - Z.of_nat (length rest) ->
  exists st', shrinkCI_loop fuel st ci = Some st' /\
    chain (heap st') ci prev (alternate (ci :: rest)) /\
    L_nci st' = L_nci st - Z.of_nat (length (ci :: rest)) / 2 /\
    L_ci st' = L_ci st /\
    (forall a, a ∉ ci :: rest -> heap st' !! a = heap st !! a) /\
    (forall a, a ∈ ci :: rest -> a ∉ alternate (ci :: rest) ->
               heap st' !! a = None).
Proof.
  induction rest as [|n|n n2 rest IH] using list_pair_ind;
    intros fuel st ci prev Hc Hf Hnci.
  - destruct fuel as [|fuel]; [cbn in Hf; lia|].
    destruct Hc as (_ & Hn & Hni & c & Hc & Hp & Hrest). cbn in Hrest.
    exists st. cbn [shrinkCI_loop]. rewrite Hc, Hrest. cbn.
    split; [reflexivity|]. split.
    { repeat split; try assumption. exists c. now rewrite Hrest. }
    split; [cbn [length]; change (Z.of_nat 1 / 2) with 0; lia|].
    split; [reflexivity|]. split; [reflexivity|].
    intros a Ha Hna. contradiction.
  - destruct fuel as [|fuel]; [cbn in Hf; lia|].
    destruct Hc as (_ & Hn & Hni & c & Hc & Hp & Hrest).
    destruct Hrest as (En & Hnn & _ & cn & Hcn & Hpn & Hend). cbn in Hend.
    assert (Hne : ci <> n) by (intros ->; apply Hni; left).
    cbn [shrinkCI_loop]. rewrite Hc. rewrite En.
    rewrite (proj2 (Z.eqb_neq n NULL) Hnn). rewrite Hcn.
    unfold int_decr. cbn [length] in Hnci.
    rewrite (proj2 (Z.leb_le _ _)) by lia.
    rewrite Hend. cbn [Z.eqb NULL].
    eexists. split; [reflexivity|]. cbn [heap L_nci L_ci alternate].
    split.
    { split; [reflexivity|]. split; [exact Hn|]. split; [inversion 1|].
      exists (set_next 0 c). split.
      - rewrite lookup_delete_ne by congruence. apply lookup_insert_eq.
      - split; [exact Hp | reflexivity]. }
    split; [reflexivity|]. split; [reflexivity|]. split.
    { intros a Ha. rewrite lookup_delete_ne, lookup_insert_ne; [reflexivity| |];
        intros ->; apply Ha; [left | right; left]. }
    intros a Ha Hna. apply elem_of_cons in Ha. destruct Ha as [->|Ha];
      [exfalso; apply Hna; left|].
    apply elem_of_cons in Ha. destruct Ha as [->|Ha]; [|inversion Ha].
    apply lookup_delete_eq.
  - destruct fuel as [|fuel]; [cbn in Hf; lia|].
    destruct Hc as (_ & Hn & Hni & c & Hc & Hp & Hrest).
    destruct Hrest as (En & Hnn & Hnni & cn & Hcn & Hpn & Hrest2).
    pose proof Hrest2 as Hrest2'.
    destruct Hrest2 as (En2 & Hn2n & Hn2ni & cn2 & Hcn2 & Hpn2 & Hrest3).
    assert (Hne : ci <> n) by (intros ->; apply Hni; left).
    assert (Hne2 : ci <> n2) by (intros ->; apply Hni; right; left).
    assert (Hne3 : n <> n2) by (intros ->; apply Hnni; left).
    cbn [shrinkCI_loop]. rewrite Hc. rewrite En.
    rewrite (proj2 (Z.eqb_neq n NULL) Hnn). rewrite Hcn.
    unfold int_decr. cbn [length] in Hnci.
    rewrite (proj2 (Z.leb_le _ _)) by lia.
    rewrite En2. rewrite (proj2 (Z.eqb_neq n2 NULL) Hn2n).
    cbn [heap L_ci L_nci].
    rewrite lookup_delete_ne, lookup_insert_ne, Hcn2 by congruence.
    set (h1 := <[n2 := set_previous ci cn2]>
                 (delete n (<[ci := set_next n2 c]> (heap st)))).
    set (st1 := mk_ci_state h1 (L_ci st) (L_nci st - 1)).
    assert (Hch1 : chain (heap st1) n2 ci (n2 :: rest)).
    { cbn [heap st1]. split; [reflexivity|]. split; [exact Hn2n|].
      split; [exact Hn2ni|]. exists (set_previous ci cn2).
      split; [apply lookup_insert_eq|]. split; [reflexivity|].
      cbn [next set_previous]. eapply chain_frame; [exact Hrest3|].
      intros a Ha. unfold h1.
      rewrite lookup_insert_ne, lookup_delete_ne, lookup_insert_ne;
        [reflexivity| | |]; intros ->.
      - apply Hni. right; right; exact Ha.
      - apply Hnni. right; exact Ha.
      - apply Hn2ni. exact Ha. }
    destruct (IH fuel st1 n2 ci Hch1) as (st' & Hrun & Hch & Hcnt & Hci & Hout & Hfree).
    { cbn [length] in Hf. lia. }
    { cbn [L_nci st1]. lia. }
    exists st'. split; [exact Hrun|].
    assert (Hci' : heap st' !! ci = Some (set_next n2 c)).
    { rewrite Hout.
      - cbn [heap st1]. unfold h1.
        rewrite lookup_insert_ne, lookup_delete_ne by congruence.
        apply lookup_insert_eq.
      - intros Hin. apply Hni. right. exact Hin. }
    split.
    { change (alternate (ci :: n :: n2 :: rest))
        with (ci :: alternate (n2 :: rest)).
      split; [reflexivity|]. split; [exact Hn|]. split.
      - intros Hin. apply alternate_subset in Hin. apply Hni. right. exact Hin.
      - exists (set_next n2 c). split; [exact Hci'|]. split; [exact Hp|].
        exact Hch. }
    split.
    { rewrite Hcnt. cbn [L_nci st1]. cbn [length].
      rewrite !Nat2Z.inj_succ. Z.div_mod_to_equations. lia. }
    split; [rewrite Hci; reflexivity|]. split.
    { intros a Ha. rewrite Hout.
      - cbn [heap st1]. unfold h1.
        rewrite lookup_insert_ne, lookup_delete_ne, lookup_insert_ne;
          [reflexivity| | |]; intros ->; apply Ha.
        + left.
        + right; left.
        + right; right; left.
      - intros Hin. apply Ha. right; right. exact Hin. }
    intros a Ha Hna.
    change (alternate (ci :: n :: n2 :: rest))
      with (ci :: alternate (n2 :: rest)) in Hna.
    apply elem_of_cons in Ha. destruct Ha as [->|Ha];
      [exfalso; apply Hna; left|].
    apply elem_of_cons in Ha. destruct Ha as [->|Ha].
    + rewrite Hout.
      * cbn [heap st1]. unfold h1. rewrite lookup_insert_ne by congruence.
        apply lookup_delete_eq.
      * exact Hnni.
    + apply Hfree; [exact Ha|]. intros Hin. apply Hna. right. exact Hin.
Qed.

(** X28. luaE_shrinkCI frees half of the CallInfo objects that follow the
    current one: when those form a doubly linked list [l] (and [L->nci]
    does not underflow), it leaves the first, third, fifth, ... of them,
    linked to one another and to the current one in both directions,
    frees the others, takes their number (half the length of [l], rounded
    down) off [L->nci], and touches no object outside [l]. *)
Theorem luaE_shrinkCI_halves (st : ci_state) (prev : Z) (l : list Z)
  (Hlist : chain (heap st) (L_ci st) prev (L_ci st :: l))
  (Hnci : INT_MIN <= L_nci st - Z.of_nat (length l)) :
  exists st', luaE_shrinkCI st = Some st' /\
    chain (heap st') (L_ci st) prev (L_ci st :: alternate l) /\
    L_ci st' = L_ci st /\
    L_nci st' = L_nci st - Z.of_nat (length l) / 2 /\
    (forall a, a ∈ l -> a ∉ alternate l -> heap st' !! a = None) /\
    (forall a, a ∉ l -> heap st' !! a = heap st !! a).
Proof.
  pose proof (chain_length _ _ _ _ Hlist) as Hlen. cbn [length] in Hlen.
  destruct Hlist as (_ & Hn & Hni & c & Hc & Hp & Hrest).
  unfold luaE_shrinkCI. rewrite Hc.
  destruct l as [|a l].
  - cbn in Hrest. rewrite Hrest. cbn. exists st.
    split; [reflexivity|]. split.
    { repeat split; try assumption. exists c. now rewrite Hrest. }
    split; [reflexivity|].
    split; [cbn [length]; change (Z.of_nat 0 / 2) with 0; lia|].
    split; [|reflexivity].
    intros a Ha. inversion Ha.
  - pose proof Hrest as (E & Han & _).
    rewrite E. rewrite (proj2 (Z.eqb_neq a NULL) Han).
    rewrite E in Hrest.
    destruct (shrinkCI_loop_spec l (S (base.size (heap st))) st a (L_ci st) Hrest)
      as (st' & Hrun & Hch & Hcnt & Hci & Hout & Hfree).
    { cbn [length] in Hlen. lia. }
    { cbn [length] in Hnci. lia. }
    exists st'. split; [exact Hrun|]. split.
    { split; [reflexivity|]. split; [exact Hn|]. split.
      - intros Hin. apply alternate_subset in Hin. contradiction.
      - exists c. split; [rewrite Hout by exact Hni; exact Hc|].
        split; [exact Hp|]. rewrite E. exact Hch. }
    split; [exact Hci|]. split; [exact Hcnt|]. split; assumption.
Qed.

Lemma freeCI_loop_spec : forall l fuel st p prev,
  chain (heap st) p prev l ->
  (length l < fuel)%nat ->
  INT_MIN <= L_nci st - Z.of_nat (length l) ->
  exists st', freeCI_loop fuel st p = Some st' /\
    L_ci st' = L_ci st /\
    L_nci st' = L_nci st - Z.of_nat (length l) /\
    (forall a, a ∈ l -> heap st' !! a = None) /\
    (forall a, a ∉ l -> heap st' !! a = heap st !! a).
Proof.
  induction l as [|b l IH]; intros fuel st p prev Hc Hf Hnci;
    (destruct fuel as [|fuel]; [cbn in Hf; lia|]).
  - cbn in Hc. subst p. exists st. cbn. split; [reflexivity|].
    split; [reflexivity|]. split; [lia|]. split; [|reflexivity].
    intros a Ha. inversion Ha.
  - destruct Hc as (-> & Hn & Hni & c & Hc & Hp & Hrest).
    cbn [freeCI_loop]. rewrite (proj2 (Z.eqb_neq b NULL) Hn), Hc.
    unfold int_decr. cbn [length] in Hnci, Hf.
    rewrite (proj2 (Z.leb_le _ _)) by lia.
    set (st1 := mk_ci_state (delete b (heap st)) (L_ci st) (L_nci st - 1)).
    destruct (IH fuel st1 (next c) b) as (st' & Hrun & Hci & Hcnt & Hfree & Hout).
    { cbn [heap st1]. eapply chain_frame; [exact Hrest|].
      intros a Ha. apply lookup_delete_ne. intros ->. contradiction. }
    { lia. }
    { cbn [L_nci st1]. lia. }
    exists st'. split; [exact Hrun|]. split; [exact Hci|]. split.
    { rewrite Hcnt. cbn [L_nci st1 length]. lia. }
    split.
    + intros a Ha. apply elem_of_cons in Ha. destruct Ha as [->|Ha].
      * rewrite Hout by exact Hni. apply lookup_delete_eq.
      * apply Hfree, Ha.
    + intros a Ha. rewrite Hout.
      * apply lookup_delete_ne. intros ->. apply Ha. left.
      * intros Hin. apply Ha. right. exact Hin.
Qed.

Lemma freeCI_spec (st : ci_state) (prev : Z) (l : list Z) (c : CallInfo) :
  heap st !! L_ci st = Some c ->
  chain (heap st) (L_ci st) prev (L_ci st :: l) ->
  INT_MIN <= L_nci st - Z.of_nat (length l) ->
  exists st', freeCI st = Some st' /\
    heap st' !! L_ci st = Some (set_next NULL c) /\
    L_ci st' = L_ci st /\
    L_nci st' = L_nci st - Z.of_nat (length l) /\
    (forall a, a ∈ l -> heap st' !! a = None) /\
    (forall a, a ∉ L_ci st :: l -> heap st' !! a = heap st !! a).
Proof.
  intros Hc Hlist Hnci.
  pose proof (chain_length _ _ _ _ Hlist) as Hlen. cbn [length] in Hlen.
  destruct Hlist as (_ & Hn & Hni & c' & Hc' & Hp & Hrest).
  assert (c' = c) by congruence. subst c'.
  unfold freeCI. rewrite Hc.
  set (st1 := mk_ci_state _ _ _).
  destruct (freeCI_loop_spec l (S (base.size (heap st))) st1 (next c) (L_ci st))
    as (st' & Hrun & Hci & Hcnt & Hfree & Hout).
  { cbn [heap st1]. eapply chain_frame; [exact Hrest|].
    intros a Ha. apply lookup_insert_ne. intros <-. contradiction. }
  { lia. }
  { cbn [L_nci st1]. exact Hnci. }
  exists st'. split; [exact Hrun|]. split.
  { rewrite Hout by exact Hni. cbn [heap st1]. apply lookup_insert_eq. }
  split; [exact Hci|]. split; [exact Hcnt|]. split; [exact Hfree|].
  intros a Ha. rewrite Hout.
  - cbn [heap st1]. apply lookup_insert_ne. intros <-. apply Ha. left.
  - intros Hin. apply Ha. right. exact Hin.
Qed.

(** X29. freeCI frees every CallInfo that follows the current one: when those
    form a doubly linked list [l], it leaves the current one last in the
    list ([next] is NULL), frees all of [l], takes their number off
    [L->nci], and touches no other object. *)
Theorem freeCI_frees_all (st : ci_state) (prev : Z) (l : list Z)
  (Hlist : chain (heap st) (L_ci st) prev (L_ci st :: l))
  (Hnci : INT_MIN <= L_nci st - Z.of_nat (length l)) :
  exists st', freeCI st = Some st' /\
    chain (heap st') (L_ci st) prev [L_ci st] /\
    L_ci st' = L_ci st /\
    L_nci st' = L_nci st - Z.of_nat (length l) /\
    (forall a, a ∈ l -> heap st' !! a = None) /\
    (forall a, a ∉ L_ci st :: l -> heap st' !! a = heap st !! a).
Proof.
  pose proof Hlist as (_ & Hn & Hni & c & Hc & Hp & Hrest).
  destruct (freeCI_spec st prev l c Hc Hlist Hnci)
    as (st' & Hrun & Hcur & Hci & Hcnt & Hfree & Hout).
  exists st'. split; [exact Hrun|]. split.
  { split; [reflexivity|]. split; [exact Hn|]. split; [inversion 1|].
    exists (set_next NULL c). split; [exact Hcur|].
    split; [exact Hp | reflexivity]. }
  repeat split; assumption.
Qed.

(** X30. luaE_extendCI appends one CallInfo and freeCI undoes it: with the
    current CallInfo last in the list, luaE_extendCI links the new object
    after it in both directions, returns it and counts it in [L->nci];
    freeCI then gives back exactly the state before the extension. *)
Theorem luaE_extendCI_freeCI (st : ci_state) (prev a : Z)
  (Hlist : chain (heap st) (L_ci st) prev [L_ci st])
  (Hfresh : heap st !! a = None) (Ha : a <> NULL)
  (Hnci : INT_MIN <= L_nci st < INT_MAX) :
  exists st1, luaE_extendCI st a = Some (st1, a) /\
    chain (heap st1) (L_ci st) prev [L_ci st; a] /\
    L_nci st1 = L_nci st + 1 /\
    freeCI st1 = Some st.
Proof.
  pose proof Hlist as (_ & Hn & Hni & c & Hc & Hp & Hrest). cbn in Hrest.
  assert (Hne : L_ci st <> a) by (intros E; rewrite E in Hc; congruence).
  unfold luaE_extendCI. rewrite Hc, Hrest. cbn [Z.eqb NULL negb].
  unfold int_incr. rewrite (proj2 (Z.leb_le _ _)) by lia.
  eexists. split; [reflexivity|].
  set (st1 := mk_ci_state _ _ _).
  assert (Hc1 : heap st1 !! L_ci st = Some (set_next a c)).
  { cbn [heap st1]. rewrite lookup_insert_ne by congruence.
    apply lookup_insert_eq. }
  assert (Hch : chain (heap st1) (L_ci st) prev [L_ci st; a]).
  { split; [reflexivity|]. split; [exact Hn|]. split.
    { intros Hin. apply elem_of_cons in Hin.
      destruct Hin as [E|Hin]; [congruence | inversion Hin]. }
    exists (set_next a c). split; [exact Hc1|]. split; [exact Hp|].
    cbn [next set_next]. split; [reflexivity|]. split; [exact Ha|].
    split; [inversion 1|]. eexists. split.
    { cbn [heap st1]. apply lookup_insert_eq. }
    split; reflexivity. }
  split; [exact Hch|]. split; [reflexivity|].
  destruct (freeCI_spec st1 prev [a] (set_next a c) Hc1 Hch)
    as (st' & Hrun & Hcur & Hci & Hcnt & Hfree & Hout).
  { cbn [L_nci st1 length]. lia. }
  rewrite Hrun. f_equal.
  change (L_ci st1) with (L_ci st) in Hcur, Hci, Hout.
  change (L_nci st1) with (L_nci st + 1) in Hcnt.
  change (heap st1) with (<[a := mkCallInfo 0 0 (L_ci st) NULL 0]>
                            (<[L_ci st := set_next a c]> (heap st))) in Hout.
  clearbody st1.
  destruct st as [h ci n], st' as [h' ci' n']. cbn [heap L_ci L_nci] in *.
  f_equal.
  - apply map_eq. intros i.
    destruct (decide (i = ci)) as [->|Hi].
    + rewrite Hcur, Hc. f_equal. destruct c; cbn in *. now subst.
    + destruct (decide (i = a)) as [->|Hia].
      * rewrite Hfree by left. now rewrite Hfresh.
      * rewrite Hout.
        -- now rewrite !lookup_insert_ne by congruence.
        -- intros Hin. apply elem_of_cons in Hin.
           destruct Hin as [E|Hin]; [congruence|].
           apply elem_of_cons in Hin.
           destruct Hin as [E|Hin]; [congruence | inversion Hin].
  - exact Hci.
  - rewrite Hcnt. cbn [length]. lia.
Qed.

Ltac solve_chain :=
  repeat (split; [reflexivity|]; split; [discriminate|];
          split; [intros Hin; repeat (apply elem_of_cons in Hin;
                    destruct Hin as [Hin|Hin]; [discriminate Hin|]);
                  inversion Hin|];
          eexists; split; [reflexivity|]; split; [reflexivity|]);
  reflexivity.

Lemma sample_cis_chain : chain (heap sample_cis) 8 0 [8; 16; 24; 32].
Proof. solve_chain. Qed.

Lemma luaE_shrinkCI_halves_witness :
  exists st', luaE_shrinkCI sample_cis = Some st' /\
    chain (heap st') (L_ci sample_cis) 0 (L_ci sample_cis :: alternate [16; 24; 32]) /\
    L_ci st' = L_ci sample_cis /\
    L_nci st' = L_nci sample_cis - Z.of_nat (length [16; 24; 32]) / 2 /\
    (forall a, a ∈ [16; 24; 32] -> a ∉ alternate [16; 24; 32] -> heap st' !! a = None) /\
    (forall a, a ∉ [16; 24; 32] -> heap st' !! a = heap sample_cis !! a).
Proof.
  apply (luaE_shrinkCI_halves sample_cis 0 [16; 24; 32]).
  - exact sample_cis_chain.
  - vm_compute. discriminate.
Defined.

Lemma freeCI_frees_all_witness :
  exists st', freeCI sample_cis = Some st' /\
    chain (heap st') (L_ci sample_cis) 0 [L_ci sample_cis] /\
    L_ci st' = L_ci sample_cis /\
    L_nci st' = L_nci sample_cis - Z.of_nat (length [16; 24; 32]) /\
    (forall a, a ∈ [16; 24; 32] -> heap st' !! a = None) /\
    (forall a, a ∉ L_ci sample_cis :: [16; 24; 32] -> heap st' !! a = heap sample_cis !! a).
Proof.
  apply (freeCI_frees_all sample_cis 0 [16; 24; 32]).
  - exact sample_cis_chain.
  - vm_compute. discriminate.
Defined.

Lemma luaE_extendCI_freeCI_witness :
  exists st1, luaE_extendCI sample_base 16 = Some (st1, 16) /\
    chain (heap st1) (L_ci sample_base) 0 [L_ci sample_base; 16] /\
    L_nci st1 = L_nci sample_base + 1 /\
    freeCI st1 = Some sample_base.
Proof.
  apply (luaE_extendCI_freeCI sample_base 0 16).
  - solve_chain.
  - reflexivity.
  - discriminate.
  - vm_compute. split; [discriminate | reflexivity].
Defined.

End CallInfoProofs.

(** ** A number printed and read back *)

Section ReadBack.

Context {C : LibC} {F : LibFmt}.

Local Abbreviation str := string_of_list_ascii.
Local Abbreviation chars := list_ascii_of_string.
Local Abbreviation intchar :=
  (fun c : ascii => bool_decide (code c ∈ integer_chars) = true).












End ReadBack.



(** The strings that snprintf writes for the infinities and for NaN are
    no numerals: [luaO_str2num] converts none of them, whatever strtod
    would make of them. *)
Lemma inf_nan_not_numerals (C : LibC) (o : TValue) :
  luaO_str2num "inf" o = (0, o) /\ luaO_str2num "-inf" o = (0, o) /\
  luaO_str2num "nan" o = (0, o) /\ luaO_str2num "-nan" o = (0, o).
Proof. repeat split; reflexivity. Qed.

(** The float 1 is printed with the decimal point and a zero that the C
    library does not write, and read back as a float. *)
Example tostring_float_one :
  @luaO_tostringbuff sample_libc sample_fmt (mkTValue (V_n float_1) LUA_VNUMFLT)
    = Some "1.0"%string /\
  @luaO_str2num sample_libc "1.0" (mkTValue (V_ub 0) LUA_VNIL)
    = (4, mkTValue (V_n float_1) LUA_VNUMFLT).
Proof. split; vm_compute; reflexivity. Qed.
